(** * A balanced routing table: stride nodes of the multibit trie

    Shallow embedding of [base_index.go] and [node.go].

    - Go [uint] is [N], [int] is [Z], [byte] is an [N] below 256.
    - A [*node[V]] is an address into a store of node records; the store
      only grows (Go is garbage collected), so it is a list and a fresh
      node is appended.
    - A run-time panic (index out of range, nil dereference, negative
      shift count) is the [Panic] outcome.  Loops and the recursion
      through the store carry an iteration bound; [OutOfFuel] is the
      outcome of a run that exhausts it. *)

From Stdlib Require Import ZArith NArith List Bool Lia Sorted.
From stdpp Require Import base list.
Import ListNotations.

Local Open Scope N_scope.

(** ** Outcomes *)

Inductive result (A : Type) : Type :=
| Ok (a : A)
| Panic
| OutOfFuel.
Arguments Ok {A} a.
Arguments Panic {A}.
Arguments OutOfFuel {A}.

Definition bind {A B} (r : result A) (k : A -> result B) : result B :=
  match r with
  | Ok a => k a
  | Panic => Panic
  | OutOfFuel => OutOfFuel
  end.

Notation "'do' p <- e ; k" := (bind e (fun p => k))
  (at level 10, p pattern, e at level 100, k at level 200,
   format "'[v' 'do'  p  <-  e ; '/' k ']'").

(** Outcome of a block that may [return] from the enclosing function. *)
Inductive ctl (R S : Type) : Type :=
| Return (r : R)
| Continue (s : S).
Arguments Return {R S} r.
Arguments Continue {R S} s.

(** ** Slices *)

Module slices.

(** [s[i]] *)
Definition index {A} (s : list A) (i : Z) : result A :=
  if (i <? 0)%Z then Panic
  else match s !! Z.to_nat i with
       | Some a => Ok a
       | None => Panic
       end.

(** [s[i] = v] *)
Definition store {A} (s : list A) (i : Z) (v : A) : result (list A) :=
  if (i <? 0)%Z || (Z.of_nat (length s) <=? i)%Z then Panic
  else Ok (<[Z.to_nat i := v]> s).

(** [slices.Insert(s, i, v)]: panics when [i] is out of range. *)
Definition Insert {A} (s : list A) (i : Z) (v : A) : result (list A) :=
  if (i <? 0)%Z || (Z.of_nat (length s) <? i)%Z then Panic
  else Ok (take (Z.to_nat i) s ++ v :: drop (Z.to_nat i) s).

(** [slices.Delete(s, i, j)]: panics unless [0 <= i <= j <= len(s)]. *)
Definition Delete {A} (s : list A) (i j : Z) : result (list A) :=
  if (i <? 0)%Z || (j <? i)%Z || (Z.of_nat (length s) <? j)%Z then Panic
  else Ok (take (Z.to_nat i) s ++ drop (Z.to_nat j) s).

End slices.

(** ** The bit set *)

Module bitset.

(** Modelled from the spec: the bit-set collaborator
    (github.com/bits-and-blooms/bitset), which is not part of the
    sources.  A set of small non-negative integers with [Test], [Set],
    [Clear], [Rank] (number of set bits with index <= i), [NextSet]
    (smallest set index >= from) and [Count].  The set is the binary
    numeral whose bit [i] is the membership of [i]; the capacity of the
    backing storage is not represented, so [Compact] is the identity. *)
Definition BitSet := N.

Definition New : BitSet := 0.

Definition Test (b : BitSet) (i : N) : bool := N.testbit b i.

Definition Set_ (b : BitSet) (i : N) : BitSet := N.setbit b i.

Definition Clear (b : BitSet) (i : N) : BitSet := N.clearbit b i.

Definition Compact (b : BitSet) : BitSet := b.

Definition Clone (b : BitSet) : BitSet := b.

(** The indices [0 .. n-1] in ascending order. *)
Definition below (n : nat) : list N := map N.of_nat (seq 0 n).

(** The members among the indices below [n], ascending. *)
Definition members (b : BitSet) (n : nat) : list N :=
  List.filter (N.testbit b) (below n).

(** All members, ascending. *)
Definition elems (b : BitSet) : list N := members b (N.to_nat (N.size b)).

Definition Count (b : BitSet) : nat := length (elems b).

Definition Rank (b : BitSet) (i : N) : nat :=
  length (members b (S (N.to_nat i))).

(** Number of trailing zero bits. *)
Fixpoint ctz (p : positive) : N :=
  match p with
  | xO p' => N.succ (ctz p')
  | _ => 0
  end.

Definition NextSet (b : BitSet) (i : N) : N * bool :=
  match N.shiftr b i with
  | N0 => (0, false)
  | Npos p => (i + ctz p, true)
  end.

End bitset.

(** ** base_index.go *)

Definition strideLen : Z := 8.
Definition maxNodeChildren : N := 256.
Definition maxNodePrefixes : N := 512.

(** [byte(x)] *)
Definition byte (x : N) : N := x mod 256.

Definition hostMasks : list N :=
  [ 255  (* bits == 0 *)
  ; 127  (* bits == 1 *)
  ; 63   (* bits == 2 *)
  ; 31   (* bits == 3 *)
  ; 15   (* bits == 4 *)
  ; 7    (* bits == 5 *)
  ; 3    (* bits == 6 *)
  ; 1    (* bits == 7 *)
  ; 0    (* bits == 8 *)
  ].

(** baseIndex of the first host route: prefixToBaseIndex(0,8) *)
Definition firstHostIndex : N := 256.

(** baseIndex of the last host route: prefixToBaseIndex(255,8) *)
Definition lastHostIndex : N := 511.

(** [uint(octet>>(strideLen-prefixLen)) + (1 << prefixLen)]; a negative
    shift count panics. *)
Definition prefixToBaseIndex (octet : N) (prefixLen : Z) : result N :=
  if (strideLen - prefixLen <? 0)%Z || (prefixLen <? 0)%Z then Panic
  else Ok (N.shiftr octet (Z.to_N (strideLen - prefixLen))
           + N.shiftl 1 (Z.to_N prefixLen)).

Definition octetToBaseIndex (octet : N) : N := octet + firstHostIndex.

(** octet and CIDR bits of baseIdx as lookup table *)
Record pfxEntry := pfx { octet : N; bits : Z }.

Definition baseIdx2Pfx : list pfxEntry := [
  pfx 0 (-1); pfx 0 0; pfx 0 1; pfx 128 1; pfx 0 2; pfx 64 2; pfx 128 2; pfx 192 2;   (* idx == 0 .. 7 *)
  pfx 0 3; pfx 32 3; pfx 64 3; pfx 96 3; pfx 128 3; pfx 160 3; pfx 192 3; pfx 224 3;   (* idx == 8 .. 15 *)
  pfx 0 4; pfx 16 4; pfx 32 4; pfx 48 4; pfx 64 4; pfx 80 4; pfx 96 4; pfx 112 4;   (* idx == 16 .. 23 *)
  pfx 128 4; pfx 144 4; pfx 160 4; pfx 176 4; pfx 192 4; pfx 208 4; pfx 224 4; pfx 240 4;   (* idx == 24 .. 31 *)
  pfx 0 5; pfx 8 5; pfx 16 5; pfx 24 5; pfx 32 5; pfx 40 5; pfx 48 5; pfx 56 5;   (* idx == 32 .. 39 *)
  pfx 64 5; pfx 72 5; pfx 80 5; pfx 88 5; pfx 96 5; pfx 104 5; pfx 112 5; pfx 120 5;   (* idx == 40 .. 47 *)
  pfx 128 5; pfx 136 5; pfx 144 5; pfx 152 5; pfx 160 5; pfx 168 5; pfx 176 5; pfx 184 5;   (* idx == 48 .. 55 *)
  pfx 192 5; pfx 200 5; pfx 208 5; pfx 216 5; pfx 224 5; pfx 232 5; pfx 240 5; pfx 248 5;   (* idx == 56 .. 63 *)
  pfx 0 6; pfx 4 6; pfx 8 6; pfx 12 6; pfx 16 6; pfx 20 6; pfx 24 6; pfx 28 6;   (* idx == 64 .. 71 *)
  pfx 32 6; pfx 36 6; pfx 40 6; pfx 44 6; pfx 48 6; pfx 52 6; pfx 56 6; pfx 60 6;   (* idx == 72 .. 79 *)
  pfx 64 6; pfx 68 6; pfx 72 6; pfx 76 6; pfx 80 6; pfx 84 6; pfx 88 6; pfx 92 6;   (* idx == 80 .. 87 *)
  pfx 96 6; pfx 100 6; pfx 104 6; pfx 108 6; pfx 112 6; pfx 116 6; pfx 120 6; pfx 124 6;   (* idx == 88 .. 95 *)
  pfx 128 6; pfx 132 6; pfx 136 6; pfx 140 6; pfx 144 6; pfx 148 6; pfx 152 6; pfx 156 6;   (* idx == 96 .. 103 *)
  pfx 160 6; pfx 164 6; pfx 168 6; pfx 172 6; pfx 176 6; pfx 180 6; pfx 184 6; pfx 188 6;   (* idx == 104 .. 111 *)
  pfx 192 6; pfx 196 6; pfx 200 6; pfx 204 6; pfx 208 6; pfx 212 6; pfx 216 6; pfx 220 6;   (* idx == 112 .. 119 *)
  pfx 224 6; pfx 228 6; pfx 232 6; pfx 236 6; pfx 240 6; pfx 244 6; pfx 248 6; pfx 252 6;   (* idx == 120 .. 127 *)
  pfx 0 7; pfx 2 7; pfx 4 7; pfx 6 7; pfx 8 7; pfx 10 7; pfx 12 7; pfx 14 7;   (* idx == 128 .. 135 *)
  pfx 16 7; pfx 18 7; pfx 20 7; pfx 22 7; pfx 24 7; pfx 26 7; pfx 28 7; pfx 30 7;   (* idx == 136 .. 143 *)
  pfx 32 7; pfx 34 7; pfx 36 7; pfx 38 7; pfx 40 7; pfx 42 7; pfx 44 7; pfx 46 7;   (* idx == 144 .. 151 *)
  pfx 48 7; pfx 50 7; pfx 52 7; pfx 54 7; pfx 56 7; pfx 58 7; pfx 60 7; pfx 62 7;   (* idx == 152 .. 159 *)
  pfx 64 7; pfx 66 7; pfx 68 7; pfx 70 7; pfx 72 7; pfx 74 7; pfx 76 7; pfx 78 7;   (* idx == 160 .. 167 *)
  pfx 80 7; pfx 82 7; pfx 84 7; pfx 86 7; pfx 88 7; pfx 90 7; pfx 92 7; pfx 94 7;   (* idx == 168 .. 175 *)
  pfx 96 7; pfx 98 7; pfx 100 7; pfx 102 7; pfx 104 7; pfx 106 7; pfx 108 7; pfx 110 7;   (* idx == 176 .. 183 *)
  pfx 112 7; pfx 114 7; pfx 116 7; pfx 118 7; pfx 120 7; pfx 122 7; pfx 124 7; pfx 126 7;   (* idx == 184 .. 191 *)
  pfx 128 7; pfx 130 7; pfx 132 7; pfx 134 7; pfx 136 7; pfx 138 7; pfx 140 7; pfx 142 7;   (* idx == 192 .. 199 *)
  pfx 144 7; pfx 146 7; pfx 148 7; pfx 150 7; pfx 152 7; pfx 154 7; pfx 156 7; pfx 158 7;   (* idx == 200 .. 207 *)
  pfx 160 7; pfx 162 7; pfx 164 7; pfx 166 7; pfx 168 7; pfx 170 7; pfx 172 7; pfx 174 7;   (* idx == 208 .. 215 *)
  pfx 176 7; pfx 178 7; pfx 180 7; pfx 182 7; pfx 184 7; pfx 186 7; pfx 188 7; pfx 190 7;   (* idx == 216 .. 223 *)
  pfx 192 7; pfx 194 7; pfx 196 7; pfx 198 7; pfx 200 7; pfx 202 7; pfx 204 7; pfx 206 7;   (* idx == 224 .. 231 *)
  pfx 208 7; pfx 210 7; pfx 212 7; pfx 214 7; pfx 216 7; pfx 218 7; pfx 220 7; pfx 222 7;   (* idx == 232 .. 239 *)
  pfx 224 7; pfx 226 7; pfx 228 7; pfx 230 7; pfx 232 7; pfx 234 7; pfx 236 7; pfx 238 7;   (* idx == 240 .. 247 *)
  pfx 240 7; pfx 242 7; pfx 244 7; pfx 246 7; pfx 248 7; pfx 250 7; pfx 252 7; pfx 254 7;   (* idx == 248 .. 255 *)
  pfx 0 8; pfx 1 8; pfx 2 8; pfx 3 8; pfx 4 8; pfx 5 8; pfx 6 8; pfx 7 8;   (* idx == 256 .. 263 *)
  pfx 8 8; pfx 9 8; pfx 10 8; pfx 11 8; pfx 12 8; pfx 13 8; pfx 14 8; pfx 15 8;   (* idx == 264 .. 271 *)
  pfx 16 8; pfx 17 8; pfx 18 8; pfx 19 8; pfx 20 8; pfx 21 8; pfx 22 8; pfx 23 8;   (* idx == 272 .. 279 *)
  pfx 24 8; pfx 25 8; pfx 26 8; pfx 27 8; pfx 28 8; pfx 29 8; pfx 30 8; pfx 31 8;   (* idx == 280 .. 287 *)
  pfx 32 8; pfx 33 8; pfx 34 8; pfx 35 8; pfx 36 8; pfx 37 8; pfx 38 8; pfx 39 8;   (* idx == 288 .. 295 *)
  pfx 40 8; pfx 41 8; pfx 42 8; pfx 43 8; pfx 44 8; pfx 45 8; pfx 46 8; pfx 47 8;   (* idx == 296 .. 303 *)
  pfx 48 8; pfx 49 8; pfx 50 8; pfx 51 8; pfx 52 8; pfx 53 8; pfx 54 8; pfx 55 8;   (* idx == 304 .. 311 *)
  pfx 56 8; pfx 57 8; pfx 58 8; pfx 59 8; pfx 60 8; pfx 61 8; pfx 62 8; pfx 63 8;   (* idx == 312 .. 319 *)
  pfx 64 8; pfx 65 8; pfx 66 8; pfx 67 8; pfx 68 8; pfx 69 8; pfx 70 8; pfx 71 8;   (* idx == 320 .. 327 *)
  pfx 72 8; pfx 73 8; pfx 74 8; pfx 75 8; pfx 76 8; pfx 77 8; pfx 78 8; pfx 79 8;   (* idx == 328 .. 335 *)
  pfx 80 8; pfx 81 8; pfx 82 8; pfx 83 8; pfx 84 8; pfx 85 8; pfx 86 8; pfx 87 8;   (* idx == 336 .. 343 *)
  pfx 88 8; pfx 89 8; pfx 90 8; pfx 91 8; pfx 92 8; pfx 93 8; pfx 94 8; pfx 95 8;   (* idx == 344 .. 351 *)
  pfx 96 8; pfx 97 8; pfx 98 8; pfx 99 8; pfx 100 8; pfx 101 8; pfx 102 8; pfx 103 8;   (* idx == 352 .. 359 *)
  pfx 104 8; pfx 105 8; pfx 106 8; pfx 107 8; pfx 108 8; pfx 109 8; pfx 110 8; pfx 111 8;   (* idx == 360 .. 367 *)
  pfx 112 8; pfx 113 8; pfx 114 8; pfx 115 8; pfx 116 8; pfx 117 8; pfx 118 8; pfx 119 8;   (* idx == 368 .. 375 *)
  pfx 120 8; pfx 121 8; pfx 122 8; pfx 123 8; pfx 124 8; pfx 125 8; pfx 126 8; pfx 127 8;   (* idx == 376 .. 383 *)
  pfx 128 8; pfx 129 8; pfx 130 8; pfx 131 8; pfx 132 8; pfx 133 8; pfx 134 8; pfx 135 8;   (* idx == 384 .. 391 *)
  pfx 136 8; pfx 137 8; pfx 138 8; pfx 139 8; pfx 140 8; pfx 141 8; pfx 142 8; pfx 143 8;   (* idx == 392 .. 399 *)
  pfx 144 8; pfx 145 8; pfx 146 8; pfx 147 8; pfx 148 8; pfx 149 8; pfx 150 8; pfx 151 8;   (* idx == 400 .. 407 *)
  pfx 152 8; pfx 153 8; pfx 154 8; pfx 155 8; pfx 156 8; pfx 157 8; pfx 158 8; pfx 159 8;   (* idx == 408 .. 415 *)
  pfx 160 8; pfx 161 8; pfx 162 8; pfx 163 8; pfx 164 8; pfx 165 8; pfx 166 8; pfx 167 8;   (* idx == 416 .. 423 *)
  pfx 168 8; pfx 169 8; pfx 170 8; pfx 171 8; pfx 172 8; pfx 173 8; pfx 174 8; pfx 175 8;   (* idx == 424 .. 431 *)
  pfx 176 8; pfx 177 8; pfx 178 8; pfx 179 8; pfx 180 8; pfx 181 8; pfx 182 8; pfx 183 8;   (* idx == 432 .. 439 *)
  pfx 184 8; pfx 185 8; pfx 186 8; pfx 187 8; pfx 188 8; pfx 189 8; pfx 190 8; pfx 191 8;   (* idx == 440 .. 447 *)
  pfx 192 8; pfx 193 8; pfx 194 8; pfx 195 8; pfx 196 8; pfx 197 8; pfx 198 8; pfx 199 8;   (* idx == 448 .. 455 *)
  pfx 200 8; pfx 201 8; pfx 202 8; pfx 203 8; pfx 204 8; pfx 205 8; pfx 206 8; pfx 207 8;   (* idx == 456 .. 463 *)
  pfx 208 8; pfx 209 8; pfx 210 8; pfx 211 8; pfx 212 8; pfx 213 8; pfx 214 8; pfx 215 8;   (* idx == 464 .. 471 *)
  pfx 216 8; pfx 217 8; pfx 218 8; pfx 219 8; pfx 220 8; pfx 221 8; pfx 222 8; pfx 223 8;   (* idx == 472 .. 479 *)
  pfx 224 8; pfx 225 8; pfx 226 8; pfx 227 8; pfx 228 8; pfx 229 8; pfx 230 8; pfx 231 8;   (* idx == 480 .. 487 *)
  pfx 232 8; pfx 233 8; pfx 234 8; pfx 235 8; pfx 236 8; pfx 237 8; pfx 238 8; pfx 239 8;   (* idx == 488 .. 495 *)
  pfx 240 8; pfx 241 8; pfx 242 8; pfx 243 8; pfx 244 8; pfx 245 8; pfx 246 8; pfx 247 8;   (* idx == 496 .. 503 *)
  pfx 248 8; pfx 249 8; pfx 250 8; pfx 251 8; pfx 252 8; pfx 253 8; pfx 254 8; pfx 255 8   (* idx == 504 .. 511 *)
].

Definition baseIndexToPrefix (baseIdx : N) : result (N * Z) :=
  match baseIdx2Pfx !! N.to_nat baseIdx with
  | Some e => Ok (octet e, bits e)
  | None => Panic
  end.

Definition lowerUpperBound (idx : N) : result (N * N) :=
  do (octet, bits) <- baseIndexToPrefix idx;
  do mask <- slices.index hostMasks bits;
  Ok (octetToBaseIndex octet, octetToBaseIndex (N.lor octet mask)).

(** Go's [int] is taken as 64 bits wide ([strconv.IntSize] on the 64-bit
    platforms); its arithmetic wraps around in two's complement. *)
Definition intSize : Z := 64.

Definition wrapInt (x : Z) : Z :=
  ((x + 2 ^ (intSize - 1)) mod 2 ^ intSize - 2 ^ (intSize - 1))%Z.

(** [depth*strideLen + pfxLen] on [int]: both the product and the sum
    wrap. *)
Definition baseIndexToPrefixMask (baseIdx : N) (depth : Z) : result Z :=
  do (_, pfxLen) <- baseIndexToPrefix baseIdx;
  Ok (wrapInt (wrapInt (depth * strideLen) + pfxLen)).

(** Modelled from the spec: [lastHostIndexOfPrefix], called by
    [overlapsPrefix] and missing from the sources.  Section 3 gives the
    host range of a prefix (octet, len) as
    [base(octet, 8), base(octet | hostMask(len), 8)]. *)
Definition lastHostIndexOfPrefix (octet : N) (bits : Z) : result N :=
  do mask <- slices.index hostMasks bits;
  Ok (octetToBaseIndex (N.lor octet mask)).

(** ** node.go: one stride node *)

(** Address of a node record in the store. *)
Abbreviation loc := nat.

(** A [*node[V]]: [None] is [nil]. *)
Definition ptr := option loc.

Record node (V : Type) : Type := mkNode {
  prefixesBitset : bitset.BitSet;
  childrenBitset : bitset.BitSet;
  (* popcount compressed slices *)
  prefixes : list V;
  children : list ptr
}.
Arguments mkNode {V}.
Arguments prefixesBitset {V}.
Arguments childrenBitset {V}.
Arguments prefixes {V}.
Arguments children {V}.

Section Node.

Context {V : Type}.

(** The zero value of [V]. *)
Variable zero : V.

Definition set_prefixesBitset (n : node V) (b : bitset.BitSet) : node V :=
  mkNode b (childrenBitset n) (prefixes n) (children n).

Definition set_childrenBitset (n : node V) (b : bitset.BitSet) : node V :=
  mkNode (prefixesBitset n) b (prefixes n) (children n).

Definition set_prefixes (n : node V) (ps : list V) : node V :=
  mkNode (prefixesBitset n) (childrenBitset n) ps (children n).

Definition set_children (n : node V) (cs : list ptr) : node V :=
  mkNode (prefixesBitset n) (childrenBitset n) (prefixes n) cs.

Definition newNode : node V := mkNode bitset.New bitset.New [] [].

Definition isEmpty (n : node V) : bool :=
  (length (prefixes n) =? 0)%nat && (length (children n) =? 0)%nat.

(** *** prefixes *)

Definition prefixRank (n : node V) (baseIdx : N) : Z :=
  Z.of_nat (bitset.Rank (prefixesBitset n) baseIdx) - 1.

Definition insertIdx (n : node V) (baseIdx : N) (val : V) : result (node V) :=
  if bitset.Test (prefixesBitset n) baseIdx then
    (* prefix exists, overwrite val *)
    do ps <- slices.store (prefixes n) (prefixRank n baseIdx) val;
    Ok (set_prefixes n ps)
  else
    (* new, insert into bitset and slice *)
    let n := set_prefixesBitset n (bitset.Set_ (prefixesBitset n) baseIdx) in
    do ps <- slices.Insert (prefixes n) (prefixRank n baseIdx) val;
    Ok (set_prefixes n ps).

Definition insertPrefix (n : node V) (octet : N) (prefixLen : Z) (val : V)
  : result (node V) :=
  do baseIdx <- prefixToBaseIndex octet prefixLen;
  insertIdx n baseIdx val.

Definition deletePrefix (n : node V) (octet : N) (prefixLen : Z)
  : result (node V * bool) :=
  do baseIdx <- prefixToBaseIndex octet prefixLen;
  if negb (bitset.Test (prefixesBitset n) baseIdx) then
    (* no route entry *)
    Ok (n, false)
  else
    let rnk := prefixRank n baseIdx in
    do ps <- slices.Delete (prefixes n) rnk (rnk + 1);
    let n := set_prefixes n ps in
    let n := set_prefixesBitset n (bitset.Clear (prefixesBitset n) baseIdx) in
    let n := set_prefixesBitset n (bitset.Compact (prefixesBitset n)) in
    Ok (n, true).

Definition updatePrefix (n : node V) (octet : N) (prefixLen : Z)
    (cb : V -> bool -> V) : result (node V * V) :=
  do baseIdx <- prefixToBaseIndex octet prefixLen;
  let ok := bitset.Test (prefixesBitset n) baseIdx in
  (* if prefix is set, get current value *)
  do (rnk, val) <-
    (if ok then
       let rnk := prefixRank n baseIdx in
       do val <- slices.index (prefixes n) rnk;
       Ok (rnk, val)
     else Ok (0%Z, zero));
  let val := cb val ok in
  if ok then
    (* prefix is already set, update and return value *)
    do ps <- slices.store (prefixes n) rnk val;
    Ok (set_prefixes n ps, val)
  else
    let n := set_prefixesBitset n (bitset.Set_ (prefixesBitset n) baseIdx) in
    (* bitset has changed, recalc rank *)
    let rnk := prefixRank n baseIdx in
    do ps <- slices.Insert (prefixes n) rnk val;
    Ok (set_prefixes n ps, val).

(** The backtracking loop of [lpmByIndex]; every round shifts [idx]. *)
Fixpoint lpmByIndex_loop (fuel : nat) (n : node V) (idx : N)
  : result (N * V * bool) :=
  match fuel with
  | O => OutOfFuel
  | S fuel =>
      if bitset.Test (prefixesBitset n) idx then
        (* longest prefix match *)
        do val <- slices.index (prefixes n) (prefixRank n idx);
        Ok (idx, val, true)
      else if idx =? 0 then
        (* not found (on this level) *)
        Ok (0, zero, false)
      else lpmByIndex_loop fuel n (N.shiftr idx 1)
  end.

Definition lpmByIndex (n : node V) (idx : N) : result (N * V * bool) :=
  lpmByIndex_loop (S (N.to_nat (N.size idx))) n idx.

Definition lpmByOctet (n : node V) (octet : N) : result (N * V * bool) :=
  lpmByIndex n (octetToBaseIndex octet).

Definition lpmByPrefix (n : node V) (octet : N) (bits : Z)
  : result (N * V * bool) :=
  do idx <- prefixToBaseIndex octet bits;
  lpmByIndex n idx.

Definition getValByIndex (n : node V) (baseIdx : N) : result (V * bool) :=
  if bitset.Test (prefixesBitset n) baseIdx then
    do val <- slices.index (prefixes n) (prefixRank n baseIdx);
    Ok (val, true)
  else Ok (zero, false).

Definition getValByPrefix (n : node V) (octet : N) (bits : Z)
  : result (V * bool) :=
  do baseIdx <- prefixToBaseIndex octet bits;
  getValByIndex n baseIdx.

(** *** children *)

Definition childRank (n : node V) (octet : N) : Z :=
  Z.of_nat (bitset.Rank (childrenBitset n) octet) - 1.

Definition insertChild (n : node V) (octet : N) (child : ptr)
  : result (node V) :=
  if bitset.Test (childrenBitset n) octet then
    (* child exists, overwrite it *)
    do cs <- slices.store (children n) (childRank n octet) child;
    Ok (set_children n cs)
  else
    (* new insert into bitset and slice *)
    let n := set_childrenBitset n (bitset.Set_ (childrenBitset n) octet) in
    do cs <- slices.Insert (children n) (childRank n octet) child;
    Ok (set_children n cs).

Definition deleteChild (n : node V) (octet : N) : result (node V) :=
  if negb (bitset.Test (childrenBitset n) octet) then Ok n
  else
    let rnk := childRank n octet in
    do cs <- slices.Delete (children n) rnk (rnk + 1);
    let n := set_children n cs in
    let n := set_childrenBitset n (bitset.Clear (childrenBitset n) octet) in
    let n := set_childrenBitset n (bitset.Compact (childrenBitset n)) in
    Ok n.

Definition getChild (n : node V) (octet : N) : result ptr :=
  if negb (bitset.Test (childrenBitset n) octet) then Ok None
  else slices.index (children n) (childRank n octet).

(** *** overlapsPrefix *)

(** Step 2 of [overlapsPrefix]: the routes from [routeIdx] upwards;
    [Ok true] is the early [return true], [Ok false] the [break]. *)
Fixpoint overlapsPrefix_routes (fuel : nat) (n : node V)
    (routeIdx pfxLowerBound pfxUpperBound : N) : result bool :=
  match fuel with
  | O => OutOfFuel
  | S fuel =>
      let '(routeIdx, ok) := bitset.NextSet (prefixesBitset n) routeIdx in
      if negb ok then Ok false
      else
        do (routeLowerBound, routeUpperBound) <- lowerUpperBound routeIdx;
        if (pfxLowerBound <=? routeLowerBound)
           && (routeUpperBound <=? pfxUpperBound)
        then Ok true
        else
          (* next route *)
          overlapsPrefix_routes fuel n (routeIdx + 1)
            pfxLowerBound pfxUpperBound
  end.

(** Step 3 of [overlapsPrefix]: the children from [childOctet] upwards. *)
Fixpoint overlapsPrefix_children (fuel : nat) (n : node V)
    (childOctet pfxLowerBound pfxUpperBound : N) : result bool :=
  match fuel with
  | O => OutOfFuel
  | S fuel =>
      let '(childOctet, ok) := bitset.NextSet (childrenBitset n) childOctet in
      if negb ok then Ok false
      else
        let childIdx := childOctet + firstHostIndex in
        if (pfxLowerBound <=? childIdx) && (childIdx <=? pfxUpperBound)
        then Ok true
        else
          (* next round *)
          overlapsPrefix_children fuel n (childOctet + 1)
            pfxLowerBound pfxUpperBound
  end.

Definition overlapsPrefix (n : node V) (octet : N) (pfxLen : Z)
  : result bool :=
  (* 1. test if any route in this node overlaps prefix? *)
  do pfxIdx <- prefixToBaseIndex octet pfxLen;
  do (_, ok) <- lpmByIndex n pfxIdx;
  if ok then Ok true
  else
    (* 2. test if prefix overlaps any route in this node *)
    let pfxLowerBound := octet + firstHostIndex in
    do pfxUpperBound <- lastHostIndexOfPrefix octet pfxLen;
    let routeIdx := N.shiftl pfxIdx 1 in
    do found <-
      overlapsPrefix_routes (S (N.to_nat (N.size (prefixesBitset n)))) n
        routeIdx pfxLowerBound pfxUpperBound;
    if found then Ok true
    else
      (* 3. test if prefix overlaps any child in this node *)
      overlapsPrefix_children (S (N.to_nat (N.size (childrenBitset n)))) n
        octet pfxLowerBound pfxUpperBound.

(** *** overlapsRec, one pair of nodes *)

(** The indices [lo .. hi], ascending. *)
Definition range (lo hi : N) : list N :=
  map (N.add lo) (bitset.below (N.to_nat (hi + 1 - lo))).

(** [for i := lowerBound; i <= upperBound; i++] of the zig-zag: return on
    a hit in the other table, else mark the own table. *)
Fixpoint allotRange (other mine : list bool) (idxs : list N)
  : result (ctl bool (list bool)) :=
  match idxs with
  | [] => Ok (Continue mine)
  | i :: idxs =>
      do hit <- slices.index other (Z.of_N i);
      if hit then Ok (Return true)
      else
        do mine <- slices.store mine (Z.of_N i) true;
        allotRange other mine idxs
  end.

(** One turn of the routes zig-zag for the node owning [b]. *)
Definition routesTurn (b : bitset.BitSet) (idx : N) (ok : bool)
    (mine other : list bool) : result (ctl bool (N * bool * list bool)) :=
  if ok then
    let '(idx, ok) := bitset.NextSet b idx in
    if ok then
      (* get range of host routes for this prefix *)
      do (lowerBound, upperBound) <- lowerUpperBound idx;
      do r <- allotRange other mine (range lowerBound upperBound);
      match r with
      | Return r => Ok (Return r)
      | Continue mine => Ok (Continue (idx + 1, ok, mine))
      end
    else Ok (Continue (idx, ok, mine))
  else Ok (Continue (idx, ok, mine)).

(** 1. test if any routes overlaps? *)
Fixpoint overlapsRoutes (fuel : nat) (n o : node V)
    (nIdx : N) (nOk : bool) (oIdx : N) (oOk : bool)
    (nAllotIndex oAllotIndex : list bool)
  : result (ctl bool (list bool * list bool)) :=
  match fuel with
  | O => OutOfFuel
  | S fuel =>
      do r <- routesTurn (prefixesBitset n) nIdx nOk nAllotIndex oAllotIndex;
      match r with
      | Return r => Ok (Return r)
      | Continue (nIdx, nOk, nAllotIndex) =>
          do r <- routesTurn (prefixesBitset o) oIdx oOk
                    oAllotIndex nAllotIndex;
          match r with
          | Return r => Ok (Return r)
          | Continue (oIdx, oOk, oAllotIndex) =>
              if negb nOk && negb oOk
              then Ok (Continue (nAllotIndex, oAllotIndex))
              else overlapsRoutes fuel n o nIdx nOk oIdx oOk
                     nAllotIndex oAllotIndex
          end
      end
  end.

(** full run, zig-zag didn't already match *)
Fixpoint fullRun (nAllotIndex oAllotIndex : list bool) (idxs : list N)
  : result bool :=
  match idxs with
  | [] => Ok false
  | i :: idxs =>
      do a <- slices.index nAllotIndex (Z.of_N i);
      do b <- (if a then slices.index oAllotIndex (Z.of_N i) else Ok false);
      if a && b then Ok true else fullRun nAllotIndex oAllotIndex idxs
  end.

(** One turn of the children zig-zag for the node owning [b]. *)
Definition childrenTurn (b : bitset.BitSet) (octet : N) (ok : bool)
    (mine otherAllotIndex : list bool)
  : result (ctl bool (N * bool * list bool)) :=
  if ok then
    let '(octet, ok) := bitset.NextSet b octet in
    if ok then
      do hit <- slices.index otherAllotIndex (Z.of_N (octet + firstHostIndex));
      if hit then Ok (Return true)
      else
        do mine <- slices.store mine (Z.of_N octet) true;
        Ok (Continue (octet + 1, ok, mine))
    else Ok (Continue (octet, ok, mine))
  else Ok (Continue (octet, ok, mine)).

(** 2. test if routes overlaps any child *)
Fixpoint overlapsChildren (fuel : nat) (n o : node V)
    (nOctet : N) (nOk : bool) (oOctet : N) (oOk : bool)
    (nAllotIndex oAllotIndex nOctets oOctets : list bool)
  : result (ctl bool (list bool * list bool)) :=
  match fuel with
  | O => OutOfFuel
  | S fuel =>
      do r <- childrenTurn (childrenBitset n) nOctet nOk nOctets oAllotIndex;
      match r with
      | Return r => Ok (Return r)
      | Continue (nOctet, nOk, nOctets) =>
          do r <- childrenTurn (childrenBitset o) oOctet oOk
                    oOctets nAllotIndex;
          match r with
          | Return r => Ok (Return r)
          | Continue (oOctet, oOk, oOctets) =>
              if negb nOk && negb oOk
              then Ok (Continue (nOctets, oOctets))
              else overlapsChildren fuel n o nOctet nOk oOctet oOk
                     nAllotIndex oAllotIndex nOctets oOctets
          end
      end
  end.

(** *** The store *)

Local Abbreviation heap := (list (node V)).

(** [*p]: dereferencing [nil] panics. *)
Definition deref (h : heap) (p : ptr) : result (node V) :=
  match p with
  | None => Panic
  | Some l =>
      match h !! l with
      | Some n => Ok n
      | None => Panic
      end
  end.

(** [&node[V]{...}] *)
Definition alloc (h : heap) (n : node V) : heap * loc :=
  (h ++ [n], length h).

(** A method with pointer receiver [p] that mutates the receiver. *)
Definition update (h : heap) (p : ptr) (f : node V -> result (node V))
  : result heap :=
  match p with
  | None => Panic
  | Some l =>
      do n <- deref h p;
      do n <- f n;
      Ok (<[l := n]> h)
  end.

(** 3. rec-descent call for childs with same octet *)
Fixpoint overlapsSameOctet (rec : ptr -> ptr -> result bool)
    (n o : node V) (nOctets oOctets : list bool) (idxs : list N)
  : result bool :=
  match idxs with
  | [] => Ok false
  | i :: idxs =>
      do a <- slices.index nOctets (Z.of_N i);
      do b <- (if a then slices.index oOctets (Z.of_N i) else Ok false);
      if a && b then
        (* get next child node for this octet *)
        do nc <- getChild n (byte i);
        do oc <- getChild o (byte i);
        (* rec-descent *)
        do r <- rec nc oc;
        if r then Ok true
        else overlapsSameOctet rec n o nOctets oOctets idxs
      else overlapsSameOctet rec n o nOctets oOctets idxs
  end.

(** [fuel] bounds the depth of the descent. *)
Fixpoint overlapsRec (fuel : nat) (h : heap) (n o : ptr) : result bool :=
  match fuel with
  | O => OutOfFuel
  | S fuel =>
      do n <- deref h n;
      do o <- deref h o;
      (* dynamically allot the host routes from prefixes *)
      let nAllotIndex := replicate (N.to_nat maxNodePrefixes) false in
      let oAllotIndex := replicate (N.to_nat maxNodePrefixes) false in
      let nOk := (0 <? length (prefixes n))%nat in
      let oOk := (0 <? length (prefixes o))%nat in
      do r <- overlapsRoutes
                (S (N.to_nat (N.size (prefixesBitset n))
                    + N.to_nat (N.size (prefixesBitset o))))
                n o 0 nOk 0 oOk nAllotIndex oAllotIndex;
      match r with
      | Return r => Ok r
      | Continue (nAllotIndex, oAllotIndex) =>
          do hit <-
            (if (0 <? length (prefixes n))%nat && (0 <? length (prefixes o))%nat
             then fullRun nAllotIndex oAllotIndex
                    (range firstHostIndex lastHostIndex)
             else Ok false);
          if hit then Ok true
          else
            let nOctets := replicate (N.to_nat maxNodeChildren) false in
            let oOctets := replicate (N.to_nat maxNodeChildren) false in
            let nOk := (0 <? length (children n))%nat in
            let oOk := (0 <? length (children o))%nat in
            do r <- overlapsChildren
                      (S (N.to_nat (N.size (childrenBitset n))
                          + N.to_nat (N.size (childrenBitset o))))
                      n o 0 nOk 0 oOk nAllotIndex oAllotIndex nOctets oOctets;
            match r with
            | Return r => Ok r
            | Continue (nOctets, oOctets) =>
                if (0 <? length (children n))%nat
                   && (0 <? length (children o))%nat
                then overlapsSameOctet (overlapsRec fuel h) n o nOctets oOctets
                       (bitset.below (length nOctets))
                else Ok false
            end
      end
  end.

(** *** cloneRec and unionRec *)

(** [for i, child := range c.children { c.children[i] = child.cloneRec() }] *)
Fixpoint cloneRec_range (clone : heap -> ptr -> result (heap * ptr))
    (h : heap) (c : loc) (i : nat) (cs : list ptr) : result heap :=
  match cs with
  | [] => Ok h
  | child :: cs =>
      do (h, cc) <- clone h child;
      do h <- update h (Some c) (fun cn =>
                do s <- slices.store (children cn) (Z.of_nat i) cc;
                Ok (set_children cn s));
      cloneRec_range clone h c (S i) cs
  end.

(** [fuel] bounds the depth of the descent. *)
Fixpoint cloneRec (fuel : nat) (h : heap) (n : ptr) : result (heap * ptr) :=
  match fuel with
  | O => OutOfFuel
  | S fuel =>
      let '(h, c) := alloc h newNode in
      do n <- deref h n;
      if isEmpty n then Ok (h, Some c)
      else
        let cn := mkNode (bitset.Clone (prefixesBitset n))
                    (bitset.Clone (childrenBitset n))
                    (prefixes n) (children n) in
        let h := <[c := cn]> h in
        (* now clone the children deep *)
        do h <- cloneRec_range (cloneRec fuel) h c 0 (children cn);
        Ok (h, Some c)
  end.

(** for all prefixes in other node do ... *)
Fixpoint unionRec_prefixes (fuel : nat) (h : heap) (n o : ptr) (oIdx : N)
  : result heap :=
  match fuel with
  | O => OutOfFuel
  | S fuel =>
      do on <- deref h o;
      let '(oIdx, oOk) := bitset.NextSet (prefixesBitset on) oIdx in
      if negb oOk then Ok h
      else
        do (oVal, _) <- getValByIndex on oIdx;
        (* insert/overwrite prefix/value from oNode to nNode *)
        do h <- update h n (fun nn => insertIdx nn oIdx oVal);
        unionRec_prefixes fuel h n o (oIdx + 1)
  end.

(** for all children in other node do ... *)
Fixpoint unionRec_children (rec : heap -> ptr -> ptr -> result heap)
    (clone : heap -> ptr -> result (heap * ptr))
    (fuel : nat) (h : heap) (n o : ptr) (oOctet : N) : result heap :=
  match fuel with
  | O => OutOfFuel
  | S fuel =>
      do on <- deref h o;
      let '(oOctet, oOk) := bitset.NextSet (childrenBitset on) oOctet in
      if negb oOk then Ok h
      else
        do oNode <- getChild on (byte oOctet);
        (* get nNode with same octet *)
        do nn <- deref h n;
        do nNode <- getChild nn (byte oOctet);
        do h <-
          match nNode with
          | None =>
              (* union child from oNode into nNode *)
              do (h, c) <- clone h oNode;
              update h n (fun nn => insertChild nn (byte oOctet) c)
          | Some _ =>
              (* both nodes have child with octet, call union rec-descent *)
              rec h nNode oNode
          end;
        unionRec_children rec clone fuel h n o (oOctet + 1)
  end.

(** [fuel] bounds the depth of the descent and the rounds of each loop. *)
Fixpoint unionRec (fuel : nat) (h : heap) (n o : ptr) : result heap :=
  match fuel with
  | O => OutOfFuel
  | S depth =>
      do h <- unionRec_prefixes fuel h n o 0;
      unionRec_children (unionRec depth) (cloneRec depth) fuel h n o 0
  end.

End Node.

(** * Specification vocabulary *)

Import bitset.

Set Warnings "-register-all".

(** ** Popcount compression *)

(** The entry of index [i] in a popcount-compressed slice [s] with
    companion bit set [b]: slot [Rank b i - 1], when bit [i] is set. *)
Definition slot {A} (b : BitSet) (s : list A) (i : N) : option A :=
  if Test b i then s !! (Rank b i - 1)%nat else None.

(** The backtracking chain idx, idx>>1, idx>>2, ..., 1. *)
Definition chain (idx : N) : list N :=
  map (N.shiftr idx) (below (N.to_nat (N.size idx))).

(** The index domain of a prefix bit set: base indices 1 .. 511. *)
Definition baseIndices (b : BitSet) : Prop := Test b 0 = false /\ N.size b <= 512.

(** The index domain of a child bit set: octets 0 .. 255. *)
Definition octetIndices (b : BitSet) : Prop := N.size b <= 256.

(** ** Octet ranges of in-stride prefixes *)

(** [0xFF >> len] *)
Definition hostMask (len : Z) : N := N.shiftr 255 (Z.to_N len).

(** The octet range [o, o | (0xFF >> len)]. *)
Definition hostRange (octet : N) (len : Z) : N * N :=
  (octet, N.lor octet (hostMask len)).

Definition intersects (r1 r2 : N * N) : bool :=
  (fst r1 <=? snd r2) && (fst r2 <=? snd r1).

(** An in-stride prefix in masked form: no bit set after the first
    [len] bits of the octet. *)
Definition canonical (octet : N) (len : Z) : bool :=
  (0 <=? len)%Z && (len <=? 8)%Z && (octet <=? 255) && (N.land octet (hostMask len) =? 0).

Definition withinBounds (r : result (N * N)) (lo hi : N) : bool :=
  match r with
  | Ok (rl, rh) => (lo <=? rl) && (rh <=? hi)
  | _ => false
  end.

(** The host range of route [i] lies within [lo, hi]. *)
Definition within (i lo hi : N) : bool := withinBounds (lowerUpperBound i) lo hi.

(** Route [i] makes [overlapsPrefix] answer true for the prefix with
    base index [pfxIdx] and host range [lo, hi]. *)
Definition routeHit (pfxIdx lo hi i : N) : bool :=
  existsb (N.eqb i) (chain pfxIdx) || ((N.shiftl pfxIdx 1 <=? i) && within i lo hi).

(** *** Exhaustive checks of the lookup table *)

Definition checkInverse (b : N) : bool :=
  (b =? 0) ||
  match baseIndexToPrefix b with
  | Ok (o, l) =>
      (0 <=? l)%Z && (l <=? 8)%Z && (o <=? 255) &&
      match prefixToBaseIndex o l with Ok b' => b' =? b | _ => false end
  | _ => false
  end.

Definition checkDecode (b : N) : bool :=
  (b =? 0) ||
  match baseIndexToPrefix b with
  | Ok (o, l) =>
      canonical o l &&
      match prefixToBaseIndex o l with Ok b' => b' =? b | _ => false end &&
      match lowerUpperBound b with Ok _ => true | _ => false end
  | _ => false
  end.

Definition checkEncode (l o : N) : bool :=
  negb (canonical o (Z.of_N l)) ||
  match prefixToBaseIndex o (Z.of_N l) with
  | Ok b => (1 <=? b) && (b <=? 511) &&
            match baseIndexToPrefix b with
            | Ok (o', l') => (o' =? o) && (l' =? Z.of_N l)%Z
            | _ => false
            end &&
            match lastHostIndexOfPrefix o (Z.of_N l) with
            | Ok hi => hi =? snd (hostRange o (Z.of_N l)) + 256
            | _ => false
            end
  | _ => false
  end.

Definition checkBounds (i : N) : bool :=
  (i =? 0) ||
  match lowerUpperBound i with
  | Ok (lo, hi) => (256 <=? lo) && (lo <=? hi) && (hi <=? 511)
  | _ => false
  end.

Definition checkHit (ch : list N) (o : N) (l : Z) (b2 hi : N)
    (row : N * result (N * Z) * result (N * N)) : bool :=
  let '(i, d, lu) := row in
  (i =? 0) ||
  match d with
  | Ok (o', l') =>
      Bool.eqb (existsb (N.eqb i) ch || ((b2 <=? i) && withinBounds lu (o + firstHostIndex) hi))
               (intersects (hostRange o' l') (hostRange o l))
  | _ => false
  end.

Definition checkHitRow (rows : list (N * result (N * Z) * result (N * N))) (b : N) : bool :=
  (b =? 0) ||
  match baseIndexToPrefix b with
  | Ok (o, l) =>
      match lastHostIndexOfPrefix o l with
      | Ok hi => forallb (checkHit (chain b) o l (N.shiftl b 1) hi) rows
      | _ => false
      end
  | _ => false
  end.

Definition decodeRows : list (N * result (N * Z) * result (N * N)) :=
  map (fun i => (i, baseIndexToPrefix i, lowerUpperBound i)) (below 512).

(** ** Boolean tables and allotment *)

(** Entry [x] of a table; out of range reads as [false]. *)
Definition entry (A : list bool) (x : N) : bool := default false (A !! N.to_nat x).

(** The table of a predicate on the indices below [n]. *)
Definition table (n : nat) (f : N -> bool) : list bool := map f (below n).

(** Host index [x] lies in the host range of base index [i]. *)
Definition covers (i x : N) : bool :=
  match lowerUpperBound i with
  | Ok (lo, hi) => (lo <=? x) && (x <=? hi)
  | _ => false
  end.

Definition allotted (b : BitSet) (x : N) : bool :=
  existsb (fun i => Test b i && covers i x) (below 512).

(** The host routes allotted to the base indices of [b]. *)
Definition allot (b : BitSet) : list bool := table 512 (allotted b).

(** Some host index is allotted in both tables. *)
Definition meets (A B : list bool) : bool :=
  existsb (fun x => entry A x && entry B x) (below 512).

(** The members of [b] below [k]. *)
Definition low (b : BitSet) (k : N) : BitSet := N.land b (N.ones k).

(** The bits already visited by a cursor [(idx, ok)] over [b]. *)
Definition visited (b : BitSet) (idx : N) (ok : bool) : BitSet :=
  if ok then low b idx else b.

(** Rounds left for a cursor. *)
Definition rounds (b : BitSet) (idx : N) (ok : bool) : nat :=
  if ok then S (N.to_nat (N.size b) - N.to_nat idx) else 0.

Definition octets (b : BitSet) : list bool := table 256 (Test b).

(** A child of [b] sits on a host route allotted in [A]. *)
Definition hitsChild (b : BitSet) (A : list bool) : bool :=
  existsb (fun c => Test b c && entry A (c + firstHostIndex)) (below 256).

Section Specification.

Context {V : Type}.

(** The zero value of [V]. *)
Variable zero : V.

Local Abbreviation heap := (list (node V)).

(** ** Stride nodes *)

Definition prefixesOk (n : node V) : Prop :=
  length (prefixes n) = Count (prefixesBitset n).

Definition childrenOk (n : node V) : Prop :=
  length (children n) = Count (childrenBitset n).

(** The popcount correspondence. *)
Definition popcountOk (n : node V) : Prop := prefixesOk n /\ childrenOk n.

(** The data model of a stride node. *)
Definition strideNode (n : node V) : Prop :=
  prefixesOk n /\ childrenOk n /\
  baseIndices (prefixesBitset n) /\ octetIndices (childrenBitset n).

(** The stored routes: the k-th set bit with the value of slot k. *)
Definition entries (n : node V) : list (N * V) :=
  zip (elems (prefixesBitset n)) (prefixes n).

(** [n] holds the route octet/len. *)
Definition holdsRoute (n : node V) (octet : N) (len : Z) : Prop :=
  canonical octet len = true /\
  exists i, prefixToBaseIndex octet len = Ok i /\ Test (prefixesBitset n) i = true.

(** Some route or child of [n] covers an octet of [o, o | (0xFF >> len)]. *)
Definition overlapsPrefixSpec (n : node V) (octet : N) (len : Z) : Prop :=
  (exists o' l', holdsRoute n o' l' /\
                 intersects (hostRange o' l') (hostRange octet len) = true)
  \/ (exists c, Test (childrenBitset n) c = true /\
                intersects (c, c) (hostRange octet len) = true).

(** The prefixes of [od] from [start] on, laid over those of [nd]. *)
Definition overlay (od nd : node V) (start : N) (idx : N) : option V :=
  match (if start <=? idx then slot (prefixesBitset od) (prefixes od) idx else None) with
  | Some v => Some v
  | None => slot (prefixesBitset nd) (prefixes nd) idx
  end.

(** ** The store *)

Definition heapOk (h : heap) : Prop := Forall popcountOk h.

(** Every node reachable from [p] is allocated, within [d] levels. *)
Fixpoint depthLe (h : heap) (d : nat) (p : ptr) : Prop :=
  match d with
  | O => False
  | S d =>
      match p with
      | None => False
      | Some l =>
          match h !! l with
          | Some n => Forall (depthLe h d) (children n)
          | None => False
          end
      end
  end.

(** [overlapsRec] on a pair of stride nodes, in closed form. *)
Definition overlapsNode (rec : ptr -> ptr -> result bool) (n o : node V)
  : result bool :=
  if meets (allot (prefixesBitset n)) (allot (prefixesBitset o)) then Ok true
  else if hitsChild (childrenBitset n) (allot (prefixesBitset o))
          || hitsChild (childrenBitset o) (allot (prefixesBitset n)) then Ok true
  else if (0 <? length (children n))%nat && (0 <? length (children o))%nat
  then overlapsSameOctet rec n o (octets (childrenBitset n)) (octets (childrenBitset o))
         (below 256)
  else Ok false.

(** One node operation on the store. *)
Inductive step (h : heap) : heap -> Prop :=
| step_newNode :
    step h (fst (alloc h newNode))
| step_insertPrefix l n octet prefixLen val n' :
    h !! l = Some n -> insertPrefix n octet prefixLen val = Ok n' ->
    step h (<[l := n']> h)
| step_insertIdx l n baseIdx val n' :
    h !! l = Some n -> insertIdx n baseIdx val = Ok n' ->
    step h (<[l := n']> h)
| step_deletePrefix l n octet prefixLen n' wasPresent :
    h !! l = Some n -> deletePrefix n octet prefixLen = Ok (n', wasPresent) ->
    step h (<[l := n']> h)
| step_updatePrefix l n octet prefixLen cb n' val :
    h !! l = Some n -> updatePrefix zero n octet prefixLen cb = Ok (n', val) ->
    step h (<[l := n']> h)
| step_insertChild l n octet child n' :
    h !! l = Some n -> insertChild n octet child = Ok n' ->
    step h (<[l := n']> h)
| step_deleteChild l n octet n' :
    h !! l = Some n -> deleteChild n octet = Ok n' ->
    step h (<[l := n']> h)
| step_unionRec fuel p q h' :
    unionRec zero fuel h p q = Ok h' -> step h h'
| step_cloneRec fuel p h' c :
    cloneRec fuel h p = Ok (h', c) -> step h h'.

(** The stores reachable from a fresh node. *)
Inductive reachable : heap -> Prop :=
| reachable_fresh : reachable [newNode]
| reachable_step h h' : reachable h -> step h h' -> reachable h'.

(** ** Tries in the store *)

(** A trie laid out in the store: every node with its address. *)
Inductive ltree : Type :=
| LT (l : loc) (nd : node V) (kids : list ltree).

Definition root (t : ltree) : loc := let 'LT l _ _ := t in l.
Definition nodeOf (t : ltree) : node V := let 'LT _ nd _ := t in nd.
Definition kidsOf (t : ltree) : list ltree := let 'LT _ _ kids := t in kids.

Definition rootPtr (k : ltree) : ptr := Some (root k).

Fixpoint addrs (t : ltree) : list loc :=
  match t with
  | LT l _ kids => l :: flat_map addrs kids
  end.

(** Fuel that [cloneRec] and [unionRec] need to run over [t]. *)
Fixpoint need (t : ltree) : nat :=
  match t with
  | LT _ nd kids =>
      S (Nat.max (Nat.max (N.to_nat (N.size (prefixesBitset nd)))
                          (N.to_nat (N.size (childrenBitset nd))))
                 (list_max (map need kids)))
  end.

(** [t] is what the store holds at its addresses. *)
Inductive tree (h : heap) : ltree -> Prop :=
| tree_intro l nd kids :
    h !! l = Some nd ->
    popcountOk nd ->
    octetIndices (childrenBitset nd) ->
    children nd = map (fun k => Some (root k)) kids ->
    Forall (tree h) kids ->
    tree h (LT l nd kids).

Definition allFresh (N0 : nat) (t : ltree) : Prop :=
  forall l, l ∈ addrs t -> (N0 <= l)%nat.

Definition slotP (t : ltree) (idx : N) : option V :=
  slot (prefixesBitset (nodeOf t)) (prefixes (nodeOf t)) idx.

Definition childT (t : ltree) (octet : N) : option ltree :=
  slot (childrenBitset (nodeOf t)) (kidsOf t) octet.

Fixpoint getT (t : ltree) (path : list N) (idx : N) : option V :=
  match path with
  | [] => slotP t idx
  | octet :: path =>
      match childT t octet with
      | Some k => getT k path idx
      | None => None
      end
  end.

Fixpoint nodeT (t : ltree) (path : list N) : option ltree :=
  match path with
  | [] => Some t
  | octet :: path =>
      match childT t octet with
      | Some k => nodeT k path
      | None => None
      end
  end.

(** The value stored for the prefix [idx] of the node at [path] below
    [p]: the descent of a Get, through [getChild] and [getValByIndex]. *)
Fixpoint getAt (h : heap) (p : ptr) (path : list N) (idx : N)
  : result (V * bool) :=
  do n <- deref h p;
  match path with
  | [] => getValByIndex zero n idx
  | octet :: path =>
      do c <- getChild n octet;
      match c with
      | None => Ok (zero, false)
      | Some _ => getAt h c path idx
      end
  end.

(** The node at [path] below [p], [nil] when the path leaves the trie. *)
Fixpoint nodeAt (h : heap) (p : ptr) (path : list N) : result ptr :=
  match path with
  | [] => Ok p
  | octet :: path =>
      do n <- deref h p;
      do c <- getChild n octet;
      match c with
      | None => Ok None
      | Some _ => nodeAt h c path
      end
  end.

Inductive sameContent : ltree -> ltree -> Prop :=
| sameContent_intro l1 nd1 kids1 l2 nd2 kids2 :
    prefixesBitset nd1 = prefixesBitset nd2 ->
    childrenBitset nd1 = childrenBitset nd2 ->
    prefixes nd1 = prefixes nd2 ->
    Forall2 sameContent kids1 kids2 ->
    sameContent (LT l1 nd1 kids1) (LT l2 nd2 kids2).

(** [tn'] is [tn] after the union with [to]; clones sit at addresses
    from [N0] on. *)
Fixpoint unionT (d : nat) (N0 : nat) (tn to tn' : ltree) : Prop :=
  match d with
  | O => False
  | S d =>
      root tn' = root tn /\
      (forall idx, slotP tn' idx =
                   match slotP to idx with
                   | Some v => Some v
                   | None => slotP tn idx
                   end) /\
      (forall c, childT to c = None -> childT tn' c = childT tn c) /\
      (forall c oc, childT to c = Some oc -> childT tn c = None ->
         exists tc, childT tn' c = Some tc /\ sameContent oc tc /\
                    forall l, l ∈ addrs tc -> (N0 <= l)%nat) /\
      (forall c oc nc, childT to c = Some oc -> childT tn c = Some nc ->
         exists nc', childT tn' c = Some nc' /\ unionT d N0 nc oc nc')
  end.

(** What one round of the children loop of [unionRec] leaves at an octet. *)
Definition merged (depth N0 : nat) (before : option ltree) (oc x : ltree) : Prop :=
  match before with
  | None => sameContent oc x /\ allFresh N0 x
  | Some nc => unionT depth N0 nc oc x
  end.

(** What a run of [cloneRec] on a tree of the store delivers. *)
Definition cloneSpec (clone : heap -> ptr -> result (heap * ptr)) (bound : nat) : Prop :=
  forall h t, tree h t -> (need t <= bound)%nat ->
  exists ext tc,
    clone h (Some (root t)) = Ok (h ++ ext, Some (root tc)) /\
    tree (h ++ ext) tc /\ sameContent t tc /\ NoDup (addrs tc) /\
    forall l, l ∈ addrs tc -> (length h <= l)%nat.

(** What a run of [unionRec] on two separate trees of the store delivers. *)
Definition unionSpec (rec : heap -> ptr -> ptr -> result heap) (depth : nat) : Prop :=
  forall h tn to,
    tree h tn -> tree h to -> NoDup (addrs tn) ->
    (forall l, l ∈ addrs tn -> l ∉ addrs to) ->
    (need to <= depth)%nat ->
    exists h' tn',
      rec h (Some (root tn)) (Some (root to)) = Ok h' /\
      tree h' tn' /\ NoDup (addrs tn') /\ (length h <= length h')%nat /\
      (forall l, l ∈ addrs tn' -> l ∈ addrs tn \/ (length h <= l)%nat) /\
      (forall l, (l < length h)%nat -> l ∉ addrs tn -> h' !! l = h !! l) /\
      unionT depth (length h) tn to tn'.

End Specification.

(** ** Sample data *)

Definition bitsOf (l : list N) : BitSet := fold_left Set_ l New.

(** 0/0 -> 10, 32/6 -> 20, 44/8 -> 30, and a child at octet 10. *)
Definition sampleNode : node nat :=
  mkNode (bitsOf [1; 72; 300]) (bitsOf [10]) [10; 20; 30]%nat [Some 1%nat].

(** 10/8 -> 7 *)
Definition leafNode : node nat := mkNode (bitsOf [266]) New [7%nat] [].

(** 0/7 -> 5 *)
Definition halfNode : node nat := mkNode (bitsOf [128]) New [5%nat] [].

(** A store with two tries: n at 0 (child 1 at octet 10), o at 2
    (children 3 at octet 10 and 4 at octet 11). *)
Definition nRoot : node nat := mkNode (bitsOf [266]) (bitsOf [10]) [1%nat] [Some 1%nat].
Definition nKid : node nat := mkNode (bitsOf [1]) New [2%nat] [].
Definition oRoot : node nat :=
  mkNode (bitsOf [266; 267]) (bitsOf [10; 11]) [7; 8]%nat [Some 3%nat; Some 4%nat].
Definition oKid10 : node nat := mkNode (bitsOf [1; 2]) New [20; 21]%nat [].
Definition oKid11 : node nat := mkNode (bitsOf [3]) New [30%nat] [].
Definition sampleStore : list (node nat) := [nRoot; nKid; oRoot; oKid10; oKid11].
Definition nTree : ltree := LT 0%nat nRoot [LT 1%nat nKid []].
Definition oTree : ltree := LT 2%nat oRoot [LT 3%nat oKid10 []; LT 4%nat oKid11 []].

(** * The remaining functions of base_index.go and node.go *)

(** ** base_index.go: the allotment table *)

Module allotment.

(** [allotRec]: the table is a [*[maxNodePrefixes]bool]; [fuel] bounds
    the depth of the recursion, which is at most [strideLen + 1] for a
    base index. *)
Fixpoint allotRec (fuel : nat) (allotTbl : list bool) (idx : N)
  : result (list bool) :=
  match fuel with
  | O => OutOfFuel
  | S fuel =>
      do allotTbl <- slices.store allotTbl (Z.of_N idx) true;
      (* idx has reached last stage *)
      if firstHostIndex <=? idx then Ok allotTbl
      else
        do allotTbl <- allotRec fuel allotTbl (N.shiftl idx 1);
        allotRec fuel allotTbl (N.shiftl idx 1 + 1)
  end.

(** [for idx < firstHostIndex { ...; idx++ }] *)
Fixpoint allot_loop (fuel : nat) (allotTbl : list bool) (idx : N)
  : result (list bool) :=
  match fuel with
  | O => OutOfFuel
  | S fuel =>
      if idx <? firstHostIndex then
        do set <- slices.index allotTbl (Z.of_N idx);
        do allotTbl <-
          (if set then
             (* trick, the allotTbl itself is the stack *)
             do t <- slices.store allotTbl (Z.of_N (N.shiftl idx 1)) true;
             slices.store t (Z.of_N (N.shiftl idx 1 + 1)) true
           else Ok allotTbl);
        allot_loop fuel allotTbl (idx + 1)
      else Ok allotTbl
  end.

Definition allot (allotTbl : list bool) (idx : N) : result (list bool) :=
  if 4 <=? idx then
    (* recursion is faster than iteration for idx >= 4 *)
    allotRec (Z.to_nat strideLen + 1) allotTbl idx
  else
    (* iteration is faster than recursion for idx <= 4 *)
    do allotTbl <- slices.store allotTbl (Z.of_N idx) true;
    allot_loop (S (N.to_nat firstHostIndex)) allotTbl idx.

End allotment.

(** ** Collaborators of the enumerations *)

(** Modelled from the spec: [NextSetMany] of the bit-set collaborator
    ([collect_into] in section 4.2), which is not part of the sources.
    It fills the buffer with the members from [i] on, ascending, up to
    the capacity of the buffer, and returns the last one filled in (0
    when there is none) with the filled part of the buffer. *)
Definition NextSetMany (b : BitSet) (i : N) (capacity : nat) : N * list N :=
  let all := take capacity (List.filter (fun j => i <=? j) (elems b)) in
  (List.last all 0, all).

(** [slices.Sort] on a [[]uint]: the ascending rearrangement. *)
Fixpoint sortedInsert (x : N) (s : list N) : list N :=
  match s with
  | [] => [x]
  | y :: s' => if x <=? y then x :: s else y :: sortedInsert x s'
  end.

Definition Sort (s : list N) : list N := fold_right sortedInsert [] s.

(** ** node.go: enumerations *)

Section NodeEnum.

Context {V : Type}.

(** The zero value of [V]. *)
Variable zero : V.

(** The backtracking loop of [apmByPrefix]; every round shifts [idx]. *)
Fixpoint apmByPrefix_loop (fuel : nat) (n : node V) (idx : N) (acc : list N)
  : result (list N) :=
  match fuel with
  | O => OutOfFuel
  | S fuel =>
      let acc := if Test (prefixesBitset n) idx then acc ++ [idx] else acc in
      if idx =? 0 then Ok acc
      else apmByPrefix_loop fuel n (N.shiftr idx 1) acc
  end.

Definition apmByPrefix (n : node V) (octet : N) (bits : Z) : result (list N) :=
  (* skip intermediate nodes *)
  if (length (prefixes n) =? 0)%nat then Ok []
  else
    do idx <- prefixToBaseIndex octet bits;
    do acc <- apmByPrefix_loop (S (N.to_nat (N.size idx))) n idx [];
    (* sort in ascending order *)
    Ok (Sort acc).

(** [make([]uint, 0, maxNodePrefixes)] *)
Definition allStrideIndexes (n : node V) : list N :=
  snd (NextSetMany (prefixesBitset n) 0 (N.to_nat maxNodePrefixes)).

(** [make([]uint, maxNodeChildren)] *)
Definition allChildAddrs (n : node V) : list N :=
  snd (NextSetMany (childrenBitset n) 0 (N.to_nat maxNodeChildren)).

(** *** walkRec and subnets

    [P] stands for [netip.Prefix] and [E] for the errors of a callback;
    [cidrFromPath] is not part of the sources and is a parameter.  A
    callback is a closure: it runs on a state [St] of its own and does
    not touch the store. *)

Variables P E St : Type.
Variable cidrFromPath : list N -> N -> bool -> P.

Local Abbreviation heap := (list (node V)).

(** for all prefixes in this node do ... *)
Fixpoint walkRec_prefixes (n : node V) (path : list N) (is4 : bool)
    (cb : P -> V -> St -> St * option E) (idxs : list N) (s : St)
  : result (St * option E) :=
  match idxs with
  | [] => Ok (s, None)
  | idx :: idxs =>
      do (val, _) <- getValByIndex zero n idx;
      let pfx := cidrFromPath path idx is4 in
      (* make the callback for this prefix *)
      let '(s, err) := cb pfx val s in
      match err with
      | Some e => Ok (s, Some e)   (* premature end of recursion *)
      | None => walkRec_prefixes n path is4 cb idxs s
      end
  end.

(** for all children in this node do ... *)
Fixpoint walkRec_children
    (rec : ptr -> list N -> St -> result (St * option E))
    (n : node V) (path : list N) (addrs : list N) (s : St)
  : result (St * option E) :=
  match addrs with
  | [] => Ok (s, None)
  | addr :: addrs =>
      let octet := byte addr in
      let path' := path ++ [octet] in
      do child <- getChild n octet;
      do (s, err) <- rec child path' s;
      match err with
      | Some e => Ok (s, Some e)   (* premature end of recursion *)
      | None => walkRec_children rec n path addrs s
      end
  end.

(** [fuel] bounds the depth of the descent. *)
Fixpoint walkRec (fuel : nat) (h : heap) (n : ptr) (path : list N) (is4 : bool)
    (cb : P -> V -> St -> St * option E) (s : St) : result (St * option E) :=
  match fuel with
  | O => OutOfFuel
  | S fuel =>
      do nd <- deref h n;
      do (s, err) <- walkRec_prefixes nd path is4 cb (allStrideIndexes nd) s;
      match err with
      | Some e => Ok (s, Some e)
      | None =>
          walkRec_children (fun c p s => walkRec fuel h c p is4 cb s)
            nd path (allChildAddrs nd) s
      end
  end.

End NodeEnum.

Section Subnets.

Context {V : Type}.

(** The zero value of [V]. *)
Variable zero : V.

Variables P E : Type.
Variable cidrFromPath : list N -> N -> bool -> P.

Local Abbreviation heap := (list (node V)).

(** [for i := idx; i >= parentIdx; i >>= 1 { if i == parentIdx { ...; break } }]:
    whether the loop reaches the match. *)
Fixpoint subnets_covered (fuel : nat) (i parentIdx : N) : result bool :=
  match fuel with
  | O => OutOfFuel
  | S fuel =>
      if parentIdx <=? i then
        if i =? parentIdx then Ok true   (* match *)
        else subnets_covered fuel (N.shiftr i 1) parentIdx
      else Ok false
  end.

(** for all routes in this node do ... *)
Fixpoint subnets_routes (n : node V) (path : list N) (parentIdx : N) (is4 : bool)
    (idxs : list N) (acc : list P) : result (list P) :=
  match idxs with
  | [] => Ok acc
  | idx :: idxs =>
      (* is this route covered by pfx? *)
      do hit <- subnets_covered (S (N.to_nat (N.size idx))) idx parentIdx;
      let acc := if hit then acc ++ [cidrFromPath path idx is4] else acc in
      subnets_routes n path parentIdx is4 idxs acc
  end.

(** [for i := idx; i >= parentIdx; i >>= 1 { if i == parentIdx { ... } }]
    for one child: this loop has no [break]. *)
Fixpoint subnets_child (fuel : nat)
    (walk : ptr -> list N -> list P -> result (list P))
    (n : node V) (path : list N) (octet : N) (i parentIdx : N) (acc : list P)
  : result (list P) :=
  match fuel with
  | O => OutOfFuel
  | S fuel =>
      if parentIdx <=? i then
        do acc <-
          (if i =? parentIdx then
             (* get child for octet *)
             do c <- getChild n octet;
             (* append octet to path *)
             let path' := path ++ [octet] in
             (* all cidrs under this child are covered by pfx *)
             walk c path' acc
           else Ok acc);
        subnets_child fuel walk n path octet (N.shiftr i 1) parentIdx acc
      else Ok acc
  end.

(** for all children in this node do ... *)
Fixpoint subnets_children
    (walk : ptr -> list N -> list P -> result (list P))
    (n : node V) (path : list N) (parentIdx : N) (addrs : list N) (acc : list P)
  : result (list P) :=
  match addrs with
  | [] => Ok acc
  | addr :: addrs =>
      let octet := byte addr in
      let idx := octetToBaseIndex octet in
      (* is this child covered by pfx? *)
      do acc <- subnets_child (S (N.to_nat (N.size idx))) walk n path octet
                  idx parentIdx acc;
      subnets_children walk n path parentIdx addrs acc
  end.

(** [fuel] bounds the depth of the walks. *)
Definition subnets (fuel : nat) (h : heap) (n : ptr) (path : list N)
    (parentIdx : N) (is4 : bool) : result (list P) :=
  do nd <- deref h n;
  do acc <- subnets_routes nd path parentIdx is4 (allStrideIndexes nd) [];
  subnets_children
    (fun c p acc =>
       do r <- walkRec zero P E (list P) cidrFromPath fuel h c p is4
                 (fun pfx _ acc => (acc ++ [pfx], None)) acc;
       Ok (fst r))
    nd path parentIdx (allChildAddrs nd) acc.

End Subnets.

(** ** Specification vocabulary, continued *)

(** [i] lies on the backtracking chain of [x]: the prefix of base index
    [i] covers the one of [x]. *)
Definition onChain (i x : N) : bool := existsb (N.eqb i) (chain x).

(** The octet with its bits after the first [len] cleared. *)
Definition masked (octet : N) (len : Z) : N := N.ldiff octet (hostMask len).

Definition checkRoundTrip (l o : N) : bool :=
  match prefixToBaseIndex o (Z.of_N l) with
  | Ok b =>
      match baseIndexToPrefix b with
      | Ok (o', l') => (o' =? masked o (Z.of_N l)) && (l' =? Z.of_N l)%Z
      | _ => false
      end
  | _ => false
  end.

Definition checkCovers (i : N) : bool :=
  forallb (fun x => Bool.eqb (covers i x) (onChain i x)) (range firstHostIndex lastHostIndex).

Definition checkPfxLen (i : N) : bool :=
  (i =? 0) ||
  match baseIndexToPrefix i with
  | Ok (_, l) => (Z.of_N (N.size i) =? l + 1)%Z
  | _ => false
  end.

(** Entry [j] after the iterative branch of [allot] has run from [start]
    on the table [A]: set before, or below an entry from [start] on that
    was set before. *)
Definition allotClosure (start : N) (A : list bool) (j : N) : bool :=
  entry A j || existsb (fun a => (start <=? a) && entry A a) (chain (N.shiftr j 1)).

(** Entry [j] when the loop of [allot], started at [start] on the table
    [A], has reached [k]. *)
Definition allotStage (start : N) (A : list bool) (k j : N) : bool :=
  entry A j ||
  ((N.shiftr j 1 <? k) &&
   existsb (fun a => (start <=? a) && entry A a) (chain (N.shiftr j 1))).

(** The table is closed under allotment from [start] on: the two
    children of a set entry are set. *)
Definition allotClosed (start : N) (A : list bool) : Prop :=
  forall a, start <= a < 256 -> entry A a = true ->
    entry A (N.shiftl a 1) = true /\ entry A (N.shiftl a 1 + 1) = true.

(** [allot] for one index after the other. *)
Definition allotAll (allotTbl : list bool) (idxs : list N) : result (list bool) :=
  fold_left (fun r idx => do t <- r; allotment.allot t idx) idxs (Ok allotTbl).

(** The host range of route [j] contains the one of route [i]. *)
Definition contains (j i : N) : bool :=
  match lowerUpperBound j, lowerUpperBound i with
  | Ok (lj, hj), Ok (li, hi) => (lj <=? li) && (hi <=? hj)
  | _, _ => false
  end.

Definition checkContains (j : N) : bool :=
  forallb (fun i => Bool.eqb (contains j i) (onChain j i)) (below 512).

(** The prefix length of a base index, as the lookup table gives it. *)
Definition pfxLenOf (i : N) : Z :=
  match baseIndexToPrefix i with
  | Ok (_, l) => l
  | _ => -1
  end.

Section Walks.

Context {V : Type}.

(** The zero value of [V]. *)
Variable zero : V.

(** The routes of a trie in depth-first order, prefixes of a node before
    its children: octet path, base index and value. *)
Fixpoint routesT (t : ltree) (path : list N) : list (list N * N * V) :=
  match t with
  | LT _ nd kids =>
      map (fun i => (path, i, default zero (slot (prefixesBitset nd) (prefixes nd) i)))
          (elems (prefixesBitset nd))
      ++ (fix kidsRoutes (os : list N) (ks : list ltree) {struct ks} :=
            match ks, os with
            | k :: ks, o :: os => routesT k (path ++ [o]) ++ kidsRoutes os ks
            | _, _ => []
            end) (elems (childrenBitset nd)) kids
  end.

Variables P E St : Type.
Variable cidrFromPath : list N -> N -> bool -> P.

(** The callback on one route after the other, up to the first error. *)
Fixpoint visit (is4 : bool) (cb : P -> V -> St -> St * option E)
    (items : list (list N * N * V)) (s : St) : St * option E :=
  match items with
  | [] => (s, None)
  | (path, idx, val) :: items =>
      let '(s, err) := cb (cidrFromPath path idx is4) val s in
      match err with
      | Some e => (s, Some e)
      | None => visit is4 cb items s
      end
  end.

End Walks.

(** The order of a walk on (octet path, base index): the routes of a
    node come in ascending base index, and before the routes below its
    children, which come in ascending octet. *)
Fixpoint walkBefore (p1 : list N) (i1 : N) (p2 : list N) (i2 : N) : bool :=
  match p1, p2 with
  | [], [] => i1 <? i2
  | [], _ :: _ => true
  | _ :: _, [] => false
  | o1 :: r1, o2 :: r2 => (o1 <? o2) || ((o1 =? o2) && walkBefore r1 i1 r2 i2)
  end.

(** The route at [idx] in the node at [rel] below a node is covered by
    the prefix [parentIdx] of that node. *)
Definition coveredBy (parentIdx : N) (rel : list N) (idx : N) : Prop :=
  match rel with
  | [] => In parentIdx (chain idx)
  | octet :: _ => In parentIdx (chain (octetToBaseIndex octet))
  end.

(** [coveredBy] on the route with octet path [key.1], read below [path]. *)
Definition coveredKey (path : list N) (parentIdx : N) (key : list N * N) : bool :=
  match drop (length path) key.1 with
  | [] => onChain parentIdx key.2
  | octet :: _ => onChain parentIdx (octetToBaseIndex octet)
  end.

Section ByteSteps.

Context {V : Type}.

(** The zero value of [V]. *)
Variable zero : V.

Local Abbreviation heap := (list (node V)).

(** One node operation on the store, with the arguments Go's types and
    the callers allow: an octet is a [byte], a base index lies in
    1 .. 511. *)
Inductive byteStep (h : heap) : heap -> Prop :=
| byteStep_newNode :
    byteStep h (fst (alloc h newNode))
| byteStep_insertPrefix l n octet prefixLen val n' :
    octet <= 255 ->
    h !! l = Some n -> insertPrefix n octet prefixLen val = Ok n' ->
    byteStep h (<[l := n']> h)
| byteStep_insertIdx l n baseIdx val n' :
    1 <= baseIdx <= 511 ->
    h !! l = Some n -> insertIdx n baseIdx val = Ok n' ->
    byteStep h (<[l := n']> h)
| byteStep_deletePrefix l n octet prefixLen n' wasPresent :
    octet <= 255 ->
    h !! l = Some n -> deletePrefix n octet prefixLen = Ok (n', wasPresent) ->
    byteStep h (<[l := n']> h)
| byteStep_updatePrefix l n octet prefixLen cb n' val :
    octet <= 255 ->
    h !! l = Some n -> updatePrefix zero n octet prefixLen cb = Ok (n', val) ->
    byteStep h (<[l := n']> h)
| byteStep_insertChild l n octet child n' :
    octet <= 255 ->
    h !! l = Some n -> insertChild n octet child = Ok n' ->
    byteStep h (<[l := n']> h)
| byteStep_deleteChild l n octet n' :
    octet <= 255 ->
    h !! l = Some n -> deleteChild n octet = Ok n' ->
    byteStep h (<[l := n']> h)
| byteStep_unionRec fuel p q h' :
    unionRec zero fuel h p q = Ok h' -> byteStep h h'
| byteStep_cloneRec fuel p h' c :
    cloneRec fuel h p = Ok (h', c) -> byteStep h h'.

Inductive byteReachable : heap -> Prop :=
| byteReachable_fresh : byteReachable [newNode]
| byteReachable_step h h' : byteReachable h -> byteStep h h' -> byteReachable h'.

End ByteSteps.

(** * The stride table without compression

    What the operations file in a node, as the specification describes
    a stride table: the routes as (base index, value) and the children
    as (octet, child), each in ascending order of the key.  No bit set,
    rank or slot occurs here; the operations below say under which key
    an operation of node.go files, overwrites or removes an entry. *)

Section Entries.

Context {A : Type}.

(** The entry filed under [k]. *)
Fixpoint look (k : N) (l : list (N * A)) : option A :=
  match l with
  | [] => None
  | (k', v) :: l => if k' =? k then Some v else look k l
  end.

(** File [v] under [k]: overwrite the entry of [k], or insert a new one
    in ascending order. *)
Fixpoint file (k : N) (v : A) (l : list (N * A)) : list (N * A) :=
  match l with
  | [] => [(k, v)]
  | (k', v') :: r =>
      if k <? k' then (k, v) :: l
      else if k =? k' then (k, v) :: r
      else (k', v') :: file k v r
  end.

(** Remove the entry of [k]. *)
Definition unfile (k : N) (l : list (N * A)) : list (N * A) :=
  List.filter (fun e => negb (e.1 =? k)) l.

(** The first entry from [i] on. *)
Definition nextFiled (i : N) (l : list (N * A)) : option (N * A) :=
  List.find (fun e => i <=? e.1) l.

Definition keysAscending (l : list (N * A)) : Prop :=
  StronglySorted N.lt (map fst l).

End Entries.

(** The entries of one node. *)
Record filedNode (V : Type) : Type := mkFiled {
  filedRoutes : list (N * V);
  filedKids : list (N * ptr)
}.
Arguments mkFiled {V}.
Arguments filedRoutes {V}.
Arguments filedKids {V}.

(** The operations of node.go on the entries; the store is a list of
    [filedNode] with the addresses of the store of nodes. *)
Module filed.

Section Ops.

Context {V : Type}.

(** The zero value of [V]. *)
Variable zero : V.

Local Abbreviation store := (list (filedNode V)).

Definition newNode : filedNode V := mkFiled [] [].

Definition isEmpty (t : filedNode V) : bool :=
  (length (filedRoutes t) =? 0)%nat && (length (filedKids t) =? 0)%nat.

(** insert or overwrite *)
Definition insertIdx (t : filedNode V) (baseIdx : N) (val : V) : filedNode V :=
  mkFiled (file baseIdx val (filedRoutes t)) (filedKids t).

Definition insertPrefix (t : filedNode V) (octet : N) (prefixLen : Z) (val : V)
  : result (filedNode V) :=
  do baseIdx <- prefixToBaseIndex octet prefixLen;
  Ok (insertIdx t baseIdx val).

Definition deletePrefix (t : filedNode V) (octet : N) (prefixLen : Z)
  : result (filedNode V * bool) :=
  do baseIdx <- prefixToBaseIndex octet prefixLen;
  match look baseIdx (filedRoutes t) with
  | None => Ok (t, false)   (* no route entry *)
  | Some _ => Ok (mkFiled (unfile baseIdx (filedRoutes t)) (filedKids t), true)
  end.

Definition getValByIndex (t : filedNode V) (baseIdx : N) : V * bool :=
  match look baseIdx (filedRoutes t) with
  | Some val => (val, true)
  | None => (zero, false)
  end.

Definition updatePrefix (t : filedNode V) (octet : N) (prefixLen : Z)
    (cb : V -> bool -> V) : result (filedNode V * V) :=
  do baseIdx <- prefixToBaseIndex octet prefixLen;
  let '(val, ok) := getValByIndex t baseIdx in
  let val := cb val ok in
  Ok (insertIdx t baseIdx val, val).

(** insert or overwrite *)
Definition insertChild (t : filedNode V) (octet : N) (child : ptr) : filedNode V :=
  mkFiled (filedRoutes t) (file octet child (filedKids t)).

Definition deleteChild (t : filedNode V) (octet : N) : filedNode V :=
  mkFiled (filedRoutes t) (unfile octet (filedKids t)).

(** the child filed under [octet], or nil *)
Definition getChild (t : filedNode V) (octet : N) : ptr :=
  match look octet (filedKids t) with
  | Some child => child
  | None => None
  end.

(** [c.children[i] = child]: the [i]-th child in ascending octet order
    is replaced. *)
Definition setChildAt (t : filedNode V) (i : nat) (child : ptr)
  : result (filedNode V) :=
  match filedKids t !! i with
  | Some (octet, _) => Ok (insertChild t octet child)
  | None => Panic
  end.

Definition deref (g : store) (p : ptr) : result (filedNode V) :=
  match p with
  | None => Panic
  | Some l =>
      match g !! l with
      | Some t => Ok t
      | None => Panic
      end
  end.

Definition update (g : store) (p : ptr) (f : filedNode V -> result (filedNode V))
  : result store :=
  match p with
  | None => Panic
  | Some l =>
      do t <- deref g p;
      do t <- f t;
      Ok (<[l := t]> g)
  end.

(** [for i, child := range c.children { c.children[i] = child.cloneRec() }] *)
Fixpoint cloneRec_range (clone : store -> ptr -> result (store * ptr))
    (g : store) (c : loc) (i : nat) (cs : list ptr) : result store :=
  match cs with
  | [] => Ok g
  | child :: cs =>
      do (g, cc) <- clone g child;
      do g <- update g (Some c) (fun t => setChildAt t i cc);
      cloneRec_range clone g c (S i) cs
  end.

Fixpoint cloneRec (fuel : nat) (g : store) (n : ptr) : result (store * ptr) :=
  match fuel with
  | O => OutOfFuel
  | S fuel =>
      let c := length g in
      let g := g ++ [newNode] in
      do t <- deref g n;
      if isEmpty t then Ok (g, Some c)
      else
        (* the clone starts with the entries of [n] *)
        let g := <[c := t]> g in
        (* now clone the children deep *)
        do g <- cloneRec_range (cloneRec fuel) g c 0 (map snd (filedKids t));
        Ok (g, Some c)
  end.

(** for all prefixes in other node do ... *)
Fixpoint unionRec_prefixes (fuel : nat) (g : store) (n o : ptr) (oIdx : N)
  : result store :=
  match fuel with
  | O => OutOfFuel
  | S fuel =>
      do ot <- deref g o;
      match nextFiled oIdx (filedRoutes ot) with
      | None => Ok g
      | Some (oIdx, oVal) =>
          (* insert/overwrite prefix/value from oNode to nNode *)
          do g <- update g n (fun nt => Ok (insertIdx nt oIdx oVal));
          unionRec_prefixes fuel g n o (oIdx + 1)
      end
  end.

(** for all children in other node do ... *)
Fixpoint unionRec_children (rec : store -> ptr -> ptr -> result store)
    (clone : store -> ptr -> result (store * ptr))
    (fuel : nat) (g : store) (n o : ptr) (oOctet : N) : result store :=
  match fuel with
  | O => OutOfFuel
  | S fuel =>
      do ot <- deref g o;
      match nextFiled oOctet (filedKids ot) with
      | None => Ok g
      | Some (oOctet, _) =>
          let oNode := getChild ot (byte oOctet) in
          (* get nNode with same octet *)
          do nt <- deref g n;
          let nNode := getChild nt (byte oOctet) in
          do g <-
            match nNode with
            | None =>
                (* union child from oNode into nNode *)
                do (g, c) <- clone g oNode;
                update g n (fun nt => Ok (insertChild nt (byte oOctet) c))
            | Some _ =>
                (* both nodes have child with octet, call union rec-descent *)
                rec g nNode oNode
            end;
          unionRec_children rec clone fuel g n o (oOctet + 1)
      end
  end.

Fixpoint unionRec (fuel : nat) (g : store) (n o : ptr) : result store :=
  match fuel with
  | O => OutOfFuel
  | S depth =>
      do g <- unionRec_prefixes fuel g n o 0;
      unionRec_children (unionRec depth) (cloneRec depth) fuel g n o 0
  end.

End Ops.

End filed.

(** ** The entries of a compressed node *)

Section FiledRuns.

Context {V : Type}.

(** The zero value of [V]. *)
Variable zero : V.

Local Abbreviation heap := (list (node V)).

(** Slot [k] of a popcount-compressed slice paired with the [k]-th set
    bit of its bit set. *)
Definition filedOf (n : node V) : filedNode V :=
  mkFiled (zip (elems (prefixesBitset n)) (prefixes n))
          (zip (elems (childrenBitset n)) (children n)).

(** One node operation, run on the store of nodes and on the store of
    entries. *)
Inductive filedStep (h : heap) (g : list (filedNode V))
  : heap -> list (filedNode V) -> Prop :=
| filedStep_newNode :
    filedStep h g (fst (alloc h newNode)) (g ++ [filed.newNode])
| filedStep_insertPrefix l n t octet prefixLen val n' t' :
    h !! l = Some n -> g !! l = Some t ->
    insertPrefix n octet prefixLen val = Ok n' ->
    filed.insertPrefix t octet prefixLen val = Ok t' ->
    filedStep h g (<[l := n']> h) (<[l := t']> g)
| filedStep_insertIdx l n t baseIdx val n' :
    h !! l = Some n -> g !! l = Some t ->
    insertIdx n baseIdx val = Ok n' ->
    filedStep h g (<[l := n']> h) (<[l := filed.insertIdx t baseIdx val]> g)
| filedStep_deletePrefix l n t octet prefixLen n' t' wasPresent :
    h !! l = Some n -> g !! l = Some t ->
    deletePrefix n octet prefixLen = Ok (n', wasPresent) ->
    filed.deletePrefix t octet prefixLen = Ok (t', wasPresent) ->
    filedStep h g (<[l := n']> h) (<[l := t']> g)
| filedStep_updatePrefix l n t octet prefixLen cb n' t' val :
    h !! l = Some n -> g !! l = Some t ->
    updatePrefix zero n octet prefixLen cb = Ok (n', val) ->
    filed.updatePrefix zero t octet prefixLen cb = Ok (t', val) ->
    filedStep h g (<[l := n']> h) (<[l := t']> g)
| filedStep_insertChild l n t octet child n' :
    h !! l = Some n -> g !! l = Some t ->
    insertChild n octet child = Ok n' ->
    filedStep h g (<[l := n']> h) (<[l := filed.insertChild t octet child]> g)
| filedStep_deleteChild l n t octet n' :
    h !! l = Some n -> g !! l = Some t ->
    deleteChild n octet = Ok n' ->
    filedStep h g (<[l := n']> h) (<[l := filed.deleteChild t octet]> g)
| filedStep_unionRec fuel p q h' g' :
    unionRec zero fuel h p q = Ok h' ->
    filed.unionRec fuel g p q = Ok g' ->
    filedStep h g h' g'
| filedStep_cloneRec fuel p h' g' c :
    cloneRec fuel h p = Ok (h', c) ->
    filed.cloneRec fuel g p = Ok (g', c) ->
    filedStep h g h' g'.

(** The runs from a fresh node: the store of nodes with the entries the
    operations of the run have filed. *)
Inductive filedRun : heap -> list (filedNode V) -> Prop :=
| filedRun_fresh : filedRun [newNode] [filed.newNode]
| filedRun_step h g h' g' :
    filedRun h g -> filedStep h g h' g' -> filedRun h' g'.

End FiledRuns.

(** A result with its value mapped. *)
Definition rmap {A B} (f : A -> B) (r : result A) : result B :=
  match r with
  | Ok a => Ok (f a)
  | Panic => Panic
  | OutOfFuel => OutOfFuel
  end.

(** The routes 44/8, 32/6 and 0/0 and a child at octet 10, inserted in
    this order into a fresh node: each route goes to slot 0. *)
Definition filedNode1 : node nat := mkNode (bitsOf [300]) New [30%nat] [].
Definition filedNode2 : node nat := mkNode (bitsOf [72; 300]) New [20; 30]%nat [].
Definition filedNode3 : node nat := mkNode (bitsOf [1; 72; 300]) New [10; 20; 30]%nat [].

(** * Facts about the bit set

    [Rank] counts the members up to an index, [Count] all of them; [Set]
    and [Clear] move the ranks of the larger members by one.  [NextSet]
    finds the least member from an index on. *)

Lemma below_S n : below (S n) = below n ++ [N.of_nat n].
Proof. unfold below. rewrite seq_S, map_app. reflexivity. Qed.

Lemma members_S b n :
  members b (S n) =
  members b n ++ (if N.testbit b (N.of_nat n) then [N.of_nat n] else []).
Proof.
  unfold members. rewrite below_S, List.filter_app. simpl.
  destruct (N.testbit b (N.of_nat n)); reflexivity.
Qed.

Lemma in_members b n i :
  In i (members b n) <-> (N.to_nat i < n)%nat /\ N.testbit b i = true.
Proof.
  unfold members, below. rewrite List.filter_In, in_map_iff. split.
  - intros [(k & <- & Hk) Ht]. apply in_seq in Hk. split; [lia | assumption].
  - intros [Hi Ht]. split; [| assumption].
    exists (N.to_nat i). split; [lia |]. apply in_seq. lia.
Qed.

Lemma testbit_above_size b i : N.size b <= i -> N.testbit b i = false.
Proof.
  intros H. destruct (N.eq_dec b 0) as [-> | Hb].
  - apply N.bits_0.
  - apply N.bits_above_log2. rewrite N.size_log2 in H by assumption. lia.
Qed.

Lemma length_members_le b n m :
  (n <= m)%nat -> (length (members b n) <= length (members b m))%nat.
Proof.
  induction 1 as [| m _ IH]; [lia |].
  rewrite members_S, length_app. lia.
Qed.

Lemma members_above_size b n :
  (N.to_nat (N.size b) <= n)%nat -> members b n = elems b.
Proof.
  unfold elems. induction 1 as [| m Hm IH]; [reflexivity |].
  rewrite members_S, IH, testbit_above_size by lia. apply app_nil_r.
Qed.

Lemma Rank_le_Count b i : (Rank b i <= Count b)%nat.
Proof.
  unfold Rank, Count.
  destruct (Nat.le_gt_cases (N.to_nat (N.size b)) (S (N.to_nat i))) as [H | H].
  - rewrite members_above_size by assumption. lia.
  - apply length_members_le. lia.
Qed.

Lemma Rank_pos b i : Test b i = true -> (1 <= Rank b i)%nat.
Proof.
  unfold Rank, Test. intros H. rewrite members_S, N2Nat.id, H, length_app.
  simpl. lia.
Qed.

Lemma Rank_mono b i j : i <= j -> (Rank b i <= Rank b j)%nat.
Proof. intros H. apply length_members_le. lia. Qed.

Lemma Rank_lt b i j :
  i < j -> Test b j = true -> (Rank b i < Rank b j)%nat.
Proof.
  unfold Rank, Test. intros Hij Hj.
  rewrite (members_S b (N.to_nat j)), N2Nat.id, Hj, length_app. simpl.
  pose proof (length_members_le b (S (N.to_nat i)) (N.to_nat j)). lia.
Qed.

(** Counting after [Set] of an absent index. *)
Lemma length_members_Set b i n :
  N.testbit b i = false ->
  length (members (N.setbit b i) n) =
  (length (members b n) + if (N.to_nat i <? n)%nat then 1 else 0)%nat.
Proof.
  intros Hi. induction n as [| n IH]; [reflexivity |].
  rewrite !members_S, !length_app, IH, N.setbit_eqb.
  destruct (N.eqb_spec i (N.of_nat n)) as [-> | Hne].
  - rewrite Hi, Nat2N.id. simpl.
    rewrite (proj2 (Nat.ltb_ge _ _)) by lia.
    rewrite (proj2 (Nat.ltb_lt _ _)) by lia. simpl. lia.
  - simpl. destruct (N.testbit b (N.of_nat n)); simpl;
    destruct (Nat.ltb_spec (N.to_nat i) n), (Nat.ltb_spec (N.to_nat i) (S n)); lia.
Qed.

Lemma length_members_Clear b i n :
  N.testbit b i = true ->
  (length (members (N.clearbit b i) n) + if (N.to_nat i <? n)%nat then 1 else 0)%nat =
  length (members b n).
Proof.
  intros Hi. induction n as [| n IH]; [reflexivity |].
  rewrite !members_S, !length_app, N.clearbit_eqb.
  destruct (N.eqb_spec i (N.of_nat n)) as [-> | Hne].
  - rewrite Hi, Nat2N.id in *. simpl.
    rewrite (proj2 (Nat.ltb_ge _ _)) in IH by lia.
    rewrite (proj2 (Nat.ltb_lt _ _)) by lia. simpl. lia.
  - rewrite andb_true_r. destruct (N.testbit b (N.of_nat n)); simpl;
    destruct (Nat.ltb_spec (N.to_nat i) n), (Nat.ltb_spec (N.to_nat i) (S n)); lia.
Qed.

Lemma Count_members b n :
  (N.to_nat (N.size b) <= n)%nat -> Count b = length (members b n).
Proof. intros H. unfold Count. rewrite members_above_size; auto. Qed.

Lemma Count_Set b i :
  Test b i = false -> Count (Set_ b i) = S (Count b).
Proof.
  unfold Test, Set_. intros Hi.
  set (n := (S (N.to_nat i) + N.to_nat (N.size b) + N.to_nat (N.size (N.setbit b i)))%nat).
  rewrite (Count_members b n), (Count_members _ n) by lia.
  rewrite length_members_Set by assumption.
  rewrite (proj2 (Nat.ltb_lt _ _)) by lia. lia.
Qed.

Lemma Rank_Set b i j :
  Test b i = false ->
  Rank (Set_ b i) j = (Rank b j + if (i <=? j)%N then 1 else 0)%nat.
Proof.
  unfold Test, Set_, Rank. intros Hi. rewrite length_members_Set by assumption.
  destruct (N.leb_spec i j), (Nat.ltb_spec (N.to_nat i) (S (N.to_nat j))); lia.
Qed.

Lemma Count_Clear b i :
  Test b i = true -> S (Count (Clear b i)) = Count b.
Proof.
  unfold Test, Clear. intros Hi.
  set (n := (S (N.to_nat i) + N.to_nat (N.size b) + N.to_nat (N.size (N.clearbit b i)))%nat).
  rewrite (Count_members b n), (Count_members _ n) by lia.
  rewrite <- (length_members_Clear b i n) by assumption.
  rewrite (proj2 (Nat.ltb_lt _ _)) by lia. lia.
Qed.

Lemma Rank_Clear b i j :
  Test b i = true ->
  (Rank (Clear b i) j + if (i <=? j)%N then 1 else 0)%nat = Rank b j.
Proof.
  unfold Test, Clear, Rank. intros Hi.
  rewrite <- (length_members_Clear b i) by eassumption.
  destruct (N.leb_spec i j), (Nat.ltb_spec (N.to_nat i) (S (N.to_nat j))); lia.
Qed.

Lemma Test_Set b i j : Test (Set_ b i) j = (i =? j) || Test b j.
Proof. apply N.setbit_eqb. Qed.

Lemma Test_Clear b i j : Test (Clear b i) j = Test b j && negb (i =? j).
Proof. apply N.clearbit_eqb. Qed.

Lemma Set_present b i : Test b i = true -> Set_ b i = b.
Proof.
  intros H. apply N.bits_inj. intros j. change (Test (Set_ b i) j = Test b j).
  rewrite Test_Set. destruct (N.eqb_spec i j) as [-> |]; [rewrite H |]; reflexivity.
Qed.

Lemma Count_New : Count New = 0%nat.
Proof. reflexivity. Qed.

Lemma Test_New i : Test New i = false.
Proof. apply N.bits_0. Qed.

Lemma NoDup_below n : List.NoDup (below n).
Proof.
  unfold below. apply Finite.Injective_map_NoDup.
  - intros x y H. lia.
  - apply seq_NoDup.
Qed.

Lemma NoDup_members b n : List.NoDup (members b n).
Proof. apply List.NoDup_filter, NoDup_below. Qed.

Lemma in_elems b i : In i (elems b) <-> Test b i = true.
Proof.
  unfold elems, Test. rewrite in_members. split; [tauto |].
  intros H. split; [| assumption].
  destruct (N.lt_ge_cases i (N.size b)) as [Hlt | Hge]; [lia |].
  rewrite testbit_above_size in H by assumption. discriminate.
Qed.

(** The member [i] is the element of [elems b] at slot [Rank b i - 1]. *)
Lemma elems_Rank b i :
  Test b i = true -> elems b !! (Rank b i - 1)%nat = Some i.
Proof.
  intros Hi.
  rewrite <- (members_above_size b (S (N.to_nat i) + N.to_nat (N.size b))) by lia.
  generalize (N.to_nat (N.size b)) as d.
  induction d as [| d IH].
  - rewrite Nat.add_0_r. unfold Rank. rewrite members_S, N2Nat.id.
    unfold Test in Hi. rewrite Hi, length_app. simpl.
    rewrite lookup_app_r by lia. replace (_ - _)%nat with 0%nat by lia. reflexivity.
  - rewrite Nat.add_succ_r, members_S. apply lookup_app_l_Some, IH.
Qed.

Lemma elems_lookup b k i :
  elems b !! k = Some i <-> Test b i = true /\ Rank b i = S k.
Proof.
  split.
  - intros Hk. assert (Hi : Test b i = true).
    { apply in_elems. apply list_elem_of_In. eapply list_elem_of_lookup_2, Hk. }
    split; [assumption |].
    pose proof (elems_Rank b i Hi) as Hr. pose proof (Rank_pos b i Hi).
    assert (ND : base.NoDup (elems b)) by (apply NoDup_ListNoDup, NoDup_members).
    pose proof (NoDup_lookup _ _ _ _ ND Hk Hr). lia.
  - intros [Hi Hr]. pose proof (elems_Rank b i Hi) as H. rewrite Hr in H.
    replace (S k - 1)%nat with k in H by lia. assumption.
Qed.

Lemma ctz_spec p :
  N.testbit (Npos p) (ctz p) = true /\
  forall k, k < ctz p -> N.testbit (Npos p) k = false.
Proof.
  induction p as [p IH | p IH |]; cbn [ctz]; try (split; [reflexivity | lia]).
  destruct IH as [IH1 IH2].
  assert (E : forall k, N.testbit (N.pos p~0) (N.succ k) = N.testbit (N.pos p) k).
  { intros k. change (N.pos p~0) with (2 * N.pos p). apply N.testbit_even_succ. lia. }
  split.
  - rewrite E. assumption.
  - intros k Hk. destruct (N.eq_dec k 0) as [-> | Hk0]; [reflexivity |].
    replace k with (N.succ (N.pred k)) by lia. rewrite E. apply IH2. lia.
Qed.

Lemma NextSet_found b i j :
  NextSet b i = (j, true) ->
  i <= j /\ Test b j = true /\ forall k, i <= k < j -> Test b k = false.
Proof.
  unfold NextSet, Test. destruct (N.shiftr b i) as [| p] eqn:E; [discriminate |].
  intros [= <-]. destruct (ctz_spec p) as [H1 H2]. rewrite <- E in H1, H2.
  rewrite N.shiftr_spec in H1 by lia. split; [lia |]. split.
  - rewrite N.add_comm. assumption.
  - intros k Hk. specialize (H2 (k - i)). rewrite N.shiftr_spec in H2 by lia.
    replace (k - i + i) with k in H2 by lia. apply H2. lia.
Qed.

Lemma NextSet_none b i j :
  NextSet b i = (j, false) -> j = 0 /\ forall k, i <= k -> Test b k = false.
Proof.
  unfold NextSet, Test. destruct (N.shiftr b i) as [| p] eqn:E; [| discriminate].
  intros [= <-]. split; [reflexivity |]. intros k Hk.
  replace k with (k - i + i) by lia. rewrite <- N.shiftr_spec by lia.
  rewrite E. apply N.bits_0.
Qed.

Lemma Test_lt_size b i : Test b i = true -> i < N.size b.
Proof.
  intros H. destruct (N.lt_ge_cases i (N.size b)); [assumption |].
  unfold Test in H. rewrite testbit_above_size in H by assumption. discriminate.
Qed.

Lemma baseIndices_range b i : baseIndices b -> Test b i = true -> 1 <= i <= 511.
Proof.
  intros [H0 Hs] Ht. pose proof (Test_lt_size _ _ Ht).
  destruct (N.eq_dec i 0) as [-> |]; [congruence | lia].
Qed.

(** * Slices and outcomes

    A slice access returns exactly when its index is in range. *)

Lemma bind_Ok {A B} (r : result A) (k : A -> result B) b :
  bind r k = Ok b <-> exists a, r = Ok a /\ k a = Ok b.
Proof.
  destruct r as [a | |]; simpl.
  - split; [intros H; exists a; auto | intros (a0 & [= <-] & H); exact H].
  - split; [discriminate | intros (a0 & [=] & _)].
  - split; [discriminate | intros (a0 & [=] & _)].
Qed.

Lemma index_Ok {A} (s : list A) (i : Z) a :
  slices.index s i = Ok a <-> (0 <= i)%Z /\ s !! Z.to_nat i = Some a.
Proof.
  unfold slices.index. destruct (Z.ltb_spec i 0).
  - split; [discriminate | lia].
  - destruct (s !! Z.to_nat i); split; try discriminate.
    + intros [= ->]. auto.
    + intros [_ [= ->]]. reflexivity.
    + intros [_ [=]].
Qed.

Lemma index_in_range {A} (s : list A) (i : Z) :
  (0 <= i < Z.of_nat (length s))%Z -> exists a, slices.index s i = Ok a.
Proof.
  intros H. destruct (lookup_lt_is_Some_2 s (Z.to_nat i)) as [a Ha]; [lia |].
  exists a. apply index_Ok. split; [lia | assumption].
Qed.

Lemma store_in_range {A} (s : list A) (i : Z) v :
  (0 <= i < Z.of_nat (length s))%Z ->
  slices.store s i v = Ok (<[Z.to_nat i := v]> s).
Proof.
  intros H. unfold slices.store.
  destruct (Z.ltb_spec i 0), (Z.leb_spec (Z.of_nat (length s)) i); simpl; try lia.
  reflexivity.
Qed.

Lemma Insert_in_range {A} (s : list A) (i : Z) v :
  (0 <= i <= Z.of_nat (length s))%Z ->
  slices.Insert s i v = Ok (take (Z.to_nat i) s ++ v :: drop (Z.to_nat i) s).
Proof.
  intros H. unfold slices.Insert.
  destruct (Z.ltb_spec i 0), (Z.ltb_spec (Z.of_nat (length s)) i); simpl; try lia.
  reflexivity.
Qed.

Lemma Delete_in_range {A} (s : list A) (i : Z) :
  (0 <= i < Z.of_nat (length s))%Z ->
  slices.Delete s i (i + 1) = Ok (take (Z.to_nat i) s ++ drop (S (Z.to_nat i)) s).
Proof.
  intros H. unfold slices.Delete.
  destruct (Z.ltb_spec i 0), (Z.ltb_spec (i + 1) i),
    (Z.ltb_spec (Z.of_nat (length s)) (i + 1)); simpl; try lia.
  replace (Z.to_nat (i + 1)) with (S (Z.to_nat i)) by lia. reflexivity.
Qed.

Section NodeFacts.
Context {V : Type} (zero : V).
Implicit Types n : node V.

Lemma prefixRank_bounds n idx :
  length (prefixes n) = Count (prefixesBitset n) ->
  Test (prefixesBitset n) idx = true ->
  (0 <= prefixRank n idx < Z.of_nat (length (prefixes n)))%Z.
Proof.
  intros Hc Ht. unfold prefixRank.
  pose proof (Rank_pos _ _ Ht). pose proof (Rank_le_Count (prefixesBitset n) idx). lia.
Qed.

Lemma childRank_bounds n octet :
  length (children n) = Count (childrenBitset n) ->
  Test (childrenBitset n) octet = true ->
  (0 <= childRank n octet < Z.of_nat (length (children n)))%Z.
Proof.
  intros Hc Ht. unfold childRank.
  pose proof (Rank_pos _ _ Ht). pose proof (Rank_le_Count (childrenBitset n) octet). lia.
Qed.

Lemma getValByIndex_present n idx :
  length (prefixes n) = Count (prefixesBitset n) ->
  Test (prefixesBitset n) idx = true ->
  exists v, getValByIndex zero n idx = Ok (v, true) /\
            prefixes n !! (Rank (prefixesBitset n) idx - 1)%nat = Some v.
Proof.
  intros Hc Ht. unfold getValByIndex. rewrite Ht.
  destruct (index_in_range (prefixes n) (prefixRank n idx)) as [v Hv].
  { apply prefixRank_bounds; assumption. }
  exists v. rewrite Hv. split; [reflexivity |].
  apply index_Ok in Hv as [_ Hv]. unfold prefixRank in Hv.
  replace (Z.to_nat _) with (Rank (prefixesBitset n) idx - 1)%nat in Hv by lia.
  assumption.
Qed.

End NodeFacts.

(** * Popcount-compressed slices

    [slot b s i] reads a compressed slice [s] through its bit set [b].
    Writing at the rank of a member, inserting at the rank of a new
    member and deleting at the rank of a cleared one are the point-wise
    update of that reading. *)

Section Compressed.
Context {A : Type}.
Implicit Types (b : BitSet) (s : list A).

Lemma lookup_insert_at s (r : nat) (v : A) k :
  (r <= length s)%nat ->
  (take r s ++ v :: drop r s) !! k =
  if (k <? r)%nat then s !! k else if (k =? r)%nat then Some v else s !! (k - 1)%nat.
Proof.
  intros Hr. destruct (Nat.ltb_spec k r).
  - rewrite lookup_app_l by (rewrite length_take; lia). apply lookup_take_lt. lia.
  - rewrite lookup_app_r by (rewrite length_take; lia). rewrite length_take.
    replace (r `min` length s)%nat with r by lia.
    destruct (Nat.eqb_spec k r) as [-> | Hne].
    + rewrite Nat.sub_diag. reflexivity.
    + replace (k - r)%nat with (S (k - r - 1)) by lia. simpl.
      rewrite lookup_drop. f_equal. lia.
Qed.

Lemma lookup_delete_at s (r : nat) k :
  (r < length s)%nat ->
  (take r s ++ drop (S r) s) !! k =
  if (k <? r)%nat then s !! k else s !! (S k).
Proof.
  intros Hr. destruct (Nat.ltb_spec k r).
  - rewrite lookup_app_l by (rewrite length_take; lia). apply lookup_take_lt. lia.
  - rewrite lookup_app_r by (rewrite length_take; lia). rewrite length_take.
    replace (r `min` length s)%nat with r by lia.
    rewrite lookup_drop. f_equal. lia.
Qed.

Lemma slot_is_Some b s i :
  length s = Count b -> Test b i = true -> is_Some (slot b s i).
Proof.
  intros Hc Ht. unfold slot. rewrite Ht. apply lookup_lt_is_Some_2.
  pose proof (Rank_pos b i Ht). pose proof (Rank_le_Count b i). lia.
Qed.

Lemma slot_Some_Test b s i v : slot b s i = Some v -> Test b i = true.
Proof. unfold slot. destruct (Test b i); [reflexivity | discriminate]. Qed.

Lemma slot_store b s i v j :
  length s = Count b -> Test b i = true ->
  slot b (<[(Rank b i - 1)%nat := v]> s) j =
  if i =? j then Some v else slot b s j.
Proof.
  intros Hc Hi. unfold slot.
  pose proof (Rank_pos b i Hi). pose proof (Rank_le_Count b i).
  destruct (N.eqb_spec i j) as [<- | Hne].
  - rewrite Hi. apply list_lookup_insert_eq. lia.
  - destruct (Test b j) eqn:Hj; [| reflexivity].
    apply list_lookup_insert_ne. pose proof (Rank_pos b j Hj).
    destruct (N.lt_total i j) as [Hlt | [Heq | Hgt]]; [| contradiction |].
    + pose proof (Rank_lt b i j Hlt Hj). lia.
    + pose proof (Rank_lt b j i Hgt Hi). lia.
Qed.

Lemma slot_Insert b s i v j :
  length s = Count b -> Test b i = false ->
  slot (Set_ b i) (take (Rank b i) s ++ v :: drop (Rank b i) s) j =
  if i =? j then Some v else slot b s j.
Proof.
  intros Hc Hi. unfold slot. rewrite Test_Set, Rank_Set by assumption.
  pose proof (Rank_le_Count b i).
  rewrite lookup_insert_at by lia.
  destruct (N.eqb_spec i j) as [<- | Hne]; simpl.
  - rewrite N.leb_refl.
    destruct (Nat.ltb_spec (Rank b i + 1 - 1) (Rank b i)); [lia |].
    destruct (Nat.eqb_spec (Rank b i + 1 - 1) (Rank b i)); [reflexivity | lia].
  - destruct (Test b j) eqn:Hj; [| reflexivity].
    pose proof (Rank_pos b j Hj).
    destruct (N.leb_spec i j) as [Hle | Hgt].
    + assert (Hlt : i < j) by lia.
      assert (Rank b i < Rank b j)%nat by (apply Rank_lt; assumption).
      destruct (Nat.ltb_spec (Rank b j + 1 - 1) (Rank b i)); [lia |].
      destruct (Nat.eqb_spec (Rank b j + 1 - 1) (Rank b i)); [lia |].
      f_equal. lia.
    + assert (Rank b j <= Rank b i)%nat by (apply Rank_mono; lia).
      destruct (Nat.ltb_spec (Rank b j + 0 - 1) (Rank b i)); [| lia].
      f_equal. lia.
Qed.

Lemma slot_Delete b s i j :
  length s = Count b -> Test b i = true ->
  slot (Clear b i) (take (Rank b i - 1) s ++ drop (S (Rank b i - 1)) s) j =
  if i =? j then None else slot b s j.
Proof.
  intros Hc Hi. unfold slot. rewrite Test_Clear.
  pose proof (Rank_pos b i Hi). pose proof (Rank_le_Count b i).
  destruct (N.eqb_spec i j) as [<- | Hne]; simpl.
  - rewrite andb_false_r. reflexivity.
  - rewrite andb_true_r. destruct (Test b j) eqn:Hj; [| reflexivity].
    rewrite lookup_delete_at by lia.
    pose proof (Rank_Clear b i j Hi) as Hr. pose proof (Rank_pos b j Hj).
    destruct (N.leb_spec i j) as [Hle | Hgt].
    + assert (Hlt : i < j) by lia.
      assert (Rank b i < Rank b j)%nat by (apply Rank_lt; assumption).
      destruct (Nat.ltb_spec (Rank (Clear b i) j - 1) (Rank b i - 1)); [lia |].
      f_equal. lia.
    + assert (Rank b j <= Rank b i)%nat by (apply Rank_mono; lia).
      assert (Rank b j < Rank b i)%nat by (apply Rank_lt; assumption).
      destruct (Nat.ltb_spec (Rank (Clear b i) j - 1) (Rank b i - 1)); [| lia].
      f_equal. lia.
Qed.

Lemma length_Insert s (r : nat) (v : A) :
  (r <= length s)%nat -> length (take r s ++ v :: drop r s) = S (length s).
Proof.
  intros H. rewrite length_app, length_take. simpl. rewrite length_drop. lia.
Qed.

Lemma length_Delete s (r : nat) :
  (r < length s)%nat -> S (length (take r s ++ drop (S r) s)) = length s.
Proof.
  intros H. rewrite length_app, length_take, length_drop. lia.
Qed.

End Compressed.

(** * The operations of one node

    Each operation in terms of [slot]: what it returns, and the node it
    leaves. *)

Section NodeOps.
Context {V : Type} (zero : V).
Implicit Types n : node V.

Lemma prefixRank_nat n idx :
  Test (prefixesBitset n) idx = true ->
  Z.to_nat (prefixRank n idx) = (Rank (prefixesBitset n) idx - 1)%nat.
Proof. intros Ht. unfold prefixRank. lia. Qed.

Lemma childRank_nat n octet :
  Test (childrenBitset n) octet = true ->
  Z.to_nat (childRank n octet) = (Rank (childrenBitset n) octet - 1)%nat.
Proof. intros Ht. unfold childRank. lia. Qed.

Lemma getValByIndex_slot n j :
  prefixesOk n ->
  getValByIndex zero n j =
  match slot (prefixesBitset n) (prefixes n) j with
  | Some v => Ok (v, true)
  | None => Ok (zero, false)
  end.
Proof.
  intros Hc. unfold getValByIndex, slot.
  destruct (Test (prefixesBitset n) j) eqn:Ht; [| reflexivity].
  destruct (index_in_range (prefixes n) (prefixRank n j)) as [v Hv].
  { apply prefixRank_bounds; assumption. }
  rewrite Hv. apply index_Ok in Hv as [_ Hv].
  rewrite prefixRank_nat in Hv by assumption. rewrite Hv. reflexivity.
Qed.

Lemma getChild_slot n c :
  childrenOk n ->
  getChild n c =
  match slot (childrenBitset n) (children n) c with
  | Some p => Ok p
  | None => Ok None
  end.
Proof.
  intros Hc. unfold getChild, slot.
  destruct (Test (childrenBitset n) c) eqn:Ht; [| reflexivity]. simpl.
  destruct (index_in_range (children n) (childRank n c)) as [v Hv].
  { apply childRank_bounds; assumption. }
  rewrite Hv. apply index_Ok in Hv as [_ Hv].
  rewrite childRank_nat in Hv by assumption. rewrite Hv. reflexivity.
Qed.

Lemma insertIdx_spec n idx v :
  prefixesOk n ->
  exists n', insertIdx n idx v = Ok n' /\ prefixesOk n' /\
    childrenBitset n' = childrenBitset n /\ children n' = children n /\
    (forall j, Test (prefixesBitset n') j = (idx =? j) || Test (prefixesBitset n) j) /\
    (forall j, slot (prefixesBitset n') (prefixes n') j =
               if idx =? j then Some v else slot (prefixesBitset n) (prefixes n) j).
Proof.
  intros Hc. unfold insertIdx, prefixesOk in *.
  destruct (Test (prefixesBitset n) idx) eqn:Ht.
  - rewrite store_in_range by (apply prefixRank_bounds; assumption).
    eexists. split; [reflexivity |]. simpl.
    rewrite prefixRank_nat by assumption.
    split; [rewrite length_insert; assumption |].
    split; [reflexivity |]. split; [reflexivity |]. split.
    + intros j. destruct (N.eqb_spec idx j) as [<- |]; [rewrite Ht |]; reflexivity.
    + intros j. apply slot_store; assumption.
  - pose proof (Rank_le_Count (prefixesBitset n) idx) as Hle.
    assert (Hr : prefixRank (set_prefixesBitset n (Set_ (prefixesBitset n) idx)) idx
                 = Z.of_nat (Rank (prefixesBitset n) idx)).
    { unfold prefixRank. simpl. rewrite Rank_Set, N.leb_refl by assumption. lia. }
    rewrite Hr. simpl. rewrite Insert_in_range by lia. rewrite Nat2Z.id.
    eexists. split; [reflexivity |]. simpl.
    split; [rewrite length_Insert, Count_Set by (assumption || lia); congruence |].
    split; [reflexivity |]. split; [reflexivity |]. split.
    + intros j. apply Test_Set.
    + intros j. apply slot_Insert; assumption.
Qed.

Lemma insertChild_spec n octet child :
  childrenOk n ->
  exists n', insertChild n octet child = Ok n' /\ childrenOk n' /\
    prefixesBitset n' = prefixesBitset n /\ prefixes n' = prefixes n /\
    (forall j, Test (childrenBitset n') j = (octet =? j) || Test (childrenBitset n) j) /\
    (forall j, slot (childrenBitset n') (children n') j =
               if octet =? j then Some child else slot (childrenBitset n) (children n) j).
Proof.
  intros Hc. unfold insertChild, childrenOk in *.
  destruct (Test (childrenBitset n) octet) eqn:Ht.
  - rewrite store_in_range by (apply childRank_bounds; assumption).
    eexists. split; [reflexivity |]. simpl.
    rewrite childRank_nat by assumption.
    split; [rewrite length_insert; assumption |].
    split; [reflexivity |]. split; [reflexivity |]. split.
    + intros j. destruct (N.eqb_spec octet j) as [<- |]; [rewrite Ht |]; reflexivity.
    + intros j. apply slot_store; assumption.
  - pose proof (Rank_le_Count (childrenBitset n) octet) as Hle.
    assert (Hr : childRank (set_childrenBitset n (Set_ (childrenBitset n) octet)) octet
                 = Z.of_nat (Rank (childrenBitset n) octet)).
    { unfold childRank. simpl. rewrite Rank_Set, N.leb_refl by assumption. lia. }
    rewrite Hr. simpl. rewrite Insert_in_range by lia. rewrite Nat2Z.id.
    eexists. split; [reflexivity |]. simpl.
    split; [rewrite length_Insert, Count_Set by (assumption || lia); congruence |].
    split; [reflexivity |]. split; [reflexivity |]. split.
    + intros j. apply Test_Set.
    + intros j. apply slot_Insert; assumption.
Qed.

Lemma deletePrefix_absent n octet prefixLen idx :
  prefixToBaseIndex octet prefixLen = Ok idx ->
  Test (prefixesBitset n) idx = false ->
  deletePrefix n octet prefixLen = Ok (n, false).
Proof. intros Hb Ht. unfold deletePrefix. rewrite Hb. simpl. rewrite Ht. reflexivity. Qed.

Lemma deletePrefix_present n octet prefixLen idx :
  prefixesOk n ->
  prefixToBaseIndex octet prefixLen = Ok idx ->
  Test (prefixesBitset n) idx = true ->
  exists n', deletePrefix n octet prefixLen = Ok (n', true) /\ prefixesOk n' /\
    childrenBitset n' = childrenBitset n /\ children n' = children n /\
    (forall j, Test (prefixesBitset n') j = Test (prefixesBitset n) j && negb (idx =? j)) /\
    (forall j, slot (prefixesBitset n') (prefixes n') j =
               if idx =? j then None else slot (prefixesBitset n) (prefixes n) j).
Proof.
  intros Hc Hb Ht. unfold deletePrefix, prefixesOk in *. rewrite Hb. simpl. rewrite Ht. simpl.
  pose proof (prefixRank_bounds n idx Hc Ht) as Hr.
  rewrite Delete_in_range by assumption. rewrite prefixRank_nat by assumption.
  eexists. split; [reflexivity |]. unfold Compact. simpl.
  pose proof (Rank_pos _ _ Ht). pose proof (Rank_le_Count (prefixesBitset n) idx).
  split.
  { pose proof (Count_Clear _ _ Ht).
    pose proof (length_Delete (prefixes n) (Rank (prefixesBitset n) idx - 1)). lia. }
  split; [reflexivity |]. split; [reflexivity |]. split.
  - intros j. apply Test_Clear.
  - intros j. apply slot_Delete; assumption.
Qed.

Lemma deleteChild_absent n octet :
  Test (childrenBitset n) octet = false -> deleteChild n octet = Ok n.
Proof. intros Ht. unfold deleteChild. rewrite Ht. reflexivity. Qed.

Lemma deleteChild_present n octet :
  childrenOk n ->
  Test (childrenBitset n) octet = true ->
  exists n', deleteChild n octet = Ok n' /\ childrenOk n' /\
    prefixesBitset n' = prefixesBitset n /\ prefixes n' = prefixes n /\
    (forall j, Test (childrenBitset n') j = Test (childrenBitset n) j && negb (octet =? j)) /\
    (forall j, slot (childrenBitset n') (children n') j =
               if octet =? j then None else slot (childrenBitset n) (children n) j).
Proof.
  intros Hc Ht. unfold deleteChild, childrenOk in *. rewrite Ht. simpl.
  pose proof (childRank_bounds n octet Hc Ht) as Hr.
  rewrite Delete_in_range by assumption. rewrite childRank_nat by assumption.
  eexists. split; [reflexivity |]. unfold Compact. simpl.
  pose proof (Rank_pos _ _ Ht). pose proof (Rank_le_Count (childrenBitset n) octet).
  split.
  { pose proof (Count_Clear _ _ Ht).
    pose proof (length_Delete (children n) (Rank (childrenBitset n) octet - 1)). lia. }
  split; [reflexivity |]. split; [reflexivity |]. split.
  - intros j. apply Test_Clear.
  - intros j. apply slot_Delete; assumption.
Qed.

Lemma updatePrefix_spec n octet prefixLen cb idx :
  prefixesOk n ->
  prefixToBaseIndex octet prefixLen = Ok idx ->
  exists n',
    let old := slot (prefixesBitset n) (prefixes n) idx in
    let val := cb (default zero old) (Test (prefixesBitset n) idx) in
    updatePrefix zero n octet prefixLen cb = Ok (n', val) /\ prefixesOk n' /\
    childrenBitset n' = childrenBitset n /\ children n' = children n /\
    (forall j, Test (prefixesBitset n') j = (idx =? j) || Test (prefixesBitset n) j) /\
    (forall j, slot (prefixesBitset n') (prefixes n') j =
               if idx =? j then Some val else slot (prefixesBitset n) (prefixes n) j).
Proof.
  intros Hc Hb. unfold updatePrefix, prefixesOk in *. rewrite Hb. simpl.
  destruct (Test (prefixesBitset n) idx) eqn:Ht.
  - pose proof (prefixRank_bounds n idx Hc Ht) as Hr.
    destruct (index_in_range (prefixes n) _ Hr) as [v Hv]. rewrite Hv. simpl.
    rewrite store_in_range by assumption.
    apply index_Ok in Hv as [_ Hv]. rewrite prefixRank_nat in * by assumption.
    assert (Hold : slot (prefixesBitset n) (prefixes n) idx = Some v).
    { unfold slot. rewrite Ht. assumption. }
    rewrite Hold. simpl. eexists.
    split; [reflexivity |]. simpl.
    split; [rewrite length_insert; assumption |].
    split; [reflexivity |]. split; [reflexivity |]. split.
    + intros j. destruct (N.eqb_spec idx j) as [<- |]; [rewrite Ht |]; reflexivity.
    + intros j. apply slot_store; assumption.
  - simpl. pose proof (Rank_le_Count (prefixesBitset n) idx) as Hle.
    assert (Hr : prefixRank (set_prefixesBitset n (Set_ (prefixesBitset n) idx)) idx
                 = Z.of_nat (Rank (prefixesBitset n) idx)).
    { unfold prefixRank. simpl. rewrite Rank_Set, N.leb_refl by assumption. lia. }
    rewrite Hr. rewrite Insert_in_range by lia. rewrite Nat2Z.id.
    assert (Hold : slot (prefixesBitset n) (prefixes n) idx = None).
    { unfold slot. rewrite Ht. reflexivity. }
    rewrite Hold. simpl. eexists.
    split; [reflexivity |]. simpl.
    split; [rewrite length_Insert, Count_Set by (assumption || lia); congruence |].
    split; [reflexivity |]. split; [reflexivity |]. split.
    + intros j. apply Test_Set.
    + intros j. apply slot_Insert; assumption.
Qed.

End NodeOps.

(** * Longest prefix match in a stride

    The backtracking loop is a search along [chain idx], followed by
    index 0. *)

Lemma below_cons k : below (S k) = 0 :: map N.succ (below k).
Proof.
  unfold below. simpl. f_equal. rewrite <- seq_shift, !map_map.
  apply map_ext. intros a. lia.
Qed.

Lemma chain_0 : chain 0 = [].
Proof. reflexivity. Qed.

Lemma size_shiftr_1 idx : idx <> 0 ->
  N.to_nat (N.size idx) = S (N.to_nat (N.size (N.shiftr idx 1))).
Proof.
  intros H. destruct idx as [| p]; [congruence |].
  destruct p; simpl; lia.
Qed.

Lemma chain_cons idx : idx <> 0 -> chain idx = idx :: chain (N.shiftr idx 1).
Proof.
  intros H. unfold chain. rewrite (size_shiftr_1 idx H), below_cons. simpl.
  rewrite N.shiftr_0_r. f_equal. rewrite map_map. apply map_ext. intros k.
  rewrite N.shiftr_shiftr. f_equal. lia.
Qed.

Section Lpm.
Context {V : Type} (zero : V).
Implicit Types n : node V.

Lemma lpmByIndex_loop_find fuel n idx :
  (N.to_nat (N.size idx) < fuel)%nat ->
  lpmByIndex_loop zero fuel n idx =
  match List.find (Test (prefixesBitset n)) (chain idx ++ [0]) with
  | Some i =>
      do val <- slices.index (prefixes n) (prefixRank n i);
      Ok (i, val, true)
  | None => Ok (0, zero, false)
  end.
Proof.
  revert idx. induction fuel as [| fuel IH]; intros idx Hf; [lia |].
  destruct (N.eq_dec idx 0) as [-> | Hne].
  - simpl. destruct (Test (prefixesBitset n) 0); reflexivity.
  - rewrite chain_cons by assumption. simpl.
    destruct (Test (prefixesBitset n) idx); [reflexivity |].
    destruct (N.eqb_spec idx 0); [contradiction |].
    apply IH. rewrite (size_shiftr_1 idx) in Hf by assumption. lia.
Qed.

Lemma find_app_absent {A} (f : A -> bool) l x :
  f x = false -> List.find f (l ++ [x]) = List.find f l.
Proof.
  intros Hx. induction l as [| a l IH]; simpl.
  - rewrite Hx. reflexivity.
  - destruct (f a); auto.
Qed.

Lemma entries_stored n i v :
  Test (prefixesBitset n) i = true ->
  prefixes n !! (Rank (prefixesBitset n) i - 1)%nat = Some v ->
  (i, v) ∈ entries n.
Proof.
  intros Ht Hv. apply list_elem_of_lookup.
  exists (Rank (prefixesBitset n) i - 1)%nat. unfold entries.
  rewrite lookup_zip_with, (elems_Rank _ _ Ht). simpl. rewrite Hv. reflexivity.
Qed.

Lemma lpmByIndex_find n idx :
  Test (prefixesBitset n) 0 = false ->
  lpmByIndex zero n idx =
  match List.find (Test (prefixesBitset n)) (chain idx) with
  | Some i =>
      do val <- slices.index (prefixes n) (prefixRank n i);
      Ok (i, val, true)
  | None => Ok (0, zero, false)
  end.
Proof.
  intros H0. unfold lpmByIndex.
  rewrite lpmByIndex_loop_find by lia. rewrite find_app_absent by assumption.
  reflexivity.
Qed.

Lemma index_present n i :
  length (prefixes n) = Count (prefixesBitset n) ->
  Test (prefixesBitset n) i = true ->
  exists v, slices.index (prefixes n) (prefixRank n i) = Ok v /\
            prefixes n !! (Rank (prefixesBitset n) i - 1)%nat = Some v.
Proof.
  intros Hc Ht.
  destruct (getValByIndex_present zero n i Hc Ht) as (v & Hg & Hv).
  exists v. split; [| assumption].
  unfold getValByIndex in Hg. rewrite Ht in Hg.
  destruct (slices.index _ _); simpl in *; congruence.
Qed.

(** C1 -- longest match inside a stride.  For a stride node (as many
    values as set prefix bits, and no bit at index 0, which is no base
    index) and a base index [idx] in 1 .. 511, [lpmByIndex n idx] returns
    [(i, v, true)] where [i] is the first index of the backtracking chain
    [idx, idx >> 1, idx >> 2, ..., 1] whose bit is set in the prefix bit
    set and [v] is the value stored for [i]; when no index of the chain is
    set it returns [(0, zero, false)].  The call never fails. *)
Theorem lpmByIndex_longest_match n idx :
  length (prefixes n) = Count (prefixesBitset n) ->
  Test (prefixesBitset n) 0 = false ->
  1 <= idx <= 511 ->
  match List.find (Test (prefixesBitset n)) (chain idx) with
  | Some i => exists v, lpmByIndex zero n idx = Ok (i, v, true) /\ (i, v) ∈ entries n
  | None => lpmByIndex zero n idx = Ok (0, zero, false)
  end.
Proof.
  intros Hc H0 Hidx. rewrite (lpmByIndex_find n idx H0).
  destruct (List.find _ _) as [i |] eqn:Hfind; [| reflexivity].
  apply List.find_some in Hfind as [_ Ht].
  destruct (index_present n i Hc Ht) as (v & -> & Hv).
  exists v. split; [reflexivity | apply entries_stored; assumption].
Qed.

End Lpm.

(** * overlapsPrefix

    The facts about the encoding that the three steps rest on are read
    off the table, once for all base indices.  Steps 2 and 3 are searches
    with [NextSet]; step 1 is the longest prefix match. *)

Lemma forallb_below f n :
  forallb f (below n) = true -> forall i, (N.to_nat i < n)%nat -> f i = true.
Proof.
  intros H i Hi. rewrite forallb_forall in H. apply H.
  unfold below. apply in_map_iff. exists (N.to_nat i). split; [lia |].
  apply in_seq. lia.
Qed.

Lemma checkDecode_all : forallb checkDecode (below 512) = true.
Proof. vm_compute. reflexivity. Qed.

Lemma checkEncode_all :
  forallb (fun l => forallb (checkEncode l) (below 256)) (below 9) = true.
Proof. vm_compute. reflexivity. Qed.

Lemma checkHit_all : forallb (checkHitRow decodeRows) (below 512) = true.
Proof. vm_compute. reflexivity. Qed.

Lemma decode_facts b :
  1 <= b <= 511 ->
  exists o l bounds, baseIndexToPrefix b = Ok (o, l) /\ canonical o l = true /\
    prefixToBaseIndex o l = Ok b /\ lowerUpperBound b = Ok bounds.
Proof.
  intros Hb. pose proof (forallb_below _ _ checkDecode_all b ltac:(lia)) as H.
  unfold checkDecode in H. destruct (N.eqb_spec b 0); [lia |]. simpl in H.
  destruct (baseIndexToPrefix b) as [[o l] | |]; try discriminate.
  apply andb_prop in H as [H H3]. apply andb_prop in H as [H1 H2].
  destruct (prefixToBaseIndex o l) as [b' | |] eqn:E1; try discriminate.
  destruct (lowerUpperBound b) as [bounds | |] eqn:E2; try discriminate.
  apply N.eqb_eq in H2. subst b'. exists o, l, bounds. auto.
Qed.

Lemma canonical_range o l :
  canonical o l = true -> exists k, l = Z.of_N k /\ (N.to_nat k < 9)%nat /\ (N.to_nat o < 256)%nat.
Proof.
  unfold canonical. intros H.
  apply andb_prop in H as [H _]. apply andb_prop in H as [H H3].
  apply andb_prop in H as [H1 H2].
  apply Z.leb_le in H1, H2. apply N.leb_le in H3.
  exists (Z.to_N l). split; [lia |]. lia.
Qed.

Lemma encode_facts o l :
  canonical o l = true ->
  exists b hi, prefixToBaseIndex o l = Ok b /\ 1 <= b <= 511 /\
    baseIndexToPrefix b = Ok (o, l) /\
    lastHostIndexOfPrefix o l = Ok hi /\ hi = snd (hostRange o l) + 256.
Proof.
  intros Hc. destruct (canonical_range o l Hc) as (k & -> & Hk & Ho).
  pose proof (forallb_below _ _ checkEncode_all k Hk) as H. cbv beta in H.
  pose proof (forallb_below _ _ H o Ho) as H'. clear H.
  unfold checkEncode in H'. rewrite Hc in H'. simpl in H'.
  destruct (prefixToBaseIndex o (Z.of_N k)) as [b | |]; try discriminate.
  apply andb_prop in H' as [H H4]. apply andb_prop in H as [H H3].
  apply andb_prop in H as [H1 H2]. apply N.leb_le in H1, H2.
  destruct (baseIndexToPrefix b) as [[o' l'] | |] eqn:E1; try discriminate.
  apply andb_prop in H3 as [H3 H3']. apply N.eqb_eq in H3. apply Z.eqb_eq in H3'. subst.
  destruct (lastHostIndexOfPrefix o (Z.of_N k)) as [hi | |] eqn:E2; try discriminate.
  apply N.eqb_eq in H4. exists b, hi. auto.
Qed.

Lemma hit_facts b i o l hi o' l' :
  1 <= b <= 511 -> 1 <= i <= 511 ->
  baseIndexToPrefix b = Ok (o, l) -> lastHostIndexOfPrefix o l = Ok hi ->
  baseIndexToPrefix i = Ok (o', l') ->
  routeHit b (o + firstHostIndex) hi i = intersects (hostRange o' l') (hostRange o l).
Proof.
  intros Hb Hi Eb Eh Ei.
  pose proof (forallb_below _ _ checkHit_all b ltac:(lia)) as H.
  unfold checkHitRow in H. rewrite (proj2 (N.eqb_neq b 0)) in H by lia.
  rewrite orb_false_l, Eb in H. cbv iota beta in H. rewrite Eh in H.
  cbv iota beta in H. rewrite forallb_forall in H.
  specialize (H (i, baseIndexToPrefix i, lowerUpperBound i)).
  unfold checkHit in H. rewrite Ei in H.
  rewrite (proj2 (N.eqb_neq i 0)) in H by lia. rewrite orb_false_l in H.
  apply eqb_prop. apply H. unfold decodeRows.
  apply in_map_iff. exists i. split; [rewrite Ei; reflexivity |].
  unfold below. apply in_map_iff. exists (N.to_nat i). split; [lia |]. apply in_seq. lia.
Qed.

Section OverlapsPrefix.
Context {V : Type} (zero : V).
Implicit Types n : node V.

Lemma overlapsPrefix_routes_spec n lo hi fuel start :
  baseIndices (prefixesBitset n) ->
  (N.to_nat (N.size (prefixesBitset n)) - N.to_nat start < fuel)%nat ->
  exists r, overlapsPrefix_routes fuel n start lo hi = Ok r /\
    (r = true <-> exists i, start <= i /\ Test (prefixesBitset n) i = true /\
                            within i lo hi = true).
Proof.
  intros Hdom. revert start. induction fuel as [| fuel IH]; intros start Hf; [lia |].
  simpl. destruct (NextSet (prefixesBitset n) start) as [j ok] eqn:Hn.
  destruct ok; simpl.
  - apply NextSet_found in Hn as (Hle & Hj & Hmin).
    pose proof (baseIndices_range (prefixesBitset n) j Hdom Hj) as Hr.
    destruct (decode_facts j Hr) as (o & l & [rl rh] & _ & _ & _ & Hlu).
    rewrite Hlu. simpl.
    destruct ((lo <=? rl) && (rh <=? hi)) eqn:Hw.
    + exists true. split; [reflexivity |]. split; [| reflexivity]. intros _.
      exists j. unfold within, withinBounds. rewrite Hlu. auto.
    + pose proof (Test_lt_size _ _ Hj).
      destruct (IH (j + 1)) as (r & Hr1 & Hr2); [lia |].
      exists r. split; [assumption |]. rewrite Hr2. split.
      * intros (i & Hi1 & Hi2 & Hi3). exists i. split; [lia | auto].
      * intros (i & Hi1 & Hi2 & Hi3). exists i. split; [| auto].
        destruct (N.eq_dec i j) as [-> |].
        { unfold within, withinBounds in Hi3. rewrite Hlu, Hw in Hi3. discriminate. }
        destruct (N.lt_ge_cases i j); [| lia].
        rewrite Hmin in Hi2 by lia. discriminate.
  - apply NextSet_none in Hn as [_ Hnone]. exists false. split; [reflexivity |].
    split; [discriminate |]. intros (i & Hi1 & Hi2 & _).
    rewrite Hnone in Hi2 by assumption. discriminate.
Qed.

Lemma overlapsPrefix_children_spec n lo hi fuel start :
  (N.to_nat (N.size (childrenBitset n)) - N.to_nat start < fuel)%nat ->
  exists r, overlapsPrefix_children fuel n start lo hi = Ok r /\
    (r = true <-> exists c, start <= c /\ Test (childrenBitset n) c = true /\
                            (lo <=? c + firstHostIndex) && (c + firstHostIndex <=? hi) = true).
Proof.
  revert start. induction fuel as [| fuel IH]; intros start Hf; [lia |].
  simpl. destruct (NextSet (childrenBitset n) start) as [j ok] eqn:Hn.
  destruct ok; simpl.
  - apply NextSet_found in Hn as (Hle & Hj & Hmin).
    destruct ((lo <=? j + firstHostIndex) && (j + firstHostIndex <=? hi)) eqn:Hw.
    + exists true. split; [reflexivity |]. split; [| reflexivity]. intros _.
      exists j. auto.
    + pose proof (Test_lt_size _ _ Hj).
      destruct (IH (j + 1)) as (r & Hr1 & Hr2); [lia |].
      exists r. split; [assumption |]. rewrite Hr2. split.
      * intros (i & Hi1 & Hi2 & Hi3). exists i. split; [lia | auto].
      * intros (i & Hi1 & Hi2 & Hi3). exists i. split; [| auto].
        destruct (N.eq_dec i j) as [-> |]; [congruence |].
        destruct (N.lt_ge_cases i j); [| lia].
        rewrite Hmin in Hi2 by lia. discriminate.
  - apply NextSet_none in Hn as [_ Hnone]. exists false. split; [reflexivity |].
    split; [discriminate |]. intros (i & Hi1 & Hi2 & _).
    rewrite Hnone in Hi2 by assumption. discriminate.
Qed.

(** C4 -- [overlapsPrefix] on a prefix in masked form.  For a stride node,
    a prefix length [pfxLen] in 0 .. 8 and an octet with no bit set after
    its first [pfxLen] bits ([octet & (0xFF >> pfxLen) = 0]),
    [overlapsPrefix n octet pfxLen] returns, and it returns [true] exactly
    when some stored route or some child of [n] covers an octet range that
    intersects [octet, octet | (0xFF >> pfxLen)]. *)
Theorem overlapsPrefix_canonical n octet pfxLen :
  prefixesOk n -> baseIndices (prefixesBitset n) ->
  canonical octet pfxLen = true ->
  exists r, overlapsPrefix zero n octet pfxLen = Ok r /\
            (r = true <-> overlapsPrefixSpec n octet pfxLen).
Proof.
  intros Hok Hdom Hcan.
  destruct (encode_facts octet pfxLen Hcan) as (b & hi & Eb & Hb & Db & Eh & Hhi).
  unfold overlapsPrefix. rewrite Eb. cbn [bind].
  (* a stored route hits iff its range meets the supplied range *)
  assert (Hroute : forall i, Test (prefixesBitset n) i = true ->
            routeHit b (octet + firstHostIndex) hi i = true ->
            overlapsPrefixSpec n octet pfxLen).
  { intros i Ht Hh. pose proof (baseIndices_range (prefixesBitset n) i Hdom Ht) as Hi.
    destruct (decode_facts i Hi) as (o' & l' & bounds & Di & Ci & Ei & _).
    rewrite (hit_facts b i octet pfxLen hi o' l') in Hh by assumption.
    left. exists o', l'. split; [| assumption]. split; [assumption |]. eauto. }
  assert (Hspec : overlapsPrefixSpec n octet pfxLen ->
            (exists i, Test (prefixesBitset n) i = true /\
                       routeHit b (octet + firstHostIndex) hi i = true) \/
            (exists c, Test (childrenBitset n) c = true /\
                       intersects (c, c) (hostRange octet pfxLen) = true)).
  { intros [(o' & l' & [Ci (i & Ei & Ht)] & Hx) | Hc]; [left | right; assumption].
    exists i. split; [assumption |].
    destruct (encode_facts o' l' Ci) as (i' & _ & Ei' & Hi & Di & _).
    assert (i' = i) by congruence. subst i'.
    rewrite (hit_facts b i octet pfxLen hi o' l'); assumption. }
  rewrite (lpmByIndex_find zero n b (proj1 Hdom)).
  destruct (List.find _ (chain b)) as [i |] eqn:Hfind.
  - apply List.find_some in Hfind as [Hin Ht].
    destruct (index_present zero n i Hok Ht) as (v & -> & _).
    cbn [bind]. exists true. split; [reflexivity |].
    split; [| reflexivity]. intros _.
    apply (Hroute i Ht). unfold routeHit. apply orb_true_iff. left.
    apply existsb_exists. exists i. split; [assumption | apply N.eqb_refl].
  - cbn [bind]. rewrite Eh. cbn [bind].
    destruct (overlapsPrefix_routes_spec n (octet + firstHostIndex) hi
                (S (N.to_nat (N.size (prefixesBitset n)))) (N.shiftl b 1) Hdom)
      as (r2 & -> & Hr2); [lia |].
    cbn [bind]. destruct r2.
    + exists true. split; [reflexivity |]. split; [| reflexivity]. intros _.
      destruct (proj1 Hr2 eq_refl) as (i & Hi1 & Hi2 & Hi3).
      apply (Hroute i Hi2). unfold routeHit. apply orb_true_iff. right.
      apply andb_true_iff. split; [apply N.leb_le; assumption | assumption].
    + destruct (overlapsPrefix_children_spec n (octet + firstHostIndex) hi
                  (S (N.to_nat (N.size (childrenBitset n)))) octet)
        as (r3 & -> & Hr3); [lia |].
      exists r3. split; [reflexivity |]. rewrite Hr3. split.
      * intros (c & Hc1 & Hc2 & Hc3). right. exists c. split; [assumption |].
        unfold intersects, hostRange. simpl. unfold firstHostIndex in Hc3. simpl in Hhi.
        apply andb_true_iff in Hc3 as [H1 H2]. apply N.leb_le in H1, H2.
        apply andb_true_iff. split; apply N.leb_le; lia.
      * intros Hs. destruct (Hspec Hs) as [(i & Ht & Hh) | (c & Hc1 & Hc2)].
        { exfalso. unfold routeHit in Hh. apply orb_true_iff in Hh as [Hh | Hh].
          - apply existsb_exists in Hh as (j & Hj & Hij). apply N.eqb_eq in Hij. subst j.
            pose proof (List.find_none _ _ Hfind i Hj). congruence.
          - apply andb_true_iff in Hh as [H1 H2]. apply N.leb_le in H1.
            assert (Hfalse : false = true); [| discriminate].
            apply Hr2. exists i. auto. }
        exists c. unfold intersects, hostRange in Hc2. simpl in Hc2, Hhi.
        apply andb_true_iff in Hc2 as [H1 H2]. apply N.leb_le in H1, H2.
        split; [lia |]. split; [assumption |]. unfold firstHostIndex.
        apply andb_true_iff. split; apply N.leb_le; lia.
Qed.

End OverlapsPrefix.

(** * overlapsRec

    The zig-zag loops compute [meets] and [hitsChild], which do not
    depend on the side a node stands on; the answer of [overlapsRec] is
    [overlapsNode], and that is symmetric. *)

Lemma below_length n : length (below n) = n.
Proof. unfold below. rewrite length_map, length_seq. reflexivity. Qed.

Lemma below_lookup n k : (k < n)%nat -> below n !! k = Some (N.of_nat k).
Proof.
  intros H. unfold below. rewrite list_lookup_fmap, lookup_seq_lt by assumption.
  reflexivity.
Qed.

Lemma in_below n x : In x (below n) <-> (N.to_nat x < n)%nat.
Proof.
  unfold below. rewrite in_map_iff. split.
  - intros (k & <- & Hk). apply in_seq in Hk. lia.
  - intros H. exists (N.to_nat x). split; [lia |]. apply in_seq. lia.
Qed.

Lemma in_range lo hi x : In x (range lo hi) <-> lo <= x <= hi.
Proof.
  unfold range. rewrite in_map_iff. split.
  - intros (k & <- & Hk). apply in_below in Hk. lia.
  - intros H. exists (x - lo). split; [lia |]. apply in_below. lia.
Qed.

Lemma table_length n f : length (table n f) = n.
Proof. unfold table. rewrite length_map. apply below_length. Qed.

Lemma table_entry n f x : (N.to_nat x < n)%nat -> entry (table n f) x = f x.
Proof.
  intros H. unfold entry, table. rewrite list_lookup_fmap, below_lookup by assumption.
  simpl. f_equal. lia.
Qed.

Lemma table_ext n f g :
  (forall x, (N.to_nat x < n)%nat -> f x = g x) -> table n f = table n g.
Proof.
  intros H. unfold table. apply map_ext_in. intros x Hx. apply H, in_below, Hx.
Qed.

Lemma table_eq n (A : list bool) f :
  length A = n -> (forall x, (N.to_nat x < n)%nat -> entry A x = f x) -> A = table n f.
Proof.
  intros Hl H. apply list_eq. intros k. unfold table.
  rewrite list_lookup_fmap. destruct (Nat.lt_ge_cases k n) as [Hk | Hk].
  - rewrite below_lookup by assumption. simpl.
    specialize (H (N.of_nat k) ltac:(lia)). unfold entry in H. rewrite Nat2N.id in H.
    destruct (lookup_lt_is_Some_2 A k ltac:(lia)) as [b Hb]. rewrite Hb in *. simpl in H.
    congruence.
  - rewrite (lookup_ge_None_2 A) by lia.
    rewrite (lookup_ge_None_2 (below n)) by (rewrite below_length; lia). reflexivity.
Qed.

Lemma replicate_table n : replicate n false = table n (fun _ => false).
Proof.
  apply table_eq; [apply length_replicate |]. intros x Hx. unfold entry.
  rewrite lookup_replicate_2 by assumption. reflexivity.
Qed.

Lemma index_entry (A : list bool) x :
  (N.to_nat x < length A)%nat -> slices.index A (Z.of_N x) = Ok (entry A x).
Proof.
  intros H. destruct (lookup_lt_is_Some_2 A (N.to_nat x) H) as [b Hb].
  unfold entry. rewrite Hb. simpl. apply index_Ok. split; [lia |].
  replace (Z.to_nat (Z.of_N x)) with (N.to_nat x) by lia. assumption.
Qed.

Lemma store_entry (A : list bool) x v :
  (N.to_nat x < length A)%nat ->
  slices.store A (Z.of_N x) v = Ok (<[N.to_nat x := v]> A).
Proof.
  intros H. rewrite store_in_range by lia.
  replace (Z.to_nat (Z.of_N x)) with (N.to_nat x) by lia. reflexivity.
Qed.

Lemma entry_insert (A : list bool) x y v :
  (N.to_nat x < length A)%nat ->
  entry (<[N.to_nat x := v]> A) y = if x =? y then v else entry A y.
Proof.
  intros H. unfold entry. destruct (N.eqb_spec x y) as [<- | Hne].
  - rewrite list_lookup_insert_eq by assumption. reflexivity.
  - rewrite list_lookup_insert_ne by lia. reflexivity.
Qed.

Lemma existsb_ext_in {A} (f g : A -> bool) l :
  (forall x, In x l -> f x = g x) -> existsb f l = existsb g l.
Proof.
  induction l as [| a l IH]; intros H; simpl; [reflexivity |].
  rewrite (H a) by (left; reflexivity). f_equal. apply IH.
  intros x Hx. apply H. right. assumption.
Qed.

Lemma meets_comm A B : meets A B = meets B A.
Proof. unfold meets. apply existsb_ext_in. intros x _. apply andb_comm. Qed.

Lemma Test_low b k i : Test (low b k) i = Test b i && (i <? k).
Proof.
  unfold Test, low. rewrite N.land_spec. f_equal.
  destruct (N.ltb_spec i k).
  - apply N.ones_spec_low. assumption.
  - apply N.ones_spec_high. assumption.
Qed.

Lemma allotted_true b x :
  allotted b x = true <->
  exists i, (N.to_nat i < 512)%nat /\ Test b i = true /\ covers i x = true.
Proof.
  unfold allotted. rewrite existsb_exists. split.
  - intros (i & Hi & H). apply andb_true_iff in H as [H1 H2]. apply in_below in Hi. eauto.
  - intros (i & Hi & H1 & H2). exists i. split; [apply in_below; assumption |].
    rewrite H1, H2. reflexivity.
Qed.

(** [for i := lowerBound; i <= upperBound; i++ { ... }] *)
Lemma allotRange_spec other mine idxs :
  length other = 512%nat -> length mine = 512%nat ->
  (forall x, In x idxs -> (N.to_nat x < 512)%nat) ->
  allotRange other mine idxs =
  Ok (if existsb (entry other) idxs then Return true
      else Continue (table 512 (fun x => entry mine x || existsb (N.eqb x) idxs))).
Proof.
  intros Ho. revert mine. induction idxs as [| i idxs IH]; intros mine Hm Hr; simpl.
  - f_equal. f_equal. apply table_eq; [assumption |]. intros x _.
    rewrite orb_false_r. reflexivity.
  - rewrite index_entry by (rewrite Ho; apply Hr; left; reflexivity). simpl.
    destruct (entry other i); [reflexivity |]. simpl.
    rewrite store_entry by (rewrite Hm; apply Hr; left; reflexivity). simpl.
    rewrite IH; [| rewrite length_insert; assumption | intros x Hx; apply Hr; right; assumption].
    destruct (existsb (entry other) idxs); [reflexivity |]. f_equal. f_equal.
    apply table_ext. intros x Hx. rewrite entry_insert by (rewrite Hm; apply Hr; left; reflexivity).
    rewrite (N.eqb_sym x i). destruct (i =? x); simpl.
    + symmetry. apply orb_true_r.
    + reflexivity.
Qed.

Lemma checkBounds_all : forallb checkBounds (below 512) = true.
Proof. vm_compute. reflexivity. Qed.

Lemma bounds_facts i :
  1 <= i <= 511 ->
  exists lo hi, lowerUpperBound i = Ok (lo, hi) /\ 256 <= lo <= hi /\ hi <= 511.
Proof.
  intros Hi. pose proof (forallb_below _ _ checkBounds_all i ltac:(lia)) as H.
  unfold checkBounds in H. rewrite (proj2 (N.eqb_neq i 0)) in H by lia.
  rewrite orb_false_l in H.
  destruct (lowerUpperBound i) as [[lo hi] | |] eqn:E; try discriminate.
  apply andb_prop in H as [H H3]. apply andb_prop in H as [H1 H2].
  apply N.leb_le in H1, H2, H3. exists lo, hi. auto.
Qed.

Lemma low_all b k : (forall i, k <= i -> Test b i = false) -> low b k = b.
Proof.
  intros H. apply N.bits_inj. intros i. change (Test (low b k) i = Test b i).
  rewrite Test_low. destruct (N.ltb_spec i k).
  - apply andb_true_r.
  - rewrite H by assumption. reflexivity.
Qed.

Lemma low_0 b : low b 0 = 0.
Proof. unfold low. simpl. apply N.land_0_r. Qed.

Lemma allot_0 : allot 0 = replicate 512 false.
Proof. reflexivity. Qed.

Lemma allot_length b : length (allot b) = 512%nat.
Proof. apply table_length. Qed.

Lemma entry_allot b x : (N.to_nat x < 512)%nat -> entry (allot b) x = allotted b x.
Proof. apply table_entry. Qed.

Lemma allotted_low_mono b k x : allotted (low b k) x = true -> allotted b x = true.
Proof.
  rewrite !allotted_true. intros (i & Hi & Ht & Hc). exists i.
  rewrite Test_low in Ht. apply andb_true_iff in Ht as [Ht _]. auto.
Qed.

Lemma meets_true A B :
  meets A B = true <-> exists x, (N.to_nat x < 512)%nat /\ entry A x = true /\ entry B x = true.
Proof.
  unfold meets. rewrite existsb_exists. split.
  - intros (x & Hx & H). apply in_below in Hx. apply andb_true_iff in H. eauto.
  - intros (x & Hx & H1 & H2). exists x. split; [apply in_below; assumption |].
    rewrite H1, H2. reflexivity.
Qed.

Lemma meets_false A B :
  meets A B = false <->
  forall x, (N.to_nat x < 512)%nat -> entry A x = true -> entry B x = true -> False.
Proof.
  rewrite <- not_true_iff_false, meets_true. split.
  - intros H x Hx H1 H2. apply H. eauto.
  - intros H (x & Hx & H1 & H2). eauto.
Qed.

Lemma entry_visited_mono b idx ok x :
  (N.to_nat x < 512)%nat ->
  entry (allot (visited b idx ok)) x = true -> entry (allot b) x = true.
Proof.
  intros Hx. rewrite !entry_allot by assumption. destruct ok; simpl; [| auto].
  apply allotted_low_mono.
Qed.

Lemma routesTurn_spec b idx ok other :
  baseIndices b -> length other = 512%nat ->
  meets (allot (visited b idx ok)) other = false ->
  exists r, routesTurn b idx ok (allot (visited b idx ok)) other = Ok r /\
    match r with
    | Return v => v = true /\ meets (allot b) other = true
    | Continue (idx', ok', A') =>
        A' = allot (visited b idx' ok') /\ meets A' other = false /\
        (rounds b idx' ok' <= rounds b idx ok - 1)%nat
    end.
Proof.
  intros Hdom Hlen Hm. unfold routesTurn. destruct ok; simpl in *.
  2:{ eexists. split; [reflexivity |]. simpl. auto. }
  destruct (NextSet b idx) as [j ok'] eqn:Hn. destruct ok'.
  - apply NextSet_found in Hn as (Hle & Hj & Hmin).
    pose proof (baseIndices_range b j Hdom Hj) as Hr.
    destruct (bounds_facts j Hr) as (lo & hi & Hlu & Hlo & Hhi).
    rewrite Hlu. cbn [bind].
    rewrite allotRange_spec;
      [| assumption | apply allot_length | intros x Hx; apply in_range in Hx; lia].
    cbn [bind].
    assert (Hcov : forall x, covers j x = existsb (N.eqb x) (range lo hi)).
    { intros x. unfold covers. rewrite Hlu. apply eq_true_iff_eq.
      rewrite existsb_exists, andb_true_iff, !N.leb_le. split.
      - intros H. exists x. rewrite in_range, N.eqb_refl. auto.
      - intros (y & Hy & Hxy). apply N.eqb_eq in Hxy. subst y.
        apply in_range in Hy. assumption. }
    destruct (existsb (entry other) (range lo hi)) eqn:Hex.
    + eexists. split; [reflexivity |]. simpl. split; [reflexivity |].
      apply existsb_exists in Hex as (x & Hx & Hox). apply in_range in Hx.
      apply meets_true. exists x. split; [lia |]. split; [| assumption].
      rewrite entry_allot by lia. apply allotted_true. exists j.
      split; [lia |]. split; [assumption |]. rewrite Hcov.
      apply existsb_exists. exists x. rewrite in_range, N.eqb_refl. auto.
    + eexists. split; [reflexivity |]. simpl.
      assert (HA : forall x, (N.to_nat x < 512)%nat ->
                entry (allot (low b idx)) x || existsb (N.eqb x) (range lo hi)
                = allotted (low b (j + 1)) x).
      { intros x Hx. rewrite entry_allot by assumption. rewrite <- Hcov.
        apply eq_true_iff_eq. rewrite orb_true_iff, !allotted_true. split.
        - intros [(i & Hi & Ht & Hc) | Hc].
          + exists i. rewrite Test_low in *. apply andb_true_iff in Ht as [Ht Hlt].
            apply N.ltb_lt in Hlt. rewrite Ht. split; [assumption |].
            split; [| assumption]. apply N.ltb_lt. lia.
          + exists j. rewrite Test_low, Hj. split; [lia |]. split; [| assumption].
            apply N.ltb_lt. lia.
        - intros (i & Hi & Ht & Hc). rewrite Test_low in Ht.
          apply andb_true_iff in Ht as [Ht Hlt]. apply N.ltb_lt in Hlt.
          destruct (N.eq_dec i j) as [-> | Hne]; [right; assumption | left].
          exists i. rewrite Test_low, Ht. split; [assumption |]. split; [| assumption].
          apply N.ltb_lt. destruct (N.lt_ge_cases i idx); [assumption |].
          rewrite Hmin in Ht by lia. discriminate. }
      split; [apply table_ext; assumption |]. split.
      * apply meets_false. intros x Hx H1 H2.
        rewrite table_entry in H1 by assumption.
        apply orb_true_iff in H1 as [H1 | H1].
        -- rewrite meets_false in Hm. exact (Hm x Hx H1 H2).
        -- apply existsb_exists in H1 as (y & Hy & Hxy). apply N.eqb_eq in Hxy. subst y.
           assert (existsb (entry other) (range lo hi) = true); [| congruence].
           apply existsb_exists. eauto.
      * pose proof (Test_lt_size _ _ Hj). lia.
  - apply NextSet_none in Hn as [-> Hnone].
    eexists. split; [reflexivity |]. simpl.
    rewrite (low_all b idx Hnone) in *. split; [reflexivity |]. split; [assumption | lia].
Qed.

Lemma meets_visited_mono nb ob nIdx nOk oIdx oOk :
  meets (allot (visited nb nIdx nOk)) (allot (visited ob oIdx oOk)) = true ->
  meets (allot nb) (allot ob) = true.
Proof.
  rewrite !meets_true. intros (x & Hx & H1 & H2). exists x.
  split; [assumption |]. split; eapply entry_visited_mono; eassumption.
Qed.

Lemma visited_true_full b idx : visited b idx false = b.
Proof. reflexivity. Qed.

Section Routes.
Context {V : Type}.
Implicit Types n o : node V.

Lemma overlapsRoutes_spec n o fuel : forall nIdx nOk oIdx oOk,
  baseIndices (prefixesBitset n) -> baseIndices (prefixesBitset o) ->
  meets (allot (visited (prefixesBitset n) nIdx nOk))
        (allot (visited (prefixesBitset o) oIdx oOk)) = false ->
  (rounds (prefixesBitset n) nIdx nOk <= fuel)%nat ->
  (rounds (prefixesBitset o) oIdx oOk <= fuel)%nat ->
  (1 <= fuel)%nat ->
  overlapsRoutes fuel n o nIdx nOk oIdx oOk
    (allot (visited (prefixesBitset n) nIdx nOk))
    (allot (visited (prefixesBitset o) oIdx oOk))
  = Ok (if meets (allot (prefixesBitset n)) (allot (prefixesBitset o))
        then Return true
        else Continue (allot (prefixesBitset n), allot (prefixesBitset o))).
Proof.
  induction fuel as [| fuel IH]; intros nIdx nOk oIdx oOk Hn Ho Hm Hrn Hro Hf; [lia |].
  cbn [overlapsRoutes].
  destruct (routesTurn_spec (prefixesBitset n) nIdx nOk
              (allot (visited (prefixesBitset o) oIdx oOk)) Hn (allot_length _) Hm)
    as (r & -> & Hr).
  cbn [bind]. destruct r as [v | [[nIdx' nOk'] nA']].
  { destruct Hr as [-> Hr].
    rewrite (meets_visited_mono _ _ 0 false oIdx oOk Hr). reflexivity. }
  destruct Hr as (-> & Hm' & Hrn').
  rewrite meets_comm in Hm'.
  destruct (routesTurn_spec (prefixesBitset o) oIdx oOk
              (allot (visited (prefixesBitset n) nIdx' nOk')) Ho (allot_length _) Hm')
    as (r & -> & Hr).
  cbn [bind]. destruct r as [v | [[oIdx' oOk'] oA']].
  { destruct Hr as [-> Hr]. rewrite meets_comm in Hr.
    rewrite (meets_visited_mono _ _ nIdx' nOk' 0 false Hr). reflexivity. }
  destruct Hr as (-> & Hm'' & Hro'). rewrite meets_comm in Hm''.
  destruct nOk', oOk'; cbn [negb andb].
  4:{ cbn [visited] in *. rewrite Hm''. reflexivity. }
  all: apply IH; try assumption; try lia.
  all: cbn [rounds] in *; lia.
Qed.

End Routes.

Lemma fullRun_spec A B idxs :
  length A = 512%nat -> length B = 512%nat ->
  (forall x, In x idxs -> (N.to_nat x < 512)%nat) ->
  fullRun A B idxs = Ok (existsb (fun x => entry A x && entry B x) idxs).
Proof.
  intros HA HB. induction idxs as [| i idxs IH]; intros Hr; [reflexivity |].
  cbn [fullRun existsb].
  rewrite index_entry by (rewrite HA; apply Hr; left; reflexivity). cbn [bind].
  destruct (entry A i); cbn [bind andb orb].
  - rewrite index_entry by (rewrite HB; apply Hr; left; reflexivity). cbn [bind].
    destruct (entry B i); [reflexivity |]. cbn [orb]. apply IH.
    intros x Hx. apply Hr. right. assumption.
  - apply IH. intros x Hx. apply Hr. right. assumption.
Qed.

Lemma fullRun_disjoint A B :
  length A = 512%nat -> length B = 512%nat -> meets A B = false ->
  fullRun A B (range firstHostIndex lastHostIndex) = Ok false.
Proof.
  intros HA HB Hm. rewrite fullRun_spec; try assumption.
  - f_equal. apply not_true_iff_false. intros H.
    apply existsb_exists in H as (x & Hx & H). apply in_range in Hx.
    apply andb_true_iff in H as [H1 H2]. rewrite meets_false in Hm.
    apply (Hm x); [unfold lastHostIndex in Hx; lia | assumption | assumption].
  - intros x Hx. apply in_range in Hx. unfold lastHostIndex in Hx. lia.
Qed.

Lemma hitsChild_true b A :
  hitsChild b A = true <->
  exists c, (N.to_nat c < 256)%nat /\ Test b c = true /\ entry A (c + firstHostIndex) = true.
Proof.
  unfold hitsChild. rewrite existsb_exists. split.
  - intros (c & Hc & H). apply in_below in Hc. apply andb_true_iff in H. eauto.
  - intros (c & Hc & H1 & H2). exists c. split; [apply in_below; assumption |].
    rewrite H1, H2. reflexivity.
Qed.

Lemma octets_length b : length (octets b) = 256%nat.
Proof. apply table_length. Qed.

Lemma childrenTurn_spec b idx ok A :
  octetIndices b -> length A = 512%nat ->
  hitsChild (visited b idx ok) A = false ->
  exists r, childrenTurn b idx ok (octets (visited b idx ok)) A = Ok r /\
    match r with
    | Return v => v = true /\ hitsChild b A = true
    | Continue (idx', ok', M') =>
        M' = octets (visited b idx' ok') /\ hitsChild (visited b idx' ok') A = false /\
        (rounds b idx' ok' <= rounds b idx ok - 1)%nat
    end.
Proof.
  intros Hdom Hlen Hm. unfold childrenTurn. destruct ok; simpl in *.
  2:{ eexists. split; [reflexivity |]. simpl. auto. }
  destruct (NextSet b idx) as [j ok'] eqn:Hn. destruct ok'.
  - apply NextSet_found in Hn as (Hle & Hj & Hmin).
    pose proof (Test_lt_size _ _ Hj) as Hjs. unfold octetIndices in Hdom.
    rewrite index_entry by (rewrite Hlen; unfold firstHostIndex; lia). cbn [bind].
    destruct (entry A (j + firstHostIndex)) eqn:Hhit.
    + eexists. split; [reflexivity |]. simpl. split; [reflexivity |].
      apply hitsChild_true. exists j. split; [lia | auto].
    + rewrite store_entry by (rewrite octets_length; lia). cbn [bind].
      eexists. split; [reflexivity |]. simpl. split; [| split].
      * apply table_eq; [rewrite length_insert; apply octets_length |].
        intros x Hx. rewrite entry_insert by (rewrite octets_length; lia).
        unfold octets. rewrite table_entry by assumption. rewrite !Test_low.
        destruct (N.eqb_spec j x) as [<- | Hne].
        -- rewrite Hj. symmetry. apply N.ltb_lt. lia.
        -- destruct (Test b x) eqn:Hx'; [| reflexivity]. simpl.
           destruct (N.ltb_spec x idx), (N.ltb_spec x (j + 1)); try reflexivity; try lia.
           rewrite Hmin in Hx' by lia. discriminate.
      * apply not_true_iff_false. intros H. apply hitsChild_true in H as (c & Hc & H1 & H2).
        rewrite Test_low in H1. apply andb_true_iff in H1 as [H1 H1']. apply N.ltb_lt in H1'.
        destruct (N.eq_dec c j) as [-> |]; [congruence |].
        assert (hitsChild (low b idx) A = true); [| congruence].
        apply hitsChild_true. exists c. rewrite Test_low, H1. split; [assumption |].
        split; [| assumption]. apply N.ltb_lt.
        destruct (N.lt_ge_cases c idx); [assumption |].
        rewrite Hmin in H1 by lia. discriminate.
      * lia.
  - apply NextSet_none in Hn as [-> Hnone].
    eexists. split; [reflexivity |]. simpl.
    rewrite (low_all b idx Hnone) in *. split; [reflexivity |]. split; [assumption | lia].
Qed.

Lemma hitsChild_visited_mono b idx ok A :
  hitsChild (visited b idx ok) A = true -> hitsChild b A = true.
Proof.
  destruct ok; simpl; [| auto]. rewrite !hitsChild_true.
  intros (c & Hc & H1 & H2). exists c. rewrite Test_low in H1.
  apply andb_true_iff in H1 as [H1 _]. auto.
Qed.

Section Children.
Context {V : Type}.
Implicit Types n o : node V.

Lemma overlapsChildren_spec n o nA oA fuel : forall nOctet nOk oOctet oOk,
  octetIndices (childrenBitset n) -> octetIndices (childrenBitset o) ->
  length nA = 512%nat -> length oA = 512%nat ->
  hitsChild (visited (childrenBitset n) nOctet nOk) oA = false ->
  hitsChild (visited (childrenBitset o) oOctet oOk) nA = false ->
  (rounds (childrenBitset n) nOctet nOk <= fuel)%nat ->
  (rounds (childrenBitset o) oOctet oOk <= fuel)%nat ->
  (1 <= fuel)%nat ->
  overlapsChildren fuel n o nOctet nOk oOctet oOk nA oA
    (octets (visited (childrenBitset n) nOctet nOk))
    (octets (visited (childrenBitset o) oOctet oOk))
  = Ok (if hitsChild (childrenBitset n) oA || hitsChild (childrenBitset o) nA
        then Return true
        else Continue (octets (childrenBitset n), octets (childrenBitset o))).
Proof.
  induction fuel as [| fuel IH]; intros nOctet nOk oOctet oOk Hn Ho HnA HoA Hmn Hmo Hrn Hro Hf; [lia |].
  cbn [overlapsChildren].
  destruct (childrenTurn_spec (childrenBitset n) nOctet nOk oA Hn HoA Hmn) as (r & -> & Hr).
  cbn [bind]. destruct r as [v | [[nOctet' nOk'] nM']].
  { destruct Hr as [-> ->]. reflexivity. }
  destruct Hr as (-> & Hmn' & Hrn').
  destruct (childrenTurn_spec (childrenBitset o) oOctet oOk nA Ho HnA Hmo) as (r & -> & Hr).
  cbn [bind]. destruct r as [v | [[oOctet' oOk'] oM']].
  { destruct Hr as [-> ->]. rewrite orb_true_r. reflexivity. }
  destruct Hr as (-> & Hmo' & Hro').
  destruct nOk', oOk'; cbn [negb andb].
  4:{ cbn [visited] in *. rewrite Hmn', Hmo'. reflexivity. }
  all: apply IH; try assumption; try lia.
  all: cbn [rounds] in *; lia.
Qed.

End Children.

Lemma Count_0 b : Count b = 0%nat -> b = 0.
Proof.
  intros H. apply N.bits_inj_0. intros i.
  destruct (N.testbit b i) eqn:Ht; [| reflexivity].
  apply in_elems in Ht. unfold Count in H.
  destruct (elems b); [destruct Ht | discriminate].
Qed.

Lemma visited_start b (len : nat) :
  len = Count b -> visited b 0 (0 <? len)%nat = 0.
Proof.
  intros H. unfold visited. destruct (Nat.ltb_spec 0 len).
  - apply low_0.
  - apply Count_0. lia.
Qed.

Lemma rounds_start b ok : (rounds b 0 ok <= S (N.to_nat (N.size b)))%nat.
Proof. destruct ok; simpl; lia. Qed.

Lemma byte_small i : i < 256 -> byte i = i.
Proof. intros H. unfold byte. apply N.mod_small. assumption. Qed.

Section OverlapsRec.
Context {V : Type}.
Implicit Types (n o : node V) (h : list (node V)).

Lemma overlapsRec_unfold fuel h pn po n o :
  deref h pn = Ok n -> deref h po = Ok o -> strideNode n -> strideNode o ->
  overlapsRec (S fuel) h pn po = overlapsNode (overlapsRec fuel h) n o.
Proof.
  intros Hn Ho (Hnp & Hnc & Hnb & Hno) (Hop & Hoc & Hob & Hoo).
  cbn [overlapsRec]. rewrite Hn, Ho. cbn [bind]. unfold overlapsNode.
  change (replicate (N.to_nat maxNodePrefixes) false) with (allot 0).
  assert (E1 : allot 0 = allot (visited (prefixesBitset n) 0 (0 <? length (prefixes n))%nat))
    by (rewrite visited_start by assumption; reflexivity).
  assert (E2 : allot 0 = allot (visited (prefixesBitset o) 0 (0 <? length (prefixes o))%nat))
    by (rewrite visited_start by assumption; reflexivity).
  rewrite E1 at 1. rewrite E2 at 1. clear E1 E2.
  rewrite overlapsRoutes_spec; try assumption.
  2:{ rewrite !visited_start by assumption. reflexivity. }
  2:{ pose proof (rounds_start (prefixesBitset n) (0 <? length (prefixes n))%nat). lia. }
  2:{ pose proof (rounds_start (prefixesBitset o) (0 <? length (prefixes o))%nat). lia. }
  2:{ lia. }
  cbn [bind].
  destruct (meets (allot (prefixesBitset n)) (allot (prefixesBitset o))) eqn:Hm; [reflexivity |].
  rewrite (fullRun_disjoint _ _ (allot_length _) (allot_length _) Hm).
  assert (Hfull : (if (0 <? length (prefixes n))%nat && (0 <? length (prefixes o))%nat
                   then Ok false else Ok false) = Ok (A:=bool) false).
  { destruct (_ && _); reflexivity. }
  rewrite Hfull. cbn [bind].
  change (replicate (N.to_nat maxNodeChildren) false) with (octets 0).
  assert (E1 : octets 0 = octets (visited (childrenBitset n) 0 (0 <? length (children n))%nat))
    by (rewrite visited_start by assumption; reflexivity).
  assert (E2 : octets 0 = octets (visited (childrenBitset o) 0 (0 <? length (children o))%nat))
    by (rewrite visited_start by assumption; reflexivity).
  rewrite E1 at 1. rewrite E2 at 1. clear E1 E2.
  rewrite overlapsChildren_spec; try assumption; try apply allot_length.
  2,3: rewrite visited_start by assumption; reflexivity.
  2:{ pose proof (rounds_start (childrenBitset n) (0 <? length (children n))%nat). lia. }
  2:{ pose proof (rounds_start (childrenBitset o) (0 <? length (children o))%nat). lia. }
  2:{ lia. }
  cbn [bind].
  destruct (hitsChild _ _ || hitsChild _ _); [reflexivity |].
  rewrite octets_length. reflexivity.
Qed.

Lemma overlapsSameOctet_sym (rec rec' : ptr -> ptr -> result bool) n o idxs :
  childrenOk n -> childrenOk o ->
  (forall a b, rec a b = rec' b a) ->
  (forall x, In x idxs -> (N.to_nat x < 256)%nat) ->
  overlapsSameOctet rec n o (octets (childrenBitset n)) (octets (childrenBitset o)) idxs
  = overlapsSameOctet rec' o n (octets (childrenBitset o)) (octets (childrenBitset n)) idxs.
Proof.
  intros Hn Ho Hrec. induction idxs as [| i idxs IH]; intros Hr; [reflexivity |].
  cbn [overlapsSameOctet].
  assert (Hi : (N.to_nat i < 256)%nat) by (apply Hr; left; reflexivity).
  rewrite !index_entry by (rewrite octets_length; assumption). cbn [bind].
  specialize (IH (fun x Hx => Hr x (or_intror Hx))).
  destruct (entry (octets (childrenBitset n)) i) eqn:Ea;
    destruct (entry (octets (childrenBitset o)) i) eqn:Eb; cbn [bind andb];
    rewrite ?index_entry by (rewrite octets_length; assumption); cbn [bind];
    rewrite ?Ea, ?Eb; cbn [andb]; try assumption.
  rewrite !getChild_slot by assumption.
  destruct (slot (childrenBitset n) (children n) (byte i)),
           (slot (childrenBitset o) (children o) (byte i)); cbn [bind];
    rewrite Hrec; destruct (rec' _ _) as [[|] | |]; cbn [bind]; auto.
Qed.

Lemma overlapsNode_sym (rec rec' : ptr -> ptr -> result bool) n o :
  childrenOk n -> childrenOk o ->
  (forall a b, rec a b = rec' b a) ->
  overlapsNode rec n o = overlapsNode rec' o n.
Proof.
  intros Hn Ho Hrec. unfold overlapsNode.
  rewrite (meets_comm (allot (prefixesBitset o))).
  rewrite (orb_comm (hitsChild (childrenBitset o) _)).
  rewrite (andb_comm (0 <? length (children o))%nat).
  rewrite (overlapsSameOctet_sym rec rec' n o); try assumption.
  - reflexivity.
  - intros x Hx. apply in_below in Hx. assumption.
Qed.

Lemma deref_strideNode h p n :
  Forall strideNode h -> deref h p = Ok n -> strideNode n.
Proof.
  intros Hh Hd. unfold deref in Hd. destruct p as [l |]; [| discriminate].
  destruct (h !! l) as [n' |] eqn:E; [| discriminate]. injection Hd as ->.
  rewrite Forall_forall in Hh. apply Hh. eapply list_elem_of_lookup_2, E.
Qed.

Lemma overlapsRec_sym fuel h a b :
  Forall strideNode h -> overlapsRec fuel h a b = overlapsRec fuel h b a.
Proof.
  intros Hh. revert a b. induction fuel as [| fuel IH]; intros a b; [reflexivity |].
  destruct (deref h a) as [n | |] eqn:Ha; destruct (deref h b) as [o | |] eqn:Hb;
    try (cbn [overlapsRec]; rewrite Ha, Hb; reflexivity).
  2,3: unfold deref in *;
       repeat match goal with
              | H : match ?x with _ => _ end = _ |- _ => destruct x; try discriminate
              end.
  pose proof (deref_strideNode h a n Hh Ha) as Sn.
  pose proof (deref_strideNode h b o Hh Hb) as So.
  rewrite (overlapsRec_unfold fuel h a b n o), (overlapsRec_unfold fuel h b a o n) by assumption.
  apply overlapsNode_sym; [apply Sn | apply So | apply IH].
Qed.

End OverlapsRec.

Section Total.
Context {V : Type}.
Implicit Types (n o : node V) (h : list (node V)).

Lemma slot_elem_of {A} (b : BitSet) (s : list A) i v : slot b s i = Some v -> v ∈ s.
Proof.
  unfold slot. destruct (Test b i); [| discriminate].
  intros H. eapply list_elem_of_lookup_2, H.
Qed.

Lemma entry_octets b i : (N.to_nat i < 256)%nat -> entry (octets b) i = Test b i.
Proof. apply table_entry. Qed.

Lemma overlapsSameOctet_total (rec : ptr -> ptr -> result bool) n o idxs :
  childrenOk n -> childrenOk o ->
  (forall p q, p ∈ children n -> q ∈ children o -> exists r, rec p q = Ok r) ->
  (forall x, In x idxs -> (N.to_nat x < 256)%nat) ->
  exists r, overlapsSameOctet rec n o (octets (childrenBitset n))
              (octets (childrenBitset o)) idxs = Ok r.
Proof.
  intros Hn Ho Hrec. induction idxs as [| i idxs IH]; intros Hr; [eexists; reflexivity |].
  cbn [overlapsSameOctet].
  assert (Hi : (N.to_nat i < 256)%nat) by (apply Hr; left; reflexivity).
  specialize (IH (fun x Hx => Hr x (or_intror Hx))).
  rewrite index_entry by (rewrite octets_length; assumption). cbn [bind].
  rewrite !entry_octets by assumption.
  destruct (Test (childrenBitset n) i) eqn:Ea; cbn [bind andb]; [| assumption].
  rewrite index_entry by (rewrite octets_length; assumption). cbn [bind].
  rewrite entry_octets by assumption.
  destruct (Test (childrenBitset o) i) eqn:Eb; [| assumption].
  rewrite !getChild_slot by assumption. rewrite byte_small by lia.
  destruct (slot_is_Some _ _ _ Hn Ea) as [p Hp].
  destruct (slot_is_Some _ _ _ Ho Eb) as [q Hq].
  rewrite Hp, Hq. cbn [bind].
  destruct (Hrec p q) as [r ->]; [eapply slot_elem_of; eassumption .. |].
  cbn [bind]. destruct r; [eexists; reflexivity | assumption].
Qed.

Lemma depthLe_S h d p :
  depthLe h (S d) p ->
  exists l n, p = Some l /\ h !! l = Some n /\ Forall (depthLe h d) (children n).
Proof.
  simpl. destruct p as [l |]; [| tauto]. destruct (h !! l) as [n |] eqn:E; [| tauto].
  intros H. exists l, n. auto.
Qed.

Lemma overlapsRec_total fuel h a b :
  Forall strideNode h -> depthLe h fuel a -> depthLe h fuel b ->
  exists r, overlapsRec fuel h a b = Ok r.
Proof.
  intros Hh. revert a b. induction fuel as [| fuel IH]; intros a b Ha Hb; [destruct Ha |].
  apply depthLe_S in Ha as (la & n & -> & Hla & Hn).
  apply depthLe_S in Hb as (lb & o & -> & Hlb & Ho).
  assert (Da : deref h (Some la) = Ok n) by (simpl; rewrite Hla; reflexivity).
  assert (Db : deref h (Some lb) = Ok o) by (simpl; rewrite Hlb; reflexivity).
  pose proof (deref_strideNode h _ n Hh Da) as Sn.
  pose proof (deref_strideNode h _ o Hh Db) as So.
  rewrite (overlapsRec_unfold fuel h _ _ n o) by assumption.
  unfold overlapsNode.
  destruct (meets _ _); [eexists; reflexivity |].
  destruct (hitsChild _ _ || hitsChild _ _); [eexists; reflexivity |].
  destruct (_ && _); [| eexists; reflexivity].
  apply overlapsSameOctet_total; [apply Sn | apply So | |].
  - intros p q Hp Hq. rewrite Forall_forall in Hn, Ho. apply IH; auto.
  - intros x Hx. apply in_below in Hx. assumption.
Qed.

(** C5 -- overlap is symmetric.  In a store of stride nodes, for two
    tries [a] and [b] of depth at most [fuel], [overlapsRec a b] and
    [overlapsRec b a] both return, and they return the same answer. *)
Theorem overlapsRec_symmetric fuel h a b :
  Forall strideNode h -> depthLe h fuel a -> depthLe h fuel b ->
  exists r, overlapsRec fuel h a b = Ok r /\ overlapsRec fuel h b a = Ok r.
Proof.
  intros Hh Ha Hb. destruct (overlapsRec_total fuel h a b Hh Ha Hb) as [r Hr].
  exists r. split; [assumption |]. rewrite <- overlapsRec_sym; assumption.
Qed.

End Total.

(** * The popcount correspondence on the store

    Every operation keeps the correspondence in every node of the
    store. *)

Section HeapInv.
Context {V : Type} (zero : V).
Local Abbreviation heap := (list (node V)).
Implicit Types (n : node V) (h : heap).

Lemma deref_Some h l n : deref h (Some l) = Ok n <-> h !! l = Some n.
Proof.
  simpl. destruct (h !! l); split; intros H; try discriminate; congruence.
Qed.

Lemma update_Ok h p f h' :
  update h p f = Ok h' ->
  exists l n n', p = Some l /\ h !! l = Some n /\ f n = Ok n' /\ h' = <[l := n']> h.
Proof.
  unfold update. destruct p as [l |]; [| discriminate]. intros H.
  apply bind_Ok in H as (n & Hn & H). apply bind_Ok in H as (n' & Hf & H).
  injection H as <-. apply deref_Some in Hn. eauto 8.
Qed.

Lemma update_Some h (l : loc) n f n' :
  h !! l = Some n -> f n = Ok n' -> update h (Some l) f = Ok (<[l := n']> h).
Proof.
  intros Hl Hf. unfold update. rewrite (proj2 (deref_Some h l n) Hl). cbn [bind].
  rewrite Hf. reflexivity.
Qed.

Lemma heapOk_lookup h l n : heapOk h -> h !! l = Some n -> popcountOk n.
Proof. intros H Hl. eapply Forall_lookup_1; eassumption. Qed.

Lemma heapOk_insert h l n : heapOk h -> popcountOk n -> heapOk (<[l := n]> h).
Proof. intros H Hn. apply Forall_insert; assumption. Qed.

Lemma heapOk_update h p f h' :
  heapOk h -> (forall n n', popcountOk n -> f n = Ok n' -> popcountOk n') ->
  update h p f = Ok h' -> heapOk h'.
Proof.
  intros Hh Hf Hu. apply update_Ok in Hu as (l & n & n' & -> & Hl & Hfn & ->).
  apply heapOk_insert; [assumption |]. eapply Hf; [| eassumption].
  eapply heapOk_lookup; eassumption.
Qed.

Lemma popcountOk_newNode : popcountOk (newNode (V := V)).
Proof. split; reflexivity. Qed.

Lemma insertIdx_popcountOk n idx v n' :
  popcountOk n -> insertIdx n idx v = Ok n' -> popcountOk n'.
Proof.
  intros [Hp Hc] H. destruct (insertIdx_spec n idx v Hp) as (n'' & E & Hp' & Eb & Ec & _).
  assert (n'' = n') by congruence. subst n''. split; [assumption |].
  unfold childrenOk in *. congruence.
Qed.

Lemma insertPrefix_popcountOk n octet len v n' :
  popcountOk n -> insertPrefix n octet len v = Ok n' -> popcountOk n'.
Proof.
  unfold insertPrefix. intros Hn H. apply bind_Ok in H as (idx & _ & H).
  eapply insertIdx_popcountOk; eassumption.
Qed.

Lemma deletePrefix_popcountOk n octet len n' r :
  popcountOk n -> deletePrefix n octet len = Ok (n', r) -> popcountOk n'.
Proof.
  intros [Hp Hc] H. destruct (prefixToBaseIndex octet len) as [idx | |] eqn:Hb;
    try (unfold deletePrefix in H; rewrite Hb in H; discriminate).
  destruct (Test (prefixesBitset n) idx) eqn:Ht.
  - destruct (deletePrefix_present n octet len idx Hp Hb Ht) as (n'' & E & Hp' & Eb & Ec & _).
    assert (n'' = n') by congruence. subst n''. split; [assumption |].
    unfold childrenOk in *. congruence.
  - rewrite (deletePrefix_absent n octet len idx Hb Ht) in H.
    injection H as <- _. split; assumption.
Qed.

Lemma updatePrefix_popcountOk n octet len cb n' v :
  popcountOk n -> updatePrefix zero n octet len cb = Ok (n', v) -> popcountOk n'.
Proof.
  intros [Hp Hc] H. destruct (prefixToBaseIndex octet len) as [idx | |] eqn:Hb;
    try (unfold updatePrefix in H; rewrite Hb in H; discriminate).
  destruct (updatePrefix_spec zero n octet len cb idx Hp Hb) as (n'' & E & Hp' & Eb & Ec & _).
  cbv zeta in E. assert (n'' = n') by congruence. subst n''. split; [assumption |].
  unfold childrenOk in *. congruence.
Qed.

Lemma insertChild_popcountOk n octet child n' :
  popcountOk n -> insertChild n octet child = Ok n' -> popcountOk n'.
Proof.
  intros [Hp Hc] H. destruct (insertChild_spec n octet child Hc) as (n'' & E & Hc' & Eb & Ep & _).
  assert (n'' = n') by congruence. subst n''. split; [| assumption].
  unfold prefixesOk in *. congruence.
Qed.

Lemma deleteChild_popcountOk n octet n' :
  popcountOk n -> deleteChild n octet = Ok n' -> popcountOk n'.
Proof.
  intros [Hp Hc] H. destruct (Test (childrenBitset n) octet) eqn:Ht.
  - destruct (deleteChild_present n octet Hc Ht) as (n'' & E & Hc' & Eb & Ep & _).
    assert (n'' = n') by congruence. subst n''. split; [| assumption].
    unfold prefixesOk in *. congruence.
  - rewrite (deleteChild_absent n octet Ht) in H. injection H as <-. split; assumption.
Qed.

Lemma store_Ok {A} (s : list A) i v s' :
  slices.store s i v = Ok s' -> length s' = length s.
Proof.
  unfold slices.store. destruct (_ || _); [discriminate |]. intros [= <-].
  apply length_insert.
Qed.

Lemma cloneRec_range_heapOk (clone : heap -> ptr -> result (heap * ptr)) :
  (forall h p h' c, heapOk h -> clone h p = Ok (h', c) -> heapOk h') ->
  forall cs h c i h', heapOk h -> cloneRec_range clone h c i cs = Ok h' -> heapOk h'.
Proof.
  intros Hclone. induction cs as [| child cs IH]; intros h c i h' Hh H.
  - injection H as <-. assumption.
  - cbn [cloneRec_range] in H. apply bind_Ok in H as ([h1 cc] & Hc & H).
    apply bind_Ok in H as (h2 & Hu & H).
    apply (IH h2 c (S i) h'); [| assumption].
    eapply heapOk_update; [eapply Hclone; eassumption | | eassumption].
    intros n n' [Hp Hk] Hf. apply bind_Ok in Hf as (s & Hs & Hf). injection Hf as <-.
    apply store_Ok in Hs. split; [assumption |]. unfold childrenOk in *. simpl. congruence.
Qed.

Lemma cloneRec_heapOk fuel : forall h p h' c,
  heapOk h -> cloneRec fuel h p = Ok (h', c) -> heapOk h'.
Proof.
  induction fuel as [| fuel IH]; intros h p h' c Hh H; [discriminate |].
  cbn [cloneRec alloc] in H. apply bind_Ok in H as (n & Hn & H).
  assert (Hh1 : heapOk (h ++ [newNode])).
  { apply Forall_app. split; [assumption |]. constructor; [apply popcountOk_newNode | constructor]. }
  destruct (isEmpty n).
  - injection H as <- _. assumption.
  - apply bind_Ok in H as (h2 & Hr & H). injection H as <- _.
    eapply cloneRec_range_heapOk; [exact IH | | eassumption].
    apply heapOk_insert; [assumption |].
    destruct p as [l |]; [| discriminate]. apply deref_Some in Hn.
    pose proof (heapOk_lookup _ _ _ Hh1 Hn) as [Hp Hc]. split; assumption.
Qed.

Lemma unionRec_prefixes_heapOk fuel : forall h p q oIdx h',
  heapOk h -> unionRec_prefixes zero fuel h p q oIdx = Ok h' -> heapOk h'.
Proof.
  induction fuel as [| fuel IH]; intros h p q oIdx h' Hh H; [discriminate |].
  cbn [unionRec_prefixes] in H. apply bind_Ok in H as (on & Ho & H).
  destruct (NextSet (prefixesBitset on) oIdx) as [j ok]. destruct ok; cbn [negb] in H.
  - apply bind_Ok in H as ([oVal b] & Hg & H). apply bind_Ok in H as (h1 & Hu & H).
    apply (IH _ _ _ _ _ (heapOk_update _ _ _ _ Hh
             (fun n n' Hn Hf => insertIdx_popcountOk n j oVal n' Hn Hf) Hu) H).
  - injection H as <-. assumption.
Qed.

Lemma unionRec_children_heapOk (rec : heap -> ptr -> ptr -> result heap)
    (clone : heap -> ptr -> result (heap * ptr)) :
  (forall h p q h', heapOk h -> rec h p q = Ok h' -> heapOk h') ->
  (forall h p h' c, heapOk h -> clone h p = Ok (h', c) -> heapOk h') ->
  forall fuel h p q oOctet h',
    heapOk h -> unionRec_children rec clone fuel h p q oOctet = Ok h' -> heapOk h'.
Proof.
  intros Hrec Hclone. induction fuel as [| fuel IH]; intros h p q oOctet h' Hh H; [discriminate |].
  cbn [unionRec_children] in H. apply bind_Ok in H as (on & Ho & H).
  destruct (NextSet (childrenBitset on) oOctet) as [j ok]. destruct ok; cbn [negb] in H.
  - apply bind_Ok in H as (oNode & HoN & H). apply bind_Ok in H as (nn & Hnn & H).
    apply bind_Ok in H as (nNode & HnN & H). apply bind_Ok in H as (h1 & Hstep & H).
    apply (IH h1 p q (j + 1) h'); [| assumption]. destruct nNode as [l |].
    + eapply Hrec; eassumption.
    + apply bind_Ok in Hstep as ([h2 c] & Hc & Hu). cbv beta iota in Hu.
      refine (heapOk_update _ _ _ _ (Hclone _ _ _ _ Hh Hc) _ Hu).
      intros n n' Hn Hf. eapply insertChild_popcountOk; eassumption.
  - injection H as <-. assumption.
Qed.

Lemma unionRec_heapOk fuel : forall h p q h',
  heapOk h -> unionRec zero fuel h p q = Ok h' -> heapOk h'.
Proof.
  induction fuel as [| fuel IH]; intros h p q h' Hh H; [discriminate |].
  cbn [unionRec] in H. apply bind_Ok in H as (h1 & H1 & H).
  eapply unionRec_children_heapOk; [exact IH | apply cloneRec_heapOk | | eassumption].
  eapply unionRec_prefixes_heapOk; eassumption.
Qed.

Lemma step_heapOk h h' : heapOk h -> step zero h h' -> heapOk h'.
Proof.
  intros Hh Hs. destruct Hs.
  - simpl. apply Forall_app. split; [assumption |].
    constructor; [apply popcountOk_newNode | constructor].
  - apply heapOk_insert; [assumption |].
    eapply insertPrefix_popcountOk; [eapply heapOk_lookup |]; eassumption.
  - apply heapOk_insert; [assumption |].
    eapply insertIdx_popcountOk; [eapply heapOk_lookup |]; eassumption.
  - apply heapOk_insert; [assumption |].
    eapply deletePrefix_popcountOk; [eapply heapOk_lookup |]; eassumption.
  - apply heapOk_insert; [assumption |].
    eapply updatePrefix_popcountOk; [eapply heapOk_lookup |]; eassumption.
  - apply heapOk_insert; [assumption |].
    eapply insertChild_popcountOk; [eapply heapOk_lookup |]; eassumption.
  - apply heapOk_insert; [assumption |].
    eapply deleteChild_popcountOk; [eapply heapOk_lookup |]; eassumption.
  - eapply unionRec_heapOk; eassumption.
  - eapply cloneRec_heapOk; eassumption.
Qed.

Lemma reachable_heapOk h : reachable zero h -> heapOk h.
Proof.
  induction 1 as [| h h' _ IH Hs].
  - constructor; [apply popcountOk_newNode | constructor].
  - eapply step_heapOk; eassumption.
Qed.

End HeapInv.

(** * Tries in the store

    [tree h t] lays the trie [t] out in the store [h].  Reading along a
    path in the store is reading along the path in the trie, and a trie
    only depends on the cells at its own addresses. *)

Section Trees.
Context {V : Type} (zero : V).
Local Abbreviation heap := (list (node V)).
Implicit Types (n nd : node V) (h : heap).
Implicit Types (t k : ltree (V := V)) (kids : list (ltree (V := V))).

Lemma ltree_ind' (P : ltree (V := V) -> Prop) :
  (forall l nd kids, Forall P kids -> P (LT l nd kids)) -> forall t, P t.
Proof.
  intros H. fix IH 1. intros [l nd kids]. apply H.
  induction kids as [| k kids IHk]; constructor; [apply IH | exact IHk].
Qed.

Lemma tree_inv h l nd kids :
  tree h (LT l nd kids) ->
  h !! l = Some nd /\ popcountOk nd /\ octetIndices (childrenBitset nd) /\
  children nd = map (fun k => Some (root k)) kids /\ Forall (tree h) kids.
Proof. inversion 1; subst. auto. Qed.

Lemma tree_root h t : tree h t -> h !! root t = Some (nodeOf t).
Proof. destruct t. intros H. apply tree_inv in H. apply H. Qed.

Lemma tree_kids_length h t :
  tree h t -> length (kidsOf t) = Count (childrenBitset (nodeOf t)).
Proof.
  destruct t as [l nd kids]. intros H. apply tree_inv in H as (_ & [_ Hc] & _ & Hk & _).
  simpl. unfold childrenOk in Hc. rewrite <- Hc, Hk, length_map. reflexivity.
Qed.

Lemma elem_of_addrs_kid k kids l x nd :
  k ∈ kids -> x ∈ addrs k -> x ∈ addrs (LT l nd kids).
Proof.
  intros Hk Hx. simpl. right. apply list_elem_of_In, in_flat_map.
  exists k. split; apply list_elem_of_In; assumption.
Qed.

Lemma tree_addrs_lt h t : tree h t -> forall l, l ∈ addrs t -> (l < length h)%nat.
Proof.
  induction t as [l nd kids IH] using ltree_ind'. intros Ht x Hx.
  apply tree_inv in Ht as (Hl & _ & _ & _ & Hk). simpl in Hx.
  apply elem_of_cons in Hx as [-> | Hx].
  - eapply lookup_lt_Some, Hl.
  - apply list_elem_of_In, in_flat_map in Hx as (k & Hin & Hx).
    rewrite Forall_forall in IH, Hk. apply list_elem_of_In in Hin.
    apply (IH k Hin (Hk k Hin)). apply list_elem_of_In. assumption.
Qed.

(** Frame: a tree only depends on the cells at its addresses. *)
Lemma tree_frame h h' t :
  tree h t -> (forall l, l ∈ addrs t -> h' !! l = h !! l) -> tree h' t.
Proof.
  induction t as [l nd kids IH] using ltree_ind'. intros Ht Hfr.
  apply tree_inv in Ht as (Hl & Hp & Ho & Hc & Hk).
  constructor; try assumption.
  - rewrite Hfr; [assumption | simpl; left].
  - rewrite Forall_forall in *. intros k Hin. apply IH; [assumption | auto |].
    intros x Hx. apply Hfr. eapply elem_of_addrs_kid; eassumption.
Qed.

Lemma tree_app h ext t : tree h t -> tree (h ++ ext) t.
Proof.
  intros Ht. apply (tree_frame h); [assumption |]. intros l Hl.
  apply lookup_app_l. eapply tree_addrs_lt; eassumption.
Qed.

Lemma need_kid k kids l nd : k ∈ kids -> (S (need k) <= need (LT l nd kids))%nat.
Proof.
  intros Hk. simpl. apply le_n_S.
  assert (need k <= list_max (map need kids))%nat; [| lia].
  pose proof (proj1 (list_max_le (map need kids) (list_max (map need kids))) (Nat.le_refl _)) as H.
  rewrite List.Forall_forall in H. apply H. apply in_map, list_elem_of_In, Hk.
Qed.

End Trees.

Lemma slot_fmap {A B} (f : A -> B) (b : BitSet) (s : list A) i :
  slot b (map f s) i = f <$> slot b s i.
Proof.
  unfold slot. destruct (Test b i); [| reflexivity].
  change (map f s) with (f <$> s). apply list_lookup_fmap.
Qed.

Lemma slot_Forall2 {A B} (R : A -> B -> Prop) b (s1 : list A) (s2 : list B) i :
  Forall2 R s1 s2 -> option_Forall2 R (slot b s1 i) (slot b s2 i).
Proof.
  intros H. unfold slot. destruct (Test b i); [| constructor].
  apply Forall2_lookup. assumption.
Qed.

Section Paths.
Context {V : Type} (zero : V).
Local Abbreviation heap := (list (node V)).
Implicit Types (n : node V) (h : heap).
Implicit Types (t tn to pn po oc : ltree (V := V)).

Lemma childT_elem_of t c k : childT t c = Some k -> k ∈ kidsOf t.
Proof. apply slot_elem_of. Qed.

Lemma tree_child h t c k : tree h t -> childT t c = Some k -> tree h k.
Proof.
  destruct t as [l nd kids]. intros Ht Hc. apply tree_inv in Ht as (_ & _ & _ & _ & Hk).
  rewrite Forall_forall in Hk. apply Hk. apply (childT_elem_of _ _ _ Hc).
Qed.

Lemma getChild_tree h t c :
  tree h t -> getChild (nodeOf t) c = Ok (root <$> childT t c).
Proof.
  destruct t as [l nd kids]. intros Ht.
  apply tree_inv in Ht as (_ & [_ Hc] & _ & Hk & _). simpl.
  rewrite getChild_slot by assumption. unfold childT. simpl.
  rewrite Hk, slot_fmap. destruct (slot _ kids c); reflexivity.
Qed.

Lemma deref_tree h t : tree h t -> deref h (Some (root t)) = Ok (nodeOf t).
Proof. intros Ht. apply deref_Some, tree_root, Ht. Qed.

Lemma getAt_tree h path : forall t idx,
  tree h t ->
  getAt zero h (Some (root t)) path idx =
  match getT t path idx with
  | Some v => Ok (v, true)
  | None => Ok (zero, false)
  end.
Proof.
  induction path as [| c path IH]; intros t idx Ht; cbn [getAt getT].
  - rewrite (deref_tree h t Ht). cbn [bind].
    destruct t as [l nd kids]. apply tree_inv in Ht as (_ & [Hp _] & _).
    rewrite getValByIndex_slot by assumption. reflexivity.
  - rewrite (deref_tree h t Ht). cbn [bind]. rewrite (getChild_tree h t c Ht). cbn [bind].
    destruct (childT t c) as [k |] eqn:Hc; [| reflexivity]. simpl.
    apply IH. eapply tree_child; eassumption.
Qed.

Lemma nodeAt_tree h path : forall t,
  tree h t -> nodeAt h (Some (root t)) path = Ok (root <$> nodeT t path).
Proof.
  induction path as [| c path IH]; intros t Ht; cbn [nodeAt nodeT]; [reflexivity |].
  rewrite (deref_tree h t Ht). cbn [bind]. rewrite (getChild_tree h t c Ht). cbn [bind].
  destruct (childT t c) as [k |] eqn:Hc; [| reflexivity]. simpl.
  apply IH. eapply tree_child; eassumption.
Qed.

Lemma nodeT_tree h path : forall t t', tree h t -> nodeT t path = Some t' -> tree h t'.
Proof.
  induction path as [| c path IH]; intros t t' Ht H; cbn [nodeT] in H.
  - injection H as <-. assumption.
  - destruct (childT t c) as [k |] eqn:Hc; [| discriminate].
    eapply IH; [eapply tree_child |]; eassumption.
Qed.

Lemma nodeT_app path : forall t c,
  nodeT t (path ++ [c]) = match nodeT t path with
                          | Some t' => childT t' c
                          | None => None
                          end.
Proof.
  induction path as [| c0 path IH]; intros t c; cbn [nodeT app].
  - destruct (childT t c); reflexivity.
  - destruct (childT t c0); [apply IH | reflexivity].
Qed.

Lemma sameContent_inv (t1 t2 : ltree (V := V)) :
  sameContent t1 t2 ->
  prefixesBitset (nodeOf t1) = prefixesBitset (nodeOf t2) /\
  childrenBitset (nodeOf t1) = childrenBitset (nodeOf t2) /\
  prefixes (nodeOf t1) = prefixes (nodeOf t2) /\
  Forall2 sameContent (kidsOf t1) (kidsOf t2).
Proof. inversion 1; subst. auto. Qed.

Lemma sameContent_child t1 t2 c :
  sameContent t1 t2 -> option_Forall2 sameContent (childT t1 c) (childT t2 c).
Proof.
  intros H. apply sameContent_inv in H as (_ & Hc & _ & Hk). unfold childT.
  rewrite Hc. apply slot_Forall2. assumption.
Qed.

Lemma sameContent_getT path : forall t1 t2 idx,
  sameContent t1 t2 -> getT t1 path idx = getT t2 path idx.
Proof.
  induction path as [| c path IH]; intros t1 t2 idx H; cbn [getT].
  - apply sameContent_inv in H as (Hp & _ & Hv & _). unfold slotP. rewrite Hp, Hv. reflexivity.
  - destruct (sameContent_child t1 t2 c H) as [k1 k2 Hk |]; [apply IH; assumption | reflexivity].
Qed.

Lemma unionT_mono d : forall N0 N1 tn to tn',
  (N0 <= N1)%nat -> unionT d N1 tn to tn' -> unionT d N0 tn to tn'.
Proof.
  induction d as [| d IH]; intros N0 N1 tn to tn' Hle H; [exact H |].
  destruct H as (Hr & Hs & Hnone & Hclone & Hrec). cbn [unionT].
  split; [assumption |]. split; [assumption |]. split; [assumption |]. split.
  - intros c oc H1 H2. destruct (Hclone c oc H1 H2) as (tc & E & Hsc & Hfresh).
    exists tc. split; [assumption |]. split; [assumption |].
    intros l Hl. specialize (Hfresh l Hl). lia.
  - intros c oc nc H1 H2. destruct (Hrec c oc nc H1 H2) as (nc' & E & Hu).
    exists nc'. split; [assumption |]. eapply IH; eassumption.
Qed.

(** Every prefix of [to] is in the union, with its value. *)
Lemma unionT_get_other path : forall d N0 tn to tn' idx v,
  unionT d N0 tn to tn' ->
  getT to path idx = Some v -> getT tn' path idx = Some v.
Proof.
  induction path as [| c path IH]; intros d N0 tn to tn' idx v Hu Hg;
    (destruct d as [| d]; [destruct Hu |]); cbn [getT] in *.
  - destruct Hu as (_ & Hs & _). rewrite Hs, Hg. reflexivity.
  - destruct Hu as (_ & _ & _ & Hclone & Hrec).
    destruct (childT to c) as [oc |] eqn:Eo; [| discriminate].
    destruct (childT tn c) as [nc |] eqn:En.
    + destruct (Hrec c oc nc Eo En) as (nc' & -> & Hu'). eapply IH; eassumption.
    + destruct (Hclone c oc Eo En) as (tc & -> & Hsc & _).
      rewrite <- (sameContent_getT path oc tc idx Hsc). assumption.
Qed.

(** A prefix that [to] does not hold is as before. *)
Lemma unionT_get_same path : forall d N0 tn to tn' idx,
  unionT d N0 tn to tn' ->
  getT to path idx = None -> getT tn' path idx = getT tn path idx.
Proof.
  induction path as [| c path IH]; intros d N0 tn to tn' idx Hu Hg;
    (destruct d as [| d]; [destruct Hu |]); cbn [getT] in *.
  - destruct Hu as (_ & Hs & _). rewrite Hs, Hg. reflexivity.
  - destruct Hu as (_ & _ & Hnone & Hclone & Hrec).
    destruct (childT to c) as [oc |] eqn:Eo.
    + destruct (childT tn c) as [nc |] eqn:En.
      * destruct (Hrec c oc nc Eo En) as (nc' & -> & Hu'). eapply IH; eassumption.
      * destruct (Hclone c oc Eo En) as (tc & -> & Hsc & _).
        rewrite <- (sameContent_getT path oc tc idx Hsc). assumption.
    + rewrite (Hnone c Eo). reflexivity.
Qed.

(** A child of [to] where [tn] has none arrives as a fresh copy. *)
Lemma unionT_clone path : forall d N0 tn to tn' pn po c oc,
  unionT d N0 tn to tn' ->
  nodeT tn path = Some pn -> nodeT to path = Some po ->
  childT po c = Some oc -> childT pn c = None ->
  exists tc, nodeT tn' (path ++ [c]) = Some tc /\ sameContent oc tc /\
             forall l, l ∈ addrs tc -> (N0 <= l)%nat.
Proof.
  induction path as [| c0 path IH]; intros d N0 tn to tn' pn po c oc Hu Hn Ho Hoc Hnc;
    (destruct d as [| d]; [destruct Hu |]); cbn [nodeT app] in *.
  - injection Hn as <-. injection Ho as <-.
    destruct Hu as (_ & _ & _ & Hclone & _).
    destruct (Hclone c oc Hoc Hnc) as (tc & -> & H). exists tc. auto.
  - destruct Hu as (_ & _ & _ & _ & Hrec).
    destruct (childT tn c0) as [nc |] eqn:En; [| discriminate].
    destruct (childT to c0) as [oc0 |] eqn:Eo; [| discriminate].
    destruct (Hrec c0 oc0 nc Eo En) as (nc' & -> & Hu').
    eapply IH; eassumption.
Qed.

End Paths.

(** * cloneRec

    The clone is a trie of fresh cells with the content of the original,
    and the store is only extended. *)

Lemma octetIndices_spec b : octetIndices b <-> forall i, Test b i = true -> i < 256.
Proof.
  unfold octetIndices. split.
  - intros H i Hi. pose proof (Test_lt_size b i Hi). lia.
  - intros H. destruct (N.eq_dec b 0) as [-> | Hb]; [simpl; lia |].
    rewrite N.size_log2 by assumption.
    pose proof (H (N.log2 b) (N.bit_log2 b Hb)). lia.
Qed.

Lemma octetIndices_Set b j : octetIndices b -> j < 256 -> octetIndices (Set_ b j).
Proof.
  rewrite !octetIndices_spec. intros H Hj i Hi. rewrite Test_Set in Hi.
  apply orb_true_iff in Hi as [Hi | Hi]; [apply N.eqb_eq in Hi; lia | auto].
Qed.

Section Clone.
Context {V : Type}.
Local Abbreviation heap := (list (node V)).
Implicit Types (n : node V) (h : heap).
Implicit Types (t tn to pn po oc tc : ltree (V := V)).

Lemma elem_of_flat_map_addrs (ts : list (ltree (V := V))) x :
  x ∈ flat_map addrs ts <-> exists k, k ∈ ts /\ x ∈ addrs k.
Proof.
  rewrite list_elem_of_In, in_flat_map. split; intros (k & H1 & H2); exists k;
    rewrite ?list_elem_of_In in *; auto.
Qed.

Lemma Forall_tree_frame h h' (ts : list (ltree (V := V))) :
  Forall (tree h) ts ->
  (forall l, l ∈ flat_map addrs ts -> h' !! l = h !! l) ->
  Forall (tree h') ts.
Proof.
  intros Ht Hfr. rewrite Forall_forall in *. intros k Hk.
  apply (tree_frame h); [auto |]. intros l Hl. apply Hfr.
  apply elem_of_flat_map_addrs. eauto.
Qed.

Lemma cloneRec_range_spec clone bound h c pb cb ps :
  cloneSpec clone bound -> length h = c ->
  forall rest done ext,
    (h ++ ext) !! c = Some (mkNode pb cb ps (map rootPtr done ++ map rootPtr rest)) ->
    Forall (tree h) rest -> Forall (fun k => need k <= bound)%nat rest ->
    Forall (tree (h ++ ext)) done -> NoDup (flat_map addrs done) ->
    (forall l, l ∈ flat_map addrs done -> (c < l)%nat) ->
    exists ext' clones,
      cloneRec_range clone (h ++ ext) c (length done) (map rootPtr rest) = Ok (h ++ ext') /\
      (h ++ ext') !! c = Some (mkNode pb cb ps (map rootPtr (done ++ clones))) /\
      Forall (tree (h ++ ext')) (done ++ clones) /\
      Forall2 sameContent rest clones /\
      NoDup (flat_map addrs (done ++ clones)) /\
      (forall l, l ∈ flat_map addrs (done ++ clones) -> (c < l)%nat).
Proof.
  intros Hclone Hc. induction rest as [| k rest IH]; intros done ext Hcell Hrest Hneed Hdone Hnd Hgt.
  - exists ext, []. rewrite app_nil_r in *. simpl. auto 10.
  - apply Forall_cons in Hrest as [Hk Hrest]. apply Forall_cons in Hneed as [Hnk Hneed].
    cbn [cloneRec_range map].
    destruct (Hclone (h ++ ext) k (tree_app h ext k Hk) Hnk)
      as (ext1 & tc & Hcl & Htc & Hsc & Hndc & Hfresh).
    unfold rootPtr at 1. rewrite Hcl. cbn [bind].
    assert (Hlt : (c < length (h ++ ext))%nat) by (eapply lookup_lt_Some, Hcell).
    assert (Hcell1 : ((h ++ ext) ++ ext1) !! c =
              Some (mkNode pb cb ps (map rootPtr done ++ map rootPtr (k :: rest)))).
    { rewrite lookup_app_l by assumption. assumption. }
    assert (Hins : <[length done := rootPtr tc]> (map rootPtr done ++ map rootPtr (k :: rest))
                   = map rootPtr (done ++ [tc]) ++ map rootPtr rest).
    { rewrite <- (length_map rootPtr done) at 1.
      rewrite insert_app_r_alt, Nat.sub_diag by lia. simpl.
      rewrite map_app, <- app_assoc. reflexivity. }
    rewrite (update_Some _ c _ _
               (mkNode pb cb ps (map rootPtr (done ++ [tc]) ++ map rootPtr rest)) Hcell1).
    2:{ cbn [children]. rewrite store_in_range by (rewrite length_app, !length_map; simpl; lia).
        cbn [bind]. rewrite Nat2Z.id. change (Some (root tc)) with (rootPtr tc).
        rewrite Hins. reflexivity. }
    cbn [bind].
    set (cn' := mkNode pb cb ps (map rootPtr (done ++ [tc]) ++ map rootPtr rest)).
    assert (Hh2 : <[c := cn']> ((h ++ ext) ++ ext1) =
                  h ++ <[(c - length h)%nat := cn']> (ext ++ ext1)).
    { rewrite <- app_assoc. apply insert_app_r_alt. lia. }
    rewrite Hh2.
    assert (Hagree : forall l, l <> c ->
              (h ++ <[(c - length h)%nat := cn']> (ext ++ ext1)) !! l = ((h ++ ext) ++ ext1) !! l).
    { intros l Hl. rewrite <- Hh2. apply list_lookup_insert_ne. auto. }
    assert (Hfresh' : forall l, l ∈ addrs tc -> (c < l)%nat).
    { intros l Hl. specialize (Hfresh l Hl). lia. }
    destruct (IH (done ++ [tc]) (<[(c - length h)%nat := cn']> (ext ++ ext1)))
      as (ext' & clones & Hrun & Hcell' & Htrees & Hsame & Hnd' & Hgt').
    + rewrite <- Hh2. apply list_lookup_insert_eq.
      rewrite length_app. lia.
    + assumption.
    + assumption.
    + apply Forall_app. split.
      * apply (Forall_tree_frame ((h ++ ext) ++ ext1)).
        -- rewrite Forall_forall in *. intros d Hd. apply tree_app. auto.
        -- intros l Hl. apply Hagree. specialize (Hgt l Hl). lia.
      * constructor; [| constructor]. apply (tree_frame ((h ++ ext) ++ ext1)); [assumption |].
        intros l Hl. apply Hagree. specialize (Hfresh' l Hl). lia.
    + rewrite flat_map_app. simpl. rewrite app_nil_r. apply NoDup_app.
      split; [assumption |]. split; [| assumption].
      intros x Hx Hx'. specialize (Hfresh x Hx').
      apply elem_of_flat_map_addrs in Hx as (d & Hd & Hx).
      rewrite Forall_forall in Hdone.
      pose proof (tree_addrs_lt _ _ (Hdone d Hd) x Hx). lia.
    + intros l Hl. rewrite flat_map_app in Hl. simpl in Hl. rewrite app_nil_r in Hl.
      apply elem_of_app in Hl as [Hl | Hl]; auto.
    + rewrite length_app in Hrun. simpl in Hrun. rewrite Nat.add_1_r in Hrun.
      exists ext', (tc :: clones). rewrite <- !app_assoc in *. simpl in *.
      split; [assumption |]. split; [assumption |]. split; [assumption |].
      split; [constructor; assumption |]. split; assumption.
Qed.

Lemma cloneRec_spec fuel : cloneSpec (V := V) (cloneRec fuel) fuel.
Proof.
  induction fuel as [| fuel IH]; intros h t Ht Hneed.
  { destruct t; simpl in Hneed; lia. }
  destruct t as [l nd kids]. pose proof Ht as Ht0.
  apply tree_inv in Ht as (Hl & [Hp Hc] & Ho & Hk & Hkids).
  cbn [cloneRec alloc root].
  assert (Hd : deref (h ++ [newNode]) (Some l) = Ok nd).
  { apply deref_Some. rewrite lookup_app_l by (eapply lookup_lt_Some, Hl). assumption. }
  rewrite Hd. cbn [bind]. destruct (isEmpty nd) eqn:Hempty.
  - (* empty node *)
    unfold isEmpty in Hempty. apply andb_true_iff in Hempty as [Hp0 Hc0].
    apply Nat.eqb_eq in Hp0, Hc0.
    exists [newNode], (LT (length h) newNode []). split; [reflexivity |].
    split; [| split; [| split]].
    + constructor; try reflexivity.
      * apply list_lookup_middle. reflexivity.
      * apply popcountOk_newNode.
      * unfold octetIndices. simpl. lia.
      * constructor.
    + assert (kids = []).
      { destruct kids; [reflexivity |]. rewrite Hk in Hc0. discriminate. }
      subst kids. constructor.
      * simpl. apply Count_0. unfold prefixesOk in Hp. lia.
      * simpl. apply Count_0. unfold childrenOk in Hc. lia.
      * simpl. destruct (prefixes nd); [reflexivity | discriminate].
      * constructor.
    + simpl. apply NoDup_singleton.
    + intros x Hx. simpl in Hx. apply list_elem_of_singleton in Hx. lia.
  - unfold Clone. cbn [children].
    set (cn := mkNode (prefixesBitset nd) (childrenBitset nd) (prefixes nd) (children nd)).
    assert (Hh1 : <[length h := cn]> (h ++ [newNode]) = h ++ [cn]).
    { rewrite insert_app_r_alt, Nat.sub_diag by lia. reflexivity. }
    rewrite Hh1.
    destruct (cloneRec_range_spec (cloneRec fuel) fuel h (length h)
                (prefixesBitset nd) (childrenBitset nd) (prefixes nd) IH eq_refl
                kids [] [cn])
      as (ext' & clones & Hrun & Hcell & Htrees & Hsame & Hnd & Hgt).
    + rewrite list_lookup_middle by reflexivity. unfold cn. rewrite Hk. reflexivity.
    + assumption.
    + rewrite Forall_forall. intros k Hin.
      pose proof (need_kid k kids l nd Hin). lia.
    + constructor.
    + constructor.
    + intros x Hx. simpl in Hx. inversion Hx.
    + simpl in *. rewrite Hk. change (map (fun k => Some (root k)) kids) with (map rootPtr kids).
      rewrite Hrun. cbn [bind].
      exists ext', (LT (length h) (mkNode (prefixesBitset nd) (childrenBitset nd)
                                   (prefixes nd) (map rootPtr clones)) clones).
      split; [reflexivity |]. split; [| split; [| split]].
      * constructor; try assumption.
        -- split; [exact Hp |]. unfold childrenOk in *. simpl.
           rewrite length_map, <- (Forall2_length _ _ _ Hsame).
           rewrite <- Hc, Hk, length_map. reflexivity.
        -- reflexivity.
      * constructor; auto.
      * simpl. apply NoDup_cons. split; [| assumption].
        intros Hin. specialize (Hgt _ Hin). lia.
      * intros x Hx. simpl in Hx. apply elem_of_cons in Hx as [-> | Hx]; [lia |].
        specialize (Hgt _ Hx). lia.
Qed.

End Clone.

(** * unionRec

    The two loops of [unionRec], by induction on the depth of [o]: the
    result is [unionT], laid out at the addresses of [n] and at fresh
    ones. *)

Section UnionPrefixes.
Context {V : Type} (zero : V).
Local Abbreviation heap := (list (node V)).
Implicit Types (n nd od : node V) (h : heap).

Lemma unionRec_prefixes_spec (ln lo : loc) od :
  lo <> ln -> prefixesOk od ->
  forall fuel start nd h,
    h !! ln = Some nd -> h !! lo = Some od -> prefixesOk nd ->
    (N.to_nat (N.size (prefixesBitset od)) - N.to_nat start < fuel)%nat ->
    exists nd',
      unionRec_prefixes zero fuel h (Some ln) (Some lo) start = Ok (<[ln := nd']> h) /\
      prefixesOk nd' /\
      childrenBitset nd' = childrenBitset nd /\ children nd' = children nd /\
      forall idx, slot (prefixesBitset nd') (prefixes nd') idx = overlay od nd start idx.
Proof.
  intros Hne Hod. induction fuel as [| fuel IH]; intros start nd h Hn Ho Hnd Hf; [lia |].
  cbn [unionRec_prefixes]. rewrite (proj2 (deref_Some h lo od) Ho). cbn [bind].
  destruct (NextSet (prefixesBitset od) start) as [j ok] eqn:Hnext. destruct ok; cbn [negb].
  - apply NextSet_found in Hnext as (Hle & Hj & Hmin).
    destruct (slot_is_Some _ _ _ Hod Hj) as [v Hv].
    rewrite getValByIndex_slot, Hv by assumption. cbn [bind].
    destruct (insertIdx_spec nd j v Hnd) as (nd1 & Hins & Hnd1 & Hcb & Hch & _ & Hs1).
    rewrite (update_Some h ln nd _ nd1 Hn Hins). cbn [bind].
    pose proof (lookup_lt_Some _ _ _ Hn) as Hlt. pose proof (Test_lt_size _ _ Hj).
    destruct (IH (j + 1) nd1 (<[ln := nd1]> h)) as (nd' & Hrun & Hnd' & Hcb' & Hch' & Hs').
    + apply list_lookup_insert_eq. assumption.
    + rewrite list_lookup_insert_ne by auto. assumption.
    + assumption.
    + lia.
    + exists nd'. rewrite Hrun, list_insert_insert_eq.
      split; [reflexivity |]. split; [assumption |].
      split; [congruence |]. split; [congruence |].
      intros idx. rewrite Hs'. unfold overlay. rewrite Hs1.
      destruct (N.leb_spec (j + 1) idx), (N.leb_spec start idx); try lia.
      * destruct (slot _ (prefixes od) idx); [reflexivity |].
        destruct (N.eqb_spec j idx); [lia | reflexivity].
      * destruct (N.eqb_spec j idx) as [<- | Hne']; [rewrite Hv; reflexivity |].
        assert (Hnone : slot (prefixesBitset od) (prefixes od) idx = None).
        { unfold slot. rewrite Hmin by lia. reflexivity. }
        rewrite Hnone. reflexivity.
      * destruct (N.eqb_spec j idx); [lia | reflexivity].
  - apply NextSet_none in Hnext as [_ Hnone]. exists nd.
    rewrite list_insert_id by assumption.
    split; [reflexivity |]. split; [assumption |]. split; [reflexivity |].
    split; [reflexivity |]. intros idx. unfold overlay.
    destruct (N.leb_spec start idx); [| reflexivity].
    unfold slot at 2. rewrite Hnone by assumption. reflexivity.
Qed.

End UnionPrefixes.

Section UnionSteps.
Context {V : Type} (zero : V).
Local Abbreviation heap := (list (node V)).
Implicit Types (n nd od : node V) (h : heap).
Implicit Types (t tn to pn po oc nc tc : ltree (V := V)).
Implicit Types (kids : list (ltree (V := V))).

Lemma flat_addrs_insert_at kids (r : nat) tc :
  flat_map addrs (take r kids ++ tc :: drop r kids) ≡ₚ addrs tc ++ flat_map addrs kids.
Proof.
  rewrite <- (take_drop r kids) at 3. rewrite !flat_map_app. simpl.
  rewrite !app_assoc. apply Permutation_app_tail, Permutation_app_comm.
Qed.

Lemma flat_addrs_lookup kids (r : nat) nc :
  kids !! r = Some nc ->
  flat_map addrs kids ≡ₚ addrs nc ++ flat_map addrs (delete r kids).
Proof.
  intros H. rewrite (delete_Permutation kids r nc H) at 1. reflexivity.
Qed.

Lemma flat_addrs_replace kids (r : nat) nc nc' :
  kids !! r = Some nc ->
  flat_map addrs (<[r := nc']> kids) ≡ₚ addrs nc' ++ flat_map addrs (delete r kids).
Proof.
  intros H. pose proof (lookup_lt_Some _ _ _ H) as Hlt.
  rewrite insert_take_drop, delete_take_drop by assumption.
  rewrite !flat_map_app. simpl. rewrite !app_assoc.
  apply Permutation_app_tail, Permutation_app_comm.
Qed.

Lemma insertChild_new nd j child :
  childrenOk nd -> Test (childrenBitset nd) j = false ->
  insertChild nd j child =
  Ok (mkNode (prefixesBitset nd) (Set_ (childrenBitset nd) j) (prefixes nd)
        (take (Rank (childrenBitset nd) j) (children nd)
         ++ child :: drop (Rank (childrenBitset nd) j) (children nd))).
Proof.
  intros Hc Ht. unfold insertChild. rewrite Ht.
  pose proof (Rank_le_Count (childrenBitset nd) j) as Hle.
  assert (Hr : childRank (set_childrenBitset nd (Set_ (childrenBitset nd) j)) j
               = Z.of_nat (Rank (childrenBitset nd) j)).
  { unfold childRank. simpl. rewrite Rank_Set, N.leb_refl by assumption. lia. }
  rewrite Hr. simpl. unfold childrenOk in Hc. rewrite Insert_in_range by lia.
  rewrite Nat2Z.id. reflexivity.
Qed.

Lemma childT_unfold l nd kids c : childT (LT l nd kids) c = slot (childrenBitset nd) kids c.
Proof. reflexivity. Qed.

Lemma union_step_clone clone depth h ln nd kids to j oc :
  cloneSpec clone depth ->
  tree h (LT ln nd kids) -> tree h to -> NoDup (addrs (LT ln nd kids)) ->
  (forall l, l ∈ addrs (LT ln nd kids) -> l ∉ addrs to) ->
  tree h oc -> (need oc <= depth)%nat -> j < 256 ->
  Test (childrenBitset nd) j = false ->
  exists h1 tc nd1 kids1,
    (do (h, c) <- clone h (Some (root oc));
     update h (Some ln) (fun nn => insertChild nn j c)) = Ok h1 /\
    tree h1 (LT ln nd1 kids1) /\ tree h1 to /\ NoDup (addrs (LT ln nd1 kids1)) /\
    (forall l, l ∈ addrs (LT ln nd1 kids1) -> l ∉ addrs to) /\
    (length h <= length h1)%nat /\
    (forall l, l ∈ addrs (LT ln nd1 kids1) ->
               l ∈ addrs (LT ln nd kids) \/ (length h <= l)%nat) /\
    (forall l, (l < length h)%nat -> l ∉ addrs (LT ln nd kids) -> h1 !! l = h !! l) /\
    prefixesBitset nd1 = prefixesBitset nd /\ prefixes nd1 = prefixes nd /\
    sameContent oc tc /\ allFresh (length h) tc /\
    forall c, childT (LT ln nd1 kids1) c =
              if j =? c then Some tc else childT (LT ln nd kids) c.
Proof.
  intros Hclone HT Hto Hnd Hdisj Hoc Hneed Hj Ht.
  destruct (Hclone h oc Hoc Hneed) as (ext & tc & Hcl & Htc & Hsc & Hndc & Hfresh).
  pose proof HT as HT0. apply tree_inv in HT as (Hl & [Hp Hc] & Ho & Hk & Hkids).
  pose proof (tree_kids_length h _ HT0) as Hlen. simpl in Hlen.
  set (r := Rank (childrenBitset nd) j).
  set (kids1 := take r kids ++ tc :: drop r kids).
  set (nd1 := mkNode (prefixesBitset nd) (Set_ (childrenBitset nd) j) (prefixes nd)
                (take r (children nd) ++ Some (root tc) :: drop r (children nd))).
  pose proof (lookup_lt_Some _ _ _ Hl) as Hlt.
  assert (Hagree : forall l, l <> ln -> (l < length h)%nat ->
            (<[ln := nd1]> (h ++ ext)) !! l = h !! l).
  { intros l Hne Hl'. rewrite list_lookup_insert_ne by auto. apply lookup_app_l. assumption. }
  assert (Hperm : flat_map addrs kids1 ≡ₚ addrs tc ++ flat_map addrs kids)
    by apply flat_addrs_insert_at.
  assert (Hin1 : forall x, x ∈ addrs (LT ln nd1 kids1) ->
            x = ln \/ x ∈ addrs tc \/ x ∈ flat_map addrs kids).
  { intros x Hx. simpl in Hx. apply elem_of_cons in Hx as [-> | Hx]; [auto |].
    rewrite Hperm in Hx. apply elem_of_app in Hx. tauto. }
  exists (<[ln := nd1]> (h ++ ext)), tc, nd1, kids1.
  split.
  { rewrite Hcl. cbn [bind]. apply update_Some with (n := nd).
    - rewrite lookup_app_l by assumption. assumption.
    - apply insertChild_new; assumption. }
  split.
  { constructor.
    - apply list_lookup_insert_eq. rewrite length_app. lia.
    - split; [exact Hp |]. unfold childrenOk in *. simpl.
      rewrite length_Insert by (pose proof (Rank_le_Count (childrenBitset nd) j); lia).
      rewrite Count_Set by assumption. congruence.
    - simpl. apply octetIndices_Set; assumption.
    - simpl. unfold kids1. rewrite Hk.
      rewrite List.firstn_map, List.skipn_map, map_app. reflexivity.
    - unfold kids1. apply Forall_app. split; [| constructor].
      + apply Forall_take. apply (Forall_tree_frame h); [assumption |].
        intros l Hl'. apply Hagree.
        * intros ->. apply NoDup_cons in Hnd as [Hnd _]. contradiction.
        * apply elem_of_flat_map_addrs in Hl' as (k & Hk1 & Hk2).
          rewrite Forall_forall in Hkids. apply (tree_addrs_lt h k (Hkids k Hk1) l Hk2).
      + apply (tree_frame (h ++ ext)); [assumption |]. intros l Hl'.
        apply list_lookup_insert_ne. specialize (Hfresh l Hl'). lia.
      + apply Forall_drop. apply (Forall_tree_frame h); [assumption |].
        intros l Hl'. apply Hagree.
        * intros ->. apply NoDup_cons in Hnd as [Hnd _]. contradiction.
        * apply elem_of_flat_map_addrs in Hl' as (k & Hk1 & Hk2).
          rewrite Forall_forall in Hkids. apply (tree_addrs_lt h k (Hkids k Hk1) l Hk2). }
  split.
  { apply (tree_frame h); [assumption |]. intros l Hl'. apply Hagree.
    - intros ->. apply (Hdisj ln); [simpl; left | assumption].
    - apply (tree_addrs_lt h to Hto l Hl'). }
  split.
  { simpl. apply NoDup_cons. rewrite Hperm. apply NoDup_cons in Hnd as [Hnotin Hnd].
    split.
    - intros Hx. apply elem_of_app in Hx as [Hx | Hx]; [| contradiction].
      specialize (Hfresh _ Hx). lia.
    - apply NoDup_app. split; [assumption |]. split; [| assumption].
      intros x Hx Hx'. specialize (Hfresh _ Hx).
      assert (x < length h)%nat; [| lia].
      apply (tree_addrs_lt h _ HT0). simpl. right. assumption. }
  split.
  { intros x Hx Hxo. pose proof (tree_addrs_lt h _ Hto x Hxo).
    destruct (Hin1 x Hx) as [-> | [Hx' | Hx']].
    - apply (Hdisj ln); [simpl; left | assumption].
    - specialize (Hfresh _ Hx'). lia.
    - apply (Hdisj x); [simpl; right; assumption | assumption]. }
  split; [rewrite length_insert, length_app; lia |].
  split.
  { intros x Hx. destruct (Hin1 x Hx) as [-> | [Hx' | Hx']].
    - left. simpl. left.
    - right. apply Hfresh. assumption.
    - left. simpl. right. assumption. }
  split.
  { intros l Hl' Hnotin. apply Hagree; [| assumption]. intros ->. apply Hnotin. simpl. left. }
  split; [reflexivity |]. split; [reflexivity |]. split; [assumption |].
  split; [exact Hfresh |].
  intros c. rewrite !childT_unfold. simpl. unfold kids1, r.
  apply slot_Insert; assumption.
Qed.

End UnionSteps.

Section UnionRecStep.
Context {V : Type} (zero : V).
Local Abbreviation heap := (list (node V)).
Implicit Types (n nd od : node V) (h : heap).
Implicit Types (t tn to pn po oc nc tc : ltree (V := V)).
Implicit Types (kids : list (ltree (V := V))).

Lemma unionT_root d N0 tn to tn' : unionT d N0 tn to tn' -> root tn' = root tn.
Proof. destruct d; [intros [] | intros H; apply H]. Qed.

Lemma union_step_rec rec depth h ln nd kids to j oc nc :
  unionSpec rec depth ->
  tree h (LT ln nd kids) -> tree h to -> NoDup (addrs (LT ln nd kids)) ->
  (forall l, l ∈ addrs (LT ln nd kids) -> l ∉ addrs to) ->
  tree h oc -> (forall l, l ∈ addrs oc -> l ∈ addrs to) ->
  (need oc <= depth)%nat ->
  childT (LT ln nd kids) j = Some nc ->
  exists h1 nc' kids1,
    rec h (Some (root nc)) (Some (root oc)) = Ok h1 /\
    tree h1 (LT ln nd kids1) /\ tree h1 to /\ NoDup (addrs (LT ln nd kids1)) /\
    (forall l, l ∈ addrs (LT ln nd kids1) -> l ∉ addrs to) /\
    (length h <= length h1)%nat /\
    (forall l, l ∈ addrs (LT ln nd kids1) ->
               l ∈ addrs (LT ln nd kids) \/ (length h <= l)%nat) /\
    (forall l, (l < length h)%nat -> l ∉ addrs (LT ln nd kids) -> h1 !! l = h !! l) /\
    unionT depth (length h) nc oc nc' /\
    forall c, childT (LT ln nd kids1) c =
              if j =? c then Some nc' else childT (LT ln nd kids) c.
Proof.
  intros Hrec HT Hto Hnd Hdisj Hoc Hsub Hneed Hnc.
  pose proof HT as HT0. apply tree_inv in HT as (Hl & [Hp Hc] & Ho & Hk & Hkids).
  pose proof (tree_kids_length h _ HT0) as Hlen. simpl in Hlen.
  rewrite childT_unfold in Hnc. pose proof (slot_Some_Test _ _ _ _ Hnc) as Hj.
  set (r := (Rank (childrenBitset nd) j - 1)%nat).
  assert (Hr : kids !! r = Some nc).
  { unfold slot in Hnc. rewrite Hj in Hnc. exact Hnc. }
  pose proof (flat_addrs_lookup kids r nc Hr) as Hperm.
  apply NoDup_cons in Hnd as [Hln Hndk]. pose proof Hndk as Hndk0.
  rewrite Hperm in Hndk. apply NoDup_app in Hndk as (Hndnc & Hsep & Hndo).
  assert (Hnck : forall x, x ∈ addrs nc -> x ∈ flat_map addrs kids).
  { intros x Hx. rewrite Hperm. apply elem_of_app. auto. }
  assert (Hok : forall x, x ∈ flat_map addrs (delete r kids) -> x ∈ flat_map addrs kids).
  { intros x Hx. rewrite Hperm. apply elem_of_app. auto. }
  assert (Htnc : tree h nc).
  { rewrite Forall_forall in Hkids. apply Hkids. eapply list_elem_of_lookup_2, Hr. }
  destruct (Hrec h nc oc Htnc Hoc Hndnc) as (h1 & nc' & Hrun & Hnc' & Hndnc' & Hlen1 & Hadd & Hfr & Hu);
    [| assumption |].
  { intros x Hx Hxo. apply (Hdisj x); [simpl; right; auto | auto]. }
  pose proof (lookup_lt_Some _ _ _ Hl) as Hlt.
  pose proof (unionT_root _ _ _ _ _ Hu) as Hroot.
  set (kids1 := <[r := nc']> kids).
  pose proof (flat_addrs_replace kids r nc nc' Hr) as Hperm1. fold kids1 in Hperm1.
  assert (Hin1 : forall x, x ∈ addrs (LT ln nd kids1) ->
            x = ln \/ x ∈ addrs nc' \/ x ∈ flat_map addrs (delete r kids)).
  { intros x Hx. simpl in Hx. apply elem_of_cons in Hx as [-> | Hx]; [auto |].
    rewrite Hperm1 in Hx. apply elem_of_app in Hx. tauto. }
  assert (Hkidlt : forall x, x ∈ flat_map addrs kids -> (x < length h)%nat).
  { intros x Hx. apply (tree_addrs_lt h _ HT0). simpl. right. assumption. }
  exists h1, nc', kids1. split; [assumption |].
  split.
  { constructor; [| split; assumption | assumption | |].
    - rewrite Hfr; [assumption | assumption |]. intros Hx. apply Hln. auto.
    - unfold kids1. rewrite Hk.
      change (map (fun k => Some (root k)) (<[r := nc']> kids))
        with ((fun k : ltree => Some (root k)) <$> <[r := nc']> kids).
      rewrite list_fmap_insert. rewrite Hroot. symmetry. apply list_insert_id.
      rewrite list_lookup_fmap, Hr. reflexivity.
    - unfold kids1. rewrite insert_take_drop by (eapply lookup_lt_Some, Hr).
      assert (Hothers : Forall (tree h1) (delete r kids)).
      { apply (Forall_tree_frame h).
        - rewrite Forall_forall in *. intros k Hin. apply Hkids.
          rewrite (delete_Permutation kids r nc Hr). right. assumption.
        - intros x Hx. apply Hfr; [auto |]. intros Hx'. apply (Hsep x Hx' Hx). }
      rewrite delete_take_drop in Hothers. apply Forall_app in Hothers as [H1 H2].
      apply Forall_app. split; [assumption |]. constructor; assumption. }
  split.
  { apply (tree_frame h); [assumption |]. intros x Hx. apply Hfr.
    - apply (tree_addrs_lt h to Hto x Hx).
    - intros Hx'. apply (Hdisj x); [simpl; right; auto | assumption]. }
  split.
  { simpl. apply NoDup_cons. rewrite Hperm1. split.
    - intros Hx. apply elem_of_app in Hx as [Hx | Hx]; [| apply Hln; auto].
      destruct (Hadd _ Hx) as [Hx' | Hx']; [apply Hln; auto | lia].
    - apply NoDup_app. split; [assumption |]. split; [| assumption].
      intros x Hx Hx'. destruct (Hadd _ Hx) as [Hx1 | Hx1]; [apply (Hsep x Hx1 Hx') |].
      specialize (Hkidlt x (Hok x Hx')). lia. }
  split.
  { intros x Hx Hxo. pose proof (tree_addrs_lt h _ Hto x Hxo).
    destruct (Hin1 x Hx) as [-> | [Hx' | Hx']].
    - apply (Hdisj ln); [simpl; left | assumption].
    - destruct (Hadd _ Hx') as [Hx1 | Hx1]; [| lia].
      apply (Hdisj x); [simpl; right; auto | assumption].
    - apply (Hdisj x); [simpl; right; auto | assumption]. }
  split; [assumption |].
  split.
  { intros x Hx. destruct (Hin1 x Hx) as [-> | [Hx' | Hx']].
    - left. simpl. left.
    - destruct (Hadd _ Hx') as [Hx1 | Hx1]; [left; simpl; right; auto | right; assumption].
    - left. simpl. right. auto. }
  split.
  { intros x Hx Hnotin. apply Hfr; [assumption |]. intros Hx'. apply Hnotin.
    simpl. right. auto. }
  split; [assumption |].
  intros c. rewrite !childT_unfold. unfold kids1, r.
  apply slot_store; assumption.
Qed.

End UnionRecStep.

Section UnionLoop.
Context {V : Type} (zero : V).
Local Abbreviation heap := (list (node V)).
Implicit Types (n nd od : node V) (h : heap).
Implicit Types (t tn to pn po oc nc tc : ltree (V := V)).
Implicit Types (kids : list (ltree (V := V))).

Lemma childT_None_Test h t c : tree h t -> childT t c = None -> Test (childrenBitset (nodeOf t)) c = false.
Proof.
  intros Ht Hc. destruct (Test (childrenBitset (nodeOf t)) c) eqn:E; [| reflexivity].
  destruct (slot_is_Some (childrenBitset (nodeOf t)) (kidsOf t) c) as [k Hk];
    [apply (tree_kids_length h), Ht | assumption |].
  unfold childT in Hc. congruence.
Qed.

Lemma union_step rec clone depth h ln nd kids to j oc :
  unionSpec rec depth -> cloneSpec clone depth ->
  tree h (LT ln nd kids) -> tree h to -> NoDup (addrs (LT ln nd kids)) ->
  (forall l, l ∈ addrs (LT ln nd kids) -> l ∉ addrs to) ->
  childT to j = Some oc -> (need oc <= depth)%nat -> j < 256 ->
  exists h1 nd1 kids1 x,
    match root <$> childT (LT ln nd kids) j with
    | None =>
        do (h, c) <- clone h (Some (root oc));
        update h (Some ln) (fun nn => insertChild nn j c)
    | Some l => rec h (Some l) (Some (root oc))
    end = Ok h1 /\
    tree h1 (LT ln nd1 kids1) /\ tree h1 to /\ NoDup (addrs (LT ln nd1 kids1)) /\
    (forall l, l ∈ addrs (LT ln nd1 kids1) -> l ∉ addrs to) /\
    (length h <= length h1)%nat /\
    (forall l, l ∈ addrs (LT ln nd1 kids1) ->
               l ∈ addrs (LT ln nd kids) \/ (length h <= l)%nat) /\
    (forall l, (l < length h)%nat -> l ∉ addrs (LT ln nd kids) -> h1 !! l = h !! l) /\
    prefixesBitset nd1 = prefixesBitset nd /\ prefixes nd1 = prefixes nd /\
    merged depth (length h) (childT (LT ln nd kids) j) oc x /\
    forall c, childT (LT ln nd1 kids1) c =
              if j =? c then Some x else childT (LT ln nd kids) c.
Proof.
  intros Hrec Hclone HT Hto Hnd Hdisj Hoc Hneed Hj.
  assert (Htoc : tree h oc) by (eapply tree_child; eassumption).
  assert (Hsub : forall l, l ∈ addrs oc -> l ∈ addrs to).
  { intros l Hl. destruct to as [lo od okids]. eapply elem_of_addrs_kid; [| eassumption].
    apply (childT_elem_of _ _ _ Hoc). }
  destruct (childT (LT ln nd kids) j) as [nc |] eqn:Hnc; cbn [fmap option_fmap option_map].
  - destruct (union_step_rec rec depth h ln nd kids to j oc nc Hrec HT Hto Hnd Hdisj
                Htoc Hsub Hneed Hnc)
      as (h1 & nc' & kids1 & H1 & H2 & H3 & H4 & H5 & H6 & H7 & H8 & H9 & H10).
    exists h1, nd, kids1, nc'. simpl. auto 15.
  - pose proof (childT_None_Test h _ j HT Hnc) as Ht. simpl in Ht.
    destruct (union_step_clone clone depth h ln nd kids to j oc Hclone HT Hto Hnd Hdisj
                Htoc Hneed Hj Ht)
      as (h1 & tc & nd1 & kids1 & H1 & H2 & H3 & H4 & H5 & H6 & H7 & H8 & H9 & H10 & H11 & H12 & H13).
    exists h1, nd1, kids1, tc. simpl. auto 15.
Qed.

Lemma unionRec_children_spec rec clone depth to :
  unionSpec rec depth -> cloneSpec clone depth ->
  (forall k, k ∈ kidsOf to -> (need k <= depth)%nat) ->
  forall fuel start h ln nd kids,
    tree h (LT ln nd kids) -> tree h to -> NoDup (addrs (LT ln nd kids)) ->
    (forall l, l ∈ addrs (LT ln nd kids) -> l ∉ addrs to) ->
    (N.to_nat (N.size (childrenBitset (nodeOf to))) - N.to_nat start < fuel)%nat ->
    exists h' nd' kids',
      unionRec_children rec clone fuel h (Some ln) (Some (root to)) start = Ok h' /\
      tree h' (LT ln nd' kids') /\ NoDup (addrs (LT ln nd' kids')) /\
      (length h <= length h')%nat /\
      (forall l, l ∈ addrs (LT ln nd' kids') ->
                 l ∈ addrs (LT ln nd kids) \/ (length h <= l)%nat) /\
      (forall l, (l < length h)%nat -> l ∉ addrs (LT ln nd kids) -> h' !! l = h !! l) /\
      prefixesBitset nd' = prefixesBitset nd /\ prefixes nd' = prefixes nd /\
      (forall c, c < start -> childT (LT ln nd' kids') c = childT (LT ln nd kids) c) /\
      (forall c, start <= c -> childT to c = None ->
         childT (LT ln nd' kids') c = childT (LT ln nd kids) c) /\
      (forall c oc, start <= c -> childT to c = Some oc ->
         exists x, childT (LT ln nd' kids') c = Some x /\
                   merged depth (length h) (childT (LT ln nd kids) c) oc x).
Proof.
  intros Hrec Hclone Hneed.
  induction fuel as [| fuel IH]; intros start h ln nd kids HT Hto Hnd Hdisj Hf; [lia |].
  cbn [unionRec_children]. rewrite (deref_tree h to Hto). cbn [bind].
  destruct (NextSet (childrenBitset (nodeOf to)) start) as [j ok] eqn:Hnext.
  destruct ok; cbn [negb].
  2:{ apply NextSet_none in Hnext as [_ Hnone].
      exists h, nd, kids. split; [reflexivity |]. split; [assumption |].
      split; [assumption |]. split; [lia |]. split; [auto |]. split; [auto |].
      split; [reflexivity |]. split; [reflexivity |]. split; [auto |]. split; [auto |].
      intros c oc Hc Hoc. apply slot_Some_Test in Hoc. rewrite Hnone in Hoc by assumption.
      discriminate. }
  apply NextSet_found in Hnext as (Hle & Hj & Hmin).
  assert (Hj256 : j < 256).
  { destruct to as [lo od okids]. apply tree_inv in Hto as (_ & _ & Ho & _).
    apply (proj1 (octetIndices_spec _) Ho j Hj). }
  rewrite (byte_small j Hj256).
  rewrite (getChild_tree h to j Hto). cbn [bind].
  destruct (slot_is_Some (childrenBitset (nodeOf to)) (kidsOf to) j
              (tree_kids_length h to Hto) Hj) as [oc Hoc].
  change (childT to j = Some oc) in Hoc. rewrite Hoc. cbn [fmap option_fmap option_map].
  pose proof (deref_tree h _ HT) as Hd. cbn [root nodeOf] in Hd. rewrite Hd. cbn [bind].
  pose proof (getChild_tree h _ j HT) as Hg. cbn [nodeOf] in Hg. rewrite Hg. cbn [bind].
  clear Hd Hg.
  destruct (union_step rec clone depth h ln nd kids to j oc Hrec Hclone HT Hto Hnd Hdisj Hoc)
    as (h1 & nd1 & kids1 & x & Hrun & HT1 & Hto1 & Hnd1 & Hdisj1 & Hlen1 & Hadd1 & Hfr1
        & Hpb1 & Hps1 & Hx & Hch1); [apply Hneed, (childT_elem_of _ _ _ Hoc) | assumption |].
  assert (Hbody : match root <$> childT (LT ln nd kids) j with
                  | Some _ => rec h (root <$> childT (LT ln nd kids) j) (Some (root oc))
                  | None =>
                      do (h0, c) <- clone h (Some (root oc));
                      update h0 (Some ln) (fun nn => insertChild nn j c)
                  end = Ok h1).
  { destruct (root <$> childT (LT ln nd kids) j); assumption. }
  rewrite Hbody. cbn [bind]. clear Hbody Hrun.
  pose proof (Test_lt_size _ _ Hj) as Hsize.
  destruct (IH (j + 1) h1 ln nd1 kids1 HT1 Hto1 Hnd1 Hdisj1 ltac:(lia))
    as (h' & nd' & kids' & Hrun' & HT' & Hnd' & Hlen' & Hadd' & Hfr' & Hpb' & Hps' & Hlow & Hnone & Hsome).
  exists h', nd', kids'. split; [assumption |]. split; [assumption |].
  split; [assumption |]. split; [lia |]. split.
  { intros l Hl. destruct (Hadd' l Hl) as [Hl1 | Hl1]; [| right; lia].
    destruct (Hadd1 l Hl1); auto. }
  split.
  { intros l Hl Hnotin. rewrite Hfr'; [auto | lia |].
    intros Hl1. destruct (Hadd1 l Hl1); [contradiction | lia]. }
  split; [congruence |]. split; [congruence |]. split.
  { intros c Hc. rewrite Hlow by lia. rewrite Hch1.
    destruct (N.eqb_spec j c); [lia | reflexivity]. }
  split.
  { intros c Hc Hoc'.
    assert (Hcj : j <> c) by (intros <-; congruence).
    destruct (N.lt_ge_cases c (j + 1)).
    - rewrite Hlow by assumption. rewrite Hch1.
      destruct (N.eqb_spec j c); [contradiction | reflexivity].
    - rewrite Hnone by assumption. rewrite Hch1.
      destruct (N.eqb_spec j c); [contradiction | reflexivity]. }
  intros c oc' Hc Hoc'. destruct (N.eq_dec c j) as [-> | Hcj].
  - assert (oc' = oc) by congruence. subst oc'.
    exists x. split; [| assumption]. rewrite Hlow by lia. rewrite Hch1, N.eqb_refl. reflexivity.
  - assert (Hge : j + 1 <= c).
    { destruct (N.lt_ge_cases c j); [| lia].
      apply slot_Some_Test in Hoc'. rewrite Hmin in Hoc' by lia. discriminate. }
    destruct (Hsome c oc' Hge Hoc') as (x' & Hx'1 & Hx'2). exists x'. split; [assumption |].
    rewrite Hch1 in Hx'2. destruct (N.eqb_spec j c); [congruence |].
    destruct (childT (LT ln nd kids) c); simpl in *.
    + eapply unionT_mono; eassumption.
    + destruct Hx'2 as [Hs Hfresh]. split; [assumption |].
      intros l Hl. specialize (Hfresh l Hl). lia.
Qed.

End UnionLoop.

Section UnionMain.
Context {V : Type} (zero : V).
Local Abbreviation heap := (list (node V)).
Implicit Types (n nd od : node V) (h : heap).
Implicit Types (t tn to pn po oc nc tc : ltree (V := V)).
Implicit Types (kids : list (ltree (V := V))).

Lemma need_sizes l nd kids (d : nat) :
  (need (LT l nd kids) <= S d)%nat ->
  (N.to_nat (N.size (prefixesBitset nd)) <= d)%nat /\
  (N.to_nat (N.size (childrenBitset nd)) <= d)%nat.
Proof. simpl. lia. Qed.

Lemma unionRec_spec fuel : unionSpec (unionRec zero fuel) fuel.
Proof.
  induction fuel as [| depth IH]; intros h tn to Htn Hto Hnd Hdisj Hneed.
  { destruct to; simpl in Hneed; lia. }
  destruct tn as [ln nd kids]. destruct to as [lo od okids].
  pose proof Htn as Htn0. pose proof Hto as Hto0.
  apply tree_inv in Htn as (Hln & [Hp Hc] & Ho & Hk & Hkids).
  apply tree_inv in Hto as (Hlo & [Hpo Hco] & Hoo & Hko & Hokids).
  destruct (need_sizes _ _ _ _ Hneed) as [Hs1 Hs2].
  assert (Hne : lo <> ln).
  { intros ->. apply (Hdisj ln); simpl; left. }
  cbn [unionRec root].
  destruct (unionRec_prefixes_spec zero ln lo od Hne Hpo (S depth) 0 nd h Hln Hlo Hp ltac:(lia))
    as (nd1 & Hrun1 & Hp1 & Hcb1 & Hch1 & Hslots).
  rewrite Hrun1. cbn [bind].
  pose proof (lookup_lt_Some _ _ _ Hln) as Hlt.
  assert (Hagree : forall l, l <> ln -> (<[ln := nd1]> h) !! l = h !! l).
  { intros l Hl. apply list_lookup_insert_ne. auto. }
  pose proof Hnd as Hnd0. apply NoDup_cons in Hnd as [Hnotin Hndk].
  assert (HT1 : tree (<[ln := nd1]> h) (LT ln nd1 kids)).
  { constructor.
    - apply list_lookup_insert_eq. assumption.
    - split; [assumption |]. unfold childrenOk in *. congruence.
    - congruence.
    - congruence.
    - apply (Forall_tree_frame h); [assumption |]. intros l Hl. apply Hagree.
      intros ->. contradiction. }
  assert (Hto1 : tree (<[ln := nd1]> h) (LT lo od okids)).
  { apply (tree_frame h); [assumption |]. intros l Hl. apply Hagree.
    intros ->. apply (Hdisj ln); [simpl; left | assumption]. }
  destruct (unionRec_children_spec (unionRec zero depth) (cloneRec depth) depth
              (LT lo od okids) IH (cloneRec_spec depth)) with
      (fuel := S depth) (start := 0) (h := <[ln := nd1]> h) (ln := ln) (nd := nd1) (kids := kids)
    as (h' & nd' & kids' & Hrun2 & HT' & Hnd' & Hlen' & Hadd' & Hfr' & Hpb' & Hps' & _ & Hnone & Hsome);
    try assumption.
  { intros k Hin. pose proof (need_kid k okids lo od Hin). lia. }
  { simpl. lia. }
  rewrite length_insert in *.
  exists h', (LT ln nd' kids'). split; [exact Hrun2 |]. split; [assumption |].
  split; [assumption |]. split; [assumption |]. split; [exact Hadd' |]. split.
  { intros l Hl Hnotin'. rewrite Hfr' by assumption. apply Hagree.
    intros ->. apply Hnotin'. simpl. left. }
  assert (Hsame : forall c, childT (LT ln nd1 kids) c = childT (LT ln nd kids) c).
  { intros c. rewrite !childT_unfold. rewrite Hcb1. reflexivity. }
  cbn [unionT]. split; [reflexivity |]. split.
  { intros idx. unfold slotP. simpl. rewrite Hpb', Hps', Hslots. unfold overlay.
    rewrite (proj2 (N.leb_le 0 idx)) by lia. reflexivity. }
  split.
  { intros c Hcn. rewrite Hnone by (assumption || lia). apply Hsame. }
  split.
  - intros c oc Hoc Hnc. destruct (Hsome c oc ltac:(lia) Hoc) as (x & Hx1 & Hx2).
    rewrite Hsame, Hnc in Hx2. destruct Hx2 as [Hs Hfresh]. exists x. auto.
  - intros c oc nc Hoc Hnc. destruct (Hsome c oc ltac:(lia) Hoc) as (x & Hx1 & Hx2).
    rewrite Hsame, Hnc in Hx2. exists x. auto.
Qed.

Lemma NoDup_child t c k : NoDup (addrs t) -> childT t c = Some k -> NoDup (addrs k).
Proof.
  destruct t as [l nd kids]. intros Hnd Hc. apply childT_elem_of in Hc. simpl in Hc.
  apply elem_of_Permutation in Hc as [others Hperm].
  simpl in Hnd. apply NoDup_cons in Hnd as [_ Hnd]. rewrite Hperm in Hnd. simpl in Hnd.
  apply NoDup_app in Hnd. apply Hnd.
Qed.

Lemma NoDup_sub path : forall t t',
  NoDup (addrs t) -> nodeT t path = Some t' -> NoDup (addrs t').
Proof.
  induction path as [| c path IH]; intros t t' Hnd H; cbn [nodeT] in H.
  - injection H as <-. assumption.
  - destruct (childT t c) as [k |] eqn:Hc; [| discriminate].
    eapply IH; [eapply NoDup_child |]; eassumption.
Qed.

(** C6 -- union.  [tn] and [to] are two tries of the store with no node
    in common.  [unionRec n o] returns a store in which: every base index
    set in [o], at any octet path, is set at the same path in [n] and
    carries [o]'s value; every (path, base index) that [o] does not hold
    reads in [n] as it did before the union; no node of [o] is modified;
    and every child octet of [o] at a path where [n] had no child is
    attached to [n] as a deep clone: a trie of nodes allocated by the
    union, which reads like [o]'s child at every path. *)
Theorem unionRec_semantics fuel h tn to :
  tree h tn -> tree h to -> NoDup (addrs tn) ->
  (forall l, l ∈ addrs tn -> l ∉ addrs to) ->
  (need to <= fuel)%nat ->
  exists h',
    unionRec zero fuel h (Some (root tn)) (Some (root to)) = Ok h' /\
    (* every prefix of o is in n and carries o's value *)
    (forall path idx v,
       getAt zero h (Some (root to)) path idx = Ok (v, true) ->
       getAt zero h' (Some (root tn)) path idx = Ok (v, true)) /\
    (* what o does not hold is as before in n *)
    (forall path idx,
       getAt zero h (Some (root to)) path idx = Ok (zero, false) ->
       getAt zero h' (Some (root tn)) path idx = getAt zero h (Some (root tn)) path idx) /\
    (* o is not modified *)
    (forall l, l ∈ addrs to -> h' !! l = h !! l) /\
    (* a child of o where n has none is attached as a deep clone *)
    (forall path octet (nAddr oAddr oNode : loc),
       nodeAt h (Some (root tn)) path = Ok (Some nAddr) ->
       nodeAt h (Some (root to)) path = Ok (Some oAddr) ->
       (do n <- deref h (Some nAddr); getChild n octet) = Ok None ->
       (do o <- deref h (Some oAddr); getChild o octet) = Ok (Some oNode) ->
       exists tc,
         nodeAt h' (Some (root tn)) (path ++ [octet]) = Ok (Some (root tc)) /\
         tree h' tc /\ NoDup (addrs tc) /\
         (forall l, l ∈ addrs tc -> (length h <= l)%nat) /\
         forall path' idx,
           getAt zero h' (Some (root tc)) path' idx = getAt zero h (Some oNode) path' idx).
Proof.
  intros Htn Hto Hnd Hdisj Hneed.
  destruct (unionRec_spec fuel h tn to Htn Hto Hnd Hdisj Hneed)
    as (h' & tn' & Hrun & Htn' & Hnd' & Hlen & Hadd & Hfr & Hu).
  pose proof (unionT_root _ _ _ _ _ Hu) as Hroot.
  assert (Hto' : tree h' to).
  { apply (tree_frame h); [assumption |]. intros l Hl. apply Hfr.
    - apply (tree_addrs_lt h to Hto l Hl).
    - intros Hl'. apply (Hdisj l Hl' Hl). }
  exists h'. split; [assumption |]. rewrite <- Hroot. split; [| split; [| split]].
  - intros path idx v Hg. rewrite (getAt_tree zero h path to idx Hto) in Hg.
    rewrite (getAt_tree zero h' path tn' idx Htn').
    destruct (getT to path idx) as [v' |] eqn:E; [| discriminate].
    injection Hg as ->. rewrite (unionT_get_other path _ _ _ _ _ _ _ Hu E). reflexivity.
  - intros path idx Hg. rewrite (getAt_tree zero h path to idx Hto) in Hg.
    rewrite (getAt_tree zero h' path tn' idx Htn'). rewrite Hroot.
    rewrite (getAt_tree zero h path tn idx Htn).
    destruct (getT to path idx) as [v' |] eqn:E; [discriminate |].
    rewrite (unionT_get_same path _ _ _ _ _ _ Hu E). reflexivity.
  - intros l Hl. apply Hfr.
    + apply (tree_addrs_lt h to Hto l Hl).
    + intros Hl'. apply (Hdisj l Hl' Hl).
  - intros path octet nAddr oAddr oNode Hpn Hpo Hnc Hoc.
    rewrite Hroot in Hpn. rewrite (nodeAt_tree h path tn Htn) in Hpn.
    rewrite (nodeAt_tree h path to Hto) in Hpo.
    destruct (nodeT tn path) as [tpn |] eqn:En; [| discriminate].
    destruct (nodeT to path) as [tpo |] eqn:Eo; [| discriminate].
    injection Hpn as <-. injection Hpo as <-.
    pose proof (nodeT_tree h path tn tpn Htn En) as Htpn.
    pose proof (nodeT_tree h path to tpo Hto Eo) as Htpo.
    rewrite (deref_tree h tpn Htpn) in Hnc. cbn [bind] in Hnc.
    rewrite (getChild_tree h tpn octet Htpn) in Hnc.
    rewrite (deref_tree h tpo Htpo) in Hoc. cbn [bind] in Hoc.
    rewrite (getChild_tree h tpo octet Htpo) in Hoc.
    destruct (childT tpn octet) as [? |] eqn:Ecn; [discriminate |].
    destruct (childT tpo octet) as [oc |] eqn:Eco; [| discriminate].
    injection Hoc as <-.
    destruct (unionT_clone path _ _ _ _ _ tpn tpo octet oc Hu En Eo Eco Ecn)
      as (tc & Hnode & Hsc & Hfresh).
    assert (Htc : tree h' tc).
    { apply (nodeT_tree h' (path ++ [octet]) tn' tc Htn' Hnode). }
    assert (Hoc' : tree h oc) by (eapply tree_child; eassumption).
    exists tc. split.
    { rewrite (nodeAt_tree h' _ tn' Htn'), Hnode. reflexivity. }
    split; [assumption |]. split; [| split; [assumption |]].
    + apply (NoDup_sub (path ++ [octet]) tn' tc Hnd' Hnode).
    + intros path' idx. rewrite (getAt_tree zero h' path' tc idx Htc).
      rewrite (getAt_tree zero h path' oc idx Hoc').
      rewrite (sameContent_getT path' oc tc idx Hsc). reflexivity.
Qed.

End UnionMain.

(** * Properties of a single node *)

Lemma prefixToBaseIndex_Ok octet len :
  (0 <= len <= 8)%Z ->
  prefixToBaseIndex octet len =
  Ok (N.shiftr octet (Z.to_N (8 - len)) + N.shiftl 1 (Z.to_N len)).
Proof.
  intros H. unfold prefixToBaseIndex, strideLen.
  destruct (Z.ltb_spec (8 - len) 0), (Z.ltb_spec len 0); try lia. reflexivity.
Qed.

Section NodeProperties.
Context {V : Type} (zero : V).
Implicit Types n : node V.

(** C3 -- insert, get and delete round trip.  For a node obeying the
    popcount correspondence, any octet, a prefix length in 0 .. 8 and a
    value [v]: right after [insertPrefix octet prefixLen v],
    [getValByPrefix octet prefixLen] returns [(v, true)]; after a
    following [deletePrefix octet prefixLen] (which reports [true]) it
    returns [ok = false], and a second [deletePrefix] returns [false]. *)
Theorem insert_get_delete_roundtrip n octet prefixLen v :
  prefixesOk n -> (0 <= prefixLen <= 8)%Z ->
  exists n1 n2,
    insertPrefix n octet prefixLen v = Ok n1 /\
    getValByPrefix zero n1 octet prefixLen = Ok (v, true) /\
    deletePrefix n1 octet prefixLen = Ok (n2, true) /\
    getValByPrefix zero n2 octet prefixLen = Ok (zero, false) /\
    deletePrefix n2 octet prefixLen = Ok (n2, false).
Proof.
  intros Hok Hlen. pose proof (prefixToBaseIndex_Ok octet prefixLen Hlen) as Hb.
  set (idx := N.shiftr octet (Z.to_N (8 - prefixLen)) + N.shiftl 1 (Z.to_N prefixLen)) in Hb.
  destruct (insertIdx_spec n idx v Hok) as (n1 & Hins & Hok1 & _ & _ & Ht1 & Hs1).
  assert (Hset : Test (prefixesBitset n1) idx = true) by (rewrite Ht1, N.eqb_refl; reflexivity).
  destruct (deletePrefix_present n1 octet prefixLen idx Hok1 Hb Hset)
    as (n2 & Hdel & Hok2 & _ & _ & Ht2 & Hs2).
  exists n1, n2. unfold insertPrefix, getValByPrefix. rewrite Hb. cbn [bind].
  split; [assumption |]. split.
  { rewrite getValByIndex_slot, Hs1, N.eqb_refl by assumption. reflexivity. }
  split; [assumption |]. split.
  { rewrite getValByIndex_slot, Hs2, N.eqb_refl by assumption. reflexivity. }
  apply (deletePrefix_absent n2 octet prefixLen idx Hb).
  rewrite Ht2, N.eqb_refl. apply andb_false_r.
Qed.

(** C7 -- deleting an absent prefix.  When the base index of
    [(octet, prefixLen)] is not set, [deletePrefix] returns [false] and
    the node as it was: bit sets and slices are the same.  So after any
    [deletePrefix], a second one for the same prefix returns [false] and
    changes nothing. *)
Theorem deletePrefix_absent_noop n octet prefixLen baseIdx :
  prefixToBaseIndex octet prefixLen = Ok baseIdx ->
  (Test (prefixesBitset n) baseIdx = false ->
   deletePrefix n octet prefixLen = Ok (n, false)) /\
  (forall n1 wasPresent,
     deletePrefix n octet prefixLen = Ok (n1, wasPresent) ->
     deletePrefix n1 octet prefixLen = Ok (n1, false)).
Proof.
  intros Hb. split; [apply deletePrefix_absent; assumption |].
  intros n1 r Hdel. apply (deletePrefix_absent n1 octet prefixLen baseIdx Hb).
  unfold deletePrefix in Hdel. rewrite Hb in Hdel. cbn [bind] in Hdel.
  destruct (Test (prefixesBitset n) baseIdx) eqn:Ht; cbn [negb] in Hdel.
  - destruct (slices.Delete _ _ _) as [ps | |]; cbn [bind] in Hdel; try discriminate.
    injection Hdel as <- _. cbn. unfold Compact.
    rewrite Test_Clear, N.eqb_refl. apply andb_false_r.
  - injection Hdel as <- _. assumption.
Qed.

(** C9 -- guarded slice accesses are in bounds.  In a node obeying the
    popcount correspondence, when [prefixesBitset.Test idx] holds,
    [prefixRank idx] lies in [0, len prefixes), and [getValByIndex],
    [lpmByIndex], [insertIdx] and [updatePrefix] at that index return
    without an out-of-range access; when [childrenBitset.Test octet]
    holds, [childRank octet] lies in [0, len children) and [getChild]
    returns. *)
Theorem rank_in_bounds n idx octet v :
  prefixesOk n -> childrenOk n ->
  (Test (prefixesBitset n) idx = true ->
     (0 <= prefixRank n idx < Z.of_nat (length (prefixes n)))%Z /\
     (exists val, getValByIndex zero n idx = Ok (val, true)) /\
     (exists val, lpmByIndex zero n idx = Ok (idx, val, true)) /\
     (exists n', insertIdx n idx v = Ok n') /\
     (forall o len cb, prefixToBaseIndex o len = Ok idx ->
        exists n' val, updatePrefix zero n o len cb = Ok (n', val))) /\
  (Test (childrenBitset n) octet = true ->
     (0 <= childRank n octet < Z.of_nat (length (children n)))%Z /\
     (exists child, getChild n octet = Ok child)).
Proof.
  intros Hp Hc. split.
  - intros Ht. pose proof (prefixRank_bounds n idx Hp Ht) as Hr.
    destruct (index_in_range (prefixes n) _ Hr) as [val Hval].
    split; [assumption |]. split; [| split; [| split]].
    + exists val. unfold getValByIndex. rewrite Ht, Hval. reflexivity.
    + exists val. unfold lpmByIndex. cbn [lpmByIndex_loop]. rewrite Ht, Hval. reflexivity.
    + destruct (insertIdx_spec n idx v Hp) as (n' & H & _). eauto.
    + intros o len cb Hb.
      destruct (updatePrefix_spec zero n o len cb idx Hp Hb) as (n' & H & _). eauto.
  - intros Ht. pose proof (childRank_bounds n octet Hc Ht) as Hr.
    destruct (index_in_range (children n) _ Hr) as [child Hchild].
    split; [assumption |]. exists child. unfold getChild. rewrite Ht. assumption.
Qed.

(** C10 -- deleting an absent child.  When [n] has no child at [octet],
    [deleteChild octet] returns without failure and leaves the node as it
    was: both bit sets, the prefix slice and the child slice. *)
Theorem deleteChild_absent_noop n octet :
  Test (childrenBitset n) octet = false -> deleteChild n octet = Ok n.
Proof. apply deleteChild_absent. Qed.

End NodeProperties.

Lemma checkInverse_all : forallb checkInverse (below 512) = true.
Proof. vm_compute. reflexivity. Qed.

(** C8 -- the table inverts the encoding.  For every base index [b] in
    1 .. 511, [baseIndexToPrefix b] yields an octet and a prefix length in
    0 .. 8 with [prefixToBaseIndex octet pfxLen = b]; and for every octet,
    [prefixToBaseIndex octet 0 = 1]. *)
Theorem baseIndexToPrefix_inverse b octet0 :
  1 <= b <= 511 -> octet0 <= 255 ->
  (exists octet pfxLen,
     baseIndexToPrefix b = Ok (octet, pfxLen) /\ (0 <= pfxLen <= 8)%Z /\
     octet <= 255 /\ prefixToBaseIndex octet pfxLen = Ok b) /\
  prefixToBaseIndex octet0 0 = Ok 1.
Proof.
  intros Hb Ho. split.
  - pose proof (forallb_below _ _ checkInverse_all b ltac:(lia)) as H.
    unfold checkInverse in H. rewrite (proj2 (N.eqb_neq b 0)) in H by lia.
    rewrite orb_false_l in H.
    destruct (baseIndexToPrefix b) as [[o l] | |] eqn:E; try discriminate.
    apply andb_prop in H as [H H4]. apply andb_prop in H as [H H3].
    apply andb_prop in H as [H1 H2].
    destruct (prefixToBaseIndex o l) as [b' | |] eqn:E'; try discriminate.
    apply N.eqb_eq in H4. subst b'. apply Z.leb_le in H1, H2. apply N.leb_le in H3.
    exists o, l. auto.
  - rewrite prefixToBaseIndex_Ok by lia. f_equal. simpl.
    rewrite N.shiftr_div_pow2. change (2 ^ 8) with 256.
    rewrite N.div_small by lia. reflexivity.
Qed.

(** ** On the sample node *)

Lemma insert_get_delete_roundtrip_witness :
  exists n1 n2,
    insertPrefix sampleNode 10 8 42%nat = Ok n1 /\
    getValByPrefix 0%nat n1 10 8 = Ok (42%nat, true) /\
    deletePrefix n1 10 8 = Ok (n2, true) /\
    getValByPrefix 0%nat n2 10 8 = Ok (0%nat, false) /\
    deletePrefix n2 10 8 = Ok (n2, false).
Proof.
  apply (insert_get_delete_roundtrip 0%nat sampleNode 10 8 42%nat);
    [vm_compute; reflexivity | lia].
Defined.

Lemma deletePrefix_absent_noop_witness :
  (Test (prefixesBitset sampleNode) 266 = false ->
   deletePrefix sampleNode 10 8 = Ok (sampleNode, false)) /\
  (forall n1 wasPresent,
     deletePrefix sampleNode 10 8 = Ok (n1, wasPresent) ->
     deletePrefix n1 10 8 = Ok (n1, false)).
Proof.
  apply (deletePrefix_absent_noop sampleNode 10 8 266). vm_compute. reflexivity.
Defined.

Lemma deleteChild_absent_noop_witness : deleteChild sampleNode 11 = Ok sampleNode.
Proof. apply (deleteChild_absent_noop sampleNode 11). vm_compute. reflexivity. Defined.

Lemma baseIndexToPrefix_inverse_witness :
  (exists octet pfxLen,
     baseIndexToPrefix 72 = Ok (octet, pfxLen) /\ (0 <= pfxLen <= 8)%Z /\
     octet <= 255 /\ prefixToBaseIndex octet pfxLen = Ok 72) /\
  prefixToBaseIndex 200 0 = Ok 1.
Proof. apply (baseIndexToPrefix_inverse 72 200); lia. Defined.

(** * Instances

    The theorems at concrete nodes and stores. *)

(** C4 as stated fails off masked form.  [halfNode] holds the route 0/7,
    which covers the octets 0 and 1.  For the supplied octet 1 and length
    6, whose range [1, 1 | 3] is 1 .. 3, [overlapsPrefix] returns [false]
    although octet 1 is covered by both. *)
Lemma overlapsPrefix_noncanonical_counterexample :
  overlapsPrefix 0%nat halfNode 1 6 = Ok false /\ overlapsPrefixSpec halfNode 1 6.
Proof.
  split; [vm_compute; reflexivity |].
  left. exists 0, 7%Z. split; [| reflexivity].
  split; [reflexivity |]. exists 128. split; reflexivity.
Qed.

Lemma overlapsPrefix_canonical_witness :
  exists r, overlapsPrefix 0%nat sampleNode 32 6 = Ok r /\
            (r = true <-> overlapsPrefixSpec sampleNode 32 6).
Proof.
  apply (overlapsPrefix_canonical 0%nat sampleNode 32 6).
  - vm_compute. reflexivity.
  - split; [reflexivity | vm_compute; discriminate].
  - reflexivity.
Defined.

Lemma lpmByIndex_longest_match_witness :
  match List.find (Test (prefixesBitset sampleNode)) (chain 301) with
  | Some i => exists v, lpmByIndex 0%nat sampleNode 301 = Ok (i, v, true) /\
                        (i, v) ∈ entries sampleNode
  | None => lpmByIndex 0%nat sampleNode 301 = Ok (0, 0%nat, false)
  end.
Proof.
  apply (lpmByIndex_longest_match 0%nat sampleNode 301);
    [vm_compute; reflexivity | reflexivity | lia].
Defined.

Lemma rank_in_bounds_witness :
  (Test (prefixesBitset sampleNode) 72 = true ->
     (0 <= prefixRank sampleNode 72 < Z.of_nat (length (prefixes sampleNode)))%Z /\
     (exists val, getValByIndex 0%nat sampleNode 72 = Ok (val, true)) /\
     (exists val, lpmByIndex 0%nat sampleNode 72 = Ok (72, val, true)) /\
     (exists n', insertIdx sampleNode 72 9%nat = Ok n') /\
     (forall o len cb, prefixToBaseIndex o len = Ok 72 ->
        exists n' val, updatePrefix 0%nat sampleNode o len cb = Ok (n', val))) /\
  (Test (childrenBitset sampleNode) 10 = true ->
     (0 <= childRank sampleNode 10 < Z.of_nat (length (children sampleNode)))%Z /\
     (exists child, getChild sampleNode 10 = Ok child)).
Proof.
  apply (rank_in_bounds 0%nat sampleNode 72 10 9%nat); vm_compute; reflexivity.
Defined.

Lemma sampleStore_strideNodes : Forall strideNode sampleStore.
Proof.
  repeat constructor; try (vm_compute; reflexivity); vm_compute; discriminate.
Qed.

Lemma nTree_tree : tree sampleStore nTree.
Proof.
  repeat constructor; try (vm_compute; reflexivity); vm_compute; discriminate.
Qed.

Lemma oTree_tree : tree sampleStore oTree.
Proof.
  repeat constructor; try (vm_compute; reflexivity); vm_compute; discriminate.
Qed.

Lemma overlapsRec_symmetric_witness :
  exists r, overlapsRec 3 sampleStore (Some 0%nat) (Some 2%nat) = Ok r /\
            overlapsRec 3 sampleStore (Some 2%nat) (Some 0%nat) = Ok r.
Proof.
  apply (overlapsRec_symmetric 3 sampleStore (Some 0%nat) (Some 2%nat)).
  - exact sampleStore_strideNodes.
  - simpl. repeat constructor.
  - simpl. repeat constructor.
Defined.

Lemma unionRec_semantics_witness :
  exists h',
    unionRec 0%nat 600 sampleStore (Some (root nTree)) (Some (root oTree)) = Ok h' /\
    (forall path idx v,
       getAt 0%nat sampleStore (Some (root oTree)) path idx = Ok (v, true) ->
       getAt 0%nat h' (Some (root nTree)) path idx = Ok (v, true)) /\
    (forall path idx,
       getAt 0%nat sampleStore (Some (root oTree)) path idx = Ok (0%nat, false) ->
       getAt 0%nat h' (Some (root nTree)) path idx
       = getAt 0%nat sampleStore (Some (root nTree)) path idx) /\
    (forall l, l ∈ addrs oTree -> h' !! l = sampleStore !! l) /\
    (forall path octet (nAddr oAddr oNode : loc),
       nodeAt sampleStore (Some (root nTree)) path = Ok (Some nAddr) ->
       nodeAt sampleStore (Some (root oTree)) path = Ok (Some oAddr) ->
       (do n <- deref sampleStore (Some nAddr); getChild n octet) = Ok None ->
       (do o <- deref sampleStore (Some oAddr); getChild o octet) = Ok (Some oNode) ->
       exists tc,
         nodeAt h' (Some (root nTree)) (path ++ [octet]) = Ok (Some (root tc)) /\
         tree h' tc /\ NoDup (addrs tc) /\
         (forall l, l ∈ addrs tc -> (length sampleStore <= l)%nat) /\
         forall path' idx,
           getAt 0%nat h' (Some (root tc)) path' idx
           = getAt 0%nat sampleStore (Some oNode) path' idx).
Proof.
  apply (unionRec_semantics 0%nat 600 sampleStore nTree oTree).
  - exact nTree_tree.
  - exact oTree_tree.
  - apply (bool_decide_unpack _). vm_compute. exact I.
  - intros l Hn Ho. simpl in Hn, Ho.
    repeat (apply elem_of_cons in Hn as [-> | Hn]);
      repeat (apply elem_of_cons in Ho as [Ho | Ho]; [discriminate |]);
      try (inversion Ho); inversion Hn.
  - apply Nat.leb_le. vm_compute. reflexivity.
Defined.

(** * The encoding of prefixes

    The facts about [prefixToBaseIndex], [baseIndexToPrefix] and
    [lowerUpperBound] are read off the table, once for all base
    indices. *)

Lemma checkRoundTrip_all :
  forallb (fun l => forallb (checkRoundTrip l) (below 256)) (below 9) = true.
Proof. vm_compute. reflexivity. Qed.

Lemma checkCovers_all : forallb checkCovers (below 512) = true.
Proof. vm_compute. reflexivity. Qed.

Lemma checkPfxLen_all : forallb checkPfxLen (below 512) = true.
Proof. vm_compute. reflexivity. Qed.

Lemma onChain_true i x : onChain i x = true <-> In i (chain x).
Proof.
  unfold onChain. rewrite existsb_exists. split.
  - intros (y & Hy & E). apply N.eqb_eq in E. subst. assumption.
  - intros H. exists i. split; [assumption | apply N.eqb_refl].
Qed.

(** A host index lies in the host range of [i] exactly when its
    backtracking chain passes [i]. *)
Lemma covers_onChain i x :
  i < 512 -> 256 <= x <= 511 -> covers i x = onChain i x.
Proof.
  intros Hi Hx.
  pose proof (forallb_below _ _ checkCovers_all i ltac:(lia)) as H.
  unfold checkCovers in H. rewrite forallb_forall in H.
  specialize (H x). apply eqb_prop. apply H. apply in_range.
  unfold firstHostIndex, lastHostIndex. lia.
Qed.

Lemma prefixToBaseIndex_bounds octet prefixLen :
  octet <= 255 -> (0 <= prefixLen <= 8)%Z ->
  exists b, prefixToBaseIndex octet prefixLen = Ok b /\
            2 ^ Z.to_N prefixLen <= b < 2 ^ (Z.to_N prefixLen + 1) /\
            1 <= b <= 511.
Proof.
  intros Ho Hl. unfold prefixToBaseIndex, strideLen.
  destruct (8 - prefixLen <? 0)%Z eqn:E1; [apply Z.ltb_lt in E1; lia |].
  destruct (prefixLen <? 0)%Z eqn:E2; [apply Z.ltb_lt in E2; lia |].
  simpl. eexists. split; [reflexivity |].
  rewrite N.shiftl_1_l, N.shiftr_div_pow2.
  assert (Hk : exists k, prefixLen = Z.of_N k /\ k <= 8).
  { exists (Z.to_N prefixLen). lia. }
  destruct Hk as (k & -> & Hk). rewrite N2Z.id.
  replace (Z.to_N (8 - Z.of_N k)) with (8 - k) by lia.
  assert (Hd : octet / 2 ^ (8 - k) < 2 ^ k).
  { apply N.Div0.div_lt_upper_bound.
    rewrite <- N.pow_add_r. replace (8 - k + k) with 8 by lia.
    change (2 ^ 8) with 256. lia. }
  rewrite N.pow_add_r. change (2 ^ 1) with 2.
  assert (Hp : 1 <= 2 ^ k <= 256).
  { split.
    - pose proof (N.pow_nonzero 2 k ltac:(lia)). lia.
    - change 256 with (2 ^ 8). apply N.pow_le_mono_r; lia. }
  generalize dependent (octet / 2 ^ (8 - k)). generalize dependent (2 ^ k).
  intros p Hp q Hq. lia.
Qed.

Lemma prefixToBaseIndex_panics octet prefixLen :
  (prefixLen < 0 \/ 8 < prefixLen)%Z -> prefixToBaseIndex octet prefixLen = Panic.
Proof.
  intros Hl. unfold prefixToBaseIndex, strideLen.
  destruct Hl as [Hl | Hl].
  - destruct (prefixLen <? 0)%Z eqn:E2; [| apply Z.ltb_ge in E2; lia].
    rewrite orb_true_r. reflexivity.
  - destruct (8 - prefixLen <? 0)%Z eqn:E1; [reflexivity | apply Z.ltb_ge in E1; lia].
Qed.

(** A base index comes from an octet and a length in 0 .. 8 only. *)
Lemma prefixToBaseIndex_Ok_range octet prefixLen idx :
  octet <= 255 -> prefixToBaseIndex octet prefixLen = Ok idx -> 1 <= idx <= 511.
Proof.
  intros Ho Hidx.
  destruct (Z_le_gt_dec 0 prefixLen) as [H0 |];
    [destruct (Z_le_gt_dec prefixLen 8) as [H8 |] |].
  - destruct (prefixToBaseIndex_bounds octet prefixLen Ho (conj H0 H8)) as (b & Eb & _ & Hb).
    congruence.
  - rewrite prefixToBaseIndex_panics in Hidx by lia. discriminate.
  - rewrite prefixToBaseIndex_panics in Hidx by lia. discriminate.
Qed.

(** X1 -- the range of the encoding.  For an octet (a byte) and a prefix
    length in 0 .. 8, [prefixToBaseIndex] returns a base index in
    [2^len, 2^(len+1)), hence in 1 .. 511: the prefixes of one length
    fill one level of the complete binary tree.  With a length below 0
    or above 8 the shift count [strideLen - prefixLen] or [prefixLen] is
    negative, and the call panics. *)
Theorem prefixToBaseIndex_range octet prefixLen :
  octet <= 255 ->
  ((0 <= prefixLen <= 8)%Z ->
     exists b, prefixToBaseIndex octet prefixLen = Ok b /\
               2 ^ Z.to_N prefixLen <= b < 2 ^ (Z.to_N prefixLen + 1) /\
               1 <= b <= 511) /\
  ((prefixLen < 0 \/ 8 < prefixLen)%Z -> prefixToBaseIndex octet prefixLen = Panic).
Proof.
  intros Ho. split.
  - apply prefixToBaseIndex_bounds. assumption.
  - apply prefixToBaseIndex_panics.
Qed.

Lemma wrapInt_small x : (- 2 ^ 63 <= x < 2 ^ 63)%Z -> wrapInt x = x.
Proof.
  intros H. unfold wrapInt, intSize. change (64 - 1)%Z with 63%Z.
  rewrite Z.mod_small; lia.
Qed.

Lemma wrapInt_add a b : wrapInt (wrapInt a + b) = wrapInt (a + b).
Proof.
  unfold wrapInt, intSize. change (64 - 1)%Z with 63%Z.
  replace ((a + 2 ^ 63) mod 2 ^ 64 - 2 ^ 63 + b + 2 ^ 63)%Z
    with ((a + 2 ^ 63) mod 2 ^ 64 + b)%Z by lia.
  rewrite Z.add_mod_idemp_l by lia. f_equal. f_equal. lia.
Qed.

(** X2 -- decoding after encoding.  For an octet and a prefix length
    [len] in 0 .. 8, [baseIndexToPrefix (prefixToBaseIndex octet len)]
    is the octet with the bits after its first [len] cleared, and [len];
    [baseIndexToPrefixMask] at depth [depth] gives [depth * 8 + len]
    wrapped around to a 64-bit [int], which is [depth * 8 + len] itself
    when that lies in [-2^63, 2^63); and encoding the masked octet gives
    the same base index: the encoding does not see the bits after the
    first [len]. *)
Theorem baseIndexToPrefix_prefixToBaseIndex octet prefixLen depth :
  octet <= 255 -> (0 <= prefixLen <= 8)%Z ->
  exists b,
    prefixToBaseIndex octet prefixLen = Ok b /\
    baseIndexToPrefix b = Ok (masked octet prefixLen, prefixLen) /\
    baseIndexToPrefixMask b depth = Ok (wrapInt (depth * 8 + prefixLen)) /\
    ((- 2 ^ 63 <= depth * 8 + prefixLen < 2 ^ 63)%Z ->
       baseIndexToPrefixMask b depth = Ok (depth * 8 + prefixLen)%Z) /\
    prefixToBaseIndex (masked octet prefixLen) prefixLen = Ok b.
Proof.
  intros Ho Hl.
  assert (Hk : exists k, prefixLen = Z.of_N k /\ (N.to_nat k < 9)%nat).
  { exists (Z.to_N prefixLen). lia. }
  destruct Hk as (k & -> & Hk).
  pose proof (forallb_below _ _ checkRoundTrip_all k Hk) as H. cbv beta in H.
  pose proof (forallb_below _ _ H octet ltac:(lia)) as H1.
  unfold checkRoundTrip in H1.
  destruct (prefixToBaseIndex octet (Z.of_N k)) as [b | |] eqn:Eb; try discriminate.
  destruct (baseIndexToPrefix b) as [[o' l'] | |] eqn:Ed; try discriminate.
  apply andb_true_iff in H1 as [H1 H2]. apply N.eqb_eq in H1. apply Z.eqb_eq in H2.
  subst o' l'. exists b. split; [reflexivity |]. split; [exact Ed |].
  assert (Hm : baseIndexToPrefixMask b depth = Ok (wrapInt (depth * 8 + Z.of_N k))).
  { unfold baseIndexToPrefixMask. rewrite Ed. unfold strideLen. cbn [bind].
    rewrite wrapInt_add. reflexivity. }
  split; [exact Hm |]. split.
  - intros Hr. rewrite Hm, wrapInt_small by assumption. reflexivity.
  - destruct (prefixToBaseIndex_bounds octet (Z.of_N k) Ho ltac:(lia))
      as (b' & Eb' & _ & Hb').
    assert (b' = b) by congruence. subst b'.
    destruct (decode_facts b Hb') as (o & l & bounds & Hd & _ & He & _).
    congruence.
Qed.

Lemma table_lookup_length : length baseIdx2Pfx = 512%nat.
Proof. reflexivity. Qed.

Lemma lowerUpperBound_outside idx :
  idx = 0 \/ 512 <= idx -> lowerUpperBound idx = Panic.
Proof.
  intros [-> | Hi]; [reflexivity |].
  unfold lowerUpperBound, baseIndexToPrefix.
  rewrite (proj2 (lookup_ge_None baseIdx2Pfx (N.to_nat idx))); [reflexivity |].
  rewrite table_lookup_length. lia.
Qed.

(** X3 -- the host routes of a prefix.  For a base index in 1 .. 511,
    [lowerUpperBound] returns [lo <= hi], both host indices (256 .. 511),
    and the host indices from [lo] to [hi] are exactly those whose
    backtracking chain [x, x >> 1, ..., 1] passes through [idx].  For
    index 0 and from 512 on the call panics: the table has no entry
    there, or one with prefix length -1. *)
Theorem lowerUpperBound_hosts idx :
  (1 <= idx <= 511 ->
     exists lo hi, lowerUpperBound idx = Ok (lo, hi) /\
       256 <= lo /\ lo <= hi /\ hi <= 511 /\
       forall x, 256 <= x <= 511 -> (lo <= x <= hi <-> In idx (chain x))) /\
  (idx = 0 \/ 512 <= idx -> lowerUpperBound idx = Panic).
Proof.
  split; [| apply lowerUpperBound_outside].
  intros Hi. destruct (bounds_facts idx Hi) as (lo & hi & E & H1 & H2).
  exists lo, hi. split; [assumption |]. repeat split; try lia.
  - intros Hx. apply onChain_true. rewrite <- covers_onChain by lia.
    unfold covers. rewrite E. apply andb_true_iff. split; apply N.leb_le; lia.
  - apply onChain_true in H0. rewrite <- covers_onChain in H0 by lia.
    unfold covers in H0. rewrite E in H0. apply andb_true_iff in H0 as [H0 _].
    apply N.leb_le in H0. assumption.
  - apply onChain_true in H0. rewrite <- covers_onChain in H0 by lia.
    unfold covers in H0. rewrite E in H0. apply andb_true_iff in H0 as [_ H0].
    apply N.leb_le in H0. assumption.
Qed.

(** Membership in a backtracking chain. *)
Lemma in_chain i x : In i (chain x) <-> i <> 0 /\ exists k, N.shiftr x k = i.
Proof.
  unfold chain. rewrite in_map_iff. split.
  - intros (k & <- & Hk). apply in_below in Hk. split; [| eauto].
    intros H0. apply N.shiftr_eq_0_iff in H0.
    destruct H0 as [-> | [Hx Hl]]; [simpl in Hk; lia |].
    rewrite N.size_log2 in Hk by lia. lia.
  - intros (Hi & k & <-). exists k. split; [reflexivity |]. apply in_below.
    destruct (N.eq_dec x 0) as [-> | Hx]; [rewrite N.shiftr_0_l in Hi; congruence |].
    rewrite N.size_log2 by assumption.
    destruct (N.lt_ge_cases (N.log2 x) k) as [Hlt |]; [| lia].
    exfalso. apply Hi. apply N.shiftr_eq_0_iff. right. split; [lia | assumption].
Qed.

Lemma onChain_step i j :
  1 <= i ->
  onChain i j = (i =? j) || onChain (N.shiftl i 1) j || onChain (N.shiftl i 1 + 1) j.
Proof.
  intros Hi. apply eq_true_iff_eq.
  rewrite !orb_true_iff, !onChain_true, !in_chain, N.eqb_eq.
  rewrite N.shiftl_mul_pow2. change (2 ^ 1) with 2.
  split.
  - intros (_ & k & Hk). destruct (N.eq_dec k 0) as [-> | Hk0].
    + rewrite N.shiftr_0_r in Hk. auto.
    + assert (E : N.shiftr (N.shiftr j (k - 1)) 1 = i).
      { rewrite N.shiftr_shiftr. replace (k - 1 + 1) with k by lia. assumption. }
      rewrite N.shiftr_div_pow2 in E. change (2 ^ 1) with 2 in E.
      remember (N.shiftr j (k - 1)) as y eqn:Ey.
      pose proof (N.Div0.div_mod y 2) as Hd.
      pose proof (N.mod_upper_bound y 2 ltac:(lia)) as Hm.
      destruct (N.eq_dec (y mod 2) 0) as [E0 | E1].
      * left. right. split; [lia |]. exists (k - 1). rewrite <- Ey.
        rewrite E, E0 in Hd. rewrite Hd. clear. lia.
      * right. split; [lia |]. exists (k - 1). rewrite <- Ey.
        rewrite E in Hd. rewrite Hd at 1.
        generalize dependent (y mod 2). clear. intros m Hd Hm E1. lia.
  - intros [[-> | (_ & k & Hk)] | (_ & k & Hk)].
    + split; [lia |]. exists 0. apply N.shiftr_0_r.
    + split; [lia |]. exists (k + 1). rewrite <- N.shiftr_shiftr, Hk.
      rewrite N.shiftr_div_pow2. change (2 ^ 1) with 2.
      rewrite N.div_mul by lia. reflexivity.
    + split; [lia |]. exists (k + 1). rewrite <- N.shiftr_shiftr, Hk.
      rewrite N.shiftr_div_pow2. change (2 ^ 1) with 2.
      rewrite N.div_add_l by lia. change (1 / 2) with 0. lia.
Qed.

Lemma onChain_host i j : 256 <= i -> j < 512 -> onChain i j = (i =? j).
Proof.
  intros Hi Hj. apply eq_true_iff_eq. rewrite onChain_true, in_chain, N.eqb_eq.
  split.
  - intros (_ & k & Hk). destruct (N.eq_dec k 0) as [-> | Hk0].
    + rewrite N.shiftr_0_r in Hk. auto.
    + exfalso. rewrite N.shiftr_div_pow2 in Hk.
      assert (2 <= 2 ^ k).
      { change 2 with (2 ^ 1) at 1. apply N.pow_le_mono_r; lia. }
      assert (j / 2 ^ k < 256); [| lia].
      apply N.Div0.div_lt_upper_bound. nia.
  - intros ->. split; [lia |]. exists 0. apply N.shiftr_0_r.
Qed.

Lemma store_true (A : list bool) x :
  (N.to_nat x < length A)%nat ->
  slices.store A (Z.of_N x) true = Ok (table (length A) (fun j => (x =? j) || entry A j)).
Proof.
  intros Hx. rewrite store_entry by assumption. f_equal.
  apply table_eq; [apply length_insert |].
  intros j Hj. rewrite entry_insert by assumption.
  destruct (x =? j); reflexivity.
Qed.

Lemma allotRec_spec fuel : forall allotTbl idx,
  length allotTbl = 512%nat -> 1 <= idx <= 511 ->
  (10 <= fuel + N.to_nat (N.size idx))%nat ->
  allotment.allotRec fuel allotTbl idx =
  Ok (table 512 (fun j => entry allotTbl j || onChain idx j)).
Proof.
  induction fuel as [| fuel IH]; intros A idx HA Hi Hf.
  - exfalso. assert (N.size idx <= 9); [| lia].
    destruct (N.eq_dec idx 0); [lia |]. rewrite N.size_log2 by assumption.
    assert (N.log2 idx < 9); [| lia]. apply N.log2_lt_pow2; [lia |].
    change (2 ^ 9) with 512. lia.
  - cbn [allotment.allotRec]. rewrite store_true by lia. cbn [bind]. rewrite HA.
    unfold firstHostIndex. destruct (256 <=? idx) eqn:E.
    + apply N.leb_le in E. f_equal. apply table_ext. intros j Hj.
      rewrite onChain_host by lia. apply orb_comm.
    + apply N.leb_gt in E.
      assert (Hs : N.size (N.shiftl idx 1) = N.succ (N.size idx) /\
                   N.size (N.shiftl idx 1 + 1) = N.succ (N.size idx)).
      { rewrite N.shiftl_mul_pow2. change (2 ^ 1) with 2.
        rewrite !N.size_log2 by lia. split; f_equal.
        - rewrite N.mul_comm. apply N.log2_double. lia.
        - rewrite N.mul_comm. apply N.log2_succ_double. lia. }
      destruct Hs as [Hs1 Hs2].
      assert (Hr : N.shiftl idx 1 = 2 * idx).
      { rewrite N.shiftl_mul_pow2. change (2 ^ 1) with 2. lia. }
      rewrite IH; [| apply table_length | lia | lia]. cbn [bind].
      rewrite IH; [| apply table_length | lia | lia].
      f_equal. apply table_ext. intros j Hj.
      rewrite !table_entry by assumption.
      rewrite (onChain_step idx j) by lia.
      destruct (idx =? j), (entry A j), (onChain (N.shiftl idx 1) j),
        (onChain (N.shiftl idx 1 + 1) j); reflexivity.
Qed.

(** * The allotment table

    The loop of [allot] keeps the table described by [allotStage]. *)

Lemma shiftr_1_children j k :
  N.shiftr j 1 = k <-> j = N.shiftl k 1 \/ j = N.shiftl k 1 + 1.
Proof.
  rewrite N.shiftr_div_pow2, N.shiftl_mul_pow2. change (2 ^ 1) with 2.
  pose proof (N.Div0.div_mod j 2) as Hd.
  pose proof (N.mod_upper_bound j 2 ltac:(lia)) as Hm.
  generalize dependent (j mod 2). generalize dependent (j / 2).
  intros q m Hd Hm. lia.
Qed.

Lemma chain_le a x : In a (chain x) -> a <= x.
Proof.
  intros H. apply in_chain in H as (_ & k & <-).
  rewrite N.shiftr_div_pow2. apply N.Div0.div_le_upper_bound.
  pose proof (N.pow_nonzero 2 k ltac:(lia)). nia.
Qed.

Lemma shiftr_1_lt k : 1 <= k -> N.shiftr k 1 < k.
Proof.
  intros Hk. rewrite N.shiftr_div_pow2. change (2 ^ 1) with 2.
  apply N.div_lt; lia.
Qed.

Section Loop.

Variable start : N.
Variable A0 : list bool.
Hypothesis Hstart : 1 <= start.
Hypothesis HA0 : length A0 = 512%nat.

Local Abbreviation F := (allotStage start A0).

Lemma allot_loop_step k j :
  start <= k ->
  F (k + 1) j = (if F k k then (N.shiftl k 1 + 1 =? j) || ((N.shiftl k 1 =? j) || F k j)
                 else F k j).
Proof.
  intros Hk. unfold allotStage.
  assert (Hkk : entry A0 k ||
                ((N.shiftr k 1 <? k) &&
                 existsb (fun a => (start <=? a) && entry A0 a) (chain (N.shiftr k 1)))
                = existsb (fun a => (start <=? a) && entry A0 a) (chain k)).
  { rewrite (chain_cons k) by lia. cbn [existsb].
    rewrite (proj2 (N.leb_le start k) Hk).
    rewrite (proj2 (N.ltb_lt _ _) (shiftr_1_lt k ltac:(lia))). reflexivity. }
  rewrite Hkk.
  destruct (N.eq_dec (N.shiftr j 1) k) as [E | E].
  - rewrite E. rewrite (proj2 (N.ltb_lt k (k + 1))) by lia. rewrite N.ltb_irrefl.
    cbn [andb]. rewrite orb_false_r.
    apply shiftr_1_children in E.
    destruct (existsb _ (chain k)).
    + destruct E as [-> | ->]; rewrite N.eqb_refl; cbn [orb];
        rewrite ?orb_true_r; reflexivity.
    + rewrite orb_false_r. reflexivity.
  - assert (E1 : (N.shiftr j 1 <? k + 1) = (N.shiftr j 1 <? k)).
    { apply eq_true_iff_eq. rewrite !N.ltb_lt. lia. }
    rewrite E1.
    assert (E2 : (N.shiftl k 1 =? j) = false /\ (N.shiftl k 1 + 1 =? j) = false).
    { split; apply N.eqb_neq; intros <-; apply E; apply shiftr_1_children; auto. }
    destruct E2 as [-> ->]. cbn [orb].
    destruct (existsb _ (chain k)); reflexivity.
Qed.

Lemma allot_loop_spec fuel : forall k,
  start <= k <= 256 -> (256 - N.to_nat k < fuel)%nat ->
  allotment.allot_loop fuel (table 512 (F k)) k = Ok (table 512 (F 256)).
Proof.
  induction fuel as [| fuel IH]; intros k Hk Hf; [lia |].
  cbn [allotment.allot_loop]. unfold firstHostIndex.
  destruct (k <? 256) eqn:E.
  - apply N.ltb_lt in E.
    rewrite index_entry by (rewrite table_length; lia).
    rewrite table_entry by lia. cbn [bind].
    assert (Hstep : (if F k k
                     then do t <- slices.store (table 512 (F k)) (Z.of_N (N.shiftl k 1)) true;
                          slices.store t (Z.of_N (N.shiftl k 1 + 1)) true
                     else Ok (table 512 (F k))) = Ok (table 512 (F (k + 1)))).
    { assert (Hs : N.shiftl k 1 = 2 * k).
      { rewrite N.shiftl_mul_pow2. change (2 ^ 1) with 2. lia. }
      destruct (F k k) eqn:Ek.
      - rewrite store_true by (rewrite table_length; lia). cbn [bind].
        rewrite store_true by (rewrite !table_length; lia).
        rewrite !table_length. f_equal. apply table_ext. intros j Hj.
        rewrite !table_entry by assumption.
        rewrite allot_loop_step by lia. rewrite Ek. reflexivity.
      - f_equal. apply table_ext. intros j Hj.
        rewrite allot_loop_step by lia. rewrite Ek. reflexivity. }
    rewrite Hstep. cbn [bind]. apply IH; lia.
  - apply N.ltb_ge in E. assert (k = 256) by lia. subst k. reflexivity.
Qed.

Lemma allot_loop_start : table 512 (F start) = A0.
Proof.
  symmetry. apply table_eq; [assumption |]. intros j Hj. unfold allotStage.
  destruct (N.shiftr j 1 <? start) eqn:E; [| rewrite orb_false_r; reflexivity].
  apply N.ltb_lt in E.
  assert (Hex : existsb (fun a => (start <=? a) && entry A0 a) (chain (N.shiftr j 1)) = false).
  { apply not_true_is_false. intros H. apply existsb_exists in H as (a & Ha & Hs).
    apply andb_true_iff in Hs as [Hs _]. apply N.leb_le in Hs.
    apply chain_le in Ha. lia. }
  rewrite Hex, orb_false_r. reflexivity.
Qed.

Lemma allot_loop_closure :
  start <= 256 ->
  allotment.allot_loop (S (N.to_nat firstHostIndex)) A0 start
  = Ok (table 512 (allotClosure start A0)).
Proof.
  intros Hs. rewrite <- allot_loop_start at 1.
  rewrite allot_loop_spec by (unfold firstHostIndex; lia).
  apply (f_equal Ok). apply table_ext. intros j Hj. unfold allotStage, allotClosure.
  assert (E : (N.shiftr j 1 <? 256) = true).
  { apply N.ltb_lt. rewrite N.shiftr_div_pow2. change (2 ^ 1) with 2.
    apply N.Div0.div_lt_upper_bound. lia. }
  rewrite E. reflexivity.
Qed.

End Loop.

Lemma allotClosed_descend start A j a :
  allotClosed start A -> j < 512 ->
  In a (chain (N.shiftr j 1)) -> start <= a -> entry A a = true -> entry A j = true.
Proof.
  intros Hc Hj Ha Hs He. apply in_chain in Ha as (Ha0 & k & Hk).
  rewrite <- (N2Nat.id k) in Hk. revert j Hj Hk.
  induction (N.to_nat k) as [| m IH]; intros j Hj Hk.
  - rewrite N.shiftr_0_r in Hk.
    assert (Ha : a < 256).
    { subst a. rewrite N.shiftr_div_pow2. change (2 ^ 1) with 2.
      apply N.Div0.div_lt_upper_bound. lia. }
    destruct (Hc a ltac:(lia) He) as [H1 H2].
    apply shiftr_1_children in Hk as [-> | ->]; assumption.
  - assert (Hj1 : N.shiftr j 1 < 256).
    { rewrite N.shiftr_div_pow2. change (2 ^ 1) with 2.
      apply N.Div0.div_lt_upper_bound. lia. }
    assert (Hp : entry A (N.shiftr j 1) = true).
    { apply IH; [lia |].
      rewrite <- Hk, !N.shiftr_shiftr. f_equal. lia. }
    assert (Hge : a <= N.shiftr j 1).
    { rewrite <- Hk. rewrite N.shiftr_div_pow2. apply N.Div0.div_le_upper_bound.
      pose proof (N.pow_nonzero 2 (N.of_nat (S m)) ltac:(lia)). nia. }
    destruct (Hc (N.shiftr j 1) ltac:(lia) Hp) as [H1 H2].
    destruct (proj1 (shiftr_1_children j (N.shiftr j 1)) eq_refl) as [E | E];
      rewrite E; assumption.
Qed.

Lemma allotRec_0 fuel : forall allotTbl,
  length allotTbl = 512%nat -> allotment.allotRec fuel allotTbl 0 = OutOfFuel.
Proof.
  induction fuel as [| fuel IH]; intros A HA; [reflexivity |].
  cbn [allotment.allotRec]. rewrite store_true by lia. cbn [bind].
  change (firstHostIndex <=? 0) with false. cbv iota.
  change (N.shiftl 0 1) with 0. rewrite IH; [reflexivity |].
  rewrite HA. apply table_length.
Qed.

(** X4 -- [allotRec] sets a subtree.  On a table of 512 entries and for
    [idx] in 1 .. 511, [allotRec] returns (a recursion depth of 9 is
    enough), and the entries set afterwards are those set before and
    those of the complete binary subtree below [idx]: the [j] whose
    backtracking chain passes through [idx].  From 512 on the first
    store is out of range and panics; at index 0 the recursion calls
    itself on index 0 and never returns, whatever the bound. *)
Theorem allotRec_subtree fuel allotTbl idx :
  length allotTbl = 512%nat ->
  (1 <= idx <= 511 -> (9 <= fuel)%nat ->
     exists t, allotment.allotRec fuel allotTbl idx = Ok t /\ length t = 512%nat /\
       forall j, j < 512 ->
         (entry t j = true <-> entry allotTbl j = true \/ In idx (chain j))) /\
  (512 <= idx -> (1 <= fuel)%nat -> allotment.allotRec fuel allotTbl idx = Panic) /\
  (idx = 0 -> allotment.allotRec fuel allotTbl idx = OutOfFuel).
Proof.
  intros HA. split; [| split].
  - intros Hi Hf. eexists. split.
    + apply allotRec_spec; [assumption | assumption |].
      assert (1 <= N.size idx); [| lia].
      rewrite N.size_log2 by lia. lia.
    + split; [apply table_length |]. intros j Hj.
      rewrite table_entry by lia. rewrite orb_true_iff, onChain_true. reflexivity.
  - intros Hi Hf. destruct fuel as [| fuel]; [lia |].
    cbn [allotment.allotRec]. unfold slices.store.
    assert (E : (Z.of_nat (length allotTbl) <=? Z.of_N idx)%Z = true).
    { apply Z.leb_le. lia. }
    rewrite E, orb_true_r. reflexivity.
  - intros ->. apply allotRec_0. assumption.
Qed.

Lemma existsb_chain_split (f : N -> bool) idx j :
  1 <= idx ->
  existsb (fun a => (idx <=? a) && ((idx =? a) || f a)) (chain j)
  = onChain idx j || existsb (fun a => (idx <=? a) && f a) (chain j).
Proof.
  intros Hi. unfold onChain. induction (chain j) as [| a l IH]; [reflexivity |].
  cbn [existsb]. rewrite IH.
  destruct (N.eqb_spec idx a) as [-> | Hne].
  - rewrite N.leb_refl. reflexivity.
  - cbn [orb]. destruct ((idx <=? a) && f a), (existsb (N.eqb idx) l); reflexivity.
Qed.

Lemma onChain_cons idx j :
  1 <= idx -> onChain idx j = (idx =? j) || onChain idx (N.shiftr j 1).
Proof.
  intros Hi. unfold onChain. destruct (N.eq_dec j 0) as [-> | Hj].
  - change (N.shiftr 0 1) with 0. rewrite chain_0. cbn.
    destruct (N.eqb_spec idx 0); [lia | reflexivity].
  - rewrite (chain_cons j Hj). reflexivity.
Qed.

(** The iterative branch of [allot]. *)
Lemma allot_small_spec allotTbl idx :
  length allotTbl = 512%nat -> 1 <= idx <= 3 ->
  allotment.allot allotTbl idx =
  Ok (table 512 (fun j =>
        entry allotTbl j || onChain idx j ||
        existsb (fun a => (idx <=? a) && entry allotTbl a) (chain (N.shiftr j 1)))).
Proof.
  intros HA Hi. unfold allotment.allot.
  destruct (4 <=? idx) eqn:E; [apply N.leb_le in E; lia |].
  rewrite store_true by lia. cbn [bind]. rewrite HA.
  rewrite allot_loop_closure; [| lia | apply table_length | lia].
  apply (f_equal Ok). apply table_ext. intros j Hj. unfold allotClosure.
  rewrite table_entry by assumption.
  assert (Hex : existsb
                  (fun a => (idx <=? a) &&
                            entry (table 512 (fun j0 => (idx =? j0) || entry allotTbl j0)) a)
                  (chain (N.shiftr j 1))
                = existsb (fun a => (idx <=? a) && ((idx =? a) || entry allotTbl a))
                    (chain (N.shiftr j 1))).
  { apply existsb_ext_in. intros a Ha. rewrite table_entry; [reflexivity |].
    apply chain_le in Ha.
    assert (N.shiftr j 1 <= j); [| lia].
    rewrite N.shiftr_div_pow2. apply N.Div0.div_le_upper_bound.
    change (2 ^ 1) with 2. lia. }
  rewrite Hex, existsb_chain_split by lia.
  rewrite (onChain_cons idx j) by lia.
  destruct (idx =? j), (entry allotTbl j), (onChain idx (N.shiftr j 1)),
    (existsb _ (chain (N.shiftr j 1))); reflexivity.
Qed.

Lemma allot_spec allotTbl idx :
  length allotTbl = 512%nat -> 1 <= idx <= 511 ->
  4 <= idx \/ allotClosed idx allotTbl ->
  allotment.allot allotTbl idx =
  Ok (table 512 (fun j => entry allotTbl j || onChain idx j)).
Proof.
  intros HA Hi Hc.
  destruct (N.le_gt_cases 4 idx) as [H4 | H4].
  - unfold allotment.allot. rewrite (proj2 (N.leb_le 4 idx) H4).
    apply allotRec_spec; [assumption | assumption |].
    change (Z.to_nat strideLen + 1)%nat with 9%nat.
    assert (3 <= N.size idx); [| lia].
    rewrite N.size_log2 by lia.
    assert (2 <= N.log2 idx); [| lia].
    change 2 with (N.log2 4). apply N.log2_le_mono. assumption.
  - destruct Hc as [Hc | Hc]; [lia |].
    rewrite allot_small_spec by (assumption || lia).
    apply (f_equal Ok). apply table_ext. intros j Hj.
    destruct (existsb _ (chain (N.shiftr j 1))) eqn:Hex; [| apply orb_false_r].
    apply existsb_exists in Hex as (a & Ha & Hs).
    apply andb_true_iff in Hs as [Hs He]. apply N.leb_le in Hs.
    rewrite (allotClosed_descend idx allotTbl j a Hc) by (assumption || lia).
    reflexivity.
Qed.

(** X5 -- [allot] is [allotRec].  For [idx] in 1 .. 511, on a table of
    512 entries which for [idx < 4] is closed under allotment from
    [idx] on (the two children of a set entry are set; the empty table
    is), [allot] returns the table that [allotRec] returns: the entries
    set before and the subtree below [idx]. *)
Theorem allot_subtree allotTbl idx :
  length allotTbl = 512%nat -> 1 <= idx <= 511 ->
  4 <= idx \/ allotClosed idx allotTbl ->
  exists t, allotment.allot allotTbl idx = Ok t /\
    allotment.allotRec 9 allotTbl idx = Ok t /\
    length t = 512%nat /\
    forall j, j < 512 ->
      (entry t j = true <-> entry allotTbl j = true \/ In idx (chain j)).
Proof.
  intros HA Hi Hc. eexists. split; [apply allot_spec; assumption |].
  split.
  { apply allotRec_spec; [assumption | assumption |].
    assert (1 <= N.size idx); [| lia]. rewrite N.size_log2 by lia. lia. }
  split; [apply table_length |].
  intros j Hj. rewrite table_entry by lia.
  rewrite orb_true_iff, onChain_true. reflexivity.
Qed.

(** X6 -- the iterative branch on any table.  For [idx] in 1 .. 3 and
    any table of 512 entries, [allot] returns, and sets besides the
    subtree of [idx] the subtree of every entry from [idx] on that was
    set before: entry [j] is set afterwards exactly when it was set,
    or lies below [idx], or has a proper ancestor [a >= idx] that was
    set. *)
Theorem allot_small_closure allotTbl idx :
  length allotTbl = 512%nat -> 1 <= idx <= 3 ->
  exists t, allotment.allot allotTbl idx = Ok t /\ length t = 512%nat /\
    forall j, j < 512 ->
      (entry t j = true <->
       entry allotTbl j = true \/ In idx (chain j) \/
       exists a, In a (chain (N.shiftr j 1)) /\ idx <= a /\ entry allotTbl a = true).
Proof.
  intros HA Hi. eexists. split; [apply allot_small_spec; assumption |].
  split; [apply table_length |]. intros j Hj. rewrite table_entry by lia.
  rewrite !orb_true_iff, onChain_true, existsb_exists. split.
  - intros [[H | H] | (a & Ha & Hs)]; auto.
    apply andb_true_iff in Hs as [Hs He]. apply N.leb_le in Hs.
    right. right. exists a. auto.
  - intros [H | [H | (a & Ha & Hs & He)]]; auto.
    right. exists a. split; [assumption |].
    apply andb_true_iff. split; [apply N.leb_le |]; assumption.
Qed.

Lemma allotClosed_allot allotTbl idx :
  1 <= idx -> allotClosed 1 allotTbl ->
  allotClosed 1 (table 512 (fun j => entry allotTbl j || onChain idx j)).
Proof.
  intros Hi Hc a Ha.
  assert (Hs : N.shiftl a 1 = 2 * a).
  { rewrite N.shiftl_mul_pow2. change (2 ^ 1) with 2. lia. }
  rewrite !table_entry by lia. intros He.
  assert (E1 : N.shiftr (N.shiftl a 1) 1 = a) by (apply shiftr_1_children; auto).
  assert (E2 : N.shiftr (N.shiftl a 1 + 1) 1 = a) by (apply shiftr_1_children; auto).
  rewrite (onChain_cons idx (N.shiftl a 1)), (onChain_cons idx (N.shiftl a 1 + 1)) by lia.
  rewrite E1, E2.
  apply orb_true_iff in He as [He | He].
  - destruct (Hc a Ha He) as [-> ->]. auto.
  - rewrite He, !orb_true_r. auto.
Qed.

Lemma allotClosed_weaken start allotTbl :
  1 <= start -> allotClosed 1 allotTbl -> allotClosed start allotTbl.
Proof. intros Hs Hc a Ha. apply Hc. lia. Qed.

Lemma allotAll_spec idxs : forall allotTbl,
  length allotTbl = 512%nat -> allotClosed 1 allotTbl ->
  Forall (fun i => 1 <= i <= 511) idxs ->
  allotAll allotTbl idxs =
  Ok (table 512 (fun j => entry allotTbl j || existsb (fun i => onChain i j) idxs)).
Proof.
  unfold allotAll. induction idxs as [| i idxs IH]; intros A HA Hc Hi.
  - cbn [fold_left existsb]. apply (f_equal Ok). apply table_eq; [assumption |].
    intros j Hj. rewrite orb_false_r. reflexivity.
  - inversion Hi as [| ? ? Hi1 Hi2]; subst. cbn [fold_left bind].
    rewrite allot_spec; [| assumption | assumption |].
    2: { right. apply allotClosed_weaken; [lia | assumption]. }
    rewrite IH; [| apply table_length | apply allotClosed_allot; [lia | assumption]
                 | assumption].
    apply (f_equal Ok). apply table_ext. intros j Hj. rewrite table_entry by assumption.
    cbn [existsb]. rewrite orb_assoc. reflexivity.
Qed.

(** X7 -- building an allotment table.  [allot] for one base index
    after the other (each in 1 .. 511), starting from the empty table,
    returns the table in which [j] is set exactly when one of the base
    indices lies on the backtracking chain of [j], that is, covers
    [j]. *)
Theorem allotAll_subtrees idxs :
  Forall (fun i => 1 <= i <= 511) idxs ->
  exists t, allotAll (replicate 512 false) idxs = Ok t /\ length t = 512%nat /\
    forall j, j < 512 ->
      (entry t j = true <-> exists i, In i idxs /\ In i (chain j)).
Proof.
  intros Hi. eexists. split.
  - apply allotAll_spec; [apply length_replicate | | assumption].
    intros a Ha He. rewrite replicate_table, table_entry in He by lia. discriminate.
  - split; [apply table_length |]. intros j Hj. rewrite table_entry by lia.
    rewrite replicate_table, table_entry by lia. cbn [orb].
    rewrite existsb_exists. split.
    + intros (i & Hin & Hc). exists i. split; [assumption |]. apply onChain_true. assumption.
    + intros (i & Hin & Hc). exists i. split; [assumption |]. apply onChain_true. assumption.
Qed.

(** * Reads and writes of one node *)

Lemma checkContains_all : forallb checkContains (below 512) = true.
Proof. vm_compute. reflexivity. Qed.

Lemma contains_onChain j i : j < 512 -> i < 512 -> contains j i = onChain j i.
Proof.
  intros Hj Hi.
  pose proof (forallb_below _ _ checkContains_all j ltac:(lia)) as H.
  unfold checkContains in H.
  pose proof (forallb_below _ _ H i ltac:(lia)) as H1.
  apply eqb_prop. assumption.
Qed.

Lemma pfxLenOf_size i : 1 <= i <= 511 -> pfxLenOf i = (Z.of_N (N.size i) - 1)%Z.
Proof.
  intros Hi. pose proof (forallb_below _ _ checkPfxLen_all i ltac:(lia)) as H.
  unfold checkPfxLen in H. unfold pfxLenOf.
  destruct (N.eqb_spec i 0); [lia |]. cbn [orb] in H.
  destruct (baseIndexToPrefix i) as [[o l] | |]; try discriminate.
  apply Z.eqb_eq in H. lia.
Qed.

Lemma size_mono a b : a <= b -> N.size a <= N.size b.
Proof.
  intros H. destruct (N.eq_dec a 0) as [-> | Ha]; [simpl; lia |].
  rewrite !N.size_log2 by lia. apply -> N.succ_le_mono. apply N.log2_le_mono. assumption.
Qed.

(** The first hit on a chain is the largest. *)
Lemma find_chain_max (f : N -> bool) x i :
  List.find f (chain x) = Some i ->
  In i (chain x) /\ f i = true /\ forall j, In j (chain x) -> f j = true -> j <= i.
Proof.
  remember (N.to_nat (N.size x)) as m eqn:Em. revert x Em.
  induction m as [| m IH]; intros x Em Hfind.
  - assert (x = 0) by (destruct x; [reflexivity | simpl in Em; lia]). subst x.
    rewrite chain_0 in Hfind. discriminate.
  - assert (Hx : x <> 0) by (intros ->; simpl in Em; lia).
    rewrite (chain_cons x Hx) in *. cbn [List.find] in Hfind.
    destruct (f x) eqn:Efx.
    + injection Hfind as <-. split; [left; reflexivity |]. split; [assumption |].
      intros j [<- | Hj] _; [lia |]. apply chain_le in Hj.
      pose proof (shiftr_1_lt x ltac:(lia)). lia.
    + destruct (IH (N.shiftr x 1)) as (H1 & H2 & H3); [| assumption |].
      { rewrite (size_shiftr_1 x Hx) in Em. lia. }
      split; [right; assumption |]. split; [assumption |].
      intros j [<- | Hj] Hfj; [congruence |]. apply H3; assumption.
Qed.

Lemma size_shiftr x k : N.shiftr x k <> 0 -> N.size (N.shiftr x k) = N.size x - k.
Proof.
  intros H.
  assert (Hx : x <> 0) by (intros ->; rewrite N.shiftr_0_l in H; congruence).
  rewrite !N.size_log2 by assumption. rewrite N.log2_shiftr.
  assert (k <= N.log2 x); [| lia].
  destruct (N.le_gt_cases k (N.log2 x)) as [|Hlt]; [assumption |].
  exfalso. apply H. apply N.shiftr_eq_0_iff. right. split; [lia | assumption].
Qed.

Lemma chain_size_lt x i j :
  In i (chain x) -> In j (chain x) -> j <= i -> j <> i -> N.size j < N.size i.
Proof.
  intros Hi Hj Hle Hne.
  apply in_chain in Hi as (Hi0 & ki & <-). apply in_chain in Hj as (Hj0 & kj & <-).
  rewrite !size_shiftr by assumption.
  assert (Hsi : ki < N.size x).
  { pose proof (size_shiftr x ki Hi0) as E.
    assert (N.size (N.shiftr x ki) <> 0); [| lia].
    destruct (N.shiftr x ki); [congruence | simpl; lia]. }
  assert (Hsj : kj < N.size x).
  { pose proof (size_shiftr x kj Hj0) as E.
    assert (N.size (N.shiftr x kj) <> 0); [| lia].
    destruct (N.shiftr x kj); [congruence | simpl; lia]. }
  destruct (N.lt_trichotomy ki kj) as [Hlt | [-> | Hgt]]; [lia | congruence |].
  exfalso. apply Hne. apply N.le_antisymm; [assumption |].
  replace ki with (kj + (ki - kj)) by lia. rewrite <- N.shiftr_shiftr.
  rewrite (N.shiftr_div_pow2 _ (ki - kj)). apply N.Div0.div_le_upper_bound.
  pose proof (N.pow_nonzero 2 (ki - kj) ltac:(lia)). nia.
Qed.

Section NodeLookups.

Context {V : Type} (zero : V).
Implicit Types n : node V.

(** X8 -- [isEmpty].  For a node with as many values as prefix bits and
    as many children as child bits, [isEmpty] holds exactly when no bit
    is set in either bit set. *)
Theorem isEmpty_no_bits n :
  popcountOk n ->
  (isEmpty n = true <->
   forall i, Test (prefixesBitset n) i = false /\ Test (childrenBitset n) i = false).
Proof.
  intros [Hp Hc]. unfold prefixesOk, childrenOk in Hp, Hc.
  unfold isEmpty. rewrite andb_true_iff, !Nat.eqb_eq. split.
  - intros [H1 H2] i. rewrite H1 in Hp. rewrite H2 in Hc.
    symmetry in Hp, Hc. apply Count_0 in Hp, Hc.
    rewrite Hp, Hc. unfold Test. rewrite N.bits_0. split; reflexivity.
  - intros H.
    assert (Hb : prefixesBitset n = 0 /\ childrenBitset n = 0).
    { split; apply N.bits_inj; intros i; rewrite N.bits_0; apply (H i). }
    destruct Hb as [Hb1 Hb2]. rewrite Hp, Hc, Hb1, Hb2. split; reflexivity.
Qed.

Lemma getValByIndex_eq n n' j :
  prefixesOk n -> prefixesOk n' ->
  slot (prefixesBitset n') (prefixes n') j = slot (prefixesBitset n) (prefixes n) j ->
  getValByIndex zero n' j = getValByIndex zero n j.
Proof.
  intros H1 H2 E. rewrite !getValByIndex_slot by assumption. rewrite E. reflexivity.
Qed.

Lemma getChild_eq n n' j :
  childrenOk n -> childrenOk n' ->
  slot (childrenBitset n') (children n') j = slot (childrenBitset n) (children n) j ->
  getChild n' j = getChild n j.
Proof.
  intros H1 H2 E. rewrite !getChild_slot by assumption. rewrite E. reflexivity.
Qed.

Lemma insertIdx_length n idx v n' :
  insertIdx n idx v = Ok n' ->
  length (prefixes n') =
  (length (prefixes n) + if Test (prefixesBitset n) idx then 0 else 1)%nat.
Proof.
  unfold insertIdx. destruct (Test (prefixesBitset n) idx).
  - intros H. apply bind_Ok in H as (ps & Hs & H). injection H as <-.
    apply store_Ok in Hs. cbn. lia.
  - intros H. apply bind_Ok in H as (ps & Hs & H). injection H as <-. cbn.
    unfold slices.Insert in Hs. cbn [prefixes set_prefixesBitset] in Hs.
    destruct (_ || _) eqn:E; [discriminate |]. injection Hs as <-.
    apply orb_false_iff in E as [E1 E2]. apply Z.ltb_ge in E1, E2.
    rewrite length_Insert by lia. lia.
Qed.

(** X9 -- [insertPrefix] touches one prefix.  For a node with as many
    values as prefix bits and a prefix whose base index is [idx],
    [insertPrefix] returns; afterwards [idx] reads [(v, true)], every
    other base index reads as before, the prefix slice has grown by one
    when [idx] was not set and kept its length when it was (the value
    is overwritten), and the children are untouched. *)
Theorem insertPrefix_frame n octet prefixLen v idx :
  prefixesOk n -> prefixToBaseIndex octet prefixLen = Ok idx ->
  exists n',
    insertPrefix n octet prefixLen v = Ok n' /\
    getValByIndex zero n' idx = Ok (v, true) /\
    (forall j, j <> idx -> getValByIndex zero n' j = getValByIndex zero n j) /\
    length (prefixes n') =
      (length (prefixes n) + if Test (prefixesBitset n) idx then 0 else 1)%nat /\
    childrenBitset n' = childrenBitset n /\ children n' = children n.
Proof.
  intros Hok Hidx. unfold insertPrefix. rewrite Hidx. cbn [bind].
  destruct (insertIdx_spec n idx v Hok) as (n' & Hi & Hok' & Hcb & Hc & Ht & Hs).
  exists n'. split; [assumption |]. split; [| split; [| split; [| split]]];
    try assumption.
  - rewrite getValByIndex_slot, Hs, N.eqb_refl by assumption. reflexivity.
  - intros j Hj. apply getValByIndex_eq; try assumption. rewrite Hs.
    destruct (N.eqb_spec idx j); [congruence | reflexivity].
  - apply insertIdx_length with (v := v). assumption.
Qed.

(** X10 -- [deletePrefix] touches one prefix.  When the base index
    [idx] of the prefix is set, [deletePrefix] returns [true];
    afterwards [idx] reads [(zero, false)], every other base index
    reads as before, the prefix slice is one shorter, and the children
    are untouched. *)
Theorem deletePrefix_frame n octet prefixLen idx :
  prefixesOk n -> prefixToBaseIndex octet prefixLen = Ok idx ->
  Test (prefixesBitset n) idx = true ->
  exists n',
    deletePrefix n octet prefixLen = Ok (n', true) /\
    getValByIndex zero n' idx = Ok (zero, false) /\
    (forall j, j <> idx -> getValByIndex zero n' j = getValByIndex zero n j) /\
    S (length (prefixes n')) = length (prefixes n) /\
    childrenBitset n' = childrenBitset n /\ children n' = children n.
Proof.
  intros Hok Hidx Ht.
  destruct (deletePrefix_present n octet prefixLen idx Hok Hidx Ht)
    as (n' & Hd & Hok' & Hcb & Hc & Ht' & Hs).
  exists n'. split; [assumption |]. split; [| split; [| split; [| split]]];
    try assumption.
  - rewrite getValByIndex_slot, Hs, N.eqb_refl by assumption. reflexivity.
  - intros j Hj. apply getValByIndex_eq; try assumption. rewrite Hs.
    destruct (N.eqb_spec idx j); [congruence | reflexivity].
  - unfold prefixesOk in Hok, Hok'. rewrite Hok, Hok'.
    assert (E : prefixesBitset n' = Clear (prefixesBitset n) idx).
    { apply N.bits_inj. intros j. fold (Test (prefixesBitset n') j).
      fold (Test (Clear (prefixesBitset n) idx) j). rewrite Ht', Test_Clear. reflexivity. }
    rewrite E. apply Count_Clear. assumption.
Qed.

(** X11 -- [updatePrefix].  With [(old, present)] what
    [getValByIndex] reads at the base index of the prefix before the
    call, [updatePrefix] returns [cb old present], stores it at that
    base index, where the read then gives [(cb old present, true)], and
    leaves every other base index and the children as they were. *)
Theorem updatePrefix_semantics n octet prefixLen cb idx :
  prefixesOk n -> prefixToBaseIndex octet prefixLen = Ok idx ->
  exists n' old present,
    getValByIndex zero n idx = Ok (old, present) /\
    updatePrefix zero n octet prefixLen cb = Ok (n', cb old present) /\
    getValByIndex zero n' idx = Ok (cb old present, true) /\
    (forall j, j <> idx -> getValByIndex zero n' j = getValByIndex zero n j) /\
    childrenBitset n' = childrenBitset n /\ children n' = children n.
Proof.
  intros Hok Hidx.
  destruct (updatePrefix_spec zero n octet prefixLen cb idx Hok Hidx)
    as (n' & Hu & Hok' & Hcb & Hc & Ht & Hs).
  exists n', (default zero (slot (prefixesBitset n) (prefixes n) idx)),
    (Test (prefixesBitset n) idx).
  split.
  { rewrite getValByIndex_slot by assumption. unfold slot.
    destruct (Test (prefixesBitset n) idx) eqn:Et; [| reflexivity].
    destruct (slot_is_Some (prefixesBitset n) (prefixes n) idx Hok Et) as [v Hv].
    unfold slot in Hv. rewrite Et in Hv. rewrite Hv. reflexivity. }
  split; [assumption |]. split; [| split; [| split]]; try assumption.
  - rewrite getValByIndex_slot, Hs, N.eqb_refl by assumption. reflexivity.
  - intros j Hj. apply getValByIndex_eq; try assumption. rewrite Hs.
    destruct (N.eqb_spec idx j); [congruence | reflexivity].
Qed.

(** X12 -- children: insert, get, delete.  For a node with as many
    children as child bits, after [insertChild octet child] the read
    [getChild octet] returns [child] and every other octet reads as
    before; after the following [deleteChild octet] the read returns
    nil, every other octet reads as in the node at the start, and the
    child slice is one shorter.  Neither call touches the prefixes. *)
Theorem child_insert_get_delete n octet child :
  childrenOk n ->
  exists n1 n2,
    insertChild n octet child = Ok n1 /\
    getChild n1 octet = Ok child /\
    (forall o, o <> octet -> getChild n1 o = getChild n o) /\
    prefixesBitset n1 = prefixesBitset n /\ prefixes n1 = prefixes n /\
    deleteChild n1 octet = Ok n2 /\
    getChild n2 octet = Ok None /\
    (forall o, o <> octet -> getChild n2 o = getChild n o) /\
    S (length (children n2)) = length (children n1) /\
    prefixesBitset n2 = prefixesBitset n /\ prefixes n2 = prefixes n.
Proof.
  intros Hok.
  destruct (insertChild_spec n octet child Hok) as (n1 & Hi & Hok1 & Hpb & Hp & Ht & Hs).
  assert (Ht1 : Test (childrenBitset n1) octet = true).
  { rewrite Ht, N.eqb_refl. reflexivity. }
  destruct (deleteChild_present n1 octet Hok1 Ht1) as (n2 & Hd & Hok2 & Hpb2 & Hp2 & Ht2 & Hs2).
  exists n1, n2. split; [assumption |].
  split. { rewrite getChild_slot, Hs, N.eqb_refl by assumption. reflexivity. }
  split. { intros o Ho. apply getChild_eq; try assumption. rewrite Hs.
           destruct (N.eqb_spec octet o); [congruence | reflexivity]. }
  split; [assumption |]. split; [assumption |]. split; [assumption |].
  split. { rewrite getChild_slot, Hs2, N.eqb_refl by assumption. reflexivity. }
  split. { intros o Ho. apply getChild_eq; try assumption. rewrite Hs2, Hs.
           destruct (N.eqb_spec octet o); [congruence | reflexivity]. }
  split.
  { unfold childrenOk in Hok1, Hok2. rewrite Hok1, Hok2.
    assert (E : childrenBitset n2 = Clear (childrenBitset n1) octet).
    { apply N.bits_inj. intros j. fold (Test (childrenBitset n2) j).
      fold (Test (Clear (childrenBitset n1) octet) j). rewrite Ht2, Test_Clear. reflexivity. }
    rewrite E. apply Count_Clear. assumption. }
  split; congruence.
Qed.

Lemma lpmByIndex_semantics n x :
  prefixesOk n -> Test (prefixesBitset n) 0 = false ->
  (exists i v, lpmByIndex zero n x = Ok (i, v, true) /\
      getValByIndex zero n i = Ok (v, true) /\ In i (chain x) /\
      forall j, Test (prefixesBitset n) j = true -> In j (chain x) -> j <> i ->
                N.size j < N.size i)
  \/ (lpmByIndex zero n x = Ok (0, zero, false) /\
      forall j, Test (prefixesBitset n) j = true -> ~ In j (chain x)).
Proof.
  intros Hok H0. rewrite (lpmByIndex_find zero n x H0).
  destruct (List.find _ (chain x)) as [i |] eqn:Hfind.
  - left. apply find_chain_max in Hfind as (Hin & Ht & Hmax).
    destruct (index_present zero n i Hok Ht) as (v & Hv & _).
    exists i, v. rewrite Hv. split; [reflexivity |].
    split. { unfold getValByIndex. rewrite Ht, Hv. reflexivity. }
    split; [assumption |]. intros j Hj Hjc Hne.
    apply (chain_size_lt x); auto.
  - right. split; [reflexivity |]. intros j Hj Hjc.
    pose proof (List.find_none _ _ Hfind j Hjc). congruence.
Qed.

Lemma chain_range i x : In i (chain x) -> x <= 511 -> 1 <= i <= 511.
Proof.
  intros Hin Hx. pose proof (chain_le _ _ Hin). apply in_chain in Hin as (Hi0 & _). lia.
Qed.

(** X13 -- [lpmByOctet] finds the longest covering route.  In a stride
    node, for any octet, either [lpmByOctet] returns [(i, v, true)],
    where [i] is a stored base index whose host range
    ([lowerUpperBound]) contains the octet's host index, [v] is its
    value, and every other stored base index that covers the octet has
    a shorter prefix length; or it returns [(0, zero, false)] and no
    stored base index covers the octet. *)
Theorem lpmByOctet_longest n octet :
  prefixesOk n -> baseIndices (prefixesBitset n) -> octet <= 255 ->
  (exists i v, lpmByOctet zero n octet = Ok (i, v, true) /\
      getValByIndex zero n i = Ok (v, true) /\
      covers i (octetToBaseIndex octet) = true /\
      forall j, Test (prefixesBitset n) j = true ->
                covers j (octetToBaseIndex octet) = true -> j <> i ->
                (pfxLenOf j < pfxLenOf i)%Z)
  \/ (lpmByOctet zero n octet = Ok (0, zero, false) /\
      forall j, Test (prefixesBitset n) j = true ->
                covers j (octetToBaseIndex octet) = false).
Proof.
  intros Hok Hdom Ho. unfold lpmByOctet.
  assert (Hx : 256 <= octetToBaseIndex octet <= 511).
  { unfold octetToBaseIndex, firstHostIndex. lia. }
  destruct (lpmByIndex_semantics n (octetToBaseIndex octet) Hok (proj1 Hdom))
    as [(i & v & Hl & Hg & Hin & Hmax) | (Hl & Hnone)].
  - left. exists i, v. split; [assumption |]. split; [assumption |].
    pose proof (chain_range _ _ Hin ltac:(lia)) as Hi.
    split. { rewrite covers_onChain by lia. apply onChain_true. assumption. }
    intros j Hj Hc Hne.
    pose proof (baseIndices_range _ _ Hdom Hj) as Hjr.
    rewrite covers_onChain in Hc by lia. apply onChain_true in Hc.
    rewrite !pfxLenOf_size by assumption.
    pose proof (Hmax j Hj Hc Hne). lia.
  - right. split; [assumption |]. intros j Hj.
    pose proof (baseIndices_range _ _ Hdom Hj) as Hjr.
    rewrite covers_onChain by lia. apply not_true_is_false. intros Hc.
    apply onChain_true in Hc. apply (Hnone j Hj Hc).
Qed.

(** X14 -- [lpmByPrefix] finds the longest containing route.  In a
    stride node, for an octet and [bits] in 0 .. 8 with base index
    [idx], either [lpmByPrefix] returns [(i, v, true)], where [i] is a
    stored base index whose host range contains that of [idx], [v] is
    its value, and every other stored one that contains [idx] has a
    shorter prefix length; or it returns [(0, zero, false)] and no
    stored base index contains [idx]. *)
Theorem lpmByPrefix_longest n octet bits :
  prefixesOk n -> baseIndices (prefixesBitset n) ->
  octet <= 255 -> (0 <= bits <= 8)%Z ->
  exists idx, prefixToBaseIndex octet bits = Ok idx /\
  ((exists i v, lpmByPrefix zero n octet bits = Ok (i, v, true) /\
      getValByIndex zero n i = Ok (v, true) /\
      contains i idx = true /\
      forall j, Test (prefixesBitset n) j = true -> contains j idx = true -> j <> i ->
                (pfxLenOf j < pfxLenOf i)%Z)
   \/ (lpmByPrefix zero n octet bits = Ok (0, zero, false) /\
       forall j, Test (prefixesBitset n) j = true -> contains j idx = false)).
Proof.
  intros Hok Hdom Ho Hb.
  destruct (prefixToBaseIndex_bounds octet bits Ho Hb) as (idx & Hidx & _ & Hr).
  exists idx. split; [assumption |]. unfold lpmByPrefix. rewrite Hidx. cbn [bind].
  destruct (lpmByIndex_semantics n idx Hok (proj1 Hdom))
    as [(i & v & Hl & Hg & Hin & Hmax) | (Hl & Hnone)].
  - left. exists i, v. split; [assumption |]. split; [assumption |].
    pose proof (chain_range _ _ Hin ltac:(lia)) as Hi.
    split. { rewrite contains_onChain by lia. apply onChain_true. assumption. }
    intros j Hj Hc Hne.
    pose proof (baseIndices_range _ _ Hdom Hj) as Hjr.
    rewrite contains_onChain in Hc by lia. apply onChain_true in Hc.
    rewrite !pfxLenOf_size by assumption.
    pose proof (Hmax j Hj Hc Hne). lia.
  - right. split; [assumption |]. intros j Hj.
    pose proof (baseIndices_range _ _ Hdom Hj) as Hjr.
    rewrite contains_onChain by lia. apply not_true_is_false. intros Hc.
    apply onChain_true in Hc. apply (Hnone j Hj Hc).
Qed.

End NodeLookups.

(** * Enumerations of one node *)

Lemma StronglySorted_filter_list {A} (R : A -> A -> Prop) (f : A -> bool) l :
  StronglySorted R l -> StronglySorted R (List.filter f l).
Proof.
  induction 1 as [| a l Hs IH Hall]; cbn; [constructor |].
  destruct (f a); [| assumption]. constructor; [assumption |].
  rewrite List.Forall_forall in *. intros x Hx. apply List.filter_In in Hx as [Hx _]. auto.
Qed.

Lemma StronglySorted_rev_flip {A} (R : A -> A -> Prop) l :
  StronglySorted R l -> StronglySorted (fun a b => R b a) (rev l).
Proof.
  induction 1 as [| a l Hs IH Hall]; cbn; [constructor |].
  assert (Happ : forall l1, StronglySorted (fun a b => R b a) l1 ->
                   List.Forall (fun x => R a x) l1 ->
                   StronglySorted (fun a b => R b a) (l1 ++ [a])).
  { clear. induction 1 as [| b l1 Hs IH Hall]; intros Hf; cbn.
    - repeat constructor.
    - inversion Hf; subst. constructor; [auto |].
      apply List.Forall_app. split; [assumption |]. repeat constructor. assumption. }
  apply Happ; [assumption |]. rewrite List.Forall_forall in *. intros x Hx.
  apply Hall. apply List.in_rev. assumption.
Qed.

Lemma chain_descending x : StronglySorted (fun a b => b < a) (chain x).
Proof.
  remember (N.to_nat (N.size x)) as m eqn:Em. revert x Em.
  induction m as [| m IH]; intros x Em.
  - assert (x = 0) by (destruct x; [reflexivity | simpl in Em; lia]). subst x.
    rewrite chain_0. constructor.
  - assert (Hx : x <> 0) by (intros ->; simpl in Em; lia).
    rewrite (chain_cons x Hx). constructor.
    + apply IH. rewrite (size_shiftr_1 x Hx) in Em. lia.
    + rewrite List.Forall_forall. intros j Hj. apply chain_le in Hj.
      pose proof (shiftr_1_lt x ltac:(lia)). lia.
Qed.

Lemma sortedInsert_last a s :
  List.Forall (fun x => x < a) s -> sortedInsert a s = s ++ [a].
Proof.
  induction 1 as [| y s Hy Hs IH]; [reflexivity |]. cbn.
  destruct (N.leb_spec a y); [lia |]. rewrite IH. reflexivity.
Qed.

Lemma Sort_descending l :
  StronglySorted (fun a b => b < a) l -> Sort l = rev l.
Proof.
  induction 1 as [| a l Hs IH Hall]; [reflexivity |].
  cbn. fold (Sort l). rewrite IH. apply sortedInsert_last.
  rewrite List.Forall_forall in *. intros x Hx. apply Hall. apply List.in_rev. assumption.
Qed.

Lemma StronglySorted_snoc {A} (R : A -> A -> Prop) l a :
  StronglySorted R l -> List.Forall (fun x => R x a) l -> StronglySorted R (l ++ [a]).
Proof.
  induction 1 as [| b l Hs IH Hall]; intros Hf; cbn.
  - repeat constructor.
  - inversion Hf; subst. constructor; [auto |].
    apply List.Forall_app. split; [assumption |]. repeat constructor. assumption.
Qed.

Lemma below_ascending n : StronglySorted N.lt (below n).
Proof.
  induction n as [| n IH]; [constructor |].
  rewrite below_S. apply StronglySorted_snoc; [assumption |].
  rewrite List.Forall_forall. intros x Hx. apply in_below in Hx. lia.
Qed.

Lemma elems_ascending b : StronglySorted N.lt (elems b).
Proof. apply StronglySorted_filter_list. apply below_ascending. Qed.

Lemma Count_le_size b : (Count b <= N.to_nat (N.size b))%nat.
Proof.
  unfold Count, elems, members.
  etransitivity; [apply List.filter_length_le |]. rewrite below_length. lia.
Qed.

Lemma NextSetMany_all b capacity :
  (N.to_nat (N.size b) <= capacity)%nat ->
  snd (NextSetMany b 0 capacity) = elems b.
Proof.
  intros Hc. unfold NextSetMany. cbn [snd].
  assert (E : List.filter (fun j => 0 <=? j) (elems b) = elems b).
  { apply List.forallb_filter_id. apply forallb_forall. intros x _. apply N.leb_le. lia. }
  rewrite E. apply take_ge. pose proof (Count_le_size b). unfold Count in *. lia.
Qed.

Section Enumerations.

Context {V : Type} (zero : V).
Implicit Types n : node V.

Lemma apmByPrefix_loop_spec fuel n : forall idx acc,
  (N.to_nat (N.size idx) < fuel)%nat ->
  apmByPrefix_loop fuel n idx acc =
  Ok (acc ++ List.filter (Test (prefixesBitset n)) (chain idx ++ [0])).
Proof.
  induction fuel as [| fuel IH]; intros idx acc Hf; [lia |].
  destruct (N.eq_dec idx 0) as [-> | Hne].
  - rewrite chain_0. cbn [apmByPrefix_loop app List.filter]. rewrite N.eqb_refl.
    destruct (Test (prefixesBitset n) 0); [reflexivity |].
    rewrite app_nil_r. reflexivity.
  - rewrite (chain_cons idx Hne). cbn [apmByPrefix_loop app List.filter].
    destruct (N.eqb_spec idx 0); [contradiction |].
    rewrite IH by (rewrite (size_shiftr_1 idx Hne) in Hf; lia).
    destruct (Test (prefixesBitset n) idx); [| reflexivity].
    rewrite <- app_assoc. reflexivity.
Qed.

Lemma filter_app_absent {A} (f : A -> bool) l x :
  f x = false -> List.filter f (l ++ [x]) = List.filter f l.
Proof.
  intros Hx. rewrite List.filter_app. cbn. rewrite Hx. apply app_nil_r.
Qed.

Lemma last_rev_head {A} (l : list A) : last (rev l) = head l.
Proof.
  destruct l as [| a l]; [reflexivity |]. cbn. apply last_snoc.
Qed.

Lemma head_filter_find {A} (f : A -> bool) l : head (List.filter f l) = List.find f l.
Proof.
  induction l as [| a l IH]; [reflexivity |]. cbn. destruct (f a); [reflexivity | assumption].
Qed.

(** X15 -- [apmByPrefix] returns all matches, ascending.  For a node
    with as many values as prefix bits and no bit at index 0,
    [apmByPrefix] returns a strictly ascending list that holds exactly
    the stored base indices on the backtracking chain of the prefix's
    base index; its last element is the longest prefix match
    ([lpmByPrefix] returns it), and it is empty exactly when
    [lpmByPrefix] finds nothing. *)
Theorem apmByPrefix_matches n octet bits idx :
  prefixesOk n -> Test (prefixesBitset n) 0 = false ->
  prefixToBaseIndex octet bits = Ok idx ->
  exists l,
    apmByPrefix n octet bits = Ok l /\
    StronglySorted N.lt l /\
    (forall i, In i l <-> Test (prefixesBitset n) i = true /\ In i (chain idx)) /\
    match last l with
    | Some i => exists v, lpmByPrefix zero n octet bits = Ok (i, v, true)
    | None => lpmByPrefix zero n octet bits = Ok (0, zero, false)
    end.
Proof.
  intros Hok H0 Hidx.
  assert (Hres : apmByPrefix n octet bits
                 = Ok (rev (List.filter (Test (prefixesBitset n)) (chain idx)))).
  { unfold apmByPrefix. destruct (Nat.eqb_spec (length (prefixes n)) 0) as [E | E].
    - unfold prefixesOk in Hok. rewrite E in Hok. symmetry in Hok. apply Count_0 in Hok.
      assert (Hf : List.filter (Test (prefixesBitset n)) (chain idx) = []).
      { rewrite Hok. induction (chain idx) as [| a l IH]; [reflexivity |].
        cbn [List.filter]. rewrite Test_New. assumption. }
      rewrite Hf. reflexivity.
    - rewrite Hidx. cbn [bind]. rewrite apmByPrefix_loop_spec by lia. cbn [bind app].
      rewrite filter_app_absent by assumption.
      rewrite Sort_descending; [reflexivity |].
      apply StronglySorted_filter_list, chain_descending. }
  eexists. split; [exact Hres |]. split; [| split].
  - apply (StronglySorted_rev_flip (fun a b => b < a)).
    apply StronglySorted_filter_list, chain_descending.
  - intros i. rewrite <- List.in_rev, List.filter_In. tauto.
  - rewrite last_rev_head, head_filter_find. unfold lpmByPrefix. rewrite Hidx. cbn [bind].
    rewrite (lpmByIndex_find zero n idx H0).
    destruct (List.find _ (chain idx)) as [i |] eqn:Hfind; [| reflexivity].
    apply List.find_some in Hfind as [_ Ht].
    destruct (index_present zero n i Hok Ht) as (v & -> & _). exists v. reflexivity.
Qed.

(** X16 -- the enumerations of a node.  For a node obeying the popcount
    correspondence whose prefix bits lie below 512 and child bits below
    256, [allStrideIndexes] is the strictly ascending list of the set
    prefix bits, as long as the prefix slice, and its [k]-th element is
    the base index of the [k]-th value; [allChildAddrs] is the same for
    the child bits and the child slice. *)
Theorem allStrideIndexes_allChildAddrs n :
  popcountOk n ->
  N.size (prefixesBitset n) <= 512 -> N.size (childrenBitset n) <= 256 ->
  (StronglySorted N.lt (allStrideIndexes n) /\
   (forall i, In i (allStrideIndexes n) <-> Test (prefixesBitset n) i = true) /\
   length (allStrideIndexes n) = length (prefixes n) /\
   forall k i, allStrideIndexes n !! k = Some i ->
     exists v, prefixes n !! k = Some v /\ getValByIndex zero n i = Ok (v, true)) /\
  (StronglySorted N.lt (allChildAddrs n) /\
   (forall o, In o (allChildAddrs n) <-> Test (childrenBitset n) o = true) /\
   length (allChildAddrs n) = length (children n) /\
   forall k o, allChildAddrs n !! k = Some o ->
     exists c, children n !! k = Some c /\ getChild n o = Ok c).
Proof.
  intros [Hp Hc] Hsp Hsc. unfold allStrideIndexes, allChildAddrs.
  rewrite !NextSetMany_all by (unfold maxNodePrefixes, maxNodeChildren; lia).
  split.
  - split; [apply elems_ascending |]. split; [apply in_elems |].
    split; [symmetry; exact Hp |].
    intros k i Hk. apply elems_lookup in Hk as [Ht Hr].
    destruct (getValByIndex_present zero n i Hp Ht) as (v & Hg & Hv).
    exists v. split; [| assumption]. rewrite Hr in Hv. cbn in Hv.
    rewrite Nat.sub_0_r in Hv. assumption.
  - split; [apply elems_ascending |]. split; [apply in_elems |].
    split; [symmetry; exact Hc |].
    intros k o Hk. apply elems_lookup in Hk as [Ht Hr].
    pose proof (childRank_bounds n o Hc Ht) as Hb.
    destruct (index_in_range (children n) _ Hb) as [c Hidx].
    exists c. split.
    + apply index_Ok in Hidx as [_ Hl]. rewrite (childRank_nat n o Ht), Hr in Hl.
      cbn in Hl. rewrite Nat.sub_0_r in Hl. assumption.
    + unfold getChild. rewrite Ht. assumption.
Qed.

End Enumerations.

(** * cloneRec as a deep copy *)

Section DeepCopy.

Context {V : Type} (zero : V).
Local Abbreviation heap := (list (node V)).
Implicit Types (n : node V) (h : heap).
Implicit Types (t tc : ltree (V := V)).

Lemma nodeT_addrs path : forall (t t' : ltree (V := V)),
  nodeT t path = Some t' -> root t' ∈ addrs t.
Proof.
  induction path as [| c path IH]; intros t t' H.
  - injection H as <-. destruct t. cbn. apply elem_of_cons. left. reflexivity.
  - cbn in H. destruct (childT t c) as [k |] eqn:Hc; [| discriminate].
    destruct t as [l nd kids]. apply (elem_of_addrs_kid k kids l _ nd).
    + apply (childT_elem_of (LT l nd kids) c). assumption.
    + apply IH with (t' := t'). assumption.
Qed.

(** X17 -- [cloneRec] is a deep copy.  For a trie of the store (of
    depth at most [fuel]), [cloneRec] returns a node allocated by the
    call; every cell of the old store is as it was; the clone reads
    like the original at every octet path and base index; and every
    node reached from the clone, at any path, was allocated by the
    call: the clone shares no node with the original. *)
Theorem cloneRec_deep_copy fuel h t :
  tree h t -> (need t <= fuel)%nat ->
  exists h' c,
    cloneRec fuel h (Some (root t)) = Ok (h', Some c) /\
    (length h <= c)%nat /\
    (forall l, (l < length h)%nat -> h' !! l = h !! l) /\
    (forall path idx,
       getAt zero h' (Some c) path idx = getAt zero h (Some (root t)) path idx) /\
    (forall path l, nodeAt h' (Some c) path = Ok (Some l) -> (length h <= l)%nat).
Proof.
  intros Ht Hn.
  destruct (cloneRec_spec (V := V) fuel h t Ht Hn) as (ext & tc & Hc & Htc & Hsame & Hnd & Hfresh).
  exists (h ++ ext), (root tc). split; [assumption |].
  split. { apply Hfresh. destruct tc. cbn. apply elem_of_cons. left. reflexivity. }
  split. { intros l Hl. apply lookup_app_l. assumption. }
  split.
  - intros path idx. rewrite (getAt_tree zero (h ++ ext) path tc idx Htc).
    rewrite (getAt_tree zero h path t idx Ht).
    rewrite (sameContent_getT path t tc idx Hsame). reflexivity.
  - intros path l Hl. rewrite (nodeAt_tree (h ++ ext) path tc Htc) in Hl.
    injection Hl as Hl. destruct (nodeT tc path) as [t' |] eqn:Hp; [| discriminate].
    injection Hl as <-. apply Hfresh. apply (nodeT_addrs path). assumption.
Qed.

End DeepCopy.

(** * walkRec

    The walk is [visit] on the routes of the trie in depth-first
    order. *)

Section Walk.

Context {V : Type} (zero : V).
Variables P E St : Type.
Variable cidrFromPath : list N -> N -> bool -> P.
Local Abbreviation heap := (list (node V)).
Implicit Types (n nd : node V) (h : heap).
Implicit Types (t k : ltree (V := V)) (kids : list (ltree (V := V))).
Implicit Types (cb : P -> V -> St -> St * option E).

Local Abbreviation own nd path :=
  (fun i => (path, i, default zero (slot (prefixesBitset nd) (prefixes nd) i))).

Local Abbreviation below_kid path :=
  (fun ok : N * ltree => routesT zero ok.2 (path ++ [ok.1])).

Lemma routesT_unfold l nd kids path :
  routesT zero (LT l nd kids) path =
  map (own nd path) (elems (prefixesBitset nd))
  ++ flat_map (below_kid path) (zip (elems (childrenBitset nd)) kids).
Proof.
  cbn [routesT]. f_equal. generalize (elems (childrenBitset nd)).
  induction kids as [| k kids IH]; intros os; [destruct os; reflexivity |].
  destruct os as [| o os]; [reflexivity |]. cbn. f_equal. apply IH.
Qed.

Lemma visit_app is4 cb l1 l2 s :
  visit P E St cidrFromPath is4 cb (l1 ++ l2) s =
  (let '(s', err) := visit P E St cidrFromPath is4 cb l1 s in
   match err with
   | Some e => (s', Some e)
   | None => visit P E St cidrFromPath is4 cb l2 s'
   end).
Proof.
  revert s. induction l1 as [| [[p i] v] l1 IH]; intros s.
  - cbn. destruct (visit _ _ _ _ _ _ l2 s) as [s' [e |]]; reflexivity.
  - cbn. destruct (cb _ _ _) as [s' [e |]]; [reflexivity |]. apply IH.
Qed.

Lemma walkRec_prefixes_spec nd path is4 cb idxs : forall s,
  prefixesOk nd ->
  (forall i, In i idxs -> Test (prefixesBitset nd) i = true) ->
  walkRec_prefixes zero P E St cidrFromPath nd path is4 cb idxs s =
  Ok (visit P E St cidrFromPath is4 cb (map (own nd path) idxs) s).
Proof.
  intros s Hok. revert s. induction idxs as [| i idxs IH]; intros s Ht; [reflexivity |].
  cbn [walkRec_prefixes map visit].
  rewrite getValByIndex_slot by assumption.
  destruct (slot_is_Some (prefixesBitset nd) (prefixes nd) i Hok (Ht i (or_introl eq_refl)))
    as [v Hv].
  rewrite Hv. cbn [bind default].
  destruct (cb _ _ _) as [s' [e |]]; [reflexivity |].
  apply IH. intros j Hj. apply Ht. right. assumption.
Qed.

Lemma walkRec_children_spec (rec : ptr -> list N -> St -> result (St * option E))
    nd path is4 cb : forall os ks s,
  Forall2 (fun o k => o < 256 /\ getChild nd o = Ok (Some (root k))) os ks ->
  (forall o k s, In (o, k) (zip os ks) ->
     rec (Some (root k)) (path ++ [o]) s =
     Ok (visit P E St cidrFromPath is4 cb (routesT zero k (path ++ [o])) s)) ->
  walkRec_children E St rec nd path os s =
  Ok (visit P E St cidrFromPath is4 cb (flat_map (below_kid path) (zip os ks)) s).
Proof.
  induction os as [| o os IH]; intros ks s Hall Hrec.
  - inversion Hall; subst. reflexivity.
  - inversion Hall as [| ? k ? ks' [Ho Hg] Hall']; subst.
    cbn [walkRec_children zip zip_with flat_map].
    rewrite byte_small by assumption. rewrite Hg. cbn [bind].
    rewrite (Hrec o k s) by (left; reflexivity). cbn [bind].
    rewrite visit_app. cbn [fst snd].
    destruct (visit _ _ _ _ _ _ (routesT zero k (path ++ [o])) s) as [s' [e |]];
      [reflexivity |].
    apply IH; [assumption |]. intros o' k' s'' Hin. apply Hrec. right. assumption.
Qed.

Lemma tree_kids_octets h l nd kids :
  tree h (LT l nd kids) ->
  Forall2 (fun o k => o < 256 /\ getChild nd o = Ok (Some (root k)) /\
                      childT (LT l nd kids) o = Some k)
          (elems (childrenBitset nd)) kids.
Proof.
  intros Ht. pose proof (tree_kids_length h _ Ht) as Hlen.
  apply tree_inv in Ht as (Hl & [Hp Hc] & Hoct & Hch & Hkids).
  cbn [kidsOf nodeOf] in Hlen.
  apply Forall2_same_length_lookup. split; [unfold Count in Hlen; lia |].
  intros i o k Ho Hk. apply elems_lookup in Ho as [Hto Hr].
  assert (Hs : slot (childrenBitset nd) kids o = Some k).
  { unfold slot. rewrite Hto, Hr. cbn. rewrite Nat.sub_0_r. assumption. }
  split.
  { pose proof (Test_lt_size _ _ Hto). unfold octetIndices in Hoct. lia. }
  split; [| exact Hs].
  rewrite getChild_slot by assumption. rewrite Hch, slot_fmap, Hs. reflexivity.
Qed.

Lemma walkRec_spec h is4 cb :
  Forall strideNode h ->
  forall t, tree h t -> forall fuel path s, (need t <= fuel)%nat ->
  walkRec zero P E St cidrFromPath fuel h (Some (root t)) path is4 cb s =
  Ok (visit P E St cidrFromPath is4 cb (routesT zero t path) s).
Proof.
  intros Hh t. induction t as [l nd kids IH] using ltree_ind'.
  intros Ht fuel path s Hn.
  destruct fuel as [| fuel]; [cbn in Hn; lia |].
  pose proof (tree_kids_octets h l nd kids Ht) as Hoct.
  pose proof Ht as Ht'. apply tree_inv in Ht' as (Hl & [Hp Hc] & Hdom & Hch & Hkids).
  assert (Hs : strideNode nd).
  { rewrite Forall_forall in Hh. apply Hh. eapply list_elem_of_lookup_2, Hl. }
  destruct Hs as (_ & _ & [_ Hsp] & Hsc). unfold octetIndices in Hsc.
  cbn [walkRec root]. rewrite (proj2 (deref_Some h l nd) Hl). cbn [bind].
  unfold allStrideIndexes, allChildAddrs.
  rewrite !NextSetMany_all by (unfold maxNodePrefixes, maxNodeChildren; lia).
  rewrite walkRec_prefixes_spec; [| assumption | intros i Hi; apply in_elems; assumption].
  cbn [bind]. rewrite routesT_unfold, visit_app.
  destruct (visit _ _ _ _ _ _ (map _ _) s) as [s' [e |]]; [reflexivity |].
  apply walkRec_children_spec.
  - eapply Forall2_impl; [exact Hoct |]. cbn. tauto.
  - intros o k s'' Hin.
    assert (Hk : k ∈ kids).
    { apply list_elem_of_In in Hin. apply elem_of_zip_r in Hin. assumption. }
    rewrite Forall_forall in IH, Hkids.
    apply IH; [assumption | apply Hkids; assumption |].
    pose proof (need_kid k kids l nd Hk). lia.
Qed.

Lemma Forall2_zip_In {A B} (R : A -> B -> Prop) l1 l2 a b :
  Forall2 R l1 l2 -> In (a, b) (zip l1 l2) -> R a b.
Proof.
  induction 1 as [| x y l1 l2 Hxy Hall IH]; cbn; [tauto |].
  intros [Heq | Hin]; [injection Heq as <- <-; assumption | auto].
Qed.

Lemma routesT_In h : forall t, tree h t -> forall path p i v,
  In (p, i, v) (routesT zero t path) <->
  exists rel, p = path ++ rel /\ getT t rel i = Some v.
Proof.
  intros t. induction t as [l nd kids IH] using ltree_ind'. intros Ht path p i v.
  pose proof (tree_kids_octets h l nd kids Ht) as Hoct.
  pose proof Ht as Ht'. apply tree_inv in Ht' as (Hl & [Hp Hc] & Hdom & Hch & Hkids).
  rewrite routesT_unfold, in_app_iff, in_map_iff, in_flat_map. split.
  - intros [(i' & Heq & Hi') | ([o k] & Hin & Hr)].
    + injection Heq as <- <- <-. exists []. split; [rewrite app_nil_r; reflexivity |].
      cbn [getT]. unfold slotP. cbn [nodeOf]. apply in_elems in Hi'.
      destruct (slot_is_Some (prefixesBitset nd) (prefixes nd) i' Hp Hi') as [v0 Hv0].
      rewrite Hv0. reflexivity.
    + pose proof (Forall2_zip_In _ _ _ _ _ Hoct Hin) as (_ & _ & Hck).
      assert (Hk : k ∈ kids).
      { apply list_elem_of_In in Hin. apply elem_of_zip_r in Hin. assumption. }
      rewrite Forall_forall in IH, Hkids. cbn [fst snd] in Hr.
      apply (IH k Hk (Hkids k Hk)) in Hr as (rel & -> & Hg).
      exists (o :: rel). split; [rewrite <- app_assoc; reflexivity |].
      cbn [getT]. rewrite Hck. assumption.
  - intros ([| o rel] & -> & Hg).
    + left. cbn [getT] in Hg. unfold slotP in Hg. cbn [nodeOf] in Hg.
      exists i. rewrite Hg, app_nil_r. split; [reflexivity |].
      apply in_elems. apply (slot_Some_Test _ _ _ _ Hg).
    + right. cbn [getT] in Hg.
      destruct (childT (LT l nd kids) o) as [k |] eqn:Hck; [| discriminate].
      exists (o, k). split.
      * unfold childT, slot in Hck. cbn [nodeOf kidsOf] in Hck.
        destruct (Test (childrenBitset nd) o) eqn:Hto; [| discriminate].
        apply list_elem_of_In. apply list_elem_of_lookup.
        exists (Rank (childrenBitset nd) o - 1)%nat.
        apply lookup_zip_with_Some. exists o, k. split; [reflexivity |].
        split; [apply elems_Rank; assumption | assumption].
      * cbn [fst snd].
        assert (Hk : k ∈ kids) by (apply (childT_elem_of (LT l nd kids) o); assumption).
        rewrite Forall_forall in IH, Hkids.
        apply (IH k Hk (Hkids k Hk)). exists rel. split; [| assumption].
        rewrite <- app_assoc. reflexivity.
Qed.

Lemma NoDup_flat_map_keys {A B} (f : A -> list B) (zs : list A) :
  NoDup zs ->
  (forall z, In z zs -> NoDup (f z)) ->
  (forall z1 z2 x, In z1 zs -> In z2 zs -> In x (f z1) -> In x (f z2) -> z1 = z2) ->
  NoDup (flat_map f zs).
Proof.
  induction 1 as [| z zs Hz Hnd IH]; intros Hf Hd; cbn; [constructor |].
  apply NoDup_app. split; [apply Hf; left; reflexivity |]. split.
  - intros x Hx Hx'. apply list_elem_of_In in Hx, Hx'.
    apply in_flat_map in Hx' as (z' & Hz' & Hx').
    assert (z = z').
    { apply (Hd z z' x); [left; reflexivity | right; assumption | assumption | assumption]. }
    subst z'.
    apply Hz. apply list_elem_of_In. assumption.
  - apply IH.
    + intros z' Hz'. apply Hf. right. assumption.
    + intros z1 z2 x H1 H2. apply Hd; right; assumption.
Qed.

Lemma NoDup_zip_fst {A B} (l1 : list A) (l2 : list B) : NoDup l1 -> NoDup (zip l1 l2).
Proof.
  intros H. revert l2. induction H as [| a l1 Ha Hnd IH]; intros [| b l2]; cbn;
    try constructor.
  - intros Hin. apply Ha. apply elem_of_zip_l in Hin. assumption.
  - apply IH.
Qed.

Lemma routesT_NoDup h : forall t, tree h t -> forall path,
  NoDup (map fst (routesT zero t path)).
Proof.
  intros t. induction t as [l nd kids IH] using ltree_ind'. intros Ht path.
  pose proof (tree_kids_octets h l nd kids Ht) as Hoct.
  pose proof Ht as Ht'. apply tree_inv in Ht' as (Hl & [Hp Hc] & Hdom & Hch & Hkids).
  rewrite routesT_unfold, map_app. apply NoDup_app. split; [| split].
  - rewrite map_map. cbn [fst]. apply NoDup_fmap_2; [| apply NoDup_ListNoDup, NoDup_members].
    intros a b Heq. injection Heq as Heq. assumption.
  - intros [p i] Hx Hx'. apply list_elem_of_In in Hx, Hx'.
    rewrite map_map in Hx. apply in_map_iff in Hx as (i' & Heq & _). cbn [fst] in Heq.
    injection Heq as <- <-.
    apply in_map_iff in Hx' as ([[p' i''] v] & Heq & Hin). cbn [fst] in Heq.
    injection Heq as <- <-.
    apply in_flat_map in Hin as ([o k] & Hin & Hr). cbn [fst snd] in Hr.
    assert (Hk : k ∈ kids).
    { apply list_elem_of_In in Hin. apply elem_of_zip_r in Hin. assumption. }
    rewrite Forall_forall in Hkids.
    apply (routesT_In h k (Hkids k Hk)) in Hr as (rel & Heq & _).
    apply (f_equal length) in Heq. rewrite !length_app in Heq. cbn in Heq. lia.
  - rewrite flat_map_concat_map, concat_map, map_map, <- flat_map_concat_map.
    apply NoDup_flat_map_keys.
    + apply NoDup_zip_fst. apply NoDup_ListNoDup, NoDup_members.
    + intros [o k] Hin. cbn [fst snd].
      assert (Hk : k ∈ kids).
      { apply list_elem_of_In in Hin. apply elem_of_zip_r in Hin. assumption. }
      rewrite Forall_forall in IH, Hkids. apply IH; [assumption | auto].
    + intros [o1 k1] [o2 k2] [p i] H1 H2 Hx1 Hx2. cbn [fst snd] in Hx1, Hx2.
      assert (Hk : forall o k, In (o, k) (zip (elems (childrenBitset nd)) kids) ->
                 In (p, i) (map fst (routesT zero k (path ++ [o]))) ->
                 exists rel, p = path ++ o :: rel).
      { intros o k Hin Hx.
        assert (Hk : k ∈ kids).
        { apply list_elem_of_In in Hin. apply elem_of_zip_r in Hin. assumption. }
        apply in_map_iff in Hx as ([[p' i'] v] & Heq & Hr). cbn [fst] in Heq.
        injection Heq as -> ->. rewrite Forall_forall in Hkids.
        apply (routesT_In h k (Hkids k Hk)) in Hr as (rel & Heq & _).
        exists rel. rewrite Heq, <- app_assoc. reflexivity. }
      destruct (Hk o1 k1 H1 Hx1) as (rel1 & Heq1).
      destruct (Hk o2 k2 H2 Hx2) as (rel2 & Heq2).
      rewrite Heq1 in Heq2. apply app_inv_head in Heq2. injection Heq2 as -> _.
      pose proof (Forall2_zip_In _ _ _ _ _ Hoct H1) as (_ & _ & Hc1).
      pose proof (Forall2_zip_In _ _ _ _ _ Hoct H2) as (_ & _ & Hc2).
      congruence.
Qed.

Lemma walkBefore_app path r1 i1 r2 i2 :
  walkBefore (path ++ r1) i1 (path ++ r2) i2 = walkBefore r1 i1 r2 i2.
Proof.
  induction path as [| o path IH]; [reflexivity |].
  cbn [app walkBefore]. rewrite N.ltb_irrefl, N.eqb_refl. exact IH.
Qed.

Lemma StronglySorted_app_intro {A} (R : A -> A -> Prop) l1 l2 :
  StronglySorted R l1 -> StronglySorted R l2 ->
  (forall a b, In a l1 -> In b l2 -> R a b) ->
  StronglySorted R (l1 ++ l2).
Proof.
  induction 1 as [| a l1 Hs IH Hall]; intros H2 Hc; [assumption |].
  cbn [app]. constructor.
  - apply IH; [assumption |]. intros x y Hx Hy. apply Hc; [right |]; assumption.
  - apply Forall_app. split; [assumption |].
    apply Forall_forall. intros y Hy. apply list_elem_of_In in Hy.
    apply Hc; [left; reflexivity | assumption].
Qed.

Lemma StronglySorted_map_intro {A B} (R' : A -> A -> Prop) (R : B -> B -> Prop)
    (g : A -> B) l :
  (forall a b, R' a b -> R (g a) (g b)) ->
  StronglySorted R' l -> StronglySorted R (map g l).
Proof.
  intros Hg. induction 1 as [| a l Hs IH Hall]; cbn [map]; constructor; [assumption |].
  apply Forall_forall. intros y Hy. apply list_elem_of_In, in_map_iff in Hy as (x & <- & Hx).
  apply Hg. rewrite Forall_forall in Hall. apply Hall, list_elem_of_In. assumption.
Qed.

Lemma StronglySorted_flat_map {A B} (R' : A -> A -> Prop) (R : B -> B -> Prop)
    (f : A -> list B) zs :
  StronglySorted R' zs ->
  (forall z, In z zs -> StronglySorted R (f z)) ->
  (forall z1 z2 a b, In z1 zs -> In z2 zs -> R' z1 z2 ->
                     In a (f z1) -> In b (f z2) -> R a b) ->
  StronglySorted R (flat_map f zs).
Proof.
  induction 1 as [| z zs Hs IH Hall]; intros Hf Hc; cbn [flat_map]; [constructor |].
  apply StronglySorted_app_intro.
  - apply Hf. left. reflexivity.
  - apply IH.
    + intros z' Hz'. apply Hf. right. assumption.
    + intros z1 z2 a b H1 H2. apply Hc; right; assumption.
  - intros a b Ha Hb. apply in_flat_map in Hb as (z' & Hz' & Hb).
    rewrite Forall_forall in Hall.
    apply (Hc z z' a b);
      [left; reflexivity | right; assumption | apply Hall, list_elem_of_In; assumption
       | assumption | assumption].
Qed.

Lemma StronglySorted_zip_fst {B} (os : list N) (ks : list B) :
  StronglySorted N.lt os ->
  StronglySorted (fun a b : N * B => a.1 < b.1) (zip os ks).
Proof.
  intros H. revert ks. induction H as [| o os Hs IH Hall]; intros [| k ks]; cbn;
    try constructor.
  - apply IH.
  - apply Forall_forall. intros [o' k'] Hin. cbn [fst].
    apply elem_of_zip_l in Hin. rewrite Forall_forall in Hall. apply Hall. assumption.
Qed.

Local Abbreviation before :=
  (fun a b : list N * N * V => walkBefore a.1.1 a.1.2 b.1.1 b.1.2 = true).

Lemma routesT_sorted h : forall t, tree h t -> forall path,
  StronglySorted before (routesT zero t path).
Proof.
  intros t. induction t as [l nd kids IH] using ltree_ind'. intros Ht path.
  pose proof (tree_kids_octets h l nd kids Ht) as Hoct.
  pose proof Ht as Ht'. apply tree_inv in Ht' as (Hl & [Hp Hc] & Hdom & Hch & Hkids).
  assert (Hbelow : forall o k p i v,
            In (o, k) (zip (elems (childrenBitset nd)) kids) ->
            In (p, i, v) (routesT zero k (path ++ [o])) ->
            exists rel, p = path ++ o :: rel).
  { intros o k p i v Hin Hr.
    assert (Hk : k ∈ kids).
    { apply list_elem_of_In in Hin. apply elem_of_zip_r in Hin. assumption. }
    rewrite Forall_forall in Hkids.
    apply (routesT_In h k (Hkids k Hk)) in Hr as (rel & Heq & _).
    exists rel. rewrite Heq, <- app_assoc. reflexivity. }
  rewrite routesT_unfold. apply StronglySorted_app_intro.
  - apply (StronglySorted_map_intro N.lt); [| apply elems_ascending].
    intros a b Hab. cbn [fst snd].
    rewrite <- (app_nil_r path), walkBefore_app. cbn [walkBefore].
    apply N.ltb_lt. assumption.
  - apply (StronglySorted_flat_map (fun a b : N * ltree => a.1 < b.1)).
    + apply StronglySorted_zip_fst, elems_ascending.
    + intros [o k] Hin. cbn [fst snd].
      assert (Hk : k ∈ kids).
      { apply list_elem_of_In in Hin. apply elem_of_zip_r in Hin. assumption. }
      rewrite Forall_forall in IH, Hkids. apply IH; [assumption | auto].
    + intros [o1 k1] [o2 k2] [[p1 i1] v1] [[p2 i2] v2] Hin1 Hin2 Hlt H1 H2.
      cbn [fst snd] in *.
      destruct (Hbelow o1 k1 p1 i1 v1 Hin1 H1) as (rel1 & ->).
      destruct (Hbelow o2 k2 p2 i2 v2 Hin2 H2) as (rel2 & ->).
      rewrite walkBefore_app. cbn [walkBefore].
      rewrite (proj2 (N.ltb_lt o1 o2) Hlt). reflexivity.
  - intros [[p1 i1] v1] [[p2 i2] v2] H1 H2. cbn [fst snd].
    apply in_map_iff in H1 as (i & Heq & _). injection Heq as <- <- _.
    apply in_flat_map in H2 as ([o k] & Hin & Hr). cbn [fst snd] in Hr.
    destruct (Hbelow o k p2 i2 v2 Hin Hr) as (rel & ->).
    rewrite <- (app_nil_r path) at 1. rewrite walkBefore_app. reflexivity.
Qed.

(** X18 -- [walkRec] visits every route once, in order.  For a trie of
    stride nodes there is a list of routes (octet path, base index,
    value) such that [walkRec], for every callback and every state of
    it, returns what calling the callback on these routes in order, up
    to the first error, returns.  The list is strictly ascending in the
    order of the walk: the routes of a node in ascending base index,
    before the routes below its children, the children in ascending
    octet.  No (path, base index) occurs twice in it, and it holds
    exactly the routes stored in the trie: those that [getAt] reads at
    a path below [path]. *)
Theorem walkRec_visits fuel h t path is4 :
  Forall strideNode h -> tree h t -> (need t <= fuel)%nat ->
  exists items,
    (forall cb s,
       walkRec zero P E St cidrFromPath fuel h (Some (root t)) path is4 cb s =
       Ok (visit P E St cidrFromPath is4 cb items s)) /\
    StronglySorted
      (fun a b => walkBefore a.1.1 a.1.2 b.1.1 b.1.2 = true) items /\
    NoDup (map fst items) /\
    forall p idx v,
      In (p, idx, v) items <->
      exists rel, p = path ++ rel /\
                  getAt zero h (Some (root t)) rel idx = Ok (v, true).
Proof.
  intros Hh Ht Hn. exists (routesT zero t path). split; [| split; [| split]].
  - intros cb s. apply walkRec_spec; assumption.
  - apply (routesT_sorted h); assumption.
  - apply (routesT_NoDup h); assumption.
  - intros p idx v. rewrite (routesT_In h t Ht). split.
    + intros (rel & -> & Hg). exists rel. split; [reflexivity |].
      rewrite (getAt_tree zero h rel t idx Ht), Hg. reflexivity.
    + intros (rel & -> & Hg). exists rel. split; [reflexivity |].
      rewrite (getAt_tree zero h rel t idx Ht) in Hg.
      destruct (getT t rel idx); congruence.
Qed.

End Walk.

(** * subnets *)

Lemma onChain_above p i : i < p -> onChain p i = false.
Proof.
  intros H. apply not_true_is_false. intros Hc. apply onChain_true in Hc.
  apply chain_le in Hc. lia.
Qed.

Lemma onChain_refl p : 1 <= p -> onChain p p = true.
Proof.
  intros H. apply onChain_true. apply in_chain. split; [lia |].
  exists 0. apply N.shiftr_0_r.
Qed.

Section SubnetsFacts.

Context {V : Type} (zero : V).
Variables P E : Type.
Variable cidrFromPath : list N -> N -> bool -> P.
Local Abbreviation heap := (list (node V)).
Implicit Types (n nd : node V) (h : heap).
Implicit Types (t k : ltree (V := V)) (kids : list (ltree (V := V))).

Lemma subnets_covered_spec parentIdx fuel : forall i,
  1 <= parentIdx -> (N.to_nat (N.size i) < fuel)%nat ->
  subnets_covered fuel i parentIdx = Ok (onChain parentIdx i).
Proof.
  induction fuel as [| fuel IH]; intros i Hp Hf; [lia |].
  cbn [subnets_covered]. destruct (N.leb_spec parentIdx i) as [Hle | Hlt].
  - destruct (N.eqb_spec i parentIdx) as [-> | Hne].
    + rewrite onChain_refl by assumption. reflexivity.
    + rewrite IH; [| assumption |].
      * rewrite (onChain_cons parentIdx i) by assumption.
        destruct (N.eqb_spec parentIdx i); [congruence | reflexivity].
      * rewrite (size_shiftr_1 i) in Hf by lia. lia.
  - rewrite onChain_above by assumption. reflexivity.
Qed.

Local Abbreviation cidr is4 := (fun key : list N * N => cidrFromPath key.1 key.2 is4).

Lemma subnets_routes_spec nd path parentIdx is4 : forall idxs acc,
  1 <= parentIdx ->
  subnets_routes P cidrFromPath nd path parentIdx is4 idxs acc =
  Ok (acc ++ map (cidr is4)
               (map (fun i => (path, i)) (List.filter (onChain parentIdx) idxs))).
Proof.
  induction idxs as [| i idxs IH]; intros acc Hp.
  - cbn. rewrite app_nil_r. reflexivity.
  - cbn [subnets_routes List.filter]. rewrite subnets_covered_spec by (assumption || lia).
    cbn [bind]. rewrite IH by assumption.
    destruct (onChain parentIdx i); [| reflexivity].
    cbn [map]. rewrite <- app_assoc. reflexivity.
Qed.

Lemma subnets_child_spec (walk : ptr -> list N -> list P -> result (list P))
    nd path octet parentIdx fuel : forall i acc,
  1 <= parentIdx -> (N.to_nat (N.size i) < fuel)%nat ->
  subnets_child P fuel walk nd path octet i parentIdx acc =
  if onChain parentIdx i
  then do c <- getChild nd octet; walk c (path ++ [octet]) acc
  else Ok acc.
Proof.
  induction fuel as [| fuel IH]; intros i acc Hp Hf; [lia |].
  cbn [subnets_child]. destruct (N.leb_spec parentIdx i) as [Hle | Hlt].
  - destruct (N.eqb_spec i parentIdx) as [-> | Hne].
    + rewrite onChain_refl by assumption.
      destruct (getChild nd octet) as [c | |]; cbn [bind]; try reflexivity.
      destruct (walk c (path ++ [octet]) acc) as [acc' | |]; cbn [bind]; try reflexivity.
      assert (Hs : 1 <= N.size parentIdx).
      { rewrite N.size_log2 by lia. lia. }
      rewrite IH; [| assumption |].
      * rewrite onChain_above; [reflexivity |]. apply shiftr_1_lt. assumption.
      * rewrite (size_shiftr_1 parentIdx) in Hf by lia. lia.
    + cbn [bind]. rewrite IH; [| assumption |].
      * rewrite (onChain_cons parentIdx i) by assumption.
        destruct (N.eqb_spec parentIdx i); [congruence | reflexivity].
      * rewrite (size_shiftr_1 i) in Hf by lia. lia.
  - rewrite onChain_above by assumption. reflexivity.
Qed.

Lemma visit_append is4 (items : list (list N * N * V)) : forall acc,
  visit P E (list P) cidrFromPath is4 (fun pfx _ acc => (acc ++ [pfx], None)) items acc
  = (acc ++ map (cidr is4) (map fst items), None).
Proof.
  induction items as [| [[p i] v] items IH]; intros acc.
  - cbn. rewrite app_nil_r. reflexivity.
  - cbn [visit map fst]. rewrite IH, <- app_assoc. reflexivity.
Qed.

Local Abbreviation kid_keys path parentIdx :=
  (fun ok : N * ltree =>
     if onChain parentIdx (octetToBaseIndex ok.1)
     then map fst (routesT zero ok.2 (path ++ [ok.1])) else []).

Lemma subnets_children_spec (walk : ptr -> list N -> list P -> result (list P))
    nd path parentIdx is4 : forall os ks acc,
  1 <= parentIdx ->
  Forall2 (fun o k => o < 256 /\ getChild nd o = Ok (Some (root k))) os ks ->
  (forall o k acc, In (o, k) (zip os ks) ->
     walk (Some (root k)) (path ++ [o]) acc =
     Ok (acc ++ map (cidr is4) (map fst (routesT zero k (path ++ [o]))))) ->
  subnets_children P walk nd path parentIdx os acc =
  Ok (acc ++ map (cidr is4) (flat_map (kid_keys path parentIdx) (zip os ks))).
Proof.
  induction os as [| o os IH]; intros ks acc Hp Hall Hwalk.
  - inversion Hall; subst. cbn. rewrite app_nil_r. reflexivity.
  - inversion Hall as [| ? k ? ks' [Ho Hg] Hall']; subst.
    cbn [subnets_children zip zip_with flat_map].
    rewrite byte_small by assumption.
    rewrite subnets_child_spec; [| assumption |].
    2: { unfold octetToBaseIndex, firstHostIndex.
         assert (N.size (o + 256) <= N.size 511) by (apply size_mono; lia).
         change (N.size 511) with 9 in H. lia. }
    cbn [fst snd]. rewrite map_app, app_assoc.
    destruct (onChain parentIdx (octetToBaseIndex o)).
    + rewrite Hg. cbn [bind]. rewrite (Hwalk o k acc) by (left; reflexivity).
      cbn [bind]. apply IH; [assumption | assumption |].
      intros o' k' acc' Hin. apply Hwalk. right. assumption.
    + cbn [bind map]. rewrite app_nil_r. apply IH; [assumption | assumption |].
      intros o' k' acc' Hin. apply Hwalk. right. assumption.
Qed.

Lemma drop_length_app {A} (l1 l2 : list A) : drop (length l1) (l1 ++ l2) = l2.
Proof. induction l1 as [| a l1 IH]; [reflexivity | exact IH]. Qed.

Lemma filter_all {A} (f : A -> bool) l b :
  (forall x, In x l -> f x = b) -> List.filter f l = if b then l else [].
Proof.
  intros H. induction l as [| a l IH]; [destruct b; reflexivity |].
  cbn. rewrite (H a (or_introl eq_refl)), IH by (intros x Hx; apply H; right; assumption).
  destruct b; reflexivity.
Qed.

Lemma filter_flat_map {A B} (f : B -> bool) (g : A -> list B) l :
  List.filter f (flat_map g l) = flat_map (fun a => List.filter f (g a)) l.
Proof.
  induction l as [| a l IH]; [reflexivity |]. cbn. rewrite List.filter_app, IH. reflexivity.
Qed.

Lemma flat_map_ext_in {A B} (f g : A -> list B) l :
  (forall a, In a l -> f a = g a) -> flat_map f l = flat_map g l.
Proof.
  intros H. induction l as [| a l IH]; [reflexivity |]. cbn.
  rewrite (H a (or_introl eq_refl)), IH by (intros x Hx; apply H; right; assumption).
  reflexivity.
Qed.

Lemma covered_keys h l nd kids path parentIdx :
  tree h (LT l nd kids) ->
  List.filter (coveredKey path parentIdx) (map fst (routesT zero (LT l nd kids) path))
  = map (fun i => (path, i)) (List.filter (onChain parentIdx) (elems (prefixesBitset nd)))
    ++ flat_map (kid_keys path parentIdx) (zip (elems (childrenBitset nd)) kids).
Proof.
  intros Ht. pose proof Ht as Ht'.
  apply tree_inv in Ht' as (Hl & [Hp Hc] & Hdom & Hch & Hkids).
  rewrite routesT_unfold, map_app, List.filter_app. f_equal.
  - rewrite map_map. cbn [fst]. induction (elems (prefixesBitset nd)) as [| i idxs IH];
      [reflexivity |].
    cbn [map List.filter]. unfold coveredKey at 1. cbn [fst snd].
    rewrite drop_all. rewrite IH. destruct (onChain parentIdx i); reflexivity.
  - rewrite flat_map_concat_map, concat_map, map_map, <- flat_map_concat_map.
    rewrite filter_flat_map. apply flat_map_ext_in. intros [o k] Hin. cbn [fst snd].
    apply filter_all. intros [p i] Hx.
    apply in_map_iff in Hx as ([[p' i'] v] & Heq & Hr). cbn [fst] in Heq.
    injection Heq as -> ->.
    assert (Hk : k ∈ kids).
    { apply list_elem_of_In in Hin. apply elem_of_zip_r in Hin. assumption. }
    rewrite Forall_forall in Hkids.
    apply (routesT_In zero h k (Hkids k Hk)) in Hr as (rel & -> & _).
    unfold coveredKey. cbn [fst snd]. rewrite <- app_assoc, drop_length_app. reflexivity.
Qed.

Lemma subnets_spec fuel h t path parentIdx is4 :
  Forall strideNode h -> tree h t -> (need t <= fuel)%nat -> 1 <= parentIdx ->
  subnets zero P E cidrFromPath fuel h (Some (root t)) path parentIdx is4 =
  Ok (map (cidr is4)
        (List.filter (coveredKey path parentIdx) (map fst (routesT zero t path)))).
Proof.
  intros Hh Ht Hn Hp. destruct t as [l nd kids].
  rewrite (covered_keys h l nd kids path parentIdx Ht).
  pose proof (tree_kids_octets h l nd kids Ht) as Hoct.
  pose proof Ht as Ht'. apply tree_inv in Ht' as (Hl & [Hpo Hc] & Hdom & Hch & Hkids).
  assert (Hs : strideNode nd).
  { rewrite Forall_forall in Hh. apply Hh. eapply list_elem_of_lookup_2, Hl. }
  destruct Hs as (_ & _ & [_ Hsp] & Hsc). unfold octetIndices in Hsc.
  unfold subnets. cbn [root]. rewrite (proj2 (deref_Some h l nd) Hl). cbn [bind].
  unfold allStrideIndexes, allChildAddrs.
  rewrite !NextSetMany_all by (unfold maxNodePrefixes, maxNodeChildren; lia).
  rewrite subnets_routes_spec by assumption. cbn [bind app].
  rewrite map_app.
  apply (subnets_children_spec _ nd path parentIdx is4); [assumption | |].
  - eapply Forall2_impl; [exact Hoct |]. cbn. tauto.
  - intros o k acc Hin.
    assert (Hk : k ∈ kids).
    { apply list_elem_of_In in Hin. apply elem_of_zip_r in Hin. assumption. }
    rewrite Forall_forall in Hkids.
    rewrite (walkRec_spec zero P E (list P) cidrFromPath h is4 _ Hh k (Hkids k Hk)).
    + cbn [bind]. rewrite visit_append. reflexivity.
    + pose proof (need_kid k kids l nd Hk). lia.
Qed.

(** X19 -- [subnets] returns the covered routes.  For a trie of stride
    nodes and a base index [parentIdx >= 1], [subnets] returns the
    CIDRs of a list of (octet path, base index) without repetition,
    which holds exactly the routes stored in the trie that [parentIdx]
    covers: the routes of the node itself whose backtracking chain
    passes through [parentIdx], and all routes below a child whose
    octet's chain does. *)
Theorem subnets_covered_routes fuel h t path parentIdx is4 :
  Forall strideNode h -> tree h t -> (need t <= fuel)%nat -> 1 <= parentIdx ->
  exists keys,
    subnets zero P E cidrFromPath fuel h (Some (root t)) path parentIdx is4 =
    Ok (map (fun key => cidrFromPath key.1 key.2 is4) keys) /\
    NoDup keys /\
    forall p idx,
      In (p, idx) keys <->
      exists rel, p = path ++ rel /\
        (exists v, getAt zero h (Some (root t)) rel idx = Ok (v, true)) /\
        coveredBy parentIdx rel idx.
Proof.
  intros Hh Ht Hn Hp.
  exists (List.filter (coveredKey path parentIdx) (map fst (routesT zero t path))).
  split; [apply subnets_spec; assumption |]. split.
  - apply NoDup_ListNoDup, List.NoDup_filter, NoDup_ListNoDup.
    apply (routesT_NoDup zero h); assumption.
  - intros p idx. rewrite List.filter_In, in_map_iff. split.
    + intros [([[p' i'] v] & Heq & Hin) Hc]. cbn [fst] in Heq. injection Heq as -> ->.
      apply (routesT_In zero h t Ht) in Hin as (rel & -> & Hg).
      exists rel. split; [reflexivity |]. split.
      * exists v. rewrite (getAt_tree zero h rel t idx Ht), Hg. reflexivity.
      * unfold coveredKey in Hc. cbn [fst snd] in Hc. rewrite drop_length_app in Hc.
        unfold coveredBy. destruct rel; apply onChain_true; assumption.
    + intros (rel & -> & [v Hg] & Hc). split.
      * exists (path ++ rel, idx, v). split; [reflexivity |].
        apply (routesT_In zero h t Ht). exists rel. split; [reflexivity |].
        rewrite (getAt_tree zero h rel t idx Ht) in Hg.
        destruct (getT t rel idx); congruence.
      * unfold coveredKey. cbn [fst snd]. rewrite drop_length_app.
        unfold coveredBy in Hc. destruct rel; apply onChain_true; assumption.
Qed.

End SubnetsFacts.

(** * What overlapsRec decides *)

Lemma chain_trans i j x : In i (chain j) -> In j (chain x) -> In i (chain x).
Proof.
  intros Hi Hj. apply in_chain in Hi as (Hi0 & ki & <-).
  apply in_chain in Hj as (Hj0 & kj & <-).
  apply in_chain. split; [assumption |]. exists (kj + ki).
  rewrite N.shiftr_shiftr. reflexivity.
Qed.

Lemma chain_comparable i j x :
  In i (chain x) -> In j (chain x) -> In i (chain j) \/ In j (chain i).
Proof.
  intros Hi Hj. pose proof Hi as Hi'. pose proof Hj as Hj'.
  apply in_chain in Hi as (Hi0 & ki & Ei). apply in_chain in Hj as (Hj0 & kj & Ej).
  destruct (N.le_ge_cases kj ki) as [Hle | Hge].
  - left. apply in_chain. split; [assumption |]. exists (ki - kj).
    rewrite <- Ej, N.shiftr_shiftr. replace (kj + (ki - kj)) with ki by lia. assumption.
  - right. apply in_chain. split; [assumption |]. exists (kj - ki).
    rewrite <- Ei, N.shiftr_shiftr. replace (ki + (kj - ki)) with kj by lia. assumption.
Qed.

(** Every base index has a host route in its subtree. *)
Lemma chain_host j : 1 <= j <= 511 -> exists x, 256 <= x <= 511 /\ In j (chain x).
Proof.
  intros Hj. destruct (bounds_facts j Hj) as (lo & hi & E & H1 & H2).
  exists lo. split; [lia |]. apply onChain_true. rewrite <- covers_onChain by lia.
  unfold covers. rewrite E. apply andb_true_iff. split; apply N.leb_le; lia.
Qed.

Lemma covers_host i x : covers i x = true -> 256 <= x <= 511 /\ 1 <= i <= 511.
Proof.
  unfold covers. intros H.
  destruct (lowerUpperBound i) as [[lo hi] | |] eqn:E; try discriminate.
  apply andb_true_iff in H as [H1 H2]. apply N.leb_le in H1, H2.
  destruct (N.eq_dec i 0) as [-> | Hi0]; [discriminate |].
  destruct (N.le_gt_cases 512 i) as [Hbig | Hi].
  - rewrite (lowerUpperBound_outside i (or_intror Hbig)) in E. discriminate.
  - destruct (bounds_facts i ltac:(lia)) as (lo' & hi' & E' & H3 & H4).
    rewrite E in E'. injection E' as <- <-. lia.
Qed.

Lemma meets_allot a b :
  baseIndices a -> baseIndices b ->
  (meets (allot a) (allot b) = true <->
   exists i j, Test a i = true /\ Test b j = true /\ (In i (chain j) \/ In j (chain i))).
Proof.
  intros Ha Hb. rewrite meets_true. split.
  - intros (x & Hx & H1 & H2). rewrite entry_allot in H1, H2 by assumption.
    apply allotted_true in H1 as (i & _ & Hi & Hci).
    apply allotted_true in H2 as (j & _ & Hj & Hcj).
    exists i, j. split; [assumption |]. split; [assumption |].
    destruct (covers_host _ _ Hci) as [Hxr Hir]. destruct (covers_host _ _ Hcj) as [_ Hjr].
    rewrite covers_onChain in Hci, Hcj by lia. apply onChain_true in Hci, Hcj.
    apply (chain_comparable i j x); assumption.
  - intros (i & j & Hi & Hj & Hc).
    pose proof (baseIndices_range _ _ Ha Hi) as Hir.
    pose proof (baseIndices_range _ _ Hb Hj) as Hjr.
    assert (Hx : exists x, 256 <= x <= 511 /\ In i (chain x) /\ In j (chain x)).
    { destruct Hc as [Hc | Hc].
      - destruct (chain_host j Hjr) as (x & Hx & Hjx). exists x.
        split; [assumption |]. split; [apply (chain_trans i j x) |]; assumption.
      - destruct (chain_host i Hir) as (x & Hx & Hix). exists x.
        split; [assumption |]. split; [| apply (chain_trans j i x)]; assumption. }
    destruct Hx as (x & Hx & Hix & Hjx). exists x. split; [lia |].
    rewrite !entry_allot by lia. split; apply allotted_true.
    + exists i. split; [lia |]. split; [assumption |].
      rewrite covers_onChain by lia. apply onChain_true. assumption.
    + exists j. split; [lia |]. split; [assumption |].
      rewrite covers_onChain by lia. apply onChain_true. assumption.
Qed.

Lemma hitsChild_allot cb pb :
  baseIndices pb ->
  (hitsChild cb (allot pb) = true <->
   exists c i, c <= 255 /\ Test cb c = true /\ Test pb i = true /\
               In i (chain (octetToBaseIndex c))).
Proof.
  intros Hb. rewrite hitsChild_true. unfold octetToBaseIndex, firstHostIndex. split.
  - intros (c & Hc & Ht & He). rewrite entry_allot in He by lia.
    apply allotted_true in He as (i & _ & Hi & Hci).
    pose proof (baseIndices_range _ _ Hb Hi) as Hir.
    rewrite covers_onChain in Hci by lia. apply onChain_true in Hci.
    exists c, i. split; [lia |]. auto.
  - intros (c & i & Hc & Ht & Hi & Hci).
    pose proof (baseIndices_range _ _ Hb Hi) as Hir.
    exists c. split; [lia |]. split; [assumption |].
    rewrite entry_allot by lia. apply allotted_true. exists i. split; [lia |].
    split; [assumption |]. rewrite covers_onChain by lia. apply onChain_true. assumption.
Qed.

Section Overlaps.

Context {V : Type}.
Local Abbreviation heap := (list (node V)).
Implicit Types (n o : node V) (h : heap).

(** The children with the same octet, met by a call of [rec] that
    answers [true], all earlier ones answering [false]. *)
Lemma overlapsSameOctet_true (rec : ptr -> ptr -> result bool) n o : forall idxs,
  childrenOk n -> childrenOk o ->
  (forall x, In x idxs -> x < 256) ->
  (overlapsSameOctet rec n o (octets (childrenBitset n)) (octets (childrenBitset o)) idxs
   = Ok true <->
   exists l1 c l2, idxs = l1 ++ c :: l2 /\
     Test (childrenBitset n) c = true /\ Test (childrenBitset o) c = true /\
     (exists nc oc, getChild n c = Ok nc /\ getChild o c = Ok oc /\ rec nc oc = Ok true) /\
     forall c', In c' l1 ->
       Test (childrenBitset n) c' = true -> Test (childrenBitset o) c' = true ->
       exists nc oc, getChild n c' = Ok nc /\ getChild o c' = Ok oc /\
                     rec nc oc = Ok false).
Proof.
  intros idxs Hn Ho. induction idxs as [| x idxs IH]; intros Hr.
  - cbn. split; [discriminate |]. intros (l1 & c & l2 & E & _). destruct l1; discriminate.
  - cbn [overlapsSameOctet].
    assert (Hx : (N.to_nat x < 256)%nat) by (pose proof (Hr x (or_introl eq_refl)); lia).
    rewrite !index_entry by (rewrite octets_length; assumption).
    rewrite !entry_octets by assumption. cbn [bind].
    assert (Hb : (if Test (childrenBitset n) x
                  then Ok (Test (childrenBitset o) x) else Ok false)
                 = Ok (Test (childrenBitset n) x && Test (childrenBitset o) x)).
    { destruct (Test (childrenBitset n) x); reflexivity. }
    rewrite Hb. cbn [bind]. rewrite byte_small by lia.
    specialize (IH (fun y Hy => Hr y (or_intror Hy))).
    destruct (Test (childrenBitset n) x) eqn:Etn, (Test (childrenBitset o) x) eqn:Eto;
      cbn [andb].
    2-4: rewrite IH; split;
      [ intros (l1 & c & l2 & -> & Hc1 & Hc2 & Hrec & Hbefore);
        exists (x :: l1), c, l2; split; [reflexivity |];
        split; [assumption |]; split; [assumption |]; split; [assumption |];
        intros c' [<- | Hc'] H1 H2; [congruence | auto]
      | intros (l1 & c & l2 & E & Hc1 & Hc2 & Hrec & Hbefore);
        destruct l1 as [| y l1]; cbn in E; injection E as <- ->;
        [congruence |];
        exists l1, c, l2; split; [reflexivity |];
        split; [assumption |]; split; [assumption |]; split; [assumption |];
        intros c' Hc'; apply Hbefore; right; assumption ].
    rewrite (getChild_slot n x Hn), (getChild_slot o x Ho).
    set (nc := match slot (childrenBitset n) (children n) x with Some p => p | None => None end).
    set (oc := match slot (childrenBitset o) (children o) x with Some p => p | None => None end).
    assert (Hgn : getChild n x = Ok nc).
    { rewrite (getChild_slot n x Hn). unfold nc.
      destruct (slot (childrenBitset n) (children n) x); reflexivity. }
    assert (Hgo : getChild o x = Ok oc).
    { rewrite (getChild_slot o x Ho). unfold oc.
      destruct (slot (childrenBitset o) (children o) x); reflexivity. }
    assert (Hsn : (match slot (childrenBitset n) (children n) x with
                   | Some p => Ok p | None => Ok None end) = Ok nc).
    { unfold nc. destruct (slot (childrenBitset n) (children n) x); reflexivity. }
    assert (Hso : (match slot (childrenBitset o) (children o) x with
                   | Some p => Ok p | None => Ok None end) = Ok oc).
    { unfold oc. destruct (slot (childrenBitset o) (children o) x); reflexivity. }
    rewrite Hsn, Hso. cbn [bind].
    destruct (rec nc oc) as [[|] | |] eqn:Erec; cbn [bind].
    + split; [intros _ | reflexivity].
      exists [], x, idxs. split; [reflexivity |]. split; [assumption |].
      split; [assumption |]. split; [| intros c' []].
      exists nc, oc. auto.
    + rewrite IH. split.
      * intros (l1 & c & l2 & -> & Hc1 & Hc2 & Hrec & Hbefore).
        exists (x :: l1), c, l2. split; [reflexivity |].
        split; [assumption |]. split; [assumption |]. split; [assumption |].
        intros c' [<- | Hc'] H1 H2; [| auto]. exists nc, oc. auto.
      * intros (l1 & c & l2 & E & Hc1 & Hc2 & Hrec & Hbefore).
        destruct l1 as [| y l1]; cbn in E; injection E as <- ->.
        { destruct Hrec as (nc' & oc' & H1 & H2 & H3). congruence. }
        exists l1, c, l2. split; [reflexivity |].
        split; [assumption |]. split; [assumption |]. split; [assumption |].
        intros c' Hc'. apply Hbefore. right. assumption.
    + split; [discriminate |].
      intros (l1 & c & l2 & E & Hc1 & Hc2 & Hrec & Hbefore).
      destruct l1 as [| y l1]; cbn in E; injection E as <- ->.
      * destruct Hrec as (nc' & oc' & H1 & H2 & H3). congruence.
      * destruct (Hbefore x (or_introl eq_refl) Etn Eto) as (nc' & oc' & H1 & H2 & H3).
        congruence.
    + split; [discriminate |].
      intros (l1 & c & l2 & E & Hc1 & Hc2 & Hrec & Hbefore).
      destruct l1 as [| y l1]; cbn in E; injection E as <- ->.
      * destruct Hrec as (nc' & oc' & H1 & H2 & H3). congruence.
      * destruct (Hbefore x (or_introl eq_refl) Etn Eto) as (nc' & oc' & H1 & H2 & H3).
        congruence.
Qed.

Lemma sorted_split (l1 l2 : list N) c :
  StronglySorted N.lt (l1 ++ c :: l2) ->
  (forall y, In y l1 -> y < c) /\ (forall y, In y l2 -> c < y).
Proof.
  induction l1 as [| a l1 IH]; cbn; intros H.
  - apply StronglySorted_inv in H as [_ H]. rewrite List.Forall_forall in H.
    split; [intros y [] | exact H].
  - apply StronglySorted_inv in H as [Hs Ha]. destruct (IH Hs) as [H1 H2].
    rewrite List.Forall_forall in Ha. split; [| exact H2].
    intros y [<- | Hy]; [| auto]. apply Ha. apply in_or_app. right. left. reflexivity.
Qed.

Lemma Test_children_length n c :
  childrenOk n -> Test (childrenBitset n) c = true -> (0 <? length (children n))%nat = true.
Proof.
  intros Hok Ht. apply Nat.ltb_lt. unfold childrenOk in Hok. rewrite Hok.
  pose proof (Rank_pos _ _ Ht). pose proof (Rank_le_Count (childrenBitset n) c). lia.
Qed.

(** X20 -- what [overlapsRec] decides.  For two stride nodes,
    [overlapsRec n o] returns [true] exactly when a route of one node
    covers a route of the other (one base index lies on the chain of
    the other), or a route of one covers a child octet of the other,
    or the two nodes have a child at a common octet whose subtries
    overlap, the common octets before it having subtries that do
    not. *)
Theorem overlapsRec_decides fuel h pn po n o :
  deref h pn = Ok n -> deref h po = Ok o -> strideNode n -> strideNode o ->
  (overlapsRec (S fuel) h pn po = Ok true <->
   (exists i j, Test (prefixesBitset n) i = true /\ Test (prefixesBitset o) j = true /\
                (In i (chain j) \/ In j (chain i)))
   \/ (exists c i, Test (childrenBitset n) c = true /\ Test (prefixesBitset o) i = true /\
                   In i (chain (octetToBaseIndex c)))
   \/ (exists c i, Test (childrenBitset o) c = true /\ Test (prefixesBitset n) i = true /\
                   In i (chain (octetToBaseIndex c)))
   \/ (exists c, Test (childrenBitset n) c = true /\ Test (childrenBitset o) c = true /\
         (exists nc oc, getChild n c = Ok nc /\ getChild o c = Ok oc /\
                        overlapsRec fuel h nc oc = Ok true) /\
         forall c', c' < c ->
           Test (childrenBitset n) c' = true -> Test (childrenBitset o) c' = true ->
           exists nc oc, getChild n c' = Ok nc /\ getChild o c' = Ok oc /\
                         overlapsRec fuel h nc oc = Ok false)).
Proof.
  intros Hn Ho Sn So. rewrite (overlapsRec_unfold fuel h pn po n o Hn Ho Sn So).
  destruct Sn as (Hnp & Hnc & Hnb & Hno). destruct So as (Hop & Hoc & Hob & Hoo).
  unfold overlapsNode.
  pose proof (meets_allot _ _ Hnb Hob) as Hmeets.
  pose proof (hitsChild_allot (childrenBitset n) _ Hob) as Hhit1.
  pose proof (hitsChild_allot (childrenBitset o) _ Hnb) as Hhit2.
  assert (Hoctet : forall b c, N.size b <= 256 -> Test b c = true -> c <= 255).
  { intros b c Hs Ht. pose proof (Test_lt_size _ _ Ht). lia. }
  destruct (meets _ _) eqn:Em.
  { split; [intros _ | reflexivity]. left. apply Hmeets. reflexivity. }
  destruct (hitsChild (childrenBitset n) _) eqn:Eh1.
  { split; [intros _ | reflexivity]. right. left.
    destruct (proj1 Hhit1 eq_refl) as (c & i & _ & H1 & H2 & H3). exists c, i. auto. }
  destruct (hitsChild (childrenBitset o) _) eqn:Eh2.
  { split; [intros _ | reflexivity]. right. right. left.
    destruct (proj1 Hhit2 eq_refl) as (c & i & _ & H1 & H2 & H3). exists c, i. auto. }
  cbn [orb].
  assert (Hno123 : forall Q : Prop,
            ((exists i j, Test (prefixesBitset n) i = true /\ Test (prefixesBitset o) j = true /\
                          (In i (chain j) \/ In j (chain i)))
             \/ (exists c i, Test (childrenBitset n) c = true /\ Test (prefixesBitset o) i = true /\
                             In i (chain (octetToBaseIndex c)))
             \/ (exists c i, Test (childrenBitset o) c = true /\ Test (prefixesBitset n) i = true /\
                             In i (chain (octetToBaseIndex c)))
             \/ Q) -> Q).
  { intros Q [H | [(c & i & H1 & H2 & H3) | [(c & i & H1 & H2 & H3) | H]]].
    - apply Hmeets in H. discriminate.
    - assert (false = true); [| discriminate]. apply Hhit1.
      exists c, i. split; [apply (Hoctet _ _ Hno H1) |]. auto.
    - assert (false = true); [| discriminate]. apply Hhit2.
      exists c, i. split; [apply (Hoctet _ _ Hoo H1) |]. auto.
    - assumption. }
  destruct ((0 <? length (children n))%nat && (0 <? length (children o))%nat) eqn:Elen.
  - rewrite overlapsSameOctet_true; [| assumption | assumption |].
    2: { intros x Hx. apply in_below in Hx. lia. }
    split.
    + intros (l1 & c & l2 & E & Hc1 & Hc2 & Hrec & Hbefore).
      right. right. right. exists c. split; [assumption |]. split; [assumption |].
      split; [assumption |]. intros c' Hlt H1 H2. apply Hbefore; [| assumption | assumption].
      pose proof (below_ascending 256) as Hs. rewrite E in Hs.
      destruct (sorted_split _ _ _ Hs) as [_ Hafter].
      assert (Hin : In c' (below 256)).
      { apply in_below. pose proof (Hoctet _ _ Hno H1). lia. }
      rewrite E in Hin. apply in_app_or in Hin as [Hin | [<- | Hin]]; [assumption | lia |].
      specialize (Hafter c' Hin). lia.
    + intros H. apply Hno123 in H as (c & Hc1 & Hc2 & Hrec & Hbefore).
      assert (Hin : In c (below 256)).
      { apply in_below. pose proof (Hoctet _ _ Hno Hc1). lia. }
      apply in_split in Hin as (l1 & l2 & E).
      exists l1, c, l2. split; [assumption |]. split; [assumption |].
      split; [assumption |]. split; [assumption |].
      intros c' Hc'. apply Hbefore.
      pose proof (below_ascending 256) as Hs. rewrite E in Hs.
      destruct (sorted_split _ _ _ Hs) as [Hb _]. apply Hb. assumption.
  - split; [discriminate |]. intros H. apply Hno123 in H as (c & Hc1 & Hc2 & _).
    rewrite (Test_children_length n c Hnc Hc1), (Test_children_length o c Hoc Hc2) in Elen.
    discriminate.
Qed.

End Overlaps.

(** * Nodes are determined by their content *)

Lemma compressed_ext {A} (b : BitSet) (s s' : list A) :
  length s = Count b -> length s' = Count b ->
  (forall i, slot b s i = slot b s' i) -> s = s'.
Proof.
  intros Hs Hs' Hslot. apply list_eq. intros k.
  destruct (elems b !! k) as [i |] eqn:Hk.
  - apply elems_lookup in Hk as [Ht Hr]. specialize (Hslot i).
    unfold slot in Hslot. rewrite Ht, Hr in Hslot. cbn in Hslot.
    rewrite Nat.sub_0_r in Hslot. assumption.
  - apply lookup_ge_None in Hk. fold (Count b) in Hk.
    rewrite (proj2 (lookup_ge_None s k)), (proj2 (lookup_ge_None s' k)) by lia.
    reflexivity.
Qed.

Lemma bitset_ext (b b' : BitSet) : (forall i, Test b i = Test b' i) -> b = b'.
Proof. intros H. apply N.bits_inj. exact H. Qed.

Section Canonical.

Context {V : Type} (zero : V).
Implicit Types n : node V.

Lemma node_ext n n' :
  prefixesOk n -> prefixesOk n' ->
  (forall i, Test (prefixesBitset n) i = Test (prefixesBitset n') i) ->
  (forall i, slot (prefixesBitset n) (prefixes n) i
             = slot (prefixesBitset n') (prefixes n') i) ->
  childrenBitset n = childrenBitset n' -> children n = children n' ->
  n = n'.
Proof.
  intros Hp Hp' Ht Hs Hcb Hc. destruct n as [pb cb ps cs], n' as [pb' cb' ps' cs'].
  cbn in *. apply bitset_ext in Ht. subst pb' cb' cs'. f_equal.
  apply (compressed_ext pb); assumption.
Qed.

(** X21 -- insert and delete cancel.  When the base index of the
    prefix is not set, [insertPrefix] followed by [deletePrefix]
    returns the node it started from: the same bit sets and the same
    slices. *)
Theorem insert_delete_restores n octet prefixLen v idx :
  prefixesOk n -> prefixToBaseIndex octet prefixLen = Ok idx ->
  Test (prefixesBitset n) idx = false ->
  exists n1, insertPrefix n octet prefixLen v = Ok n1 /\
             deletePrefix n1 octet prefixLen = Ok (n, true).
Proof.
  intros Hok Hidx Ht.
  destruct (insertIdx_spec n idx v Hok) as (n1 & Hi & Hok1 & Hcb1 & Hc1 & Ht1 & Hs1).
  assert (Hset : Test (prefixesBitset n1) idx = true).
  { rewrite Ht1, N.eqb_refl. reflexivity. }
  destruct (deletePrefix_present n1 octet prefixLen idx Hok1 Hidx Hset)
    as (n2 & Hd & Hok2 & Hcb2 & Hc2 & Ht2 & Hs2).
  exists n1. split; [unfold insertPrefix; rewrite Hidx; exact Hi |].
  rewrite Hd. f_equal. f_equal. apply node_ext; try assumption; try congruence.
  - intros i. rewrite Ht2, Ht1. destruct (N.eqb_spec idx i) as [<- | Hne].
    + rewrite Ht. reflexivity.
    + cbn. apply andb_true_r.
  - intros i. rewrite Hs2, Hs1. destruct (N.eqb_spec idx i) as [<- | Hne]; [| reflexivity].
    unfold slot. rewrite Ht. reflexivity.
Qed.

(** X22 -- the order of insertions.  Two [insertPrefix] calls with
    different base indices give the same node in either order; with the
    same base index the second one wins: the node is the one a single
    insertion of the second value gives. *)
Theorem insertPrefix_order n o1 l1 v1 o2 l2 v2 i1 i2 :
  prefixesOk n ->
  prefixToBaseIndex o1 l1 = Ok i1 -> prefixToBaseIndex o2 l2 = Ok i2 ->
  exists n12,
    (do m <- insertPrefix n o1 l1 v1; insertPrefix m o2 l2 v2) = Ok n12 /\
    (i1 <> i2 ->
       (do m <- insertPrefix n o2 l2 v2; insertPrefix m o1 l1 v1) = Ok n12) /\
    (i1 = i2 -> insertPrefix n o2 l2 v2 = Ok n12).
Proof.
  intros Hok H1 H2. unfold insertPrefix. rewrite H1, H2. cbn [bind].
  destruct (insertIdx_spec n i1 v1 Hok) as (m1 & Hm1 & Hok1 & Hcb1 & Hc1 & Ht1 & Hs1).
  destruct (insertIdx_spec m1 i2 v2 Hok1) as (n12 & Hn12 & Hok12 & Hcb12 & Hc12 & Ht12 & Hs12).
  destruct (insertIdx_spec n i2 v2 Hok) as (m2 & Hm2 & Hok2 & Hcb2 & Hc2 & Ht2 & Hs2).
  destruct (insertIdx_spec m2 i1 v1 Hok2) as (n21 & Hn21 & Hok21 & Hcb21 & Hc21 & Ht21 & Hs21).
  exists n12. rewrite Hm1, Hm2. cbn [bind]. split; [assumption |]. split.
  - intros Hne. rewrite Hn21. f_equal. apply node_ext; try assumption; try congruence.
    + intros i. rewrite Ht21, Ht2, Ht12, Ht1.
      destruct (i1 =? i), (i2 =? i); reflexivity.
    + intros i. rewrite Hs21, Hs2, Hs12, Hs1.
      destruct (N.eqb_spec i1 i), (N.eqb_spec i2 i); try reflexivity. congruence.
  - intros <-. f_equal. apply node_ext; try assumption; try congruence.
    + intros i. rewrite Ht2, Ht12, Ht1. destruct (i1 =? i); reflexivity.
    + intros i. rewrite Hs2, Hs12, Hs1. destruct (i1 =? i); reflexivity.
Qed.

End Canonical.

(** * The data model as an invariant *)

Lemma size_le_iff b k : N.size b <= k <-> forall i, k <= i -> Test b i = false.
Proof.
  split.
  - intros Hs i Hi. apply testbit_above_size. lia.
  - intros H. destruct (N.eq_dec b 0) as [-> | Hb]; [simpl; lia |].
    destruct (N.le_gt_cases (N.size b) k) as [| Hgt]; [assumption |].
    exfalso. rewrite N.size_log2 in Hgt by assumption.
    pose proof (N.bit_log2 b Hb) as Hbit. unfold Test in H.
    rewrite H in Hbit by lia. discriminate.
Qed.

Lemma baseIndices_iff b :
  baseIndices b <-> forall i, Test b i = true -> 1 <= i <= 511.
Proof.
  split.
  - intros H i. apply baseIndices_range. assumption.
  - intros H. split.
    + destruct (Test b 0) eqn:E; [| reflexivity]. apply H in E. lia.
    + apply size_le_iff. intros i Hi. destruct (Test b i) eqn:E; [| reflexivity].
      apply H in E. lia.
Qed.

Lemma octetIndices_iff b :
  octetIndices b <-> forall i, Test b i = true -> i <= 255.
Proof.
  unfold octetIndices. rewrite size_le_iff. split.
  - intros H i Ht. destruct (N.le_gt_cases i 255); [assumption |].
    rewrite H in Ht by lia. discriminate.
  - intros H i Hi. destruct (Test b i) eqn:E; [| reflexivity]. apply H in E. lia.
Qed.

Section Invariant.

Context {V : Type} (zero : V).
Local Abbreviation heap := (list (node V)).
Implicit Types (n : node V) (h : heap).

Lemma strideNode_newNode : strideNode (newNode (V := V)).
Proof.
  split; [reflexivity |]. split; [reflexivity |]. split.
  - split; [reflexivity | simpl; lia].
  - unfold octetIndices. simpl. lia.
Qed.

Lemma insertIdx_strideNode n idx v n' :
  1 <= idx <= 511 -> strideNode n -> insertIdx n idx v = Ok n' -> strideNode n'.
Proof.
  intros Hi (Hp & Hc & Hb & Ho) H.
  destruct (insertIdx_spec n idx v Hp) as (n'' & E & Hp' & Ecb & Ec & Ht & _).
  assert (n'' = n') by congruence. subst n''.
  split; [assumption |]. split; [unfold childrenOk in *; congruence |].
  split; [| congruence].
  apply baseIndices_iff. intros i. rewrite Ht. intros Hti.
  apply orb_true_iff in Hti as [Hti | Hti].
  - apply N.eqb_eq in Hti. subst i. assumption.
  - apply (baseIndices_range _ _ Hb Hti).
Qed.

Lemma insertPrefix_strideNode n octet len v n' :
  octet <= 255 -> strideNode n -> insertPrefix n octet len v = Ok n' -> strideNode n'.
Proof.
  intros Ho Hs H. unfold insertPrefix in H. apply bind_Ok in H as (idx & Hidx & H).
  apply (insertIdx_strideNode n idx v n'); [| assumption | assumption].
  apply (prefixToBaseIndex_Ok_range octet len); assumption.
Qed.

Lemma deletePrefix_strideNode n octet len n' r :
  strideNode n -> deletePrefix n octet len = Ok (n', r) -> strideNode n'.
Proof.
  intros (Hp & Hc & Hb & Ho) H. pose proof H as H'.
  unfold deletePrefix in H'. apply bind_Ok in H' as (idx & Hidx & _).
  destruct (Test (prefixesBitset n) idx) eqn:Et.
  - destruct (deletePrefix_present n octet len idx Hp Hidx Et)
      as (n'' & E & Hp' & Ecb & Ec & Ht & _).
    assert (n'' = n') by congruence. subst n''.
    split; [assumption |]. split; [unfold childrenOk in *; congruence |].
    split; [| congruence].
    apply baseIndices_iff. intros i. rewrite Ht. intros Hti.
    apply andb_true_iff in Hti as [Hti _]. apply (baseIndices_range _ _ Hb Hti).
  - rewrite (deletePrefix_absent n octet len idx Hidx Et) in H. injection H as <- _.
    exact (conj Hp (conj Hc (conj Hb Ho))).
Qed.

Lemma updatePrefix_strideNode n octet len cb n' v :
  octet <= 255 -> strideNode n ->
  updatePrefix zero n octet len cb = Ok (n', v) -> strideNode n'.
Proof.
  intros Hoct (Hp & Hc & Hb & Ho) H. pose proof H as H'.
  unfold updatePrefix in H'. apply bind_Ok in H' as (idx & Hidx & _).
  destruct (updatePrefix_spec zero n octet len cb idx Hp Hidx)
    as (n'' & E & Hp' & Ecb & Ec & Ht & _). cbv zeta in E.
  assert (n'' = n') by congruence. subst n''.
  assert (Hi : 1 <= idx <= 511).
  { apply (prefixToBaseIndex_Ok_range octet len); assumption. }
  split; [assumption |]. split; [unfold childrenOk in *; congruence |].
  split; [| congruence].
  apply baseIndices_iff. intros i. rewrite Ht. intros Hti.
  apply orb_true_iff in Hti as [Hti | Hti].
  - apply N.eqb_eq in Hti. subst i. assumption.
  - apply (baseIndices_range _ _ Hb Hti).
Qed.

Lemma insertChild_strideNode n octet child n' :
  octet <= 255 -> strideNode n -> insertChild n octet child = Ok n' -> strideNode n'.
Proof.
  intros Hoct (Hp & Hc & Hb & Ho) H.
  destruct (insertChild_spec n octet child Hc) as (n'' & E & Hc' & Epb & Ep & Ht & _).
  assert (n'' = n') by congruence. subst n''.
  split; [unfold prefixesOk in *; congruence |]. split; [assumption |].
  split; [congruence |].
  apply octetIndices_iff. intros i. rewrite Ht. intros Hti.
  apply orb_true_iff in Hti as [Hti | Hti].
  - apply N.eqb_eq in Hti. subst i. assumption.
  - apply (proj1 (octetIndices_iff _) Ho i Hti).
Qed.

Lemma deleteChild_strideNode n octet n' :
  strideNode n -> deleteChild n octet = Ok n' -> strideNode n'.
Proof.
  intros (Hp & Hc & Hb & Ho) H.
  destruct (Test (childrenBitset n) octet) eqn:Et.
  - destruct (deleteChild_present n octet Hc Et) as (n'' & E & Hc' & Epb & Ep & Ht & _).
    assert (n'' = n') by congruence. subst n''.
    split; [unfold prefixesOk in *; congruence |]. split; [assumption |].
    split; [congruence |].
    apply octetIndices_iff. intros i. rewrite Ht. intros Hti.
    apply andb_true_iff in Hti as [Hti _]. apply (proj1 (octetIndices_iff _) Ho i Hti).
  - rewrite (deleteChild_absent n octet Et) in H. injection H as <-.
    exact (conj Hp (conj Hc (conj Hb Ho))).
Qed.

Lemma stride_update h p f h' :
  Forall strideNode h ->
  (forall n n', strideNode n -> f n = Ok n' -> strideNode n') ->
  update h p f = Ok h' -> Forall strideNode h'.
Proof.
  intros Hh Hf Hu. apply update_Ok in Hu as (l & n & n' & -> & Hl & Hfn & ->).
  apply Forall_insert; [assumption |]. eapply Hf; [| eassumption].
  eapply Forall_lookup_1; eassumption.
Qed.

Lemma cloneRec_range_stride (clone : heap -> ptr -> result (heap * ptr)) :
  (forall h p h' c, Forall strideNode h -> clone h p = Ok (h', c) -> Forall strideNode h') ->
  forall cs h c i h', Forall strideNode h ->
    cloneRec_range clone h c i cs = Ok h' -> Forall strideNode h'.
Proof.
  intros Hclone. induction cs as [| child cs IH]; intros h c i h' Hh H.
  - injection H as <-. assumption.
  - cbn [cloneRec_range] in H. apply bind_Ok in H as ([h1 cc] & Hc & H).
    apply bind_Ok in H as (h2 & Hu & H).
    apply (IH h2 c (S i) h'); [| assumption].
    eapply stride_update; [eapply Hclone; eassumption | | eassumption].
    intros n n' (Hp & Hk & Hb & Ho) Hf. apply bind_Ok in Hf as (s & Hs & Hf).
    injection Hf as <-. apply store_Ok in Hs.
    split; [assumption |]. split; [unfold childrenOk in *; simpl; congruence |].
    split; assumption.
Qed.

Lemma cloneRec_stride fuel : forall h p h' c,
  Forall strideNode h -> cloneRec fuel h p = Ok (h', c) -> Forall strideNode h'.
Proof.
  induction fuel as [| fuel IH]; intros h p h' c Hh H; [discriminate |].
  cbn [cloneRec alloc] in H. apply bind_Ok in H as (n & Hn & H).
  assert (Hh1 : Forall strideNode (h ++ [newNode])).
  { apply Forall_app. split; [assumption |].
    constructor; [apply strideNode_newNode | constructor]. }
  destruct (isEmpty n).
  - injection H as <- _. assumption.
  - apply bind_Ok in H as (h2 & Hr & H). injection H as <- _.
    eapply cloneRec_range_stride; [exact IH | | eassumption].
    apply Forall_insert; [assumption |].
    destruct p as [l |]; [| discriminate]. apply deref_Some in Hn.
    pose proof (Forall_lookup_1 _ _ _ _ Hh1 Hn) as (Hp & Hc & Hb & Ho).
    exact (conj Hp (conj Hc (conj Hb Ho))).
Qed.

Lemma unionRec_prefixes_stride fuel : forall h p q oIdx h',
  Forall strideNode h -> unionRec_prefixes zero fuel h p q oIdx = Ok h' ->
  Forall strideNode h'.
Proof.
  induction fuel as [| fuel IH]; intros h p q oIdx h' Hh H; [discriminate |].
  cbn [unionRec_prefixes] in H. apply bind_Ok in H as (on & Ho & H).
  destruct (NextSet (prefixesBitset on) oIdx) as [j ok] eqn:Enext.
  destruct ok; cbn [negb] in H.
  - apply bind_Ok in H as ([oVal b] & Hg & H). apply bind_Ok in H as (h1 & Hu & H).
    assert (Hj : 1 <= j <= 511).
    { apply NextSet_found in Enext as (_ & Ht & _).
      destruct q as [l |]; [| discriminate]. apply deref_Some in Ho.
      pose proof (Forall_lookup_1 _ _ _ _ Hh Ho) as (_ & _ & Hb & _).
      apply (baseIndices_range _ _ Hb Ht). }
    apply (IH _ _ _ _ _ (stride_update _ _ _ _ Hh
             (fun n n' Hn Hf => insertIdx_strideNode n j oVal n' Hj Hn Hf) Hu) H).
  - injection H as <-. assumption.
Qed.

Lemma byte_le x : byte x <= 255.
Proof. unfold byte. pose proof (N.mod_upper_bound x 256 ltac:(lia)). lia. Qed.

Lemma unionRec_children_stride (rec : heap -> ptr -> ptr -> result heap)
    (clone : heap -> ptr -> result (heap * ptr)) :
  (forall h p q h', Forall strideNode h -> rec h p q = Ok h' -> Forall strideNode h') ->
  (forall h p h' c, Forall strideNode h -> clone h p = Ok (h', c) -> Forall strideNode h') ->
  forall fuel h p q oOctet h',
    Forall strideNode h -> unionRec_children rec clone fuel h p q oOctet = Ok h' ->
    Forall strideNode h'.
Proof.
  intros Hrec Hclone. induction fuel as [| fuel IH]; intros h p q oOctet h' Hh H;
    [discriminate |].
  cbn [unionRec_children] in H. apply bind_Ok in H as (on & Ho & H).
  destruct (NextSet (childrenBitset on) oOctet) as [j ok]. destruct ok; cbn [negb] in H.
  - apply bind_Ok in H as (oNode & HoN & H). apply bind_Ok in H as (nn & Hnn & H).
    apply bind_Ok in H as (nNode & HnN & H). apply bind_Ok in H as (h1 & Hstep & H).
    apply (IH h1 p q (j + 1) h'); [| assumption]. destruct nNode as [l |].
    + eapply Hrec; eassumption.
    + apply bind_Ok in Hstep as ([h2 c] & Hc & Hu). cbv beta iota in Hu.
      refine (stride_update _ _ _ _ (Hclone _ _ _ _ Hh Hc) _ Hu).
      intros n n' Hn Hf. eapply insertChild_strideNode; [apply byte_le | |]; eassumption.
  - injection H as <-. assumption.
Qed.

Lemma unionRec_stride fuel : forall h p q h',
  Forall strideNode h -> unionRec zero fuel h p q = Ok h' -> Forall strideNode h'.
Proof.
  induction fuel as [| fuel IH]; intros h p q h' Hh H; [discriminate |].
  cbn [unionRec] in H. apply bind_Ok in H as (h1 & H1 & H).
  eapply unionRec_children_stride; [exact IH | apply cloneRec_stride | | eassumption].
  eapply unionRec_prefixes_stride; eassumption.
Qed.

Lemma byteStep_stride h h' :
  Forall strideNode h -> byteStep zero h h' -> Forall strideNode h'.
Proof.
  intros Hh Hs. destruct Hs.
  - cbn. apply Forall_app. split; [assumption |].
    constructor; [apply strideNode_newNode | constructor].
  - apply Forall_insert; [assumption |].
    eapply insertPrefix_strideNode; [eassumption | | eassumption].
    eapply Forall_lookup_1; eassumption.
  - apply Forall_insert; [assumption |].
    eapply insertIdx_strideNode; [eassumption | | eassumption].
    eapply Forall_lookup_1; eassumption.
  - apply Forall_insert; [assumption |].
    eapply deletePrefix_strideNode; [| eassumption].
    eapply Forall_lookup_1; eassumption.
  - apply Forall_insert; [assumption |].
    eapply updatePrefix_strideNode; [eassumption | | eassumption].
    eapply Forall_lookup_1; eassumption.
  - apply Forall_insert; [assumption |].
    eapply insertChild_strideNode; [eassumption | | eassumption].
    eapply Forall_lookup_1; eassumption.
  - apply Forall_insert; [assumption |].
    eapply deleteChild_strideNode; [| eassumption].
    eapply Forall_lookup_1; eassumption.
  - eapply unionRec_stride; eassumption.
  - eapply cloneRec_stride; eassumption.
Qed.

(** X23 -- the data model is an invariant.  Every node of a store
    reached from a fresh node by the node operations, called with
    octets that are bytes and base indices in 1 .. 511 as Go's types and
    the callers ensure, has as many values as prefix bits, as many
    children as child bits, prefix bits only at 1 .. 511 and child bits
    only at 0 .. 255. *)
Theorem strideNode_invariant h l n :
  byteReachable zero h -> h !! l = Some n ->
  length (prefixes n) = Count (prefixesBitset n) /\
  length (children n) = Count (childrenBitset n) /\
  (forall i, Test (prefixesBitset n) i = true -> 1 <= i <= 511) /\
  (forall c, Test (childrenBitset n) c = true -> c <= 255).
Proof.
  intros Hr Hl.
  assert (Hh : Forall strideNode h).
  { clear Hl. induction Hr as [| h h' _ IH Hs].
    - constructor; [apply strideNode_newNode | constructor].
    - eapply byteStep_stride; eassumption. }
  pose proof (Forall_lookup_1 _ _ _ _ Hh Hl) as (Hp & Hc & Hb & Ho).
  split; [exact Hp |]. split; [exact Hc |]. split.
  - apply baseIndices_iff. assumption.
  - apply octetIndices_iff. assumption.
Qed.

End Invariant.

(** * unionRec twice *)

Section UnionTwice.

Context {V : Type} (zero : V).
Local Abbreviation heap := (list (node V)).
Implicit Types (n : node V) (h : heap).
Implicit Types (t tn to : ltree (V := V)).

(** X24 -- [unionRec] twice.  For two tries with no node in common,
    a second [unionRec n o] right after the first returns, and [n]
    reads after it as after the first, at every octet path and base
    index. *)
Theorem unionRec_idempotent fuel h tn to :
  tree h tn -> tree h to -> NoDup (addrs tn) ->
  (forall l, l ∈ addrs tn -> l ∉ addrs to) ->
  (need to <= fuel)%nat ->
  exists h1 h2,
    unionRec zero fuel h (Some (root tn)) (Some (root to)) = Ok h1 /\
    unionRec zero fuel h1 (Some (root tn)) (Some (root to)) = Ok h2 /\
    forall path idx,
      getAt zero h2 (Some (root tn)) path idx = getAt zero h1 (Some (root tn)) path idx.
Proof.
  intros Htn Hto Hnd Hdisj Hneed.
  destruct (unionRec_spec zero fuel h tn to Htn Hto Hnd Hdisj Hneed)
    as (h1 & tn1 & Hrun1 & Htn1 & Hnd1 & Hlen1 & Haddrs1 & Hframe1 & Hu1).
  assert (Hto1 : tree h1 to).
  { apply (tree_frame h h1 to Hto). intros l Hl. apply Hframe1.
    - apply (tree_addrs_lt h to Hto l Hl).
    - intros Hin. apply (Hdisj l Hin Hl). }
  assert (Hdisj1 : forall l, l ∈ addrs tn1 -> l ∉ addrs to).
  { intros l Hl Hlo. destruct (Haddrs1 l Hl) as [Hin | Hfresh].
    - apply (Hdisj l Hin Hlo).
    - pose proof (tree_addrs_lt h to Hto l Hlo). lia. }
  destruct (unionRec_spec zero fuel h1 tn1 to Htn1 Hto1 Hnd1 Hdisj1 Hneed)
    as (h2 & tn2 & Hrun2 & Htn2 & Hnd2 & Hlen2 & Haddrs2 & Hframe2 & Hu2).
  pose proof (unionT_root _ _ _ _ _ Hu1) as Hr1.
  pose proof (unionT_root _ _ _ _ _ Hu2) as Hr2.
  exists h1, h2. split; [assumption |]. split; [rewrite <- Hr1; assumption |].
  intros path idx.
  pose proof (getAt_tree zero h2 path tn2 idx Htn2) as E2. rewrite Hr2, Hr1 in E2.
  pose proof (getAt_tree zero h1 path tn1 idx Htn1) as E1. rewrite Hr1 in E1.
  rewrite E1, E2.
  destruct (getT to path idx) as [v |] eqn:Eo.
  - rewrite (unionT_get_other path _ _ _ _ _ _ _ Hu2 Eo).
    rewrite (unionT_get_other path _ _ _ _ _ _ _ Hu1 Eo). reflexivity.
  - rewrite (unionT_get_same path _ _ _ _ _ _ Hu2 Eo). reflexivity.
Qed.

End UnionTwice.

(** * Further instances *)

Lemma sampleNode_prefixesOk : prefixesOk sampleNode.
Proof. reflexivity. Qed.

Lemma sampleNode_childrenOk : childrenOk sampleNode.
Proof. reflexivity. Qed.

Lemma sampleNode_baseIndices : baseIndices (prefixesBitset sampleNode).
Proof. split; [reflexivity | vm_compute; discriminate]. Qed.

Lemma nTree_NoDup : NoDup (addrs nTree).
Proof. apply (bool_decide_unpack _). vm_compute. exact I. Qed.

Lemma sampleTrees_apart : forall l, l ∈ addrs nTree -> l ∉ addrs oTree.
Proof.
  intros l Hn Ho. simpl in Hn, Ho.
  repeat (apply elem_of_cons in Hn as [-> | Hn]);
    repeat (apply elem_of_cons in Ho as [Ho | Ho]; [discriminate |]);
    try (inversion Ho); inversion Hn.
Qed.

Lemma oTree_need : (need oTree <= 600)%nat.
Proof. apply Nat.leb_le. vm_compute. reflexivity. Qed.

Lemma emptyTable_closed start : allotClosed start (replicate 512 false).
Proof.
  intros a Ha He. rewrite replicate_table, table_entry in He by lia. discriminate.
Qed.

Lemma prefixToBaseIndex_range_witness :
  (exists b, prefixToBaseIndex 32 6 = Ok b /\
             2 ^ Z.to_N 6 <= b < 2 ^ (Z.to_N 6 + 1) /\
             1 <= b <= 511) /\
  prefixToBaseIndex 32 9 = Panic.
Proof.
  split.
  - apply (prefixToBaseIndex_range 32 6); lia.
  - apply (prefixToBaseIndex_range 32 9); lia.
Defined.

Lemma lowerUpperBound_hosts_witness :
  (exists lo hi, lowerUpperBound 72 = Ok (lo, hi) /\
     256 <= lo /\ lo <= hi /\ hi <= 511 /\
     forall x, 256 <= x <= 511 -> (lo <= x <= hi <-> In 72 (chain x))) /\
  lowerUpperBound 0 = Panic.
Proof.
  split.
  - apply (lowerUpperBound_hosts 72); lia.
  - apply (lowerUpperBound_hosts 0); lia.
Defined.

Lemma baseIndexToPrefix_prefixToBaseIndex_witness :
  exists b,
    prefixToBaseIndex 33 6 = Ok b /\
    baseIndexToPrefix b = Ok (masked 33 6, 6%Z) /\
    baseIndexToPrefixMask b (2 ^ 60) = Ok (wrapInt (2 ^ 60 * 8 + 6)) /\
    ((- 2 ^ 63 <= 2 ^ 60 * 8 + 6 < 2 ^ 63)%Z ->
       baseIndexToPrefixMask b (2 ^ 60) = Ok (2 ^ 60 * 8 + 6)%Z) /\
    prefixToBaseIndex (masked 33 6) 6 = Ok b.
Proof. apply (baseIndexToPrefix_prefixToBaseIndex 33 6 (2 ^ 60)); lia. Defined.

Lemma allotRec_subtree_witness :
  (exists t, allotment.allotRec 9 (replicate 512 false) 72 = Ok t /\
     length t = 512%nat /\
     forall j, j < 512 ->
       (entry t j = true <->
        entry (replicate 512 false) j = true \/ In 72 (chain j))) /\
  allotment.allotRec 9 (replicate 512 false) 512 = Panic /\
  allotment.allotRec 9 (replicate 512 false) 0 = OutOfFuel.
Proof.
  split; [| split].
  - apply (allotRec_subtree 9 (replicate 512 false) 72); [reflexivity | lia | lia].
  - apply (allotRec_subtree 9 (replicate 512 false) 512); [reflexivity | lia | lia].
  - apply (allotRec_subtree 9 (replicate 512 false) 0); reflexivity.
Defined.

Lemma allot_subtree_witness :
  exists t, allotment.allot (replicate 512 false) 2 = Ok t /\
    allotment.allotRec 9 (replicate 512 false) 2 = Ok t /\
    length t = 512%nat /\
    forall j, j < 512 ->
      (entry t j = true <-> entry (replicate 512 false) j = true \/ In 2 (chain j)).
Proof.
  apply (allot_subtree (replicate 512 false) 2);
    [reflexivity | lia | right; apply emptyTable_closed].
Defined.

Lemma allot_small_closure_witness :
  exists t, allotment.allot (<[3%nat := true]> (replicate 512 false)) 2 = Ok t /\
    length t = 512%nat /\
    forall j, j < 512 ->
      (entry t j = true <->
       entry (<[3%nat := true]> (replicate 512 false)) j = true \/ In 2 (chain j) \/
       exists a, In a (chain (N.shiftr j 1)) /\ 2 <= a /\
                 entry (<[3%nat := true]> (replicate 512 false)) a = true).
Proof.
  apply (allot_small_closure (<[3%nat := true]> (replicate 512 false)) 2);
    [reflexivity | lia].
Defined.

Lemma allotAll_subtrees_witness :
  exists t, allotAll (replicate 512 false) [72; 3] = Ok t /\ length t = 512%nat /\
    forall j, j < 512 ->
      (entry t j = true <-> exists i, In i [72; 3] /\ In i (chain j)).
Proof.
  apply (allotAll_subtrees [72; 3]). repeat constructor; lia.
Defined.

Lemma isEmpty_no_bits_witness :
  isEmpty leafNode = true <->
  forall i, Test (prefixesBitset leafNode) i = false /\
            Test (childrenBitset leafNode) i = false.
Proof. apply (isEmpty_no_bits leafNode). split; reflexivity. Defined.

Lemma insertPrefix_frame_witness :
  exists n',
    insertPrefix sampleNode 10 8 42%nat = Ok n' /\
    getValByIndex 0%nat n' 266 = Ok (42%nat, true) /\
    (forall j, j <> 266 -> getValByIndex 0%nat n' j = getValByIndex 0%nat sampleNode j) /\
    length (prefixes n') =
      (length (prefixes sampleNode) +
       if Test (prefixesBitset sampleNode) 266 then 0 else 1)%nat /\
    childrenBitset n' = childrenBitset sampleNode /\ children n' = children sampleNode.
Proof.
  apply (insertPrefix_frame 0%nat sampleNode 10 8 42%nat 266);
    [exact sampleNode_prefixesOk | reflexivity].
Defined.

Lemma deletePrefix_frame_witness :
  exists n',
    deletePrefix sampleNode 32 6 = Ok (n', true) /\
    getValByIndex 0%nat n' 72 = Ok (0%nat, false) /\
    (forall j, j <> 72 -> getValByIndex 0%nat n' j = getValByIndex 0%nat sampleNode j) /\
    S (length (prefixes n')) = length (prefixes sampleNode) /\
    childrenBitset n' = childrenBitset sampleNode /\ children n' = children sampleNode.
Proof.
  apply (deletePrefix_frame 0%nat sampleNode 32 6 72);
    [exact sampleNode_prefixesOk | reflexivity | reflexivity].
Defined.

Lemma updatePrefix_semantics_witness :
  exists n' old present,
    getValByIndex 0%nat sampleNode 72 = Ok (old, present) /\
    updatePrefix 0%nat sampleNode 32 6 (fun v _ => S v) = Ok (n', S old) /\
    getValByIndex 0%nat n' 72 = Ok (S old, true) /\
    (forall j, j <> 72 -> getValByIndex 0%nat n' j = getValByIndex 0%nat sampleNode j) /\
    childrenBitset n' = childrenBitset sampleNode /\ children n' = children sampleNode.
Proof.
  apply (updatePrefix_semantics 0%nat sampleNode 32 6 (fun v _ => S v) 72);
    [exact sampleNode_prefixesOk | reflexivity].
Defined.

Lemma child_insert_get_delete_witness :
  exists n1 n2,
    insertChild sampleNode 11 (Some 2%nat) = Ok n1 /\
    getChild n1 11 = Ok (Some 2%nat) /\
    (forall o, o <> 11 -> getChild n1 o = getChild sampleNode o) /\
    prefixesBitset n1 = prefixesBitset sampleNode /\ prefixes n1 = prefixes sampleNode /\
    deleteChild n1 11 = Ok n2 /\
    getChild n2 11 = Ok None /\
    (forall o, o <> 11 -> getChild n2 o = getChild sampleNode o) /\
    S (length (children n2)) = length (children n1) /\
    prefixesBitset n2 = prefixesBitset sampleNode /\ prefixes n2 = prefixes sampleNode.
Proof.
  apply (child_insert_get_delete sampleNode 11 (Some 2%nat)).
  exact sampleNode_childrenOk.
Defined.

Lemma lpmByOctet_longest_witness :
  (exists i v, lpmByOctet 0%nat sampleNode 33 = Ok (i, v, true) /\
      getValByIndex 0%nat sampleNode i = Ok (v, true) /\
      covers i (octetToBaseIndex 33) = true /\
      forall j, Test (prefixesBitset sampleNode) j = true ->
                covers j (octetToBaseIndex 33) = true -> j <> i ->
                (pfxLenOf j < pfxLenOf i)%Z)
  \/ (lpmByOctet 0%nat sampleNode 33 = Ok (0, 0%nat, false) /\
      forall j, Test (prefixesBitset sampleNode) j = true ->
                covers j (octetToBaseIndex 33) = false).
Proof.
  apply (lpmByOctet_longest 0%nat sampleNode 33);
    [exact sampleNode_prefixesOk | exact sampleNode_baseIndices | lia].
Defined.

Lemma lpmByPrefix_longest_witness :
  exists idx, prefixToBaseIndex 33 7 = Ok idx /\
  ((exists i v, lpmByPrefix 0%nat sampleNode 33 7 = Ok (i, v, true) /\
      getValByIndex 0%nat sampleNode i = Ok (v, true) /\
      contains i idx = true /\
      forall j, Test (prefixesBitset sampleNode) j = true -> contains j idx = true ->
                j <> i -> (pfxLenOf j < pfxLenOf i)%Z)
   \/ (lpmByPrefix 0%nat sampleNode 33 7 = Ok (0, 0%nat, false) /\
       forall j, Test (prefixesBitset sampleNode) j = true -> contains j idx = false)).
Proof.
  apply (lpmByPrefix_longest 0%nat sampleNode 33 7);
    [exact sampleNode_prefixesOk | exact sampleNode_baseIndices | lia | lia].
Defined.

Lemma apmByPrefix_matches_witness :
  exists l,
    apmByPrefix sampleNode 33 8 = Ok l /\
    StronglySorted N.lt l /\
    (forall i, In i l <-> Test (prefixesBitset sampleNode) i = true /\ In i (chain 289)) /\
    match last l with
    | Some i => exists v, lpmByPrefix 0%nat sampleNode 33 8 = Ok (i, v, true)
    | None => lpmByPrefix 0%nat sampleNode 33 8 = Ok (0, 0%nat, false)
    end.
Proof.
  apply (apmByPrefix_matches 0%nat sampleNode 33 8 289);
    [exact sampleNode_prefixesOk | reflexivity | reflexivity].
Defined.

Lemma allStrideIndexes_allChildAddrs_witness :
  (StronglySorted N.lt (allStrideIndexes sampleNode) /\
   (forall i, In i (allStrideIndexes sampleNode) <->
              Test (prefixesBitset sampleNode) i = true) /\
   length (allStrideIndexes sampleNode) = length (prefixes sampleNode) /\
   forall k i, allStrideIndexes sampleNode !! k = Some i ->
     exists v, prefixes sampleNode !! k = Some v /\
               getValByIndex 0%nat sampleNode i = Ok (v, true)) /\
  (StronglySorted N.lt (allChildAddrs sampleNode) /\
   (forall o, In o (allChildAddrs sampleNode) <->
              Test (childrenBitset sampleNode) o = true) /\
   length (allChildAddrs sampleNode) = length (children sampleNode) /\
   forall k o, allChildAddrs sampleNode !! k = Some o ->
     exists c, children sampleNode !! k = Some c /\ getChild sampleNode o = Ok c).
Proof.
  apply (allStrideIndexes_allChildAddrs 0%nat sampleNode).
  - split; reflexivity.
  - vm_compute. discriminate.
  - vm_compute. discriminate.
Defined.

Lemma cloneRec_deep_copy_witness :
  exists h' c,
    cloneRec 600 sampleStore (Some (root oTree)) = Ok (h', Some c) /\
    (length sampleStore <= c)%nat /\
    (forall l, (l < length sampleStore)%nat -> h' !! l = sampleStore !! l) /\
    (forall path idx,
       getAt 0%nat h' (Some c) path idx
       = getAt 0%nat sampleStore (Some (root oTree)) path idx) /\
    (forall path l, nodeAt h' (Some c) path = Ok (Some l) ->
                    (length sampleStore <= l)%nat).
Proof.
  apply (cloneRec_deep_copy 0%nat 600 sampleStore oTree);
    [exact oTree_tree | exact oTree_need].
Defined.

Lemma walkRec_visits_witness :
  exists items,
    (forall (cb : list N * N -> nat -> nat -> nat * option unit) s,
       walkRec 0%nat (list N * N) unit nat (fun p i _ => (p, i)) 600 sampleStore
         (Some (root oTree)) [192] true cb s =
       Ok (visit (list N * N) unit nat (fun p i _ => (p, i)) true cb items s)) /\
    StronglySorted
      (fun a b => walkBefore a.1.1 a.1.2 b.1.1 b.1.2 = true) items /\
    NoDup (map fst items) /\
    forall p idx v,
      In (p, idx, v) items <->
      exists rel, p = [192] ++ rel /\
                  getAt 0%nat sampleStore (Some (root oTree)) rel idx = Ok (v, true).
Proof.
  apply (walkRec_visits 0%nat (list N * N) unit nat (fun p i _ => (p, i)) 600
           sampleStore oTree [192] true);
    [exact sampleStore_strideNodes | exact oTree_tree | exact oTree_need].
Defined.

Lemma subnets_covered_routes_witness :
  exists keys,
    subnets 0%nat (list N * N) unit (fun p i _ => (p, i)) 600 sampleStore
      (Some (root oTree)) [192] 133 true =
    Ok (map (fun key => (key.1, key.2)) keys) /\
    NoDup keys /\
    forall p idx,
      In (p, idx) keys <->
      exists rel, p = [192] ++ rel /\
        (exists v, getAt 0%nat sampleStore (Some (root oTree)) rel idx = Ok (v, true)) /\
        coveredBy 133 rel idx.
Proof.
  apply (subnets_covered_routes 0%nat (list N * N) unit (fun p i _ => (p, i)) 600
           sampleStore oTree [192] 133 true);
    [exact sampleStore_strideNodes | exact oTree_tree | exact oTree_need | lia].
Defined.

Lemma overlapsRec_decides_witness :
  overlapsRec 3 sampleStore (Some 0%nat) (Some 2%nat) = Ok true <->
  (exists i j, Test (prefixesBitset nRoot) i = true /\
               Test (prefixesBitset oRoot) j = true /\
               (In i (chain j) \/ In j (chain i)))
  \/ (exists c i, Test (childrenBitset nRoot) c = true /\
                  Test (prefixesBitset oRoot) i = true /\
                  In i (chain (octetToBaseIndex c)))
  \/ (exists c i, Test (childrenBitset oRoot) c = true /\
                  Test (prefixesBitset nRoot) i = true /\
                  In i (chain (octetToBaseIndex c)))
  \/ (exists c, Test (childrenBitset nRoot) c = true /\
        Test (childrenBitset oRoot) c = true /\
        (exists nc oc, getChild nRoot c = Ok nc /\ getChild oRoot c = Ok oc /\
                       overlapsRec 2 sampleStore nc oc = Ok true) /\
        forall c', c' < c ->
          Test (childrenBitset nRoot) c' = true ->
          Test (childrenBitset oRoot) c' = true ->
          exists nc oc, getChild nRoot c' = Ok nc /\ getChild oRoot c' = Ok oc /\
                        overlapsRec 2 sampleStore nc oc = Ok false).
Proof.
  apply (overlapsRec_decides 2 sampleStore (Some 0%nat) (Some 2%nat) nRoot oRoot).
  - reflexivity.
  - reflexivity.
  - exact (Forall_lookup_1 _ _ 0%nat _ sampleStore_strideNodes eq_refl).
  - exact (Forall_lookup_1 _ _ 2%nat _ sampleStore_strideNodes eq_refl).
Defined.

Lemma insert_delete_restores_witness :
  exists n1, insertPrefix sampleNode 10 8 42%nat = Ok n1 /\
             deletePrefix n1 10 8 = Ok (sampleNode, true).
Proof.
  apply (insert_delete_restores sampleNode 10 8 42%nat 266);
    [exact sampleNode_prefixesOk | reflexivity | reflexivity].
Defined.

Lemma insertPrefix_order_witness :
  exists n12,
    (do m <- insertPrefix sampleNode 10 8 1%nat; insertPrefix m 20 8 2%nat) = Ok n12 /\
    (266 <> 276 ->
       (do m <- insertPrefix sampleNode 20 8 2%nat; insertPrefix m 10 8 1%nat) = Ok n12) /\
    (266 = 276 -> insertPrefix sampleNode 20 8 2%nat = Ok n12).
Proof.
  apply (insertPrefix_order sampleNode 10 8 1%nat 20 8 2%nat 266 276);
    [exact sampleNode_prefixesOk | reflexivity | reflexivity].
Defined.

Lemma strideNode_invariant_witness :
  length (prefixes leafNode) = Count (prefixesBitset leafNode) /\
  length (children leafNode) = Count (childrenBitset leafNode) /\
  (forall i, Test (prefixesBitset leafNode) i = true -> 1 <= i <= 511) /\
  (forall c, Test (childrenBitset leafNode) c = true -> c <= 255).
Proof.
  apply (strideNode_invariant 0%nat [leafNode] 0%nat leafNode); [| reflexivity].
  change (byteReachable 0%nat (<[0%nat := leafNode]> [newNode])).
  apply (byteReachable_step 0%nat [newNode] _ (byteReachable_fresh 0%nat)).
  apply (byteStep_insertPrefix 0%nat [newNode] 0%nat newNode 10 8 7%nat leafNode);
    [lia | reflexivity | reflexivity].
Defined.

Lemma unionRec_idempotent_witness :
  exists h1 h2,
    unionRec 0%nat 600 sampleStore (Some (root nTree)) (Some (root oTree)) = Ok h1 /\
    unionRec 0%nat 600 h1 (Some (root nTree)) (Some (root oTree)) = Ok h2 /\
    forall path idx,
      getAt 0%nat h2 (Some (root nTree)) path idx
      = getAt 0%nat h1 (Some (root nTree)) path idx.
Proof.
  apply (unionRec_idempotent 0%nat 600 sampleStore nTree oTree);
    [exact nTree_tree | exact oTree_tree | exact nTree_NoDup | exact sampleTrees_apart
     | exact oTree_need].
Defined.

(** * Filed entries

    Lists of entries in ascending order of the key are determined by
    what [look] finds in them; the entries of a compressed slice are
    what [slot] reads. *)

Section EntriesFacts.

Context {A : Type}.
Implicit Types (l : list (N * A)) (k j i : N) (v : A).

Lemma look_file l k v j :
  look j (file k v l) = if k =? j then Some v else look j l.
Proof.
  induction l as [| [k' v'] r IH]; cbn [file look]; [reflexivity |].
  destruct (k <? k') eqn:E1; [reflexivity |].
  destruct (k =? k') eqn:E2.
  - apply N.eqb_eq in E2. subst k'. cbn [look]. destruct (k =? j); reflexivity.
  - cbn [look]. rewrite IH. apply N.eqb_neq in E2.
    destruct (k' =? j) eqn:E3; [| reflexivity].
    apply N.eqb_eq in E3. subst j.
    rewrite (proj2 (N.eqb_neq k k') E2). reflexivity.
Qed.

Lemma look_unfile l k j :
  look j (unfile k l) = if k =? j then None else look j l.
Proof.
  unfold unfile. induction l as [| [k' v'] r IH]; cbn [List.filter look fst].
  - destruct (k =? j); reflexivity.
  - destruct (k' =? k) eqn:E1; cbn [negb].
    + apply N.eqb_eq in E1. subst k'. rewrite IH. destruct (k =? j); reflexivity.
    + cbn [look]. rewrite IH. apply N.eqb_neq in E1.
      destruct (k' =? j) eqn:E3; [| reflexivity].
      apply N.eqb_eq in E3. subst j.
      rewrite (proj2 (N.eqb_neq k k')) by congruence. reflexivity.
Qed.

Lemma look_None l j : ~ In j (map fst l) -> look j l = None.
Proof.
  induction l as [| [k' v'] r IH]; cbn [map look fst]; [reflexivity |].
  intros H. destruct (k' =? j) eqn:E.
  - apply N.eqb_eq in E. exfalso. apply H. left. assumption.
  - apply IH. intros Hin. apply H. right. assumption.
Qed.

Lemma look_Some_In l j v : look j l = Some v -> In (j, v) l.
Proof.
  induction l as [| [k' v'] r IH]; cbn [look]; [discriminate |].
  destruct (k' =? j) eqn:E.
  - apply N.eqb_eq in E. intros [= ->]. left. congruence.
  - intros H. right. apply IH. assumption.
Qed.

Lemma look_above l j :
  Forall (N.lt j) (map fst l) -> look j l = None.
Proof.
  intros H. apply look_None. intros Hin. rewrite Forall_forall in H.
  apply list_elem_of_In in Hin. apply H in Hin. lia.
Qed.

Lemma keysAscending_cons k v l :
  keysAscending ((k, v) :: l) <-> keysAscending l /\ Forall (N.lt k) (map fst l).
Proof.
  unfold keysAscending. cbn [map fst]. split.
  - intros H. apply StronglySorted_inv in H. exact H.
  - intros [H1 H2]. constructor; assumption.
Qed.

Lemma in_keys_file l k v x :
  In x (map fst (file k v l)) -> x = k \/ In x (map fst l).
Proof.
  induction l as [| [k' v'] r IH]; cbn [file map fst].
  - intros [<- | []]. left. reflexivity.
  - destruct (k <? k'); [| destruct (k =? k') eqn:E].
    + cbn [map fst]. intros [<- | H]; [left; reflexivity | right; assumption].
    + apply N.eqb_eq in E. subst k'. cbn [map fst]. intros [<- | H]; [left | right; right]; auto.
    + cbn [map fst]. intros [<- | H]; [right; left; reflexivity |].
      destruct (IH H) as [-> | H']; [left; reflexivity | right; right; assumption].
Qed.

Lemma file_ascending l k v : keysAscending l -> keysAscending (file k v l).
Proof.
  induction l as [| [k' v'] r IH]; cbn [file]; intros H.
  - apply keysAscending_cons. split; constructor.
  - apply keysAscending_cons in H as [Hr Hall].
    destruct (k <? k') eqn:E1; [| destruct (k =? k') eqn:E2].
    + apply N.ltb_lt in E1. apply keysAscending_cons. split.
      * apply keysAscending_cons. split; assumption.
      * cbn [map fst]. constructor; [assumption |].
        eapply Forall_impl; [exact Hall |]. cbn. intros x Hx. lia.
    + apply N.eqb_eq in E2. subst k'. apply keysAscending_cons. split; assumption.
    + apply N.ltb_ge in E1. apply N.eqb_neq in E2.
      apply keysAscending_cons. split; [apply IH; assumption |].
      apply Forall_forall. intros x Hx. apply list_elem_of_In in Hx.
      apply in_keys_file in Hx as [-> | Hx]; [lia |].
      rewrite Forall_forall in Hall. apply Hall, list_elem_of_In. assumption.
Qed.

Lemma unfile_ascending l k : keysAscending l -> keysAscending (unfile k l).
Proof.
  unfold unfile. induction l as [| [k' v'] r IH]; cbn [List.filter fst]; intros H;
    [assumption |].
  apply keysAscending_cons in H as [Hr Hall].
  destruct (negb (k' =? k)); [| apply IH; assumption].
  apply keysAscending_cons. split; [apply IH; assumption |].
  apply Forall_forall. intros x Hx. apply list_elem_of_In, in_map_iff in Hx as (e & <- & He).
  apply filter_In in He as [He _].
  rewrite Forall_forall in Hall. apply Hall, list_elem_of_In, in_map. assumption.
Qed.

Lemma look_head k v l : look k ((k, v) :: l) = Some v.
Proof. cbn [look]. rewrite N.eqb_refl. reflexivity. Qed.

Lemma look_tail k v l j : k <> j -> look j ((k, v) :: l) = look j l.
Proof. intros H. cbn [look]. rewrite (proj2 (N.eqb_neq k j) H). reflexivity. Qed.

(** Two ascending lists with the same entries are the same list. *)
Lemma entries_ext l1 : forall l2,
  keysAscending l1 -> keysAscending l2 ->
  (forall j, look j l1 = look j l2) -> l1 = l2.
Proof.
  induction l1 as [| [k1 v1] r1 IH]; intros [| [k2 v2] r2] H1 H2 Hl.
  - reflexivity.
  - specialize (Hl k2). rewrite look_head in Hl. discriminate.
  - specialize (Hl k1). rewrite look_head in Hl. discriminate.
  - apply keysAscending_cons in H1 as [Hr1 Ha1].
    apply keysAscending_cons in H2 as [Hr2 Ha2].
    assert (Hk : k1 = k2).
    { destruct (N.lt_total k1 k2) as [Hlt | [Heq | Hgt]]; [| assumption |].
      - pose proof (Hl k1) as H. rewrite look_head in H.
        rewrite look_tail in H by lia. rewrite look_above in H; [discriminate |].
        eapply Forall_impl; [exact Ha2 |]. cbn. intros x Hx. lia.
      - pose proof (Hl k2) as H. rewrite look_head in H.
        rewrite look_tail in H by lia. rewrite look_above in H; [discriminate |].
        eapply Forall_impl; [exact Ha1 |]. cbn. intros x Hx. lia. }
    subst k2. pose proof (Hl k1) as Hv. rewrite !look_head in Hv. injection Hv as <-.
    f_equal. apply IH; [assumption | assumption |]. intros j.
    destruct (N.eq_dec k1 j) as [<- | Hne].
    + rewrite !look_above by assumption. reflexivity.
    + specialize (Hl j). rewrite !look_tail in Hl by assumption. exact Hl.
Qed.

Lemma nextFiled_least l i j v :
  keysAscending l -> look j l = Some v -> i <= j ->
  (forall k, i <= k < j -> look k l = None) ->
  nextFiled i l = Some (j, v).
Proof.
  unfold nextFiled. induction l as [| [k' v'] r IH]; intros Ha Hj Hij Hlow;
    [discriminate |].
  apply keysAscending_cons in Ha as [Hr Hall]. cbn [List.find fst].
  destruct (i <=? k') eqn:E.
  - apply N.leb_le in E.
    destruct (N.lt_total k' j) as [Hlt | [Heq | Hgt]].
    + specialize (Hlow k' ltac:(lia)). rewrite look_head in Hlow. discriminate.
    + subst k'. rewrite look_head in Hj. congruence.
    + rewrite look_tail in Hj by lia. rewrite look_above in Hj; [discriminate |].
      eapply Forall_impl; [exact Hall |]. cbn. intros x Hx. lia.
  - apply N.leb_gt in E. apply IH; [assumption | | assumption |].
    + rewrite look_tail in Hj by lia. assumption.
    + intros k Hk. specialize (Hlow k Hk). rewrite look_tail in Hlow by lia. assumption.
Qed.

Lemma nextFiled_none l i :
  (forall k, i <= k -> look k l = None) -> nextFiled i l = None.
Proof.
  unfold nextFiled. induction l as [| [k' v'] r IH]; intros H; [reflexivity |].
  cbn [List.find fst]. destruct (i <=? k') eqn:E.
  - apply N.leb_le in E. specialize (H k' E). rewrite look_head in H. discriminate.
  - apply N.leb_gt in E. apply IH. intros k Hk. specialize (H k Hk).
    rewrite look_tail in H by lia. assumption.
Qed.

Lemma look_zip (os : list N) : forall (s : list A) (pos : nat) j,
  List.NoDup os -> os !! pos = Some j -> look j (zip os s) = s !! pos.
Proof.
  induction os as [| o os IH]; intros s pos j Hnd Hk; [discriminate |].
  apply List.NoDup_cons_iff in Hnd as [Ho Hnd].
  destruct s as [| x s]; [reflexivity |]. cbn [zip zip_with].
  destruct pos as [| pos].
  - injection Hk as ->. apply look_head.
  - cbn in Hk. change ((x :: s) !! S pos) with (s !! pos).
    rewrite look_tail; [apply IH; assumption |].
    intros ->. apply Ho. apply list_elem_of_In. eapply list_elem_of_lookup_2, Hk.
Qed.

Lemma look_zip_None (os : list N) (s : list A) j :
  ~ In j os -> look j (zip os s) = None.
Proof.
  intros H. apply look_None. intros Hin. apply H.
  apply in_map_iff in Hin as ([o x] & <- & Hin). cbn [fst].
  apply list_elem_of_In in Hin. apply elem_of_zip_l in Hin.
  apply list_elem_of_In. assumption.
Qed.

Lemma look_zip_elems b (s : list A) j :
  look j (zip (elems b) s) = slot b s j.
Proof.
  unfold slot. destruct (Test b j) eqn:Ht.
  - apply look_zip; [apply NoDup_members | apply elems_Rank; assumption].
  - apply look_zip_None. rewrite in_elems. congruence.
Qed.

Lemma zip_ascending (os : list N) : forall (s : list A),
  StronglySorted N.lt os -> keysAscending (zip os s).
Proof.
  induction os as [| o os IH]; intros s H; [constructor |].
  destruct s as [| x s]; [constructor |].
  apply StronglySorted_inv in H as [Hs Hall]. cbn [zip zip_with].
  apply keysAscending_cons. split; [apply IH; assumption |].
  apply Forall_forall. intros y Hy.
  apply list_elem_of_In, in_map_iff in Hy as ([o' x'] & <- & Hin). cbn [fst].
  apply list_elem_of_In in Hin. apply elem_of_zip_l in Hin.
  rewrite Forall_forall in Hall. apply Hall. assumption.
Qed.

Lemma zip_elems_ascending b (s : list A) : keysAscending (zip (elems b) s).
Proof. apply zip_ascending, elems_ascending. Qed.

Lemma length_zip_elems b (s : list A) :
  length s = Count b -> length (zip (elems b) s) = length s.
Proof. intros H. rewrite length_zip_with. unfold Count in H. lia. Qed.

(** The first entry from [i] on is at the next set bit. *)
Lemma nextFiled_NextSet b (s : list A) i :
  length s = Count b ->
  nextFiled i (zip (elems b) s) =
  (let '(j, ok) := NextSet b i in
   if ok then option_map (pair j) (slot b s j) else None).
Proof.
  intros Hlen. destruct (NextSet b i) as [j ok] eqn:E. destruct ok.
  - apply NextSet_found in E as (Hij & Ht & Hlow).
    destruct (slot_is_Some b s j Hlen Ht) as [v Hv]. rewrite Hv. cbn [option_map].
    apply nextFiled_least; [apply zip_elems_ascending | | assumption |].
    + rewrite look_zip_elems. assumption.
    + intros k Hk. rewrite look_zip_elems. unfold slot. rewrite (Hlow k Hk). reflexivity.
  - apply NextSet_none in E as [_ Hnone]. apply nextFiled_none.
    intros k Hk. rewrite look_zip_elems. unfold slot. rewrite (Hnone k Hk). reflexivity.
Qed.

End EntriesFacts.

(** * The entries of a node under the node operations

    Every operation of node.go leaves in the compressed node what the
    operation on the entries files. *)

Section NodeFiled.

Context {V : Type} (zero : V).
Implicit Types (n : node V) (t : filedNode V).

Lemma filedOf_eq n R K :
  keysAscending R -> keysAscending K ->
  (forall j, slot (prefixesBitset n) (prefixes n) j = look j R) ->
  (forall j, slot (childrenBitset n) (children n) j = look j K) ->
  filedOf n = mkFiled R K.
Proof.
  intros HR HK Hr Hk. unfold filedOf. f_equal.
  - apply entries_ext; [apply zip_elems_ascending | assumption |].
    intros j. rewrite look_zip_elems. apply Hr.
  - apply entries_ext; [apply zip_elems_ascending | assumption |].
    intros j. rewrite look_zip_elems. apply Hk.
Qed.

Lemma filedOf_newNode : filedOf (newNode (V := V)) = filed.newNode.
Proof. reflexivity. Qed.

Lemma sim_isEmpty n : popcountOk n -> filed.isEmpty (filedOf n) = isEmpty n.
Proof.
  intros [Hp Hc]. unfold filed.isEmpty, isEmpty, filedOf. cbn [filedRoutes filedKids].
  rewrite !length_zip_elems by assumption. reflexivity.
Qed.

Lemma sim_getValByIndex n j :
  prefixesOk n ->
  getValByIndex zero n j = Ok (filed.getValByIndex zero (filedOf n) j).
Proof.
  intros Hp. rewrite getValByIndex_slot by assumption.
  unfold filed.getValByIndex, filedOf. cbn [filedRoutes]. rewrite look_zip_elems.
  destruct (slot _ _ j); reflexivity.
Qed.

Lemma sim_getChild n c :
  childrenOk n -> getChild n c = Ok (filed.getChild (filedOf n) c).
Proof.
  intros Hc. rewrite getChild_slot by assumption.
  unfold filed.getChild, filedOf. cbn [filedKids]. rewrite look_zip_elems.
  destruct (slot _ _ c); reflexivity.
Qed.

Lemma sim_insertIdx n idx v :
  popcountOk n ->
  rmap filedOf (insertIdx n idx v) = Ok (filed.insertIdx (filedOf n) idx v).
Proof.
  intros [Hp Hc]. destruct (insertIdx_spec n idx v Hp) as (n' & E & Hp' & Eb & Ec & _ & Hs).
  rewrite E. cbn [rmap]. f_equal. unfold filed.insertIdx.
  apply filedOf_eq; cbn [filedOf filedRoutes filedKids].
  - apply file_ascending, zip_elems_ascending.
  - apply zip_elems_ascending.
  - intros j. rewrite Hs, look_file, look_zip_elems. reflexivity.
  - intros j. rewrite Eb, Ec, look_zip_elems. reflexivity.
Qed.

Lemma sim_insertPrefix n octet prefixLen v :
  popcountOk n ->
  rmap filedOf (insertPrefix n octet prefixLen v) =
  filed.insertPrefix (filedOf n) octet prefixLen v.
Proof.
  intros Hn. unfold insertPrefix, filed.insertPrefix.
  destruct (prefixToBaseIndex octet prefixLen) as [idx | |]; cbn [bind]; try reflexivity.
  apply sim_insertIdx. assumption.
Qed.

Lemma sim_deletePrefix n octet prefixLen :
  popcountOk n ->
  rmap (fun r : node V * bool => (filedOf r.1, r.2)) (deletePrefix n octet prefixLen) =
  filed.deletePrefix (filedOf n) octet prefixLen.
Proof.
  intros [Hp Hc]. unfold filed.deletePrefix.
  destruct (prefixToBaseIndex octet prefixLen) as [idx | |] eqn:Hb;
    try (unfold deletePrefix; rewrite Hb; reflexivity).
  cbn [bind]. cbn [filedOf filedRoutes filedKids]. rewrite look_zip_elems.
  destruct (Test (prefixesBitset n) idx) eqn:Ht.
  - destruct (deletePrefix_present n octet prefixLen idx Hp Hb Ht)
      as (n' & E & Hp' & Eb & Ec & _ & Hs).
    rewrite E. cbn [rmap fst snd].
    destruct (slot_is_Some _ _ _ Hp Ht) as [v0 Hv0]. rewrite Hv0.
    f_equal. f_equal. apply filedOf_eq.
    + apply unfile_ascending, zip_elems_ascending.
    + apply zip_elems_ascending.
    + intros j. rewrite Hs, look_unfile, look_zip_elems. reflexivity.
    + intros j. rewrite Eb, Ec, look_zip_elems. reflexivity.
  - rewrite (deletePrefix_absent n octet prefixLen idx Hb Ht). cbn [rmap fst snd].
    unfold slot. rewrite Ht. reflexivity.
Qed.

Lemma sim_updatePrefix n octet prefixLen cb :
  popcountOk n ->
  rmap (fun r : node V * V => (filedOf r.1, r.2)) (updatePrefix zero n octet prefixLen cb) =
  filed.updatePrefix zero (filedOf n) octet prefixLen cb.
Proof.
  intros [Hp Hc]. unfold filed.updatePrefix.
  destruct (prefixToBaseIndex octet prefixLen) as [idx | |] eqn:Hb;
    try (unfold updatePrefix; rewrite Hb; reflexivity).
  cbn [bind].
  destruct (updatePrefix_spec zero n octet prefixLen cb idx Hp Hb)
    as (n' & E & Hp' & Eb & Ec & _ & Hs).
  cbv zeta in E, Hs. rewrite E. cbn [rmap fst snd].
  unfold filed.getValByIndex. cbn [filedOf filedRoutes]. rewrite look_zip_elems.
  assert (Hv : (let '(val, ok) :=
                  match slot (prefixesBitset n) (prefixes n) idx with
                  | Some val => (val, true)
                  | None => (zero, false)
                  end in
                Ok (filed.insertIdx (filedOf n) idx (cb val ok), cb val ok)) =
               Ok (filed.insertIdx (filedOf n) idx
                     (cb (default zero (slot (prefixesBitset n) (prefixes n) idx))
                         (Test (prefixesBitset n) idx)),
                   cb (default zero (slot (prefixesBitset n) (prefixes n) idx))
                      (Test (prefixesBitset n) idx))).
  { destruct (Test (prefixesBitset n) idx) eqn:Ht.
    - destruct (slot_is_Some _ _ _ Hp Ht) as [v0 Hv0]. rewrite Hv0. reflexivity.
    - unfold slot. rewrite Ht. reflexivity. }
  cbn [filedOf] in Hv. rewrite Hv. f_equal. f_equal. unfold filed.insertIdx.
  apply filedOf_eq; cbn [filedOf filedRoutes filedKids].
  - apply file_ascending, zip_elems_ascending.
  - apply zip_elems_ascending.
  - intros j. rewrite Hs, look_file, look_zip_elems. reflexivity.
  - intros j. rewrite Eb, Ec, look_zip_elems. reflexivity.
Qed.

Lemma sim_insertChild n octet child :
  popcountOk n ->
  rmap filedOf (insertChild n octet child) = Ok (filed.insertChild (filedOf n) octet child).
Proof.
  intros [Hp Hc].
  destruct (insertChild_spec n octet child Hc) as (n' & E & Hc' & Eb & Ep & _ & Hs).
  rewrite E. cbn [rmap]. f_equal. unfold filed.insertChild.
  apply filedOf_eq; cbn [filedOf filedRoutes filedKids].
  - apply zip_elems_ascending.
  - apply file_ascending, zip_elems_ascending.
  - intros j. rewrite Eb, Ep, look_zip_elems. reflexivity.
  - intros j. rewrite Hs, look_file, look_zip_elems. reflexivity.
Qed.

Lemma sim_deleteChild n octet :
  popcountOk n ->
  rmap filedOf (deleteChild n octet) = Ok (filed.deleteChild (filedOf n) octet).
Proof.
  intros [Hp Hc]. unfold filed.deleteChild.
  destruct (Test (childrenBitset n) octet) eqn:Ht.
  - destruct (deleteChild_present n octet Hc Ht) as (n' & E & Hc' & Eb & Ep & _ & Hs).
    rewrite E. cbn [rmap]. f_equal.
    apply filedOf_eq; cbn [filedOf filedRoutes filedKids].
    + apply zip_elems_ascending.
    + apply unfile_ascending, zip_elems_ascending.
    + intros j. rewrite Eb, Ep, look_zip_elems. reflexivity.
    + intros j. rewrite Hs, look_unfile, look_zip_elems. reflexivity.
  - rewrite (deleteChild_absent n octet Ht). cbn [rmap]. f_equal.
    apply filedOf_eq; cbn [filedOf filedRoutes filedKids].
    + apply zip_elems_ascending.
    + apply unfile_ascending, zip_elems_ascending.
    + intros j. rewrite look_zip_elems. reflexivity.
    + intros j. rewrite look_unfile, look_zip_elems.
      destruct (octet =? j) eqn:E; [| reflexivity].
      apply N.eqb_eq in E. subst j. unfold slot. rewrite Ht. reflexivity.
Qed.

(** [c.children[i] = cc] files [cc] under the [i]-th set octet. *)
Lemma sim_setChildAt n (i : nat) cc :
  popcountOk n ->
  rmap filedOf (do s <- slices.store (children n) (Z.of_nat i) cc;
                Ok (set_children n s)) =
  filed.setChildAt (filedOf n) i cc.
Proof.
  intros [Hp Hc]. unfold filed.setChildAt, slices.store.
  cbn [filedOf filedKids].
  destruct (Z.of_nat i <? 0)%Z eqn:E0; [apply Z.ltb_lt in E0; lia |]. cbn [orb].
  destruct (Z.of_nat (length (children n)) <=? Z.of_nat i)%Z eqn:E1.
  - apply Z.leb_le in E1. cbn [bind rmap].
    rewrite (proj2 (lookup_ge_None _ i)); [reflexivity |].
    rewrite length_zip_elems by assumption. lia.
  - apply Z.leb_gt in E1. cbn [bind rmap]. rewrite Nat2Z.id.
    assert (Hi : (i < length (children n))%nat) by lia.
    destruct (lookup_lt_is_Some_2 (elems (childrenBitset n)) i) as [o Ho].
    { unfold childrenOk, Count in Hc. lia. }
    destruct (lookup_lt_is_Some_2 (children n) i Hi) as [c0 Hc0].
    assert (Hz : zip (elems (childrenBitset n)) (children n) !! i = Some (o, c0)).
    { apply lookup_zip_with_Some. exists o, c0. auto. }
    rewrite Hz. f_equal. unfold filed.insertChild.
    apply elems_lookup in Ho as [Ht Hr].
    apply filedOf_eq; cbn [set_children prefixesBitset childrenBitset prefixes children
                             filedOf filedRoutes filedKids].
    + apply zip_elems_ascending.
    + apply file_ascending, zip_elems_ascending.
    + intros j. rewrite look_zip_elems. reflexivity.
    + intros j. rewrite look_file, look_zip_elems.
      replace i with (Rank (childrenBitset n) o - 1)%nat by lia.
      apply slot_store; assumption.
Qed.

Lemma setChildAt_popcountOk n (i : nat) cc n' :
  popcountOk n ->
  (do s <- slices.store (children n) (Z.of_nat i) cc; Ok (set_children n s)) = Ok n' ->
  popcountOk n'.
Proof.
  intros [Hp Hk] Hf. apply bind_Ok in Hf as (s & Hs & Hf). injection Hf as <-.
  apply store_Ok in Hs. split; [assumption |]. unfold childrenOk in *. simpl. congruence.
Qed.

End NodeFiled.

(** * The entries of a store under cloneRec and unionRec

    Run on the entries of a store, the operations on entries return the
    entries of the store that the operations of node.go return: the
    same outcome, and for a clone the same address. *)

Section StoreFiled.

Context {V : Type} (zero : V).
Local Abbreviation heap := (list (node V)).
Implicit Types (n : node V) (h : heap) (p q : ptr).

Local Abbreviation filedH := (fmap (M := list) (filedOf (V := V))).
Local Abbreviation filedHP :=
  (fun r : heap * ptr => (filedOf <$> r.1, r.2)).

Lemma sim_bind {A B A' B'} (fa : A -> A') (fb : B -> B') (r : result A)
    (k : A -> result B) (k' : A' -> result B') :
  (forall a, r = Ok a -> k' (fa a) = rmap fb (k a)) ->
  bind (rmap fa r) k' = rmap fb (bind r k).
Proof. intros H. destruct r as [a | |]; cbn [rmap bind]; [apply H |..]; reflexivity. Qed.

Lemma sim_deref h p : filed.deref (filedOf <$> h) p = rmap filedOf (deref h p).
Proof.
  destruct p as [l |]; [| reflexivity]. cbn [filed.deref deref].
  rewrite list_lookup_fmap. destruct (h !! l); reflexivity.
Qed.

Lemma deref_heapOk h p n : heapOk h -> deref h p = Ok n -> popcountOk n.
Proof.
  intros Hh H. destruct p as [l |]; [| discriminate]. apply deref_Some in H.
  eapply heapOk_lookup; eassumption.
Qed.

Lemma sim_update h p (f : node V -> result (node V))
    (F : filedNode V -> result (filedNode V)) :
  heapOk h ->
  (forall n, popcountOk n -> F (filedOf n) = rmap filedOf (f n)) ->
  filed.update (filedOf <$> h) p F = rmap filedH (update h p f).
Proof.
  intros Hh Hf. destruct p as [l |]; [| reflexivity]. unfold filed.update, update.
  rewrite sim_deref. apply sim_bind. intros n Hn.
  rewrite Hf by (eapply deref_heapOk; eassumption).
  destruct (f n) as [n' | |]; cbn [rmap bind]; try reflexivity.
  rewrite list_fmap_insert. reflexivity.
Qed.

Lemma heapOk_alloc h : heapOk h -> heapOk (h ++ [newNode]).
Proof.
  intros Hh. apply Forall_app. split; [assumption |].
  constructor; [apply popcountOk_newNode | constructor].
Qed.

Lemma sim_cloneRec_range (clone : heap -> ptr -> result (heap * ptr))
    (fclone : list (filedNode V) -> ptr -> result (list (filedNode V) * ptr)) :
  (forall h p, heapOk h -> fclone (filedOf <$> h) p = rmap filedHP (clone h p)) ->
  (forall h p h' c, heapOk h -> clone h p = Ok (h', c) -> heapOk h') ->
  forall cs h c i, heapOk h ->
    filed.cloneRec_range fclone (filedOf <$> h) c i cs =
    rmap filedH (cloneRec_range clone h c i cs).
Proof.
  intros Hsim Hok. induction cs as [| child cs IH]; intros h c i Hh; [reflexivity |].
  cbn [filed.cloneRec_range cloneRec_range]. rewrite Hsim by assumption.
  apply sim_bind. intros [h1 cc] E1. cbn [fst snd].
  assert (Hh1 : heapOk h1) by (eapply Hok; eassumption).
  rewrite (sim_update h1 (Some c)
             (fun cn => do s <- slices.store (children cn) (Z.of_nat i) cc;
                        Ok (set_children cn s))) by
    (try assumption; intros n Hn; symmetry; apply sim_setChildAt; assumption).
  apply sim_bind. intros h2 E2. apply IH.
  eapply heapOk_update; [exact Hh1 | | exact E2].
  intros n n' Hn Hf. cbv beta in Hf. eapply setChildAt_popcountOk; eassumption.
Qed.

Lemma sim_cloneRec fuel : forall h p, heapOk h ->
  filed.cloneRec fuel (filedOf <$> h) p = rmap filedHP (cloneRec fuel h p).
Proof.
  induction fuel as [| fuel IH]; intros h p Hh; [reflexivity |].
  cbn [filed.cloneRec cloneRec alloc].
  rewrite length_fmap.
  replace ((filedOf <$> h) ++ [filed.newNode]) with (filedOf <$> (h ++ [newNode]))
    by (rewrite fmap_app; reflexivity).
  pose proof (heapOk_alloc h Hh) as Hh1.
  rewrite sim_deref. apply sim_bind. intros nd End.
  pose proof (deref_heapOk _ _ _ Hh1 End) as Hnd.
  rewrite sim_isEmpty by assumption. destruct (isEmpty nd); [reflexivity |].
  assert (Ecn : mkNode (Clone (prefixesBitset nd)) (Clone (childrenBitset nd))
                  (prefixes nd) (children nd) = nd) by (destruct nd; reflexivity).
  rewrite Ecn. rewrite <- list_fmap_insert.
  assert (Ekids : map snd (filedKids (filedOf nd)) = children nd).
  { cbn [filedOf filedKids]. apply snd_zip. destruct Hnd as [_ Hc].
    unfold childrenOk, Count in Hc. lia. }
  rewrite Ekids.
  rewrite (sim_cloneRec_range (cloneRec fuel) (filed.cloneRec fuel) IH
             (cloneRec_heapOk fuel)) by (apply heapOk_insert; assumption).
  apply sim_bind. intros h3 E3. reflexivity.
Qed.

Lemma sim_unionRec_prefixes fuel : forall h p q oIdx, heapOk h ->
  filed.unionRec_prefixes fuel (filedOf <$> h) p q oIdx =
  rmap filedH (unionRec_prefixes zero fuel h p q oIdx).
Proof.
  induction fuel as [| fuel IH]; intros h p q oIdx Hh; [reflexivity |].
  cbn [filed.unionRec_prefixes unionRec_prefixes].
  rewrite sim_deref. apply sim_bind. intros on Eon.
  pose proof (deref_heapOk _ _ _ Hh Eon) as [Hp Hc].
  cbn [filedOf filedRoutes]. rewrite nextFiled_NextSet by assumption.
  destruct (NextSet (prefixesBitset on) oIdx) as [j ok] eqn:En.
  destruct ok; cbn [negb]; [| reflexivity].
  apply NextSet_found in En as (_ & Ht & _).
  destruct (slot_is_Some _ _ _ Hp Ht) as [v Hv]. rewrite Hv. cbn [option_map].
  rewrite getValByIndex_slot by assumption. rewrite Hv. cbn [bind].
  rewrite (sim_update h p (fun nn => insertIdx nn j v)) by
    (try assumption; intros n Hn; symmetry; apply sim_insertIdx; assumption).
  apply sim_bind. intros h1 E1. apply IH.
  eapply heapOk_update; [exact Hh | | exact E1].
  intros n n' Hn Hf. cbv beta in Hf. eapply insertIdx_popcountOk; eassumption.
Qed.

Lemma sim_unionRec_children (rec : heap -> ptr -> ptr -> result heap)
    (clone : heap -> ptr -> result (heap * ptr))
    (frec : list (filedNode V) -> ptr -> ptr -> result (list (filedNode V)))
    (fclone : list (filedNode V) -> ptr -> result (list (filedNode V) * ptr)) :
  (forall h p q, heapOk h -> frec (filedOf <$> h) p q = rmap filedH (rec h p q)) ->
  (forall h p q h', heapOk h -> rec h p q = Ok h' -> heapOk h') ->
  (forall h p, heapOk h -> fclone (filedOf <$> h) p = rmap filedHP (clone h p)) ->
  (forall h p h' c, heapOk h -> clone h p = Ok (h', c) -> heapOk h') ->
  forall fuel h p q oOctet, heapOk h ->
    filed.unionRec_children frec fclone fuel (filedOf <$> h) p q oOctet =
    rmap filedH (unionRec_children rec clone fuel h p q oOctet).
Proof.
  intros Hrec Hrok Hclone Hcok.
  induction fuel as [| fuel IH]; intros h p q oOctet Hh; [reflexivity |].
  cbn [filed.unionRec_children unionRec_children].
  rewrite sim_deref. apply sim_bind. intros on Eon.
  pose proof (deref_heapOk _ _ _ Hh Eon) as [Hp Hc].
  cbn [filedOf filedKids]. rewrite nextFiled_NextSet by assumption.
  destruct (NextSet (childrenBitset on) oOctet) as [j ok] eqn:En.
  destruct ok; cbn [negb]; [| reflexivity].
  apply NextSet_found in En as (_ & Ht & _).
  destruct (slot_is_Some _ _ _ Hc Ht) as [c0 Hc0]. rewrite Hc0. cbn [option_map].
  rewrite (sim_getChild on (byte j)) by assumption. cbn [bind].
  rewrite sim_deref.
  change (zip (elems (prefixesBitset on)) (prefixes on)) with (filedRoutes (filedOf on)).
  change (zip (elems (childrenBitset on)) (children on)) with (filedKids (filedOf on)).
  change (mkFiled (filedRoutes (filedOf on)) (filedKids (filedOf on))) with (filedOf on).
  apply sim_bind. intros nn Enn.
  pose proof (deref_heapOk _ _ _ Hh Enn) as [Hnp Hnc].
  rewrite (sim_getChild nn (byte j)) by assumption. cbn [bind].
  destruct (filed.getChild (filedOf nn) (byte j)) as [l |].
  - rewrite Hrec by assumption. apply sim_bind. intros h1 E1. apply IH.
    eapply Hrok; eassumption.
  - assert (Hstep :
      (do gc <- fclone (filedOf <$> h) (filed.getChild (filedOf on) (byte j));
       let '(g, c) := gc in
       filed.update g p (fun nt => Ok (filed.insertChild nt (byte j) c))) =
      rmap filedH
        (do hc <- clone h (filed.getChild (filedOf on) (byte j));
         let '(h, c) := hc in
         update h p (fun nn => insertChild nn (byte j) c))).
    { rewrite Hclone by assumption. apply sim_bind. intros [h1 c] E1. cbn [fst snd].
      apply sim_update; [eapply Hcok; eassumption |].
      intros n Hn. symmetry. apply sim_insertChild. assumption. }
    rewrite Hstep. apply sim_bind. intros h2 E2. apply IH.
    apply bind_Ok in E2 as ([h1 c] & E1 & E2).
    eapply heapOk_update; [eapply Hcok; eassumption | | exact E2].
    intros n n' Hn Hf. cbv beta in Hf. eapply insertChild_popcountOk; eassumption.
Qed.

Lemma sim_unionRec fuel : forall h p q, heapOk h ->
  filed.unionRec fuel (filedOf <$> h) p q = rmap filedH (unionRec zero fuel h p q).
Proof.
  induction fuel as [| depth IH]; intros h p q Hh; [reflexivity |].
  cbn [filed.unionRec unionRec].
  rewrite sim_unionRec_prefixes by assumption.
  apply sim_bind. intros h1 E1.
  apply (sim_unionRec_children (unionRec zero depth) (cloneRec depth));
    [exact IH | apply unionRec_heapOk | apply sim_cloneRec | apply cloneRec_heapOk |].
  eapply unionRec_prefixes_heapOk; eassumption.
Qed.

End StoreFiled.

(** * The popcount correspondence of a run *)

Section Runs.

Context {V : Type} (zero : V).
Local Abbreviation heap := (list (node V)).
Implicit Types (n : node V) (h : heap) (g : list (filedNode V)).

Lemma Ok_inj {A} (a b : A) : Ok a = Ok b -> a = b.
Proof. congruence. Qed.

Lemma filedStep_step h g h' g' : filedStep zero h g h' g' -> step zero h h'.
Proof.
  intros H. destruct H.
  - apply step_newNode.
  - eapply step_insertPrefix; eassumption.
  - eapply step_insertIdx; eassumption.
  - eapply step_deletePrefix; eassumption.
  - eapply step_updatePrefix; eassumption.
  - eapply step_insertChild; eassumption.
  - eapply step_deleteChild; eassumption.
  - eapply step_unionRec; eassumption.
  - eapply step_cloneRec; eassumption.
Qed.

Lemma filedOf_lookup h l n t :
  h !! l = Some n -> (filedOf <$> h) !! l = Some t -> t = filedOf n.
Proof. intros Hl Ht. rewrite list_lookup_fmap, Hl in Ht. cbn in Ht. congruence. Qed.

Lemma filedStep_filedOf h g h' g' :
  heapOk h -> g = filedOf <$> h -> filedStep zero h g h' g' -> g' = filedOf <$> h'.
Proof.
  intros Hh -> H.
  inversion H as
    [ | l n t octet prefixLen val n' t' Hl Hg Hop Hf
      | l n t baseIdx val n' Hl Hg Hop
      | l n t octet prefixLen n' t' wasPresent Hl Hg Hop Hf
      | l n t octet prefixLen cb n' t' val Hl Hg Hop Hf
      | l n t octet child n' Hl Hg Hop
      | l n t octet n' Hl Hg Hop
      | fuel p q h1 g1 Hop Hf
      | fuel p h1 g1 c Hop Hf ]; subst.
  - cbn [alloc fst]. rewrite fmap_app. reflexivity.
  - pose proof (filedOf_lookup _ _ _ _ Hl Hg) as ->.
    pose proof (sim_insertPrefix n octet prefixLen val (heapOk_lookup _ _ _ Hh Hl)) as E.
    rewrite Hop, Hf in E. cbn [rmap fst snd] in E.
    assert (E' : t' = filedOf n') by congruence. rewrite E', list_fmap_insert. reflexivity.
  - pose proof (filedOf_lookup _ _ _ _ Hl Hg) as ->.
    pose proof (sim_insertIdx n baseIdx val (heapOk_lookup _ _ _ Hh Hl)) as E.
    rewrite Hop in E. cbn [rmap] in E.
    apply Ok_inj in E. rewrite <- E, list_fmap_insert. reflexivity.
  - pose proof (filedOf_lookup _ _ _ _ Hl Hg) as ->.
    pose proof (sim_deletePrefix n octet prefixLen (heapOk_lookup _ _ _ Hh Hl)) as E.
    rewrite Hop, Hf in E. cbn [rmap fst snd] in E.
    assert (E' : t' = filedOf n') by congruence. rewrite E', list_fmap_insert. reflexivity.
  - pose proof (filedOf_lookup _ _ _ _ Hl Hg) as ->.
    pose proof (sim_updatePrefix zero n octet prefixLen cb (heapOk_lookup _ _ _ Hh Hl)) as E.
    rewrite Hop, Hf in E. cbn [rmap fst snd] in E.
    assert (E' : t' = filedOf n') by congruence. rewrite E', list_fmap_insert. reflexivity.
  - pose proof (filedOf_lookup _ _ _ _ Hl Hg) as ->.
    pose proof (sim_insertChild n octet child (heapOk_lookup _ _ _ Hh Hl)) as E.
    rewrite Hop in E. cbn [rmap] in E.
    apply Ok_inj in E. rewrite <- E, list_fmap_insert. reflexivity.
  - pose proof (filedOf_lookup _ _ _ _ Hl Hg) as ->.
    pose proof (sim_deleteChild n octet (heapOk_lookup _ _ _ Hh Hl)) as E.
    rewrite Hop in E. cbn [rmap] in E.
    apply Ok_inj in E. rewrite <- E, list_fmap_insert. reflexivity.
  - pose proof (sim_unionRec zero fuel h p q Hh) as E.
    rewrite Hop, Hf in E. cbn [rmap fst snd] in E. congruence.
  - pose proof (sim_cloneRec fuel h p Hh) as E.
    rewrite Hop, Hf in E. cbn [rmap fst snd] in E. congruence.
Qed.

(** The entries a run has filed are the set bits paired with the slots. *)
Lemma filedRun_filedOf h g : filedRun zero h g -> heapOk h /\ g = filedOf <$> h.
Proof.
  induction 1 as [| h g h' g' _ [Hh Hg] Hs].
  - split; [| reflexivity]. constructor; [apply popcountOk_newNode | constructor].
  - split.
    + eapply step_heapOk; [exact Hh |]. eapply filedStep_step. eassumption.
    + eapply filedStep_filedOf; eassumption.
Qed.

(** Every run of node operations is a run on the entries. *)
Lemma reachable_filedRun h : reachable zero h -> filedRun zero h (filedOf <$> h).
Proof.
  induction 1 as [| h h' Hr IH Hs]; [apply filedRun_fresh |].
  pose proof (reachable_heapOk zero h Hr) as Hh.
  apply (filedRun_step zero h (filedOf <$> h)); [assumption |].
  destruct Hs as
    [ | l n octet prefixLen val n' Hl Hop
      | l n baseIdx val n' Hl Hop
      | l n octet prefixLen n' wasPresent Hl Hop
      | l n octet prefixLen cb n' val Hl Hop
      | l n octet child n' Hl Hop
      | l n octet n' Hl Hop
      | fuel p q h' Hop
      | fuel p h' c Hop ].
  - cbn [alloc fst]. rewrite fmap_app. apply filedStep_newNode.
  - rewrite list_fmap_insert.
    apply (filedStep_insertPrefix zero h _ l n (filedOf n) octet prefixLen val);
      [assumption | rewrite list_lookup_fmap, Hl; reflexivity | assumption |].
    rewrite <- sim_insertPrefix by (eapply heapOk_lookup; eassumption).
    rewrite Hop. reflexivity.
  - rewrite list_fmap_insert.
    pose proof (sim_insertIdx n baseIdx val (heapOk_lookup _ _ _ Hh Hl)) as E.
    rewrite Hop in E. cbn [rmap] in E. apply Ok_inj in E. rewrite E.
    apply (filedStep_insertIdx zero h _ l n (filedOf n) baseIdx val n');
      [assumption | rewrite list_lookup_fmap, Hl; reflexivity | assumption].
  - rewrite list_fmap_insert.
    apply (filedStep_deletePrefix zero h _ l n (filedOf n) octet prefixLen n' _ wasPresent);
      [assumption | rewrite list_lookup_fmap, Hl; reflexivity | assumption |].
    rewrite <- sim_deletePrefix by (eapply heapOk_lookup; eassumption).
    rewrite Hop. reflexivity.
  - rewrite list_fmap_insert.
    apply (filedStep_updatePrefix zero h _ l n (filedOf n) octet prefixLen cb n' _ val);
      [assumption | rewrite list_lookup_fmap, Hl; reflexivity | assumption |].
    rewrite <- sim_updatePrefix by (eapply heapOk_lookup; eassumption).
    rewrite Hop. reflexivity.
  - rewrite list_fmap_insert.
    pose proof (sim_insertChild n octet child (heapOk_lookup _ _ _ Hh Hl)) as E.
    rewrite Hop in E. cbn [rmap] in E. apply Ok_inj in E. rewrite E.
    apply (filedStep_insertChild zero h _ l n (filedOf n) octet child n');
      [assumption | rewrite list_lookup_fmap, Hl; reflexivity | assumption].
  - rewrite list_fmap_insert.
    pose proof (sim_deleteChild n octet (heapOk_lookup _ _ _ Hh Hl)) as E.
    rewrite Hop in E. cbn [rmap] in E. apply Ok_inj in E. rewrite E.
    apply (filedStep_deleteChild zero h _ l n (filedOf n) octet n');
      [assumption | rewrite list_lookup_fmap, Hl; reflexivity | assumption].
  - apply (filedStep_unionRec zero h _ fuel p q); [assumption |].
    rewrite (sim_unionRec zero) by assumption. rewrite Hop. reflexivity.
  - apply (filedStep_cloneRec zero h _ fuel p h' _ c); [assumption |].
    rewrite sim_cloneRec by assumption. rewrite Hop. reflexivity.
Qed.

(** C2 -- popcount correspondence.  Every node of a store reached from a
    fresh node by any sequence of [insertPrefix], [insertIdx],
    [deletePrefix], [updatePrefix], [insertChild], [deleteChild],
    [unionRec] and [cloneRec] (and of allocating further fresh nodes) has
    as many values as set prefix bits and as many children as set child
    bits, and slot [k] of either slice belongs to the [k]-th set bit of
    its bit set: the rank of that bit is [k], and the read guarded by the
    bit test returns the slot's content.  The content is what the run
    has filed: the same operations, run from a fresh node on the entries
    without compression ([filedRun]: an entry is filed, overwritten or
    removed under its base index or octet), leave for the node the
    list of routes and the list of children that pair, in ascending
    order, the [k]-th set bit with slot [k]; so slot [k] holds the value
    or child that the run filed last under the [k]-th set bit, and
    nothing is filed under a bit that is not set. *)
Theorem popcount_correspondence h l n :
  reachable zero h -> h !! l = Some n ->
  length (prefixes n) = Count (prefixesBitset n) /\
  length (children n) = Count (childrenBitset n) /\
  (forall k i, elems (prefixesBitset n) !! k = Some i ->
     exists val, prefixes n !! k = Some val /\
                 prefixRank n i = Z.of_nat k /\
                 getValByIndex zero n i = Ok (val, true)) /\
  (forall k octet, elems (childrenBitset n) !! k = Some octet ->
     exists child, children n !! k = Some child /\
                   childRank n octet = Z.of_nat k /\
                   getChild n octet = Ok child) /\
  (exists g, filedRun zero h g) /\
  (forall g, filedRun zero h g ->
     exists t, g !! l = Some t /\
       filedRoutes t = zip (elems (prefixesBitset n)) (prefixes n) /\
       filedKids t = zip (elems (childrenBitset n)) (children n)).
Proof.
  intros Hr Hl. destruct (heapOk_lookup h l n (reachable_heapOk zero h Hr) Hl) as [Hp Hc].
  split; [assumption |]. split; [assumption |]. split; [| split; [| split]].
  - intros k i Hk. apply elems_lookup in Hk as [Ht Hrk].
    destruct (getValByIndex_present zero n i Hp Ht) as (val & Hg & Hv).
    rewrite Hrk in Hv. replace (S k - 1)%nat with k in Hv by lia.
    exists val. split; [assumption |]. split; [| assumption].
    unfold prefixRank. lia.
  - intros k octet Hk. apply elems_lookup in Hk as [Ht Hrk].
    rewrite getChild_slot by assumption.
    destruct (slot_is_Some _ _ _ Hc Ht) as [child Hs]. rewrite Hs.
    exists child. unfold slot in Hs. rewrite Ht, Hrk in Hs.
    replace (S k - 1)%nat with k in Hs by lia.
    split; [assumption |]. split; [| reflexivity]. unfold childRank. lia.
  - exists (filedOf <$> h). apply reachable_filedRun. assumption.
  - intros g Hg. apply filedRun_filedOf in Hg as [_ ->].
    exists (filedOf n). split; [| split; reflexivity].
    rewrite list_lookup_fmap, Hl. reflexivity.
Qed.

End Runs.

Lemma sampleNode_reachable : reachable 0%nat [sampleNode].
Proof.
  assert (H1 : reachable 0%nat [filedNode1]).
  { change (reachable 0%nat (<[0%nat := filedNode1]> [newNode])).
    apply (reachable_step 0%nat [newNode] _ (reachable_fresh 0%nat)).
    apply (step_insertPrefix 0%nat [newNode] 0%nat newNode 44 8 30%nat filedNode1);
      reflexivity. }
  assert (H2 : reachable 0%nat [filedNode2]).
  { change (reachable 0%nat (<[0%nat := filedNode2]> [filedNode1])).
    apply (reachable_step 0%nat [filedNode1] _ H1).
    apply (step_insertPrefix 0%nat [filedNode1] 0%nat filedNode1 32 6 20%nat filedNode2);
      reflexivity. }
  assert (H3 : reachable 0%nat [filedNode3]).
  { change (reachable 0%nat (<[0%nat := filedNode3]> [filedNode2])).
    apply (reachable_step 0%nat [filedNode2] _ H2).
    apply (step_insertPrefix 0%nat [filedNode2] 0%nat filedNode2 0 0 10%nat filedNode3);
      reflexivity. }
  change (reachable 0%nat (<[0%nat := sampleNode]> [filedNode3])).
  apply (reachable_step 0%nat [filedNode3] _ H3).
  apply (step_insertChild 0%nat [filedNode3] 0%nat filedNode3 10 (Some 1%nat) sampleNode);
    reflexivity.
Qed.

(** The run of [sampleNode_reachable] on the entries: 44/8, 32/6 and 0/0
    are filed in this order, and each goes to the front. *)
Lemma sampleNode_filedRun :
  filedRun 0%nat [sampleNode]
    [mkFiled [(1, 10%nat); (72, 20%nat); (300, 30%nat)] [(10, Some 1%nat)]].
Proof.
  assert (H1 : filedRun 0%nat [filedNode1] [mkFiled [(300, 30%nat)] []]).
  { apply (filedRun_step 0%nat [newNode] [filed.newNode] _ _ (filedRun_fresh 0%nat)).
    apply (filedStep_insertPrefix 0%nat [newNode] [filed.newNode] 0%nat newNode
             filed.newNode 44 8 30%nat filedNode1 (mkFiled [(300, 30%nat)] []));
      reflexivity. }
  assert (H2 : filedRun 0%nat [filedNode2] [mkFiled [(72, 20%nat); (300, 30%nat)] []]).
  { apply (filedRun_step 0%nat _ _ _ _ H1).
    apply (filedStep_insertPrefix 0%nat [filedNode1] [mkFiled [(300, 30%nat)] []] 0%nat
             filedNode1 (mkFiled [(300, 30%nat)] []) 32 6 20%nat filedNode2
             (mkFiled [(72, 20%nat); (300, 30%nat)] []));
      reflexivity. }
  assert (H3 : filedRun 0%nat [filedNode3]
                 [mkFiled [(1, 10%nat); (72, 20%nat); (300, 30%nat)] []]).
  { apply (filedRun_step 0%nat _ _ _ _ H2).
    apply (filedStep_insertPrefix 0%nat [filedNode2]
             [mkFiled [(72, 20%nat); (300, 30%nat)] []] 0%nat
             filedNode2 (mkFiled [(72, 20%nat); (300, 30%nat)] []) 0 0 10%nat filedNode3
             (mkFiled [(1, 10%nat); (72, 20%nat); (300, 30%nat)] []));
      reflexivity. }
  apply (filedRun_step 0%nat _ _ _ _ H3).
  apply (filedStep_insertChild 0%nat [filedNode3]
           [mkFiled [(1, 10%nat); (72, 20%nat); (300, 30%nat)] []] 0%nat
           filedNode3 (mkFiled [(1, 10%nat); (72, 20%nat); (300, 30%nat)] [])
           10 (Some 1%nat) sampleNode);
    reflexivity.
Qed.

Lemma popcount_correspondence_witness :
  length (prefixes sampleNode) = Count (prefixesBitset sampleNode) /\
  length (children sampleNode) = Count (childrenBitset sampleNode) /\
  (forall k i, elems (prefixesBitset sampleNode) !! k = Some i ->
     exists val, prefixes sampleNode !! k = Some val /\
                 prefixRank sampleNode i = Z.of_nat k /\
                 getValByIndex 0%nat sampleNode i = Ok (val, true)) /\
  (forall k octet, elems (childrenBitset sampleNode) !! k = Some octet ->
     exists child, children sampleNode !! k = Some child /\
                   childRank sampleNode octet = Z.of_nat k /\
                   getChild sampleNode octet = Ok child) /\
  (exists g, filedRun 0%nat [sampleNode] g) /\
  (forall g, filedRun 0%nat [sampleNode] g ->
     exists t, g !! 0%nat = Some t /\
       filedRoutes t = zip (elems (prefixesBitset sampleNode)) (prefixes sampleNode) /\
       filedKids t = zip (elems (childrenBitset sampleNode)) (children sampleNode)).
Proof.
  apply (popcount_correspondence 0%nat [sampleNode] 0%nat sampleNode);
    [exact sampleNode_reachable | reflexivity].
Defined.
